(** * GraphAligner: bit-parallel sequence-to-graph alignment core

    A shallow embedding of [GraphAligner.h].  Machine words ([uint64_t]) are
    integers in [0, 2^64) with the wrap-around of every arithmetic operation
    written out; scores ([ScoreType], a signed integer type) are mathematical
    integers. *)

From Stdlib Require Import ZArith Lia List Bool Ascii String QArith Qreduction
  Qpower Permutation.
Import ListNotations.

Local Open Scope Z_scope.

(** ** Machine words *)

Module Word64.

Definition modulus : Z := 2 ^ 64.

Definition wrap (x : Z) : Z := x mod modulus.

Definition add (a b : Z) : Z := wrap (a + b).
Definition sub (a b : Z) : Z := wrap (a - b).
Definition mul (a b : Z) : Z := wrap (a * b).
Definition shl (a n : Z) : Z := wrap (Z.shiftl a n).
Definition shr (a n : Z) : Z := Z.shiftr a n.
Definition not (a : Z) : Z := wrap (Z.lnot a).

(** C truth value of a word used as a condition. *)
Definition nonzero (a : Z) : bool := negb (a =? 0).

Definition is_word (a : Z) : Prop := 0 <= a < modulus.

End Word64.

Import Word64.

(** ** [WordConfiguration<uint64_t>] *)

Module WordConfiguration.

Definition WordSize : Z := 64.
Definition ChunkBits : Z := 8.
Definition AllZeros : Z := 0x0000000000000000.
Definition AllOnes : Z := 0xFFFFFFFFFFFFFFFF.
Definition SignMask : Z := 0x8080808080808080.
Definition PrefixSumMultiplierConstant : Z := 0x0101010101010101.
Definition LSBMask : Z := 0x0101010101010101.

Definition ChunkPopcounts (value : Z) : Z :=
  let x := value in
  let x := sub x (Z.land (shr x 1) 0x5555555555555555) in
  let x := add (Z.land x 0x3333333333333333)
               (Z.land (shr x 2) 0x3333333333333333) in
  let x := Z.land (add x (shr x 4)) 0x0f0f0f0f0f0f0f0f in
  x.

Definition popcount (x : Z) : Z :=
  let x := sub x (Z.land (shr x 1) 0x5555555555555555) in
  let x := add (Z.land x 0x3333333333333333)
               (Z.land (shr x 2) 0x3333333333333333) in
  let x := Z.land (add x (shr x 4)) 0x0f0f0f0f0f0f0f0f in
  shr (mul x 0x0101010101010101) 56.

End WordConfiguration.

Import WordConfiguration.

(** ** Byte-lane helpers of the slice merge *)

Definition bytePrefixSums (value addition : Z) : Z :=
  let value := shl value ChunkBits in
  let value := add value addition in
  mul value PrefixSumMultiplierConstant.

Definition byteVPVNSum (prefixSumVP prefixSumVN : Z) : Z :=
  let result := SignMask in
  let result := add result prefixSumVP in
  let result := sub result prefixSumVN in
  Z.lxor result SignMask.

(** The scalar cross-check of [differenceMasks]: the two columns are walked
    row by row, the left one starting at score 0 and the right one at
    [scoreDifference]. *)

Record CellByCellState := mkCBC {
  cbc_leftscore : Z;
  cbc_rightscore : Z;
  cbc_leftVP : Z;
  cbc_leftVN : Z;
  cbc_rightVP : Z;
  cbc_rightVN : Z;
  cbc_leftSmaller : Z;
  cbc_rightSmaller : Z
}.

Definition cellByCellStep (i : Z) (s : CellByCellState) : CellByCellState :=
  let leftscore := cbc_leftscore s + Z.land (cbc_leftVP s) 1 in
  let leftscore := leftscore - Z.land (cbc_leftVN s) 1 in
  let rightscore := cbc_rightscore s + Z.land (cbc_rightVP s) 1 in
  let rightscore := rightscore - Z.land (cbc_rightVN s) 1 in
  let leftVP := shr (cbc_leftVP s) 1 in
  let leftVN := shr (cbc_leftVN s) 1 in
  let rightVP := shr (cbc_rightVP s) 1 in
  let rightVN := shr (cbc_rightVN s) 1 in
  let leftSmaller :=
    if leftscore <? rightscore
    then Z.lor (cbc_leftSmaller s) (shl 1 i) else cbc_leftSmaller s in
  let rightSmaller :=
    if rightscore <? leftscore
    then Z.lor (cbc_rightSmaller s) (shl 1 i) else cbc_rightSmaller s in
  mkCBC leftscore rightscore leftVP leftVN rightVP rightVN
        leftSmaller rightSmaller.

(** [for (int i = start; i < start + n; i++) body]. *)
Fixpoint forLoop {S : Type} (n : nat) (start : Z) (body : Z -> S -> S)
  (s : S) : S :=
  match n with
  | O => s
  | Datatypes.S n' => forLoop n' (start + 1) body (body start s)
  end.

Definition differenceMasksCellByCell
  (leftVP leftVN rightVP rightVN scoreDifference : Z) : Z * Z :=
  let s := forLoop 64 0 cellByCellStep
             (mkCBC 0 scoreDifference leftVP leftVN rightVP rightVN 0 0) in
  (cbc_leftSmaller s, cbc_rightSmaller s).

(** State of the eight-pass loop of [differenceMasks]. *)
Record DiffState := mkDiff {
  ds_difference : Z;
  ds_leftVP : Z;
  ds_leftVN : Z;
  ds_rightVP : Z;
  ds_rightVN : Z;
  ds_resultLeftSmallerThanRight : Z;
  ds_resultRightSmallerThanLeft : Z
}.

Definition differenceStep (bit : Z) (s : DiffState) : DiffState :=
  let signmask := SignMask in
  let lsbmask := LSBMask in
  let difference := ds_difference s in
  let leftVP := ds_leftVP s in
  let leftVN := ds_leftVN s in
  let rightVP := ds_rightVP s in
  let rightVN := ds_rightVN s in
  let signsBefore := Z.land difference signmask in
  let difference := Z.land difference (not signmask) in
  let difference := add difference (Z.land leftVP lsbmask) in
  let difference := add difference (Z.land rightVN lsbmask) in
  let difference := Z.lxor difference signsBefore in
  let signsBefore := Z.land difference signmask in
  let difference := Z.lor difference signmask in
  let difference := sub difference (Z.land leftVN lsbmask) in
  let difference := sub difference (Z.land rightVP lsbmask) in
  let signsBefore := Z.lxor signsBefore (Z.land signmask (not difference)) in
  let difference := Z.land difference (not signmask) in
  let difference := Z.lor difference signsBefore in
  let leftVN := shr leftVN 1 in
  let leftVP := shr leftVP 1 in
  let rightVN := shr rightVN 1 in
  let rightVP := shr rightVP 1 in
  let negative := Z.land difference signmask in
  let resL := Z.lor (ds_resultLeftSmallerThanRight s)
                    (shr negative (ChunkBits - 1 - bit)) in
  let notEqualToZero :=
    Z.land (sub (Z.lor difference signmask) lsbmask) signmask in
  let resR := Z.lor (ds_resultRightSmallerThanLeft s)
                    (shr (Z.land notEqualToZero (not negative))
                         (ChunkBits - 1 - bit)) in
  mkDiff difference leftVP leftVN rightVP rightVN resL resR.

(** The prefix-sum difference (left minus right) at the start of each chunk. *)
Definition chunkDifference (byteVPVNSumLeft byteVPVNSumRight : Z) : Z :=
  let signmask := SignMask in
  let lsbmask := LSBMask in
  let chunksize := ChunkBits in
  let difference := byteVPVNSumLeft in
  let smearmask :=
    mul (shr (Z.land byteVPVNSumRight signmask) (chunksize - 1))
        (sub (shl 1 (chunksize - 1)) 1) in
  let deductions :=
    Z.land (Z.land (not smearmask) byteVPVNSumRight) (not signmask) in
  let additions :=
    add (Z.land smearmask (not byteVPVNSumRight)) (Z.land smearmask lsbmask) in
  let signsBefore := Z.land difference signmask in
  let difference := Z.land difference (not signmask) in
  let difference := add difference additions in
  let difference := Z.lxor difference signsBefore in
  let signsBefore := Z.land difference signmask in
  let difference := Z.lor difference signmask in
  let difference := sub difference deductions in
  let signsBefore := Z.lxor signsBefore (Z.land signmask (not difference)) in
  let difference := Z.land difference (not signmask) in
  let difference := Z.lor difference signsBefore in
  difference.

(** The masks of the rows where the left column is strictly below, and
    strictly above, the right column.  The assertions of the source
    ([scoreDifference >= 0] on entry, [scoreDifference < 128] after the
    shortcuts) do not change the result and are left to the theorems. *)
Definition differenceMasks
  (leftVP leftVN rightVP rightVN scoreDifference : Z) : Z * Z :=
  let allones := AllOnes in
  let allzeros := AllZeros in
  let VPcommon := not (Z.land leftVP rightVP) in
  let VNcommon := not (Z.land leftVN rightVN) in
  let leftVP := Z.land leftVP VPcommon in
  let leftVN := Z.land leftVN VNcommon in
  let rightVP := Z.land rightVP VPcommon in
  let rightVN := Z.land rightVN VNcommon in
  if scoreDifference >? popcount rightVN + popcount leftVP
  then (allones, allzeros)
  else if (scoreDifference =? 128) && (rightVN =? allones)
          && (leftVP =? allones)
  then (Z.lxor allones (shl 1 (WordSize - 1)), allzeros)
  else if (scoreDifference =? 0) && (rightVN =? allones)
          && (leftVP =? allones)
  then (0, allones)
  else
    let byteVPVNSumLeft :=
      byteVPVNSum (bytePrefixSums (ChunkPopcounts leftVP) 0)
                  (bytePrefixSums (ChunkPopcounts leftVN) 0) in
    let byteVPVNSumRight :=
      byteVPVNSum (bytePrefixSums (ChunkPopcounts rightVP) scoreDifference)
                  (bytePrefixSums (ChunkPopcounts rightVN) 0) in
    let difference := chunkDifference byteVPVNSumLeft byteVPVNSumRight in
    let s := forLoop 8 0 differenceStep
               (mkDiff difference leftVP leftVN rightVP rightVN 0 0) in
    (ds_resultLeftSmallerThanRight s, ds_resultRightSmallerThanLeft s).

(** ** [WordSlice] *)

Record WordSlice := mkWordSlice {
  VP : Z;
  VN : Z;
  scoreEnd : Z;
  scoreBeforeStart : Z
}.

Definition getSourceSliceWithoutBefore (row : Z) : WordSlice :=
  mkWordSlice AllOnes AllZeros (row + WordSize) row.

Definition getSourceSliceFromScore (previousScore : Z) : WordSlice :=
  mkWordSlice AllOnes AllZeros (previousScore + WordSize) previousScore.

Definition mergeTwoSlices (left0 right0 : WordSlice) : WordSlice :=
  let swapped := scoreBeforeStart left0 >? scoreBeforeStart right0 in
  let left := if swapped then right0 else left0 in
  let right := if swapped then left0 else right0 in
  let masks :=
    differenceMasks (VP left) (VN left) (VP right) (VN right)
      (scoreBeforeStart right - scoreBeforeStart left) in
  let leftSmaller := fst masks in
  let rightSmaller := snd masks in
  let mask :=
    Z.land (Z.lor rightSmaller
              (sub (Z.lor leftSmaller rightSmaller) (shl rightSmaller 1)))
           (not leftSmaller) in
  let leftReduction := Z.land leftSmaller (shl rightSmaller 1) in
  let rightReduction := Z.land rightSmaller (shl leftSmaller 1) in
  let rightReduction :=
    if nonzero (Z.land rightSmaller 1)
       && (scoreBeforeStart left <? scoreBeforeStart right)
    then Z.lor rightReduction 1 else rightReduction in
  let leftVN := Z.land (VN left) (not leftReduction) in
  let rightVN := Z.land (VN right) (not rightReduction) in
  let resultVN :=
    Z.lor (Z.land leftVN (not mask)) (Z.land rightVN mask) in
  let resultVP :=
    Z.lor (Z.land (VP left) (not mask)) (Z.land (VP right) mask) in
  mkWordSlice resultVP resultVN
    (Z.min (scoreEnd left) (scoreEnd right))
    (Z.min (scoreBeforeStart left) (scoreBeforeStart right)).

Definition lastBitMask : Z := shl 1 (WordSize - 1).

(** The new [scoreBeforeStart] of [getNextSlice] (the first statement block
    of the function). *)
Definition nextScoreBeforeStart (slice : WordSlice)
  (previousInsideBand previousEq : bool) (previous : WordSlice) : Z :=
  if negb previousInsideBand
  then scoreBeforeStart slice + 1
  else
    Z.min (scoreBeforeStart slice + 1)
          (scoreEnd previous
           - (if nonzero (Z.land (VP previous) lastBitMask) then 1 else 0)
           + (if nonzero (Z.land (VN previous) lastBitMask) then 1 else 0)
           + (if previousEq then 0 else 1)).

Definition getNextSlice (Eq : Z) (slice : WordSlice)
  (previousInsideBand previousEq : bool) (previous : WordSlice) : WordSlice :=
  let oldValue := scoreBeforeStart slice in
  let newBeforeStart :=
    nextScoreBeforeStart slice previousInsideBand previousEq previous in
  let hin := newBeforeStart - oldValue in
  let Xv := Z.lor Eq (VN slice) in
  let Eq := if hin <? 0 then Z.lor Eq 1 else Eq in
  let Xh :=
    Z.lor (Z.lxor (add (Z.land Eq (VP slice)) (VP slice)) (VP slice)) Eq in
  let Ph := Z.lor (VN slice) (not (Z.lor Xh (VP slice))) in
  let Mh := Z.land (VP slice) Xh in
  let newScoreEnd :=
    if nonzero (Z.land Ph lastBitMask) then scoreEnd slice + 1
    else if nonzero (Z.land Mh lastBitMask) then scoreEnd slice - 1
    else scoreEnd slice in
  let Ph := shl Ph 1 in
  let Mh := shl Mh 1 in
  let Mh := if hin <? 0 then Z.lor Mh 1 else Mh in
  let Ph := if hin <? 0 then Ph else if hin >? 0 then Z.lor Ph 1 else Ph in
  mkWordSlice (Z.lor Mh (not (Z.lor Xv Ph))) (Z.land Ph Xv)
              newScoreEnd newBeforeStart.

(** Band membership bitmaps ([std::vector<bool>] indexed by node). *)
Definition Band := list bool.

Definition inBand (band : Band) (node : nat) : bool := nth node band false.

Definition firstZeroForced (previousBand currentBand : Band)
  (neighborNodeIndex : nat) (neighborSlice : WordSlice) (currentEq : Z)
  : bool :=
  if inBand previousBand neighborNodeIndex
     && inBand currentBand neighborNodeIndex
  then
    if nonzero (Z.land (VN neighborSlice) 1) then true
    else if negb (nonzero (Z.land (VP neighborSlice) 1))
            && negb (nonzero (Z.land (VN neighborSlice) 1))
            && negb (nonzero (Z.land currentEq 1))
    then true
    else false
  else if inBand previousBand neighborNodeIndex
          && negb (inBand currentBand neighborNodeIndex)
  then false
  else true.

(** ** The alignment graph

    [AlignmentGraph.h] is an external collaborator; the record lists the
    fields that [GraphAligner.h] reads.  A vector access outside its bounds is
    undefined behaviour in the source and [None] here. *)

Record AlignmentGraph := mkAlignmentGraph {
  nodeStart : list nat;
  nodeEnd : list nat;
  indexToNode : list nat;
  inNeighbors : list (list nat);
  outNeighbors : list (list nat);
  nodeSequences : list ascii;
  nodeIDs : list Z;
  reverse : list bool;
  firstInOrder : nat;
  dummyNodeStart : nat;
  dummyNodeEnd : nat
}.

Definition MatrixPosition : Type := nat * nat.

(** A small error monad for the accesses that are undefined out of range. *)
Definition bindOpt {A B : Type} (x : option A) (f : A -> option B)
  : option B :=
  match x with
  | Some a => f a
  | None => None
  end.

Notation "x <- c ;; k" := (bindOpt c (fun x => k))
  (at level 61, c at next level, right associativity).

(** ** Backtrace *)

Record ExpandoCell := mkExpandoCell {
  position : MatrixPosition;
  backtraceIndex : nat
}.

(** [SparseBoolMatrix]: the set of visited cells. *)
Definition VisitedCells := list MatrixPosition.

Definition visitedGet (cells : VisitedCells) (w j : nat) : bool :=
  existsb (fun c => Nat.eqb (fst c) w && Nat.eqb (snd c) j) cells.

Definition visitedSet (cells : VisitedCells) (w j : nat) : VisitedCells :=
  (w, j) :: cells.

(** The queues are vectors used as stacks: [emplace_back] pushes at the head
    of the list and [back]/[pop_back] take the head. *)
Record BacktraceState := mkBacktraceState {
  bt_currentDistance : Z;
  bt_visitedExpandos : list ExpandoCell;
  bt_currentDistanceQueue : list ExpandoCell;
  bt_currentDistancePlusOneQueue : list ExpandoCell;
  bt_visitedCells : VisitedCells
}.

Definition charMatches (sequence : list ascii) (g : AlignmentGraph)
  (w j : nat) : option bool :=
  c <- nth_error sequence (j - 1)%nat ;;
  gc <- nth_error (nodeSequences g) w ;;
  Some (Ascii.eqb c "N" || Ascii.eqb gc c).

(** The pushes made for one predecessor character [u] of the cell [(w, j)]. *)
Definition pushPredecessor (isMatch : bool) (u j bt : nat)
  (queues : list ExpandoCell * list ExpandoCell)
  : list ExpandoCell * list ExpandoCell :=
  let '(cur, plusOne) := queues in
  let plusOne := mkExpandoCell (u, j) bt :: plusOne in
  if isMatch
  then (mkExpandoCell (u, j - 1)%nat bt :: cur, plusOne)
  else (cur, mkExpandoCell (u, j - 1)%nat bt :: plusOne).

Fixpoint pushInNeighbors (g : AlignmentGraph) (isMatch : bool)
  (neighbors : list nat) (j bt : nat)
  (queues : list ExpandoCell * list ExpandoCell)
  : option (list ExpandoCell * list ExpandoCell) :=
  match neighbors with
  | [] => Some queues
  | neighbor :: rest =>
      e <- nth_error (nodeEnd g) neighbor ;;
      pushInNeighbors g isMatch rest j bt
        (pushPredecessor isMatch (e - 1)%nat j bt queues)
  end.

Inductive LoopResult (S : Type) :=
| Continue (s : S)
| Break (s : S).
Arguments Continue {S} s.
Arguments Break {S} s.

(** The part of an iteration of the [while (true)] loop of [backtraceInner]
    that follows [pop_back]: [current] has been taken from the queue. *)
Definition backtraceExpand (g : AlignmentGraph) (sequence : list ascii)
  (minScorePerWordSlice : list Z) (scoreAtEnd : Z) (currentDistance : Z)
  (visitedExpandos : list ExpandoCell) (visitedCells : VisitedCells)
  (current : ExpandoCell) (cdq plusOne : list ExpandoCell)
  : option (LoopResult BacktraceState) :=
  let w := fst (position current) in
  let j := snd (position current) in
  if Nat.eqb j 0
  then Some (Break (mkBacktraceState currentDistance
                      (visitedExpandos ++ [current])
                      cdq plusOne visitedCells))
  else
    let sliceIndex := Nat.div (j - 1) 64%nat in
    m <- nth_error minScorePerWordSlice sliceIndex ;;
    let maxDistanceHere := scoreAtEnd - m in
    if currentDistance >? maxDistanceHere
    then Some (Continue (mkBacktraceState currentDistance
                           visitedExpandos cdq plusOne visitedCells))
    else if visitedGet visitedCells w j
    then Some (Continue (mkBacktraceState currentDistance
                           visitedExpandos cdq plusOne visitedCells))
    else
      let visitedCells := visitedSet visitedCells w j in
      let visitedExpandos := visitedExpandos ++ [current] in
      nodeIndex <- nth_error (indexToNode g) w ;;
      let backtraceIndexToCurrent :=
        (List.length visitedExpandos - 1)%nat in
      let plusOne :=
        mkExpandoCell (w, j - 1)%nat backtraceIndexToCurrent :: plusOne in
      start <- nth_error (nodeStart g) nodeIndex ;;
      if Nat.eqb w start
      then
        neighbors <- nth_error (inNeighbors g) nodeIndex ;;
        match neighbors with
        | [] =>
            Some (Continue (mkBacktraceState currentDistance
                              visitedExpandos cdq plusOne visitedCells))
        | _ =>
            isMatch <- charMatches sequence g w j ;;
            queues <- pushInNeighbors g isMatch neighbors j
                        backtraceIndexToCurrent (cdq, plusOne) ;;
            Some (Continue (mkBacktraceState currentDistance
                              visitedExpandos (fst queues) (snd queues)
                              visitedCells))
        end
      else
        isMatch <- charMatches sequence g w j ;;
        let queues :=
          pushPredecessor isMatch (w - 1)%nat j backtraceIndexToCurrent
            (cdq, plusOne) in
        Some (Continue (mkBacktraceState currentDistance
                          visitedExpandos (fst queues) (snd queues)
                          visitedCells)).

(** One iteration of the loop: when the queue of the current distance is
    empty the two queues are swapped and the distance grows by one; [back] of
    an empty queue is undefined. *)
Definition backtraceIteration (g : AlignmentGraph) (sequence : list ascii)
  (minScorePerWordSlice : list Z) (scoreAtEnd : Z) (s : BacktraceState)
  : option (LoopResult BacktraceState) :=
  let '(currentDistance, cdq, plusOne) :=
    match bt_currentDistanceQueue s with
    | [] => (bt_currentDistance s + 1,
             bt_currentDistancePlusOneQueue s, [])
    | _ => (bt_currentDistance s, bt_currentDistanceQueue s,
            bt_currentDistancePlusOneQueue s)
    end in
  match cdq with
  | [] => None
  | current :: cdq =>
      backtraceExpand g sequence minScorePerWordSlice scoreAtEnd
        currentDistance (bt_visitedExpandos s) (bt_visitedCells s)
        current cdq plusOne
  end.

Fixpoint backtraceLoop (fuel : nat) (g : AlignmentGraph)
  (sequence : list ascii) (minScorePerWordSlice : list Z) (scoreAtEnd : Z)
  (s : BacktraceState) : option BacktraceState :=
  match fuel with
  | O => None
  | S fuel' =>
      r <- backtraceIteration g sequence minScorePerWordSlice scoreAtEnd s ;;
      match r with
      | Break s' => Some s'
      | Continue s' =>
          backtraceLoop fuel' g sequence minScorePerWordSlice scoreAtEnd s'
      end
  end.

(** The walk over the back pointers ([while (index > 0)]). *)
Fixpoint walkBackpointers (fuel : nat) (visitedExpandos : list ExpandoCell)
  (index : nat) (result : list MatrixPosition)
  : option (list MatrixPosition) :=
  match index with
  | O => Some result
  | _ =>
      match fuel with
      | O => None
      | S fuel' =>
          cell <- nth_error visitedExpandos index ;;
          walkBackpointers fuel' visitedExpandos (backtraceIndex cell)
            (result ++ [position cell])
      end
  end.

Definition backtraceInner (fuel : nat) (g : AlignmentGraph)
  (endPosition : MatrixPosition) (sequence : list ascii)
  (minScorePerWordSlice : list Z) : option (Z * list MatrixPosition) :=
  scoreAtEnd <- nth_error minScorePerWordSlice
                  (List.length minScorePerWordSlice - 1)%nat ;;
  s <- backtraceLoop fuel g sequence minScorePerWordSlice scoreAtEnd
         (mkBacktraceState 0 []
            [mkExpandoCell endPosition 0] [] []) ;;
  let index := (List.length (bt_visitedExpandos s) - 1)%nat in
  result <- walkBackpointers fuel (bt_visitedExpandos s) index [] ;;
  Some (bt_currentDistance s, result).

(** [backtrace] adds only an assertion. *)
Definition backtrace (fuel : nat) (g : AlignmentGraph)
  (endPosition : MatrixPosition) (sequence : list ascii)
  (minScorePerWordSlice : list Z) : option (Z * list MatrixPosition) :=
  backtraceInner fuel g endPosition sequence minScorePerWordSlice.

(** ** Node column calculator *)

(** [NodeSlice<WordSlice>]: the slices of the nodes of one column, by node
    index.  [addNode] makes a vector of default-constructed slices. *)
Definition NodeSlice := nat -> option (list WordSlice).

Definition emptyNodeSlice : NodeSlice := fun _ => None.

Definition defaultWordSlice : WordSlice := mkWordSlice AllZeros AllZeros 0 0.

Definition addNode (slices : NodeSlice) (node size : nat) : NodeSlice :=
  fun n => if Nat.eqb n node then Some (repeat defaultWordSlice size)
           else slices n.

Definition setNode (slices : NodeSlice) (node : nat) (v : list WordSlice)
  : NodeSlice :=
  fun n => if Nat.eqb n node then Some v else slices n.

(** [vec[index] = value]; nothing is modelled for a write out of range. *)
Fixpoint setNth {A : Type} (l : list A) (index : nat) (value : A) : list A :=
  match l, index with
  | [], _ => []
  | _ :: rest, O => value :: rest
  | x :: rest, S index' => x :: setNth rest index' value
  end.

Definition back {A : Type} (l : list A) : option A :=
  nth_error l (List.length l - 1)%nat.

Record NodeCalculationResult := mkNodeCalculationResult {
  minScore : Z;
  minScoreIndex : nat;
  cellsProcessed : nat
}.

Section NodeCalculator.

(** [std::numeric_limits<ScoreType>::max()]. *)
Variable ScoreMax : Z.

Variable graph : AlignmentGraph.

Definition getSourceSlice (nodeIndex : nat) (previousSlice : NodeSlice)
  : option WordSlice :=
  v <- previousSlice nodeIndex ;;
  s <- nth_error v 0 ;;
  Some (getSourceSliceFromScore (scoreEnd s)).

Fixpoint isSourceLoop (neighbors : list nat)
  (currentBand previousBand : Band) : bool :=
  match neighbors with
  | [] => true
  | neighbor :: rest =>
      if inBand currentBand neighbor then false
      else if inBand previousBand neighbor then false
      else isSourceLoop rest currentBand previousBand
  end.

Definition isSource (nodeIndex : nat) (currentBand previousBand : Band)
  : option bool :=
  neighbors <- nth_error (inNeighbors graph) nodeIndex ;;
  Some (isSourceLoop neighbors currentBand previousBand).

Definition getEq (BA BT BC BG : Z) (w : nat) : option Z :=
  c <- nth_error (nodeSequences graph) w ;;
  Some (if Ascii.eqb c "A" then BA
        else if Ascii.eqb c "T" then BT
        else if Ascii.eqb c "C" then BC
        else if Ascii.eqb c "G" then BG
        else 0).

(** Loop state of [getNodeStartSlice]. *)
Record StartSliceState := mkStartSliceState {
  ss_previous : WordSlice;
  ss_previousUp : WordSlice;
  ss_foundOne : bool;
  ss_foundOneUp : bool
}.

Definition mergeInto (found : bool) (acc competitor : WordSlice)
  : WordSlice :=
  if found then mergeTwoSlices acc competitor else competitor.

Definition nodeStartNeighbor (previousSlice currentSlice : NodeSlice)
  (currentBand previousBand : Band) (neighbor : nat) (s : StartSliceState)
  : option StartSliceState :=
  s1 <- (if inBand previousBand neighbor
         then
           v <- previousSlice neighbor ;;
           b <- back v ;;
           Some (mkStartSliceState (ss_previous s)
                   (mergeInto (ss_foundOneUp s) (ss_previousUp s) b)
                   (ss_foundOne s) true)
         else Some s) ;;
  s2 <- (if inBand previousBand neighbor
            && negb (inBand currentBand neighbor)
         then
           v <- previousSlice neighbor ;;
           b <- back v ;;
           Some (mkStartSliceState
                   (mergeInto (ss_foundOne s1) (ss_previous s1)
                      (getSourceSliceFromScore (scoreEnd b)))
                   (ss_previousUp s1) true (ss_foundOneUp s1))
         else Some s1) ;;
  if negb (inBand currentBand neighbor) then Some s2
  else
    v <- currentSlice neighbor ;;
    b <- back v ;;
    Some (mkStartSliceState
            (mergeInto (ss_foundOne s2) (ss_previous s2) b)
            (ss_previousUp s2) true (ss_foundOneUp s2)).

Fixpoint nodeStartLoop (previousSlice currentSlice : NodeSlice)
  (currentBand previousBand : Band) (neighbors : list nat)
  (s : StartSliceState) : option StartSliceState :=
  match neighbors with
  | [] => Some s
  | neighbor :: rest =>
      s' <- nodeStartNeighbor previousSlice currentSlice currentBand
              previousBand neighbor s ;;
      nodeStartLoop previousSlice currentSlice currentBand previousBand
        rest s'
  end.

Definition getNodeStartSlice (Eq : Z) (nodeIndex : nat)
  (previousSlice currentSlice : NodeSlice)
  (currentBand previousBand : Band) (previousEq : bool)
  : option WordSlice :=
  neighbors <- nth_error (inNeighbors graph) nodeIndex ;;
  s <- nodeStartLoop previousSlice currentSlice currentBand previousBand
         neighbors
         (mkStartSliceState defaultWordSlice defaultWordSlice false false) ;;
  Some (getNextSlice Eq (ss_previous s) (ss_foundOneUp s) previousEq
          (ss_previousUp s)).

(** The two clamps applied to a freshly computed cell: by the source slice
    of the cell above it in the previous column ([oldScoreEnd] is read only
    when the node is in the previous band), and by the all-insert source
    slice of row [j]. *)
Definition clampSlice (inPreviousBand : bool) (oldScoreEnd : Z) (j : nat)
  (s : WordSlice) : WordSlice :=
  let s :=
    if inPreviousBand && (scoreBeforeStart s >? oldScoreEnd)
    then mergeTwoSlices (getSourceSliceFromScore oldScoreEnd) s
    else s in
  if scoreBeforeStart s >? Z.of_nat j
  then mergeTwoSlices (getSourceSliceWithoutBefore (Z.of_nat j)) s
  else s.

(** [j == 0 || graph.nodeSequences[pos] == sequence[j-1]]. *)
Definition previousRowMatches (sequence : list ascii) (j pos : nat)
  : option bool :=
  if Nat.eqb j 0 then Some true
  else
    gc <- nth_error (nodeSequences graph) pos ;;
    c <- nth_error sequence (j - 1)%nat ;;
    Some (Ascii.eqb gc c).

(** The slice vector that [oldSlice] refers to: the node's vector in the
    previous column, or the vector being written when the node was not in
    the previous band. *)
Definition oldSliceOf (previousSlice : NodeSlice) (previousBand : Band)
  (i : nat) (slice : list WordSlice) : option (list WordSlice) :=
  if inBand previousBand i then previousSlice i else Some slice.

(** Body of the per-character loop of [calculateNode] for [w >= 1]: the
    slice stored at [slice[w]].  [forceFirstHorizontalPositive] is computed
    by the source and not used afterwards. *)
Definition calculateCell (i j : nat) (sequence : list ascii)
  (BA BT BC BG : Z) (previousSlice : NodeSlice)
  (currentBand previousBand : Band) (slice : list WordSlice) (w : nat)
  : option WordSlice :=
  nodeStartPos <- nth_error (nodeStart graph) i ;;
  Eq <- getEq BA BT BC BG (nodeStartPos + w)%nat ;;
  left <- nth_error slice (w - 1)%nat ;;
  let forceFirstHorizontalPositive :=
    firstZeroForced previousBand currentBand i left Eq in
  previousEq <- previousRowMatches sequence j (nodeStartPos + w)%nat ;;
  oldSlice <- oldSliceOf previousSlice previousBand i slice ;;
  oldLeft <- nth_error oldSlice (w - 1)%nat ;;
  let next := getNextSlice Eq left (inBand previousBand i) previousEq
                oldLeft in
  oldScoreEnd <- (if inBand previousBand i
                  then o <- nth_error oldSlice w ;; Some (scoreEnd o)
                  else Some 0) ;;
  Some (clampSlice (inBand previousBand i) oldScoreEnd j next).

Fixpoint calculateCells (count : nat) (i j : nat) (sequence : list ascii)
  (BA BT BC BG : Z) (previousSlice : NodeSlice)
  (currentBand previousBand : Band) (w : nat)
  (acc : list WordSlice * NodeCalculationResult)
  : option (list WordSlice * NodeCalculationResult) :=
  match count with
  | O => Some acc
  | S count' =>
      let '(slice, result) := acc in
      nodeStartPos <- nth_error (nodeStart graph) i ;;
      cell <- calculateCell i j sequence BA BT BC BG previousSlice
                currentBand previousBand slice w ;;
      let result :=
        if scoreEnd cell <=? minScore result
        then mkNodeCalculationResult (scoreEnd cell) (nodeStartPos + w)
               (cellsProcessed result)
        else result in
      calculateCells count' i j sequence BA BT BC BG previousSlice
        currentBand previousBand (S w) (setNth slice w cell, result)
  end.

Definition calculateNode (i j : nat) (sequence : list ascii)
  (BA BT BC BG : Z) (currentSlice previousSlice : NodeSlice)
  (currentBand previousBand : Band) (forceSource : bool)
  : option (NodeCalculationResult * NodeSlice) :=
  slice <- currentSlice i ;;
  nodeStartPos <- nth_error (nodeStart graph) i ;;
  nodeEndPos <- nth_error (nodeEnd graph) i ;;
  source <- (if forceSource then Some true
             else isSource i currentBand previousBand) ;;
  first <-
    (if source
     then
       if inBand previousBand i then getSourceSlice i previousSlice
       else Some (getSourceSliceWithoutBefore (Z.of_nat j))
     else
       Eq <- getEq BA BT BC BG nodeStartPos ;;
       previousEq <- previousRowMatches sequence j nodeStartPos ;;
       s <- getNodeStartSlice Eq i previousSlice currentSlice currentBand
              previousBand previousEq ;;
       oldSlice <- oldSliceOf previousSlice previousBand i
                     (setNth slice 0 s) ;;
       oldScoreEnd <- (if inBand previousBand i
                       then o <- nth_error oldSlice 0 ;; Some (scoreEnd o)
                       else Some 0) ;;
       Some (clampSlice (inBand previousBand i) oldScoreEnd j s)) ;;
  let result :=
    if scoreEnd first <? ScoreMax
    then mkNodeCalculationResult (scoreEnd first) nodeStartPos 0
    else mkNodeCalculationResult ScoreMax 0 0 in
  r <- calculateCells (nodeEndPos - nodeStartPos - 1) i j sequence
         BA BT BC BG previousSlice currentBand previousBand 1
         (setNth slice 0 first, result) ;;
  let '(slice, result) := r in
  Some (mkNodeCalculationResult (minScore result) (minScoreIndex result)
          ((nodeEndPos - nodeStartPos) * 64),
        setNode currentSlice i slice).

End NodeCalculator.

(** ** Column sweep *)

Record MatrixSlice := mkMatrixSlice {
  minScorePerWordSlice : list Z;
  minScoreIndexPerWordSlice : list nat;
  ms_cellsProcessed : nat
}.

(** The equality bitvectors [BA], [BT], [BC], [BG] of one read character. *)
Definition charEqualityMasks (c : ascii) : bool * bool * bool * bool :=
  let among (x y : ascii) := Ascii.eqb c x || Ascii.eqb c y in
  if among "A"%char "a"%char then (true, false, false, false)
  else if among "T"%char "t"%char then (false, true, false, false)
  else if among "C"%char "c"%char then (false, false, true, false)
  else if among "G"%char "g"%char then (false, false, false, true)
  else if among "N"%char "n"%char then (true, true, true, true)
  else if among "R"%char "r"%char then (true, false, false, true)
  else if among "Y"%char "y"%char then (false, true, true, false)
  else if among "K"%char "k"%char then (false, true, false, true)
  else if among "M"%char "m"%char then (true, false, true, false)
  else if among "S"%char "s"%char then (false, false, true, true)
  else if among "W"%char "w"%char then (true, true, false, false)
  else if among "B"%char "b"%char then (false, true, true, true)
  else if among "D"%char "d"%char then (true, true, false, true)
  else if among "H"%char "h"%char then (true, true, true, false)
  else if among "V"%char "v"%char then (true, false, true, true)
  else (false, false, false, false).

Definition orIf (b : bool) (word mask : Z) : Z :=
  if b then Z.lor word mask else word.

(** [(BA, BT, BC, BG)] of the read characters [chars], the first of which
    belongs to bit [i]. *)
Fixpoint equalityMasks (chars : list ascii) (i : Z) (acc : Z * Z * Z * Z)
  : Z * Z * Z * Z :=
  match chars with
  | [] => acc
  | c :: rest =>
      let '(BA, BT, BC, BG) := acc in
      let '(a, t, cc, g) := charEqualityMasks c in
      let mask := shl 1 i in
      equalityMasks rest (i + 1)
        (orIf a BA mask, orIf t BT mask, orIf cc BC mask, orIf g BG mask)
  end.

Definition columnEqualityMasks (sequence : list ascii) (j : nat)
  : Z * Z * Z * Z :=
  equalityMasks (firstn 64 (skipn j sequence)) 0
    (AllZeros, AllZeros, AllZeros, AllZeros).

(** Number of values [start, start + 64, start + 128, ...] below [size]. *)
Definition strideCount (start size : nat) : nat :=
  Nat.div (size - start + 63) 64.

Definition setBand (band : Band) (node : nat) (value : bool) : Band :=
  setNth band node value.

Section Sweep.

Variable ScoreMax : Z.
(** [std::numeric_limits<LengthType>::max()]. *)
Variable LengthMax : nat.
Variable graph : AlignmentGraph.

(** The dynamic band expander needs [AlignmentGraph::ProjectForward], and
    the cycle-cut driver the precomputed cuts; both are outside this
    development and enter the sweep as parameters. *)
Variable projectForwardAndExpandBand :
  Band -> nat -> Z -> Band * list nat * list nat.
Variable cutCycles :
  nat -> list ascii -> Z -> Z -> Z -> Z -> NodeSlice -> NodeSlice ->
  Band -> Band -> list nat -> option NodeSlice.

Definition getBandOrder (currentBand : Band) : list nat * list nat :=
  let nodes := seq 0 (List.length currentBand) in
  (filter (fun i => negb (Nat.ltb i (firstInOrder graph))
                    && inBand currentBand i) nodes,
   filter (fun i => Nat.ltb i (firstInOrder graph)
                    && inBand currentBand i) nodes).

Fixpoint addNodes (slices : NodeSlice) (nodes : list nat)
  : option NodeSlice :=
  match nodes with
  | [] => Some slices
  | node :: rest =>
      s <- nth_error (nodeStart graph) node ;;
      e <- nth_error (nodeEnd graph) node ;;
      addNodes (addNode slices node (e - s)) rest
  end.

(** Lines 1600-1604: a node with a smaller minimum takes over. *)
Definition takeNodeMinimum (nodeCalc : NodeCalculationResult)
  (current : Z * nat) : Z * nat :=
  if minScore nodeCalc <? fst current
  then (minScore nodeCalc, minScoreIndex nodeCalc)
  else current.

(** The loop over the out-neighbours inside the fast path.  The source
    statement [currentMinimumIndex == graph.nodeStart[neighbor];] is a
    comparison whose value is discarded. *)
Fixpoint probeOutNeighbors (sequence : list ascii) (j : nat)
  (nodeCalc : NodeCalculationResult) (neighbors : list nat)
  (current : Z * nat) : option (Z * nat) :=
  match neighbors with
  | [] => Some current
  | neighbor :: rest =>
      c <- nth_error sequence (j + 64 - 1)%nat ;;
      start <- nth_error (nodeStart graph) neighbor ;;
      gc <- nth_error (nodeSequences graph) start ;;
      let current :=
        if Ascii.eqb c gc
        then
          let discarded := Nat.eqb (snd current) start in
          (minScore nodeCalc - 1, snd current)
        else current in
      probeOutNeighbors sequence j nodeCalc rest current
  end.

(** Lines 1605-1622. *)
Definition outNeighborFastPath (sequence : list ascii) (j i : nat)
  (nodeCalc : NodeCalculationResult) (currentSlice : NodeSlice)
  (current : Z * nat) : option (Z * nat) :=
  if minScore nodeCalc <=? fst current
  then
    e <- nth_error (nodeEnd graph) i ;;
    if Nat.eqb (minScoreIndex nodeCalc) (e - 1)
    then
      v <- currentSlice i ;;
      b <- back v ;;
      if nonzero (Z.land (VP b) lastBitMask)
      then
        neighbors <- nth_error (outNeighbors graph) i ;;
        probeOutNeighbors sequence j nodeCalc neighbors current
      else Some current
    else Some current
  else Some current.

Record ColumnProgress := mkColumnProgress {
  cp_currentSlice : NodeSlice;
  cp_minimum : Z * nat;
  cp_cellsProcessed : nat
}.

(** Body of the loops over [bandOrder] and [bandOrderOutOfOrder]. *)
Definition processNode (sequence : list ascii) (j : nat)
  (BA BT BC BG : Z) (previousSlice : NodeSlice)
  (currentBand previousBand : Band) (i : nat) (p : ColumnProgress)
  : option ColumnProgress :=
  r <- calculateNode ScoreMax graph i j sequence BA BT BC BG
         (cp_currentSlice p) previousSlice currentBand previousBand false ;;
  let '(nodeCalc, currentSlice) := r in
  let current := takeNodeMinimum nodeCalc (cp_minimum p) in
  current <- outNeighborFastPath sequence j i nodeCalc currentSlice
               current ;;
  Some (mkColumnProgress currentSlice current
          (cp_cellsProcessed p + cellsProcessed nodeCalc)).

Fixpoint processNodes (sequence : list ascii) (j : nat)
  (BA BT BC BG : Z) (previousSlice : NodeSlice)
  (currentBand previousBand : Band) (nodes : list nat)
  (p : ColumnProgress) : option ColumnProgress :=
  match nodes with
  | [] => Some p
  | i :: rest =>
      p' <- processNode sequence j BA BT BC BG previousSlice currentBand
              previousBand i p ;;
      processNodes sequence j BA BT BC BG previousSlice currentBand
        previousBand rest p'
  end.

Record SweepState := mkSweepState {
  sw_previousSlice : NodeSlice;
  sw_previousMinimumIndex : nat;
  sw_currentBand : Band;
  sw_previousBand : Band;
  sw_previousBandOrder : list nat;
  sw_previousBandOrderOutOfOrder : list nat
}.

Record ColumnOutcome := mkColumnOutcome {
  co_state : SweepState;
  co_minimumScore : Z;
  co_minimumIndex : nat;
  co_cellsProcessed : nat
}.

Definition zeroNode (slices : NodeSlice) (node : nat) : option NodeSlice :=
  s <- nth_error (nodeStart graph) node ;;
  e <- nth_error (nodeEnd graph) node ;;
  Some (setNode slices node (repeat (mkWordSlice 0 0 0 0) (e - s))).

Fixpoint zeroNodes (slices : NodeSlice) (nodes : list nat)
  : option NodeSlice :=
  match nodes with
  | [] => Some slices
  | node :: rest =>
      slices' <- zeroNode slices node ;;
      zeroNodes slices' rest
  end.

(** One iteration of the loop over the columns, up to the bookkeeping that
    precedes the threshold test. *)
Definition sweepColumn (sequence : list ascii) (dynamicWidth : Z)
  (startBand : list Band) (j : nat) (st : SweepState)
  : option ColumnOutcome :=
  let '(BA, BT, BC, BG) := columnEqualityMasks sequence j in
  let slice := Nat.div j 64 in
  bands <-
    (if Nat.ltb slice (List.length startBand)
     then
       currentBand <- nth_error startBand slice ;;
       let previousBand :=
         if Nat.ltb 0 slice then sw_currentBand st
         else sw_previousBand st in
       let '(bandOrder, bandOrderOutOfOrder) := getBandOrder currentBand in
       if Nat.eqb slice 0
       then
         previousSlice <- zeroNodes (sw_previousSlice st) bandOrder ;;
         previousSlice <- zeroNodes previousSlice bandOrderOutOfOrder ;;
         Some (currentBand, currentBand, bandOrder, bandOrderOutOfOrder,
               previousSlice, bandOrder, bandOrderOutOfOrder)
       else
         Some (currentBand, previousBand, bandOrder, bandOrderOutOfOrder,
               sw_previousSlice st, sw_previousBandOrder st,
               sw_previousBandOrderOutOfOrder st)
     else
       let '(currentBand, bandOrder, bandOrderOutOfOrder) :=
         projectForwardAndExpandBand (sw_previousBand st)
           (sw_previousMinimumIndex st) dynamicWidth in
       Some (currentBand, sw_currentBand st, bandOrder,
             bandOrderOutOfOrder, sw_previousSlice st,
             sw_previousBandOrder st,
             sw_previousBandOrderOutOfOrder st)) ;;
  let '(currentBand, previousBand, bandOrder, bandOrderOutOfOrder,
        previousSlice, previousBandOrder, previousBandOrderOutOfOrder) :=
    bands in
  currentSlice <- addNodes emptyNodeSlice bandOrder ;;
  currentSlice <- addNodes currentSlice bandOrderOutOfOrder ;;
  currentSlice <- cutCycles j sequence BA BT BC BG currentSlice
                    previousSlice currentBand previousBand
                    bandOrderOutOfOrder ;;
  p <- processNodes sequence j BA BT BC BG previousSlice currentBand
         previousBand bandOrder
         (mkColumnProgress currentSlice (ScoreMax, LengthMax) 0) ;;
  p <- processNodes sequence j BA BT BC BG previousSlice currentBand
         previousBand bandOrderOutOfOrder p ;;
  let previousBand :=
    fold_left (fun band node => setBand band node false)
      (previousBandOrder ++ previousBandOrderOutOfOrder) previousBand in
  Some (mkColumnOutcome
          (mkSweepState (cp_currentSlice p) (snd (cp_minimum p))
             currentBand previousBand bandOrder bandOrderOutOfOrder)
          (fst (cp_minimum p)) (snd (cp_minimum p))
          (cp_cellsProcessed p)).

(** The loop [for (j = 0; j < sequence.size(); j += WordSize)]; [columns]
    is the number of iterations still to run from [j]. *)
Fixpoint sweepLoop (columns : nat) (sequence : list ascii)
  (dynamicWidth : Z) (startBand : list Band) (maxScore : Z) (j : nat)
  (st : SweepState) (result : MatrixSlice) : option MatrixSlice :=
  match columns with
  | O => Some result
  | S columns' =>
      o <- sweepColumn sequence dynamicWidth startBand j st ;;
      let result :=
        mkMatrixSlice
          (minScorePerWordSlice result ++ [co_minimumScore o])
          (minScoreIndexPerWordSlice result ++ [co_minimumIndex o])
          (ms_cellsProcessed result + co_cellsProcessed o) in
      if co_minimumScore o >? maxScore
      then
        let remaining := strideCount (j + 64) (List.length sequence) in
        Some (mkMatrixSlice
                (minScorePerWordSlice result
                 ++ repeat (Z.of_nat (List.length sequence)) remaining)
                (minScoreIndexPerWordSlice result ++ repeat 0%nat remaining)
                (ms_cellsProcessed result))
      else
        sweepLoop columns' sequence dynamicWidth startBand maxScore
          (j + 64) (co_state o) result
  end.

Definition getBitvectorSliceScoresAndFinalPosition (sequence : list ascii)
  (dynamicWidth : Z) (startBand : list Band) (dynamicRowStart : nat)
  (maxScore : Z) : option MatrixSlice :=
  let nodes := List.length (nodeStart graph) in
  sweepLoop (strideCount 0 (List.length sequence)) sequence dynamicWidth
    startBand maxScore 0
    (mkSweepState emptyNodeSlice LengthMax
       (repeat false nodes) (repeat false nodes) [] [])
    (mkMatrixSlice [0] [0%nat] 0).

End Sweep.

(** ** Correctness-segment estimator *)

Record BlockState := mkBlockState {
  thisBlock : nat;
  maxBlockSize : nat;
  maxBlockEnd : nat
}.

Definition blockStep (i : nat) (v : bool) (s : BlockState) : BlockState :=
  if v then mkBlockState (thisBlock s + 1) (maxBlockSize s) (maxBlockEnd s)
  else if Nat.ltb (maxBlockSize s) (thisBlock s)
  then mkBlockState 0 (thisBlock s - 1) (i - 1)
  else mkBlockState 0 (maxBlockSize s) (maxBlockEnd s).

Fixpoint blockLoop (vec : list bool) (i : nat) (s : BlockState)
  : BlockState :=
  match vec with
  | [] => s
  | v :: rest => blockLoop rest (S i) (blockStep i v s)
  end.

Definition getLargestContiguousBlock (vec : list bool) : nat * nat :=
  let s := blockLoop vec 0 (mkBlockState 0 0 0) in
  let s :=
    if Nat.ltb (maxBlockSize s) (thisBlock s)
    then mkBlockState (thisBlock s) (thisBlock s - 1) (List.length vec - 1)
    else s in
  ((maxBlockEnd s - maxBlockSize s)%nat, maxBlockEnd s).

Definition factorial (n : Z) : Z :=
  forLoop (Z.to_nat (n - 1)) 2 (fun i result => result * i) 1.

Definition choose (n k : Z) : Z :=
  Z.quot (Z.quot (factorial n) (factorial k)) (factorial (n - k)).

(** [powr]: square and multiply.  An exponent below zero reaches neither
    [return] of the source. *)
Fixpoint powr (fuel : nat) (base : Q) (exponent : Z) : option Q :=
  match fuel with
  | O => None
  | S fuel' =>
      if exponent =? 0 then Some 1%Q
      else if exponent =? 1 then Some base
      else if Z.rem exponent 2 =? 0
      then part <- powr fuel' base (Z.quot exponent 2) ;;
           Some (Qred (part * part))
      else if Z.rem exponent 2 =? 1
      then part <- powr fuel' base (Z.quot exponent 2) ;;
           Some (Qred (part * part * base))
      else None
  end.

Definition Qmax (a b : Q) : Q := if Qle_bool b a then a else b.

Record ViterbiState := mkViterbiState {
  correctProbability : Q;
  falseProbability : Q;
  falseFromCorrectBacktrace : list bool;
  correctFromCorrectBacktrace : list bool
}.

Definition correctMismatchProbability : Q := 15 # 100.
Definition falseMismatchProbability : Q := 50 # 100.
Definition falseToCorrectTransitionProbability : Q := 1 # 100.
Definition correctToFalseTransitionProbability : Q := 1 # 100.

Definition viterbiStep (scorediff : Z) (s : ViterbiState)
  : option ViterbiState :=
  let cp := correctProbability s in
  let fp := falseProbability s in
  let fromCorrectToCorrect :=
    (cp * (1 - correctToFalseTransitionProbability))%Q in
  let fromFalseToCorrect := (fp * falseToCorrectTransitionProbability)%Q in
  let fromCorrectToFalse := (cp * correctToFalseTransitionProbability)%Q in
  let fromFalseToFalse :=
    (fp * (1 - falseToCorrectTransitionProbability))%Q in
  let correctFromCorrect := Qle_bool fromFalseToCorrect fromCorrectToCorrect in
  let falseFromCorrect := Qle_bool fromFalseToFalse fromCorrectToFalse in
  let newCorrectProbability := Qmax fromCorrectToCorrect fromFalseToCorrect in
  let newFalseProbability := Qmax fromCorrectToFalse fromFalseToFalse in
  let chooseresult := inject_Z (choose WordSize scorediff) in
  pc <- powr 64 correctMismatchProbability scorediff ;;
  pcn <- powr 64 (1 - correctMismatchProbability)%Q (WordSize - scorediff) ;;
  pf <- powr 64 falseMismatchProbability scorediff ;;
  pfn <- powr 64 (1 - falseMismatchProbability)%Q (WordSize - scorediff) ;;
  let correctMultiplier := (chooseresult * pc * pcn)%Q in
  let falseMultiplier := (chooseresult * pf * pfn)%Q in
  let newCorrectProbability := (newCorrectProbability * correctMultiplier)%Q in
  let newFalseProbability := (newFalseProbability * falseMultiplier)%Q in
  let normalizer := (newCorrectProbability + newFalseProbability)%Q in
  Some (mkViterbiState
          (Qred (newCorrectProbability / normalizer))
          (Qred (newFalseProbability / normalizer))
          (falseFromCorrectBacktrace s ++ [falseFromCorrect])
          (correctFromCorrectBacktrace s ++ [correctFromCorrect])).

Fixpoint viterbiForward (previous : Z) (scores : list Z) (s : ViterbiState)
  : option ViterbiState :=
  match scores with
  | [] => Some s
  | score :: rest =>
      s' <- viterbiStep (score - previous) s ;;
      viterbiForward score rest s'
  end.

(** The labelling loop, from the last slice to the first; the two back
    pointer vectors are given last entry first. *)
Fixpoint viterbiLabels (correctFromCorrect falseFromCorrect : list bool)
  (currentCorrect : bool) : list bool :=
  match correctFromCorrect, falseFromCorrect with
  | c :: cs, f :: fs =>
      currentCorrect
        :: viterbiLabels cs fs (if currentCorrect then c else f)
  | _, _ => []
  end.

Definition estimateCorrectAlignmentViterbi (scores : list Z)
  : option (list bool) :=
  match scores with
  | [] => None
  | first :: rest =>
      s <- viterbiForward first rest
             (mkViterbiState (30 # 100) (70 # 100) [] []) ;;
      let currentCorrect :=
        negb (Qle_bool (correctProbability s) (falseProbability s)) in
      Some (rev (viterbiLabels (rev (correctFromCorrectBacktrace s))
                   (rev (falseFromCorrectBacktrace s)) currentCorrect))
  end.

(** [for (i = start; i < start + count; i++) partials.push_back(v[i])]. *)
Fixpoint copyRange {A : Type} (v : list A) (start count : nat)
  : option (list A) :=
  match count with
  | O => Some []
  | S count' =>
      x <- nth_error v start ;;
      rest <- copyRange v (S start) count' ;;
      Some (x :: rest)
  end.

(** [std::string::substr]. *)
Definition substr (s : list ascii) (pos len : nat) : option (list ascii) :=
  if Nat.ltb (List.length s) pos then None
  else Some (firstn len (skipn pos s)).

Section Backtracing.

Variable graph : AlignmentGraph.
(** Bound on the iterations of the backtrace loops. *)
Variable fuel : nat.

Definition estimateCorrectnessAndBacktraceBiggestPart
  (sequence : list ascii) (minScores : list Z) (minScoreIndices : list nat)
  : option (Z * list MatrixPosition) :=
  correctParts <- estimateCorrectAlignmentViterbi minScores ;;
  let ends := getLargestContiguousBlock correctParts in
  let start := fst ends in
  let end_ := snd ends in
  if Nat.eqb end_ start
  then Some (Z.of_nat (List.length sequence), [])
  else
    column <- nth_error minScoreIndices (end_ + 1)%nat ;;
    let endPos := (column, ((end_ - start + 1) * 64)%nat) in
    newseq <- substr sequence (start * 64)%nat
                ((end_ - start + 1) * 64)%nat ;;
    partials <- copyRange minScores start (end_ + 2 - start)%nat ;;
    backtrace fuel graph endPos newseq partials.

End Backtracing.

(** ** Alignment records and drivers *)

Record Edit := mkEdit {
  from_length : nat;
  to_length : nat;
  edit_sequence : list ascii
}.

Record Mapping := mkMapping {
  node_id : Z;
  is_reverse : bool;
  offset : nat;
  rank : nat;
  edits : list Edit
}.

Record Alignment := mkAlignment {
  name : list ascii;
  score : Z;
  al_sequence : list ascii;
  path : list Mapping
}.

(** The wall-clock field of the source record is not modelled. *)
Record AlignmentResult := mkAlignmentResult {
  alignment : Alignment;
  alignmentFailed : bool;
  ar_cellsProcessed : nat
}.

(** The comparisons with [sequence.size() * 0.4] are made in double
    precision; for sizes below 2^50 the product is within the rounding error
    of [2 * size / 5], and the comparison with an integer score and the
    conversion to [ScoreType] are those of the exact rational. *)
Definition exceedsFortyPercent (value : Z) (size : nat) : bool :=
  2 * Z.of_nat size <? 5 * value.

Definition fortyPercent (size : nat) : Z := (2 * Z.of_nat size) / 5.

Section Drivers.

Variable ScoreMax : Z.
(** [std::numeric_limits<decltype(result.score())>::max()]. *)
Variable AlignmentScoreMax : Z.
Variable LengthMax : nat.
Variable graph : AlignmentGraph.
Variable projectForwardAndExpandBand :
  Band -> nat -> Z -> Band * list nat * list nat.
Variable cutCycles :
  nat -> list ascii -> Z -> Z -> Z -> Z -> NodeSlice -> NodeSlice ->
  Band -> Band -> list nat -> option NodeSlice.
Variable fuel : nat.

Definition emptyAlignment (cells : nat) : AlignmentResult :=
  mkAlignmentResult (mkAlignment [] AlignmentScoreMax [] []) true cells.

Definition addEdit (m : Mapping) (e : Edit) : Mapping :=
  mkMapping (node_id m) (is_reverse m) (offset m) (rank m)
    (edits m ++ [e]).

Definition newMapping (node mappingOffset mappingRank : nat)
  : option Mapping :=
  id <- nth_error (nodeIDs graph) node ;;
  r <- nth_error (reverse graph) node ;;
  Some (mkMapping id r mappingOffset mappingRank []).

(** The [while (oldNode == graph.dummyNodeStart)] loop: the first trace
    entry outside the dummy start node, with its node; [None] inside is the
    early return of the empty alignment. *)
Fixpoint skipDummyStart (trace : list MatrixPosition)
  : option (option (nat * list MatrixPosition)) :=
  match trace with
  | [] => Some None
  | p :: rest =>
      node <- nth_error (indexToNode graph) (fst p) ;;
      if Nat.eqb node (dummyNodeStart graph)
      then skipDummyStart rest
      else Some (Some (node, trace))
  end.

(** The [for (; pos < trace.size(); pos++)] loop. *)
Fixpoint mappingLoop (sequence : list ascii) (trace : list MatrixPosition)
  (oldNode : nat) (btNodeStart btNodeEnd : MatrixPosition)
  (done : list Mapping) (current : Mapping)
  : option (list Mapping * Mapping * MatrixPosition * MatrixPosition) :=
  match trace with
  | [] => Some (done, current, btNodeStart, btNodeEnd)
  | p :: rest =>
      node <- nth_error (indexToNode graph) (fst p) ;;
      if Nat.eqb node (dummyNodeEnd graph)
      then Some (done, current, btNodeStart, btNodeEnd)
      else if Nat.eqb node oldNode
      then mappingLoop sequence rest oldNode btNodeStart p done current
      else
        let toLen := (snd btNodeEnd - snd btNodeStart + 1)%nat in
        s <- substr sequence (snd btNodeStart) toLen ;;
        let current :=
          addEdit current
            (mkEdit (fst btNodeEnd - fst btNodeStart + 1) toLen s) in
        m <- newMapping node 0 (rank current + 1) ;;
        mappingLoop sequence rest node p p (done ++ [current]) m
  end.

Definition traceToAlignment (seq_id sequence : list ascii)
  (alignmentScore : Z) (trace : list MatrixPosition) (cells : nat)
  : option AlignmentResult :=
  match trace with
  | [] =>
      Some (mkAlignmentResult
              (mkAlignment seq_id alignmentScore sequence []) true cells)
  | _ =>
      skipped <- skipDummyStart trace ;;
      match skipped with
      | None => Some (emptyAlignment cells)
      | Some (_, []) => Some (emptyAlignment cells)
      | Some (oldNode, first :: rest) =>
          if Nat.eqb oldNode (dummyNodeEnd graph)
          then Some (emptyAlignment cells)
          else
            start <- nth_error (nodeStart graph) oldNode ;;
            m <- newMapping oldNode (fst first - start) 0 ;;
            r <- mappingLoop sequence (first :: rest) oldNode first first
                   [] m ;;
            let '(done, current, btNodeStart, btNodeEnd) := r in
            let toLen := (snd btNodeEnd - snd btNodeStart)%nat in
            s <- substr sequence (snd btNodeStart) toLen ;;
            let current :=
              addEdit current
                (mkEdit (fst btNodeEnd - fst btNodeStart) toLen s) in
            Some (mkAlignmentResult
                    (mkAlignment seq_id alignmentScore sequence
                       (done ++ [current]))
                    false cells)
      end
  end.

Definition getFullBand (dynamicRowStart : nat) : list Band :=
  repeat (repeat true (List.length (nodeStart graph)))
    (Nat.div dynamicRowStart 64).

Definition paddingFor (size : nat) : nat :=
  Nat.modulo (64 - Nat.modulo size 64) 64.

(** [while (trace.back().second >= limit) trace.pop_back();], on the trace
    stored last entry first.  [back] of an empty vector is undefined. *)
Fixpoint popPadded (reversedTrace : list MatrixPosition) (limit : nat)
  : option (list MatrixPosition) :=
  match reversedTrace with
  | [] => None
  | p :: rest =>
      if Nat.leb limit (snd p) then popPadded rest limit
      else Some reversedTrace
  end.

Definition getBacktrace (sequence : list ascii) (dynamicWidth : Z)
  (dynamicRowStart : nat) (startBand : list Band)
  : option (Z * list MatrixPosition * nat) :=
  let padding := paddingFor (List.length sequence) in
  let sequence := sequence ++ repeat "N"%char padding in
  slice <- getBitvectorSliceScoresAndFinalPosition ScoreMax LengthMax graph
             projectForwardAndExpandBand cutCycles sequence dynamicWidth
             startBand dynamicRowStart
             (fortyPercent (List.length sequence)) ;;
  final <- back (minScorePerWordSlice slice) ;;
  if exceedsFortyPercent final (List.length sequence)
  then Some (ScoreMax, [], ms_cellsProcessed slice)
  else
    backtraceresult <-
      estimateCorrectnessAndBacktraceBiggestPart graph fuel sequence
        (minScorePerWordSlice slice) (minScoreIndexPerWordSlice slice) ;;
    kept <- popPadded (rev (snd backtraceresult))
              (List.length sequence - padding) ;;
    Some (final, rev kept, ms_cellsProcessed slice).

(** [AlignOneWay] with the full start band. *)
Definition AlignOneWay (seq_id sequence : list ascii) (dynamicWidth : Z)
  (dynamicRowStart : nat) : option AlignmentResult :=
  let band := getFullBand dynamicRowStart in
  trace <- getBacktrace sequence dynamicWidth dynamicRowStart band ;;
  let '(traceScore, positions, cells) := trace in
  if traceScore =? ScoreMax then Some (emptyAlignment cells)
  else traceToAlignment seq_id sequence traceScore positions cells.

End Drivers.

(** ** The scalar cross-check of [mergeTwoSlices] *)

(** Loop state of [mergeTwoSlicesCellByCell]. *)
Record MergeCellState := mkMergeCell {
  mc_leftScore : Z;
  mc_rightScore : Z;
  mc_previousScore : Z;
  mc_VP : Z;
  mc_VN : Z
}.

Definition mergeCellStep (left right : WordSlice) (j : Z)
  (s : MergeCellState) : MergeCellState :=
  let mask := shl 1 j in
  let leftScore :=
    if nonzero (Z.land (VP left) mask) then mc_leftScore s + 1
    else if nonzero (Z.land (VN left) mask) then mc_leftScore s - 1
    else mc_leftScore s in
  let rightScore :=
    if nonzero (Z.land (VN right) mask) then mc_rightScore s - 1
    else if nonzero (Z.land (VP right) mask) then mc_rightScore s + 1
    else mc_rightScore s in
  let betterScore := Z.min leftScore rightScore in
  let mergedVP :=
    if betterScore =? mc_previousScore s + 1
    then Z.lor (mc_VP s) mask else mc_VP s in
  let mergedVN :=
    if betterScore =? mc_previousScore s + 1 then mc_VN s
    else if betterScore =? mc_previousScore s - 1
         then Z.lor (mc_VN s) mask else mc_VN s in
  mkMergeCell leftScore rightScore betterScore mergedVP mergedVN.

(** [mergeTwoSlicesCellByCell]: the merged column built one row at a time
    from the smaller of the two scores of every row. *)
Definition mergeTwoSlicesCellByCell (left right : WordSlice) : WordSlice :=
  let start :=
    Z.min (scoreBeforeStart left) (scoreBeforeStart right) in
  let s := forLoop (Z.to_nat WordSize) 0 (mergeCellStep left right)
             (mkMergeCell (scoreBeforeStart left) (scoreBeforeStart right)
                start AllZeros AllZeros) in
  mkWordSlice (mc_VP s) (mc_VN s) (mc_previousScore s) start.

(** ** Reversing a trace *)

(** Subtraction in [LengthType], an unsigned type whose largest value is
    [LengthMax]. *)
Definition lengthSub (LengthMax a b : nat) : nat :=
  if Nat.leb b a then (a - b)%nat
  else (LengthMax + 1 - (b - a))%nat.

(** [reverseTrace]: the trace read from its end, every graph position
    replaced by its position on the reverse strand and every row counted
    from the row the trace ended in.  [GetReversePosition] belongs to the
    alignment graph. *)
Definition reverseTrace (GetReversePosition : nat -> nat) (LengthMax : nat)
  (trace : list MatrixPosition) : list MatrixPosition :=
  match rev trace with
  | [] => trace
  | first :: _ =>
      let secondMax := snd first in
      map (fun p => (GetReversePosition (fst p),
                     lengthSub LengthMax secondMax (snd p)))
        (rev trace)
  end.

(** ** The start band of a seed *)

Section ExtendedBand.

Variable graph : AlignmentGraph.

(** [std::priority_queue] with [std::greater]: [top] and [pop] hand out an
    entry of least distance.  Which one among several of the same distance
    is left to the library, so it is a parameter here. *)
Variable popMin :
  list (nat * nat) -> option ((nat * nat) * list (nat * nat)).

(** The [while (queue.size() > 0)] loop of [getExtendedNodeBand].  A queue
    entry is a node with the distance at which it is entered; the [end]
    flag of the source entries is always [true] and never read.  [fuel]
    bounds the iterations. *)
Fixpoint extendBandLoop (fuel : nat) (startExtensionWidth : nat)
  (queue : list (nat * nat)) (visited : list nat) (result : Band)
  : option Band :=
  match fuel with
  | O => None
  | S fuel' =>
      match queue with
      | [] => Some result
      | _ =>
          popped <- popMin queue ;;
          let '(top, queue) := popped in
          if Nat.ltb startExtensionWidth (snd top)
          then extendBandLoop fuel' startExtensionWidth queue visited result
          else if existsb (Nat.eqb (fst top)) visited
          then extendBandLoop fuel' startExtensionWidth queue visited result
          else
            let result := setNth result (fst top) true in
            let visited := fst top :: visited in
            e <- nth_error (nodeEnd graph) (fst top) ;;
            s <- nth_error (nodeStart graph) (fst top) ;;
            let newDistance := (snd top + e - s)%nat in
            neighbors <- nth_error (outNeighbors graph) (fst top) ;;
            let queue :=
              fold_left (fun q neighbor => (neighbor, newDistance) :: q)
                neighbors queue in
            extendBandLoop fuel' startExtensionWidth queue visited result
      end
  end.

Definition getExtendedNodeBand (fuel : nat)
  (nodeIndex startExtensionWidth : nat) : option (list Band) :=
  band <- extendBandLoop fuel startExtensionWidth [(nodeIndex, 0%nat)] []
            (repeat false (List.length (nodeStart graph))) ;;
  Some [band].

End ExtendedBand.

(** ** The dynamic band *)

(** [std::set<size_t>::insert]: the elements in increasing order, each
    once. *)
Fixpoint setInsert (x : nat) (s : list nat) : list nat :=
  match s with
  | [] => [x]
  | y :: rest =>
      if Nat.ltb x y then x :: s
      else if Nat.eqb x y then s
      else y :: setInsert x rest
  end.

(** What [expandBandFromPositions] updates: the band, the two distance maps
    and the two order sets, each of which may be a null pointer. *)
Record ExpandedBand := mkExpandedBand {
  eb_band : Band;
  eb_distanceAtNodeStart : nat -> option nat;
  eb_distanceAtNodeEnd : nat -> option nat;
  eb_bandOrder : option (list nat);
  eb_bandOrderOutOfOrder : option (list nat)
}.

(** An entry of the queue: [(node, end, distance)]. *)
Definition BandEntry : Type := nat * bool * nat.

Definition entryDistance (entry : BandEntry) : nat := snd entry.

Section BandExpansion.

Variable graph : AlignmentGraph.

(** [top] and [pop] of the priority queue, as for [getExtendedNodeBand]. *)
Variable popNearest : list BandEntry -> option (BandEntry * list BandEntry).

(** [band[nodeIndex] = true] and the insertion into one of the order
    sets: a node before [firstInOrder] goes to the out-of-order set, a node
    from [firstInOrder] on to the other one, unless the set is absent. *)
Definition markNode (nodeIndex : nat) (b : ExpandedBand) : ExpandedBand :=
  let present (s : option (list nat)) :=
    match s with Some _ => true | None => false end in
  let toOutOfOrder :=
    Nat.ltb nodeIndex (firstInOrder graph)
    && present (eb_bandOrderOutOfOrder b) in
  let toOrder :=
    negb toOutOfOrder
    && Nat.leb (firstInOrder graph) nodeIndex
    && present (eb_bandOrder b) in
  mkExpandedBand (setNth (eb_band b) nodeIndex true)
    (eb_distanceAtNodeStart b) (eb_distanceAtNodeEnd b)
    (if toOrder then option_map (setInsert nodeIndex) (eb_bandOrder b)
     else eb_bandOrder b)
    (if toOutOfOrder
     then option_map (setInsert nodeIndex) (eb_bandOrderOutOfOrder b)
     else eb_bandOrderOutOfOrder b).

(** The loop over the start positions. *)
Fixpoint enqueueStarts (startpositions : list nat) (queue : list BandEntry)
  (b : ExpandedBand) : option (list BandEntry * ExpandedBand) :=
  match startpositions with
  | [] => Some (queue, b)
  | startpos :: rest =>
      nodeIndex <- nth_error (indexToNode graph) startpos ;;
      let b := markNode nodeIndex b in
      start <- nth_error (nodeStart graph) nodeIndex ;;
      end_ <- nth_error (nodeEnd graph) nodeIndex ;;
      let queue := (nodeIndex, false, (startpos - start)%nat) :: queue in
      let queue := (nodeIndex, true, (end_ - startpos - 1)%nat) :: queue in
      enqueueStarts rest queue b
  end.

Definition setDistance (map : nat -> option nat) (node distance : nat)
  : nat -> option nat :=
  fun n => if Nat.eqb n node then Some distance else map n.

(** The [while (queue.size() > 0)] loop. *)
Fixpoint expandLoop (fuel : nat) (dynamicWidth : nat)
  (queue : list BandEntry) (b : ExpandedBand) : option ExpandedBand :=
  match fuel with
  | O => None
  | S fuel' =>
      match queue with
      | [] => Some b
      | _ =>
          popped <- popNearest queue ;;
          let '(top, queue) := popped in
          let '(node, isEnd, distance) := top in
          if Nat.ltb dynamicWidth distance
          then expandLoop fuel' dynamicWidth queue b
          else
            let found :=
              if isEnd then eb_distanceAtNodeEnd b node
              else eb_distanceAtNodeStart b node in
            let known :=
              match found with
              | Some d => Nat.leb d distance
              | None => false
              end in
            if known then expandLoop fuel' dynamicWidth queue b
            else
              let b :=
                if isEnd
                then mkExpandedBand (eb_band b) (eb_distanceAtNodeStart b)
                       (setDistance (eb_distanceAtNodeEnd b) node distance)
                       (eb_bandOrder b) (eb_bandOrderOutOfOrder b)
                else mkExpandedBand (eb_band b)
                       (setDistance (eb_distanceAtNodeStart b) node
                          distance)
                       (eb_distanceAtNodeEnd b)
                       (eb_bandOrder b) (eb_bandOrderOutOfOrder b) in
              let b := markNode node b in
              e <- nth_error (nodeEnd graph) node ;;
              s <- nth_error (nodeStart graph) node ;;
              let size := (e - s)%nat in
              let queue :=
                (node, negb isEnd, (distance + size - 1)%nat) :: queue in
              neighbors <-
                (if isEnd then nth_error (outNeighbors graph) node
                 else nth_error (inNeighbors graph) node) ;;
              let queue :=
                fold_left
                  (fun q neighbor =>
                     (neighbor, negb isEnd, (distance + 1)%nat) :: q)
                  neighbors queue in
              expandLoop fuel' dynamicWidth queue b
      end
  end.

Definition expandBandFromPositions (fuel : nat) (startpositions : list nat)
  (dynamicWidth : nat) (b : ExpandedBand) : option ExpandedBand :=
  started <- enqueueStarts startpositions [] b ;;
  expandLoop fuel dynamicWidth (fst started) (snd started).

End BandExpansion.

(** ** The band around the minimum of the previous column *)

Section ProjectForwardBand.

Variable graph : AlignmentGraph.
Variable popNearest : list BandEntry -> option (BandEntry * list BandEntry).

(** [AlignmentGraph::ProjectForward], from a [std::set] of positions and a
    number of characters to a [std::set] of positions; it belongs to the
    alignment graph. *)
Variable ProjectForward : list nat -> Z -> list nat.

(** [projectForwardAndExpandBand] updates the band and the two order sets;
    the distance maps are its own and start empty.  The assertions of the
    source are left out. *)
Definition projectForwardAndExpandBand (fuel : nat) (band : Band)
  (previousMinimumIndex dynamicWidth : nat)
  (bandOrder bandOrderOutOfOrder : option (list nat))
  : option (Band * option (list nat) * option (list nat)) :=
  nodeIndex <- nth_error (indexToNode graph) previousMinimumIndex ;;
  end_ <- nth_error (nodeEnd graph) nodeIndex ;;
  let positions := setInsert previousMinimumIndex [] in
  let positions := ProjectForward positions WordSize in
  let positions := setInsert previousMinimumIndex positions in
  let b :=
    markNode graph nodeIndex
      (mkExpandedBand band (fun _ => None) (fun _ => None)
         bandOrder bandOrderOutOfOrder) in
  b <- expandBandFromPositions graph popNearest fuel positions
         dynamicWidth b ;;
  Some (eb_band b, eb_bandOrder b, eb_bandOrderOutOfOrder b).

End ProjectForwardBand.

(** ** Auxiliary notions used in the statements *)

(** Bit 63 of a word as a score delta. *)
Definition topBit (x : Z) : Z := if Z.testbit x 63 then 1 else 0.

(** The new [scoreBeforeStart] as step 1 of section 4.1 of the
    specification words it: both operands of the minimum, and the value
    without an upper neighbour, are read from the one slice [prev]. *)
Definition scoreBeforeStartFromPrev (prev : WordSlice)
  (previousInsideBand previousEq : bool) : Z :=
  if previousInsideBand
  then Z.min (scoreBeforeStart prev + 1)
             (scoreEnd prev - topBit (VP prev) + topBit (VN prev)
              + (if previousEq then 0 else 1))
  else scoreBeforeStart prev + 1.

(** Length of the longest run of [true] in a vector, [current] being the
    length of the run that ends just before it. *)
Fixpoint longestRun (l : list bool) (current : nat) : nat :=
  match l with
  | [] => current
  | true :: rest => longestRun rest (S current)
  | false :: rest => Nat.max current (longestRun rest 0)
  end.

Definition longestTrueRun (l : list bool) : nat := longestRun l 0.

(** An out-neighbour whose first character is the read character of the last
    row of the column that starts at row [j]. *)
Definition matchingOutNeighbor (graph : AlignmentGraph)
  (sequence : list ascii) (j neighbor : nat) : Prop :=
  exists start c,
    nth_error (nodeStart graph) neighbor = Some start /\
    nth_error (nodeSequences graph) start = Some c /\
    nth_error sequence (j + 64 - 1)%nat = Some c.

(** A word with its least-significant bit cleared. *)
Definition clearLSB (x : Z) : Z := Z.land x (not 1).

(** The per-character update as section 4.1 of the specification words it:
    when the horizontal-in to the first row is forced non-negative, the
    least-significant bit of [Eq] is cleared before the cell is advanced.
    It differs from [calculateCell] in the line that defines [Eq'] only. *)
Definition calculateCellSuppressed (graph : AlignmentGraph) (i j : nat)
  (sequence : list ascii) (BA BT BC BG : Z) (previousSlice : NodeSlice)
  (currentBand previousBand : Band) (slice : list WordSlice) (w : nat)
  : option WordSlice :=
  nodeStartPos <- nth_error (nodeStart graph) i ;;
  Eq <- getEq graph BA BT BC BG (nodeStartPos + w)%nat ;;
  left <- nth_error slice (w - 1)%nat ;;
  let forceFirstHorizontalPositive :=
    firstZeroForced previousBand currentBand i left Eq in
  let Eq' := if forceFirstHorizontalPositive then clearLSB Eq else Eq in
  previousEq <- previousRowMatches graph sequence j (nodeStartPos + w)%nat ;;
  oldSlice <- oldSliceOf previousSlice previousBand i slice ;;
  oldLeft <- nth_error oldSlice (w - 1)%nat ;;
  let next := getNextSlice Eq' left (inBand previousBand i) previousEq
                oldLeft in
  oldScoreEnd <- (if inBand previousBand i
                  then o <- nth_error oldSlice w ;; Some (scoreEnd o)
                  else Some 0) ;;
  Some (clampSlice (inBand previousBand i) oldScoreEnd j next).

(** A finalised graph: every character position lies in the non-empty range
    of the node that [indexToNode] gives it, and the positions of that range
    all belong to the node. *)
Definition graphWellFormed (g : AlignmentGraph) : Prop :=
  forall w n,
    nth_error (indexToNode g) w = Some n ->
    exists s e,
      nth_error (nodeStart g) n = Some s /\
      nth_error (nodeEnd g) n = Some e /\
      (s <= w < e)%nat /\
      forall p, (s <= p < e)%nat -> nth_error (indexToNode g) p = Some n.

(** One step of a trace in the graph, from character [p1] to [p2]: stay,
    move to the next character of the same node, or cross from the last
    character of an in-neighbour to the first character of a node. *)
Definition graphStep (g : AlignmentGraph) (p1 p2 : nat) : Prop :=
  p2 = p1 \/
  (p2 = S p1 /\
   exists n, nth_error (indexToNode g) p1 = Some n /\
             nth_error (indexToNode g) p2 = Some n) \/
  (exists n neighbors neighbor e,
     nth_error (indexToNode g) p2 = Some n /\
     nth_error (nodeStart g) n = Some p2 /\
     nth_error (inNeighbors g) n = Some neighbors /\
     In neighbor neighbors /\
     nth_error (nodeEnd g) neighbor = Some e /\
     p1 = (e - 1)%nat).

Definition traceStep (g : AlignmentGraph) (a b : MatrixPosition) : Prop :=
  (snd b = snd a \/ snd b = S (snd a)) /\ graphStep g (fst a) (fst b).

(** Every two neighbouring elements of a list are related. *)
Fixpoint consecutive {A : Type} (R : A -> A -> Prop) (l : list A) : Prop :=
  match l with
  | [] => True
  | a :: rest =>
      match rest with
      | [] => True
      | b :: _ => R a b /\ consecutive R rest
      end
  end.

(** The back pointer of a cell leads to an already recorded cell that is one
    trace step further. *)
Definition hasParent (g : AlignmentGraph) (visited : list ExpandoCell)
  (c : ExpandoCell) : Prop :=
  exists parent,
    nth_error visited (backtraceIndex c) = Some parent /\
    traceStep g (position c) (position parent).

(** The invariant of the [while (true)] loop of [backtraceInner]; [init] is
    the cell of the end position, with which the loop starts. *)
Definition backtraceInvariant (g : AlignmentGraph) (init : ExpandoCell)
  (s : BacktraceState) : Prop :=
  (forall k c,
     nth_error (bt_visitedExpandos s) k = Some c -> k <> 0%nat ->
     (backtraceIndex c < k)%nat /\ hasParent g (bt_visitedExpandos s) c) /\
  (bt_visitedExpandos s <> [] ->
   Forall (hasParent g (bt_visitedExpandos s))
     (bt_currentDistanceQueue s ++ bt_currentDistancePlusOneQueue s)) /\
  (bt_visitedExpandos s = [] ->
   bt_currentDistanceQueue s ++ bt_currentDistancePlusOneQueue s = [] \/
   bt_currentDistanceQueue s ++ bt_currentDistancePlusOneQueue s = [init]).

(** What holds of the recorded cells when the loop is left. *)
Definition backtraceFinished (g : AlignmentGraph) (init : ExpandoCell)
  (s : BacktraceState) : Prop :=
  (forall k c,
     nth_error (bt_visitedExpandos s) k = Some c -> k <> 0%nat ->
     (backtraceIndex c < k)%nat /\ hasParent g (bt_visitedExpandos s) c) /\
  exists visited last,
    bt_visitedExpandos s = visited ++ [last] /\
    snd (position last) = 0%nat /\
    (visited = [] -> last = init).

(** ** Byte lanes of a word

    The slice merge computes on the eight bytes of a word at once.  A word is
    [pack] of its lanes, least-significant lane first. *)

Fixpoint pack (l : list Z) : Z :=
  match l with
  | [] => 0
  | a :: rest => a + 256 * pack rest
  end.

Fixpoint lanesOf (n : nat) (x : Z) : list Z :=
  match n with
  | O => []
  | S n' => x mod 256 :: lanesOf n' (x / 256)
  end.

Definition lanes (x : Z) : list Z := lanesOf 8 x.

Definition byte (a : Z) : Prop := 0 <= a < 256.

Fixpoint zipWith {A B C : Type} (f : A -> B -> C) (l1 : list A) (l2 : list B)
  : list C :=
  match l1, l2 with
  | a :: r1, b :: r2 => f a b :: zipWith f r1 r2
  | _, _ => []
  end.

(** Bit [t] of a byte or word, as a number. *)
Definition bitAt (x t : Z) : Z := Z.b2z (Z.testbit x t).

(** Number of set bits among the bits [0 .. n-1]. *)
Fixpoint countBits (n : nat) (x : Z) : Z :=
  match n with
  | O => 0
  | S n' => countBits n' x + bitAt x (Z.of_nat n')
  end.

(** Lane [b] of a word. *)
Definition lane (x b : Z) : Z := Z.land (Z.shiftr x (8 * b)) 255.

(** Exhaustive checks over bytes and over bits. *)
Definition checkBytes (f : Z -> bool) : bool :=
  forallb f (map Z.of_nat (seq 0 256)).

Definition checkBits (f : Z -> bool) : bool := f 0 && f 1.

(** The three steps of [ChunkPopcounts] on one lane. *)
Definition popLane1 (a : Z) : Z := a - Z.land (Z.shiftr a 1) 0x55.

Definition popLane2 (a : Z) : Z :=
  Z.land a 0x33 + Z.land (Z.shiftr a 2) 0x33.

(** [next] is the lane above, whose low bits the unmasked shift brings
    in. *)
Definition popLane3 (a next : Z) : Z :=
  Z.land (a + (Z.shiftr a 4 + 16 * (next mod 16))) 0x0f.

(** Running sums of a list, starting from [a]. *)
Fixpoint prefixFrom (a : Z) (l : list Z) : list Z :=
  match l with
  | [] => []
  | x :: rest => (a + x) :: prefixFrom (a + x) rest
  end.

(** Sum of the lanes [0 .. n-1] of a word. *)
Fixpoint sumLanes (n : nat) (x : Z) : Z :=
  match n with
  | O => 0
  | S n' => sumLanes n' x + lane x (Z.of_nat n')
  end.

(** A signed value in the two's-complement byte that represents it. *)
Definition toLane (v : Z) : Z := v mod 256.

(** [x] is the word whose lane [b] is [f b]. *)
Definition lanewise (x : Z) (f : Z -> Z) : Prop :=
  is_word x /\ forall b, 0 <= b < 8 -> lane x b = f b.

(** The score of the left column minus the score of the right column after
    [n] rows: the left column starts at 0 and the right one at
    [scoreDifference]. *)
Definition diffBelow (leftVP leftVN rightVP rightVN scoreDifference : Z)
  (n : nat) : Z :=
  countBits n leftVP + countBits n rightVN
  - countBits n leftVN - countBits n rightVP - scoreDifference.

(** The invariant of the eight passes of [differenceMasks], after [t] of
    them. *)
Definition passInvariant (leftVP leftVN rightVP rightVN scoreDifference : Z)
  (t : nat) (s : DiffState) : Prop :=
  ds_leftVP s = Z.shiftr leftVP (Z.of_nat t) /\
  ds_leftVN s = Z.shiftr leftVN (Z.of_nat t) /\
  ds_rightVP s = Z.shiftr rightVP (Z.of_nat t) /\
  ds_rightVN s = Z.shiftr rightVN (Z.of_nat t) /\
  lanewise (ds_difference s)
    (fun b => toLane (diffBelow leftVP leftVN rightVP rightVN
                        scoreDifference (Z.to_nat (8 * b) + t))) /\
  (forall i, 0 <= i ->
     Z.testbit (ds_resultLeftSmallerThanRight s) i
     = (i <? 64) && (i mod 8 <? Z.of_nat t)
       && (diffBelow leftVP leftVN rightVP rightVN scoreDifference
             (S (Z.to_nat i)) <? 0)) /\
  (forall i, 0 <= i ->
     Z.testbit (ds_resultRightSmallerThanLeft s) i
     = (i <? 64) && (i mod 8 <? Z.of_nat t)
       && (0 <? diffBelow leftVP leftVN rightVP rightVN scoreDifference
                  (S (Z.to_nat i)))).

(** The invariant of the row loop of [differenceMasksCellByCell], after [t]
    rows. *)
Definition cellByCellInvariant
  (leftVP leftVN rightVP rightVN scoreDifference : Z) (t : nat)
  (s : CellByCellState) : Prop :=
  cbc_leftscore s = countBits t leftVP - countBits t leftVN /\
  cbc_rightscore s
    = scoreDifference + countBits t rightVP - countBits t rightVN /\
  cbc_leftVP s = Z.shiftr leftVP (Z.of_nat t) /\
  cbc_leftVN s = Z.shiftr leftVN (Z.of_nat t) /\
  cbc_rightVP s = Z.shiftr rightVP (Z.of_nat t) /\
  cbc_rightVN s = Z.shiftr rightVN (Z.of_nat t) /\
  (forall i, 0 <= i ->
     Z.testbit (cbc_leftSmaller s) i
     = (i <? Z.of_nat t)
       && (diffBelow leftVP leftVN rightVP rightVN scoreDifference
             (S (Z.to_nat i)) <? 0)) /\
  (forall i, 0 <= i ->
     Z.testbit (cbc_rightSmaller s) i
     = (i <? Z.of_nat t)
       && (0 <? diffBelow leftVP leftVN rightVP rightVN scoreDifference
                  (S (Z.to_nat i)))).

(** The score of row [k] of the column a slice implies: the score before the
    slice plus the vertical differences of the rows [0 .. k]. *)
Definition columnScore (scoreBefore VP VN : Z) (k : nat) : Z :=
  scoreBefore + countBits (S k) VP - countBits (S k) VN.

(** ** The invariant of a word slice *)

(** The score of the cell [k] rows into the column a slice describes; cell 0
    is the cell just above the slice. *)
Definition cellScore (s : WordSlice) (k : nat) : Z :=
  scoreBeforeStart s + countBits k (VP s) - countBits k (VN s).

(** The invariant as the specification words it (the assertions of
    [assertSliceCorrectness] on the slice itself). *)
Definition sliceInvariant (s : WordSlice) : Prop :=
  Z.land (VP s) (VN s) = 0 /\
  scoreEnd s = scoreBeforeStart s + popcount (VP s) - popcount (VN s) /\
  0 <= scoreEnd s /\
  0 <= scoreBeforeStart s /\
  Z.abs (scoreEnd s - scoreBeforeStart s) <= 64.

(** The inductive strengthening: the masks are 64-bit words, and none of
    the 65 cells of the column is negative. *)
Definition goodSlice (s : WordSlice) : Prop :=
  is_word (VP s) /\ is_word (VN s) /\
  Z.land (VP s) (VN s) = 0 /\
  scoreEnd s = cellScore s 64 /\
  forall k, (k <= 64)%nat -> 0 <= cellScore s k.

(** Carry into bit [n] of [a + b], and borrow into bit [n] of [a - b]. *)
Definition carryInto (a b n : Z) : bool := 2 ^ n <=? a mod 2 ^ n + b mod 2 ^ n.

Definition borrowInto (a b n : Z) : bool := a mod 2 ^ n <? b mod 2 ^ n.

(** Every slice stored in a column of node slices is well formed. *)
Definition slicesGood (slices : NodeSlice) : Prop :=
  forall n v, slices n = Some v -> Forall goodSlice v.

(** The slices of one node start no higher than the cells above them end:
    the last assertion of [assertSliceCorrectness]. *)
Definition vectorBelow (current previous : list WordSlice) : Prop :=
  List.length current = List.length previous /\
  forall w c p,
    nth_error current w = Some c -> nth_error previous w = Some p ->
    scoreBeforeStart c <= scoreEnd p.

Definition slicesBelow (previousBand : Band) (current previous : NodeSlice)
  : Prop :=
  forall n vc vp,
    inBand previousBand n = true ->
    current n = Some vc -> previous n = Some vp -> vectorBelow vc vp.

(** The invariant of the loop of [getNodeStartSlice] over the in-neighbours:
    both accumulated slices are well formed, and once a neighbour of the
    previous row block has been seen the accumulated slice starts no higher
    than the accumulated slice above it ends. *)
Definition startSliceInvariant (s : StartSliceState) : Prop :=
  goodSlice (ss_previous s) /\
  goodSlice (ss_previousUp s) /\
  (ss_foundOneUp s = true ->
   ss_foundOne s = true /\
   scoreBeforeStart (ss_previous s) <= scoreEnd (ss_previousUp s)).

(** The invariant of the slice vector that [calculateNode] fills for node
    [i]. *)
Definition vectorInvariant (previousSlice : NodeSlice) (previousBand : Band)
  (i : nat) (slice : list WordSlice) : Prop :=
  Forall goodSlice slice /\
  (inBand previousBand i = true ->
   forall vp, previousSlice i = Some vp -> vectorBelow slice vp).

(** [goodSlice] as a test. *)
Definition goodSliceb (s : WordSlice) : bool :=
  (0 <=? VP s) && (VP s <? modulus) && (0 <=? VN s) && (VN s <? modulus)
  && (Z.land (VP s) (VN s) =? 0)
  && (scoreEnd s =? cellScore s 64)
  && forallb (fun k => 0 <=? cellScore s k) (seq 0 65).

(** No cell of the column of [s] is below [m]. *)
Definition lowerBounded (m : Z) (s : WordSlice) : Prop :=
  forall k, (k <= 64)%nat -> m <= cellScore s k.

(** The cost of the diagonal step into a row. *)
Definition mismatchCost (matches : bool) : Z := if matches then 0 else 1.

(** The invariant of the row loop of [mergeTwoSlicesCellByCell], after [t]
    rows. *)
Definition mergeCellInvariant (left right : WordSlice) (t : nat)
  (s : MergeCellState) : Prop :=
  let M k := Z.min (cellScore left k) (cellScore right k) in
  mc_leftScore s = cellScore left t /\
  mc_rightScore s = cellScore right t /\
  mc_previousScore s = M t /\
  (forall i, 0 <= i ->
     Z.testbit (mc_VP s) i
     = (i <? Z.of_nat t)
       && (M (S (Z.to_nat i)) - M (Z.to_nat i) =? 1)) /\
  (forall i, 0 <= i ->
     Z.testbit (mc_VN s) i
     = (i <? Z.of_nat t)
       && (M (S (Z.to_nat i)) - M (Z.to_nat i) =? -1)).

(** ** Example inputs *)

(** Two nodes of two characters, [AC -> GT]. *)
Definition fastPathGraph : AlignmentGraph :=
  mkAlignmentGraph [0; 2]%nat [2; 4]%nat [0; 0; 1; 1]%nat
    [[]; [0%nat]] [[1%nat]; []]
    ["A"; "C"; "G"; "T"]%char [1; 2] [false; false] 0 9 9.

Definition fastPathRead : list ascii :=
  repeat "A"%char 63 ++ ["G"%char].


(** [cutCycles] on a graph without feedback cuts ([firstInOrder == 0]) returns
    at once. *)
Definition noCuts :
  nat -> list ascii -> Z -> Z -> Z -> Z -> NodeSlice -> NodeSlice ->
  Band -> Band -> list nat -> option NodeSlice :=
  fun _ _ _ _ _ _ currentSlice _ _ _ _ => Some currentSlice.

(** A band expander that keeps every node in the band. *)
Definition fullBandExpander (nodes : nat)
  : Band -> nat -> Z -> Band * list nat * list nat :=
  fun _ _ _ => (repeat true nodes, seq 0 nodes, []).


(** A read whose row 64 carries [C], the second character of node 0. *)
Definition forcedRead : list ascii :=
  repeat "A"%char 64 ++ repeat "C"%char 64.

(** The cells of node 0 in the column of rows 64..127 when its first cell
    has been computed: ten edits above the column, flat inside it. *)
Definition forcedCells : list WordSlice :=
  [mkWordSlice 0 0 10 10; defaultWordSlice].

(** Node 0 in the previous column: ten edits at every row boundary. *)
Definition previousColumn : NodeSlice :=
  setNode emptyNodeSlice 0 [mkWordSlice 0 0 10 10; mkWordSlice 0 0 10 10].

(** Node 0 in the current column, its first cell falling by one at row 0. *)
Definition fallingCells : list WordSlice :=
  [mkWordSlice 0 1 9 10; defaultWordSlice].

(** Both nodes three edits down at every row boundary of the previous
    column. *)
Definition levelColumn : NodeSlice :=
  setNode
    (setNode emptyNodeSlice 0 [mkWordSlice 0 0 3 3; mkWordSlice 0 0 3 3]) 1
    [mkWordSlice 0 0 3 3; mkWordSlice 0 0 3 3].

(** The current column when node 0 has been computed and node 1 has not. *)
Definition halfColumn : NodeSlice :=
  setNode
    (setNode emptyNodeSlice 0 [mkWordSlice 5 2 4 3; mkWordSlice 6 1 2 1]) 1
    [defaultWordSlice; defaultWordSlice].

(** ** Invariants of one column of the sweep *)

(** What the slices of the previous column owe to the minimum [m] that was
    reported for it.  Every stored slice ends at [m] or above. *)
Definition previousLower (m : Z) (previousSlice : NodeSlice) : Prop :=
  forall n v s, previousSlice n = Some v -> In s v -> m <= scoreEnd s.

(** Inside node [i] of the previous column, every slice ends at most one
    diagonal step above the cell before the end of the slice to its left;
    the cost of the step is the one the next column will use. *)
Definition previousHorizontal (graph : AlignmentGraph) (sequence : list ascii)
  (j : nat) (previousSlice : NodeSlice) (i : nat) : Prop :=
  forall vp pos w a b matches,
    previousSlice i = Some vp ->
    nth_error (nodeStart graph) i = Some pos ->
    nth_error vp w = Some a -> nth_error vp (S w) = Some b ->
    previousRowMatches graph sequence j (pos + S w) = Some matches ->
    scoreEnd b <= cellScore a 63 + mismatchCost matches.

(** The last slice of every in-neighbour of node [i] in the previous column
    ends no lower than [m] once the diagonal step into node [i] is paid. *)
Definition previousBoundary (graph : AlignmentGraph) (sequence : list ascii)
  (j : nat) (m : Z) (previousSlice : NodeSlice) (i : nat) : Prop :=
  forall neighbors n vp b pos matches,
    nth_error (inNeighbors graph) i = Some neighbors -> In n neighbors ->
    previousSlice n = Some vp -> back vp = Some b ->
    nth_error (nodeStart graph) i = Some pos ->
    previousRowMatches graph sequence j pos = Some matches ->
    m <= cellScore b 63 + mismatchCost matches.

(** The last slices of the in-neighbours of node [i] that the current
    column holds have no cell below [m]. *)
Definition neighboursReady (graph : AlignmentGraph) (m : Z)
  (currentBand : Band) (currentSlice : NodeSlice) (i : nat) : Prop :=
  forall neighbors n v b,
    nth_error (inNeighbors graph) i = Some neighbors -> In n neighbors ->
    inBand currentBand n = true ->
    currentSlice n = Some v -> back v = Some b ->
    lowerBounded m b.

(** The first [w] slices of the vector of a node are in place: no cell below
    [m], none starting above row [j], and each ending at most one diagonal
    step above its left neighbour. *)
Definition prefixValid (m : Z) (j : nat) (eqAt : nat -> option Z) (w : nat)
  (v : list WordSlice) : Prop :=
  (forall k s, (k < w)%nat -> nth_error v k = Some s ->
     lowerBounded m s /\ scoreBeforeStart s <= Z.of_nat j) /\
  (forall k a b Eq, (S k < w)%nat ->
     nth_error v k = Some a -> nth_error v (S k) = Some b ->
     eqAt (S k) = Some Eq ->
     scoreEnd b <= cellScore a 63 + (if Z.testbit Eq 63 then 0 else 1)).

(** The running minimum of [calculateNode] over the first [w] slices. *)
Definition minimumTracked (m : Z) (pos w : nat) (v : list WordSlice)
  (r : NodeCalculationResult) : Prop :=
  (forall k s, (k < w)%nat -> nth_error v k = Some s ->
     minScore r <= scoreEnd s) /\
  m <= minScore r /\
  (forall s, nth_error v (w - 1) = Some s -> scoreEnd s = minScore r ->
     minScoreIndex r = (pos + (w - 1))%nat).

(** No slice stored for the previous column ends above row [j]. *)
Definition previousUpper (j : nat) (previousSlice : NodeSlice) : Prop :=
  forall n v s, previousSlice n = Some v -> In s v ->
                scoreEnd s <= Z.of_nat j.

(** ** Invariants of the driver loops *)

(** Every entry of [vec] from index [a] to index [b], both included, is
    [true]. *)
Definition allTrue (vec : list bool) (a b : nat) : Prop :=
  forall k, (a <= k <= b)%nat -> nth k vec false = true.

(** The loop of [getLargestContiguousBlock] before it reads [vec[i]]: the
    current run is the [thisBlock] entries before [i]; no run that ended
    before it spans more than [maxBlockSize + 1] entries; and the recorded
    block is such a run as soon as one has ended. *)
Definition blockInvariant (vec : list bool) (i : nat) (s : BlockState)
  : Prop :=
  (thisBlock s <= i)%nat /\
  (forall k, (i - thisBlock s <= k < i)%nat -> nth k vec false = true) /\
  ((thisBlock s < i)%nat -> nth (i - thisBlock s - 1) vec false = false) /\
  (forall a b, (a <= b)%nat -> (b < i - thisBlock s)%nat ->
     allTrue vec a b -> (b - a <= maxBlockSize s)%nat) /\
  ((maxBlockSize s = 0%nat /\ maxBlockEnd s = 0%nat /\
    forall k, (k < i - thisBlock s)%nat -> nth k vec false = false) \/
   ((maxBlockSize s <= maxBlockEnd s)%nat /\
    (maxBlockEnd s < i - thisBlock s)%nat /\
    allTrue vec (maxBlockEnd s - maxBlockSize s) (maxBlockEnd s))).

(** The minimum that [calculateNode] reports, over the first [w] slices of
    the vector [v] of a node whose first character is at [pos]: it is below
    [ScoreMax] and below the end of each of these slices, and either it is
    still the initial [ScoreMax] with index 0, or it is the end of the slice
    at [minScoreIndex - pos], after which every slice ends higher. *)
Definition minimumAttained (ScoreMax : Z) (pos w : nat) (v : list WordSlice)
  (r : NodeCalculationResult) : Prop :=
  minScore r <= ScoreMax /\
  (forall k s, (k < w)%nat -> nth_error v k = Some s ->
     minScore r <= scoreEnd s) /\
  ((minScore r = ScoreMax /\ minScoreIndex r = 0%nat) \/
   exists k s,
     (k < w)%nat /\ nth_error v k = Some s /\
     scoreEnd s = minScore r /\ minScoreIndex r = (pos + k)%nat /\
     forall k' s', (k < k' < w)%nat -> nth_error v k' = Some s' ->
                   minScore r < scoreEnd s').

(** Whether the read character [c] sets its bit in the equality word of the
    graph character [base]: the component of [charEqualityMasks] that the
    [switch] of [getEq] selects for [base]. *)
Definition readAllows (c base : ascii) : bool :=
  let '(a, t, cc, g) := charEqualityMasks c in
  if Ascii.eqb base "A" then a
  else if Ascii.eqb base "T" then t
  else if Ascii.eqb base "C" then cc
  else if Ascii.eqb base "G" then g
  else false.

(** The word that the [switch] of [getEq] selects for [base]. *)
Definition maskFor (base : ascii) (masks : Z * Z * Z * Z) : Z :=
  let '(BA, BT, BC, BG) := masks in
  if Ascii.eqb base "A" then BA
  else if Ascii.eqb base "T" then BT
  else if Ascii.eqb base "C" then BC
  else if Ascii.eqb base "G" then BG
  else 0.

(** Pascal's triangle: the number of [k]-element subsets of [n] elements. *)
Fixpoint binomial (n k : nat) : Z :=
  match n, k with
  | _, O => 1
  | O, S _ => 0
  | S n', S k' => binomial n' k' + binomial n' (S k')
  end.

(** Every step of [scores], from [previous] on, rises by at least 0 and at
    most 64: the score differences for which the Viterbi estimator is
    defined. *)
Fixpoint stepsWithin (previous : Z) (scores : list Z) : Prop :=
  match scores with
  | [] => True
  | score :: rest => 0 <= score - previous <= 64 /\ stepsWithin score rest
  end.

(** The column that in-neighbour [neighbor] contributes to the first column
    of a node: its last slice in the current column when it is in the
    current band, and otherwise, when it is in the previous band, the source
    slice that starts at the end of its last slice in the previous column. *)
Definition entersFrom (previousSlice currentSlice : NodeSlice)
  (currentBand previousBand : Band) (neighbor : nat) (c : WordSlice)
  : Prop :=
  (inBand currentBand neighbor = true /\
   exists v, currentSlice neighbor = Some v /\ back v = Some c) \/
  (inBand currentBand neighbor = false /\
   inBand previousBand neighbor = true /\
   exists v b, previousSlice neighbor = Some v /\ back v = Some b /\
               c = getSourceSliceFromScore (scoreEnd b)).

(** The state an iteration of the backtrace loop leaves, whether it
    continues or breaks. *)
Definition loopState {S : Type} (r : LoopResult S) : S :=
  match r with
  | Continue s => s
  | Break s => s
  end.

(** The first recorded cell, when there is one, is [init]. *)
Definition anchored (init : ExpandoCell) (visited : list ExpandoCell)
  : Prop :=
  forall c, hd_error visited = Some c -> c = init.

(** One node of 128 characters [A]. *)
Definition lineGraph : AlignmentGraph :=
  mkAlignmentGraph [0%nat] [128%nat] (repeat 0%nat 128)
    [[]] [[]] (repeat "A"%char 128) [1] [false] 0 9 9.


(** What [getExtendedNodeBand] asks of the priority queue: an empty queue
    has no top, and [popMin] splits any other queue into an entry of least
    distance and the remaining entries. *)
Definition priorityQueue
  (popMin : list (nat * nat) -> option ((nat * nat) * list (nat * nat)))
  : Prop :=
  popMin [] = None /\
  forall queue, queue <> [] ->
    exists top rest,
      popMin queue = Some (top, rest) /\
      Permutation queue (top :: rest) /\
      forall entry, In entry queue -> (snd top <= snd entry)%nat.

(** A priority queue: the first entry of least distance. *)
Fixpoint popLeast (queue : list (nat * nat))
  : option ((nat * nat) * list (nat * nat)) :=
  match queue with
  | [] => None
  | x :: rest =>
      match popLeast rest with
      | None => Some (x, [])
      | Some (y, rest') =>
          if Nat.leb (snd x) (snd y) then Some (x, rest)
          else Some (y, x :: rest')
      end
  end.

(** The tables of the graph fit together: one entry per node in each, no
    node ends before it starts, and every out-neighbour is a node. *)
Definition graphTables (g : AlignmentGraph) : Prop :=
  List.length (nodeEnd g) = List.length (nodeStart g) /\
  List.length (outNeighbors g) = List.length (nodeStart g) /\
  (forall v s e,
     nth_error (nodeStart g) v = Some s -> nth_error (nodeEnd g) v = Some e ->
     (s <= e)%nat) /\
  (forall v neighbors x,
     nth_error (outNeighbors g) v = Some neighbors -> In x neighbors ->
     (x < List.length (nodeStart g))%nat).

(** Node [v] can be entered [d] characters after the start of node [seed]:
    by a walk along out-neighbours that pays the length of every node it
    leaves. *)
Inductive entered (g : AlignmentGraph) (seed : nat) : nat -> nat -> Prop :=
| entered_seed : entered g seed seed 0
| entered_step (u d v s e : nat) (neighbors : list nat) :
    entered g seed u d ->
    nth_error (nodeStart g) u = Some s ->
    nth_error (nodeEnd g) u = Some e ->
    nth_error (outNeighbors g) u = Some neighbors ->
    In v neighbors ->
    entered g seed v (d + e - s).

(** Number of out-edges of the nodes of [g] that are not in [visited]. *)
Definition pendingEdges (g : AlignmentGraph) (visited : list nat) : nat :=
  list_sum
    (map (fun v => if existsb (Nat.eqb v) visited then 0%nat
                   else List.length (nth v (outNeighbors g) []))
       (seq 0 (List.length (nodeStart g)))).

(** A priority queue over entries with a distance [key]. *)
Definition priorityQueueOn {A : Type} (key : A -> nat)
  (popMin : list A -> option (A * list A)) : Prop :=
  popMin [] = None /\
  forall queue, queue <> [] ->
    exists top rest,
      popMin queue = Some (top, rest) /\
      Permutation queue (top :: rest) /\
      forall entry, In entry queue -> (key top <= key entry)%nat.

(** A priority queue of band entries: the first entry of least distance. *)
Fixpoint popNearestFirst (queue : list BandEntry)
  : option (BandEntry * list BandEntry) :=
  match queue with
  | [] => None
  | x :: rest =>
      match popNearestFirst rest with
      | None => Some (x, [])
      | Some (y, rest') =>
          if Nat.leb (entryDistance x) (entryDistance y)
          then Some (x, rest)
          else Some (y, x :: rest')
      end
  end.

(** The tables that the band expansion reads fit together: one entry per
    node in each, no empty node, neighbours that are nodes, and every
    character position inside the node that [indexToNode] gives it. *)
Definition bandTables (g : AlignmentGraph) : Prop :=
  List.length (nodeEnd g) = List.length (nodeStart g) /\
  List.length (outNeighbors g) = List.length (nodeStart g) /\
  List.length (inNeighbors g) = List.length (nodeStart g) /\
  (forall v s e,
     nth_error (nodeStart g) v = Some s -> nth_error (nodeEnd g) v = Some e ->
     (s < e)%nat) /\
  (forall v neighbors x,
     nth_error (outNeighbors g) v = Some neighbors -> In x neighbors ->
     (x < List.length (nodeStart g))%nat) /\
  (forall v neighbors x,
     nth_error (inNeighbors g) v = Some neighbors -> In x neighbors ->
     (x < List.length (nodeStart g))%nat) /\
  (forall p n,
     nth_error (indexToNode g) p = Some n ->
     (n < List.length (nodeStart g))%nat /\
     forall s e,
       nth_error (nodeStart g) n = Some s ->
       nth_error (nodeEnd g) n = Some e -> (s <= p < e)%nat).

(** The neighbours the expansion follows from one side of a node: the
    out-neighbours from its end, the in-neighbours from its start. *)
Definition neighborsAt (g : AlignmentGraph) (isEnd : bool) (node : nat)
  : option (list nat) :=
  if isEnd then nth_error (outNeighbors g) node
  else nth_error (inNeighbors g) node.

(** Side [isEnd] of node [n] lies [d] characters from one of the start
    positions: the distance inside the node of a start position, or one
    more than the distance of the facing side of a neighbour, or the length
    of the node less one more than the distance of its other side. *)
Inductive expanded (g : AlignmentGraph) (positions : list nat)
  : nat -> bool -> nat -> Prop :=
| expanded_front (p n s : nat) :
    In p positions -> nth_error (indexToNode g) p = Some n ->
    nth_error (nodeStart g) n = Some s ->
    expanded g positions n false (p - s)
| expanded_back (p n e : nat) :
    In p positions -> nth_error (indexToNode g) p = Some n ->
    nth_error (nodeEnd g) n = Some e ->
    expanded g positions n true (e - p - 1)
| expanded_across (u : nat) (isEnd : bool) (d s e : nat) :
    expanded g positions u isEnd d ->
    nth_error (nodeStart g) u = Some s ->
    nth_error (nodeEnd g) u = Some e ->
    expanded g positions u (negb isEnd) (d + (e - s) - 1)
| expanded_neighbor (u : nat) (isEnd : bool) (d : nat)
    (neighbors : list nat) (v : nat) :
    expanded g positions u isEnd d ->
    neighborsAt g isEnd u = Some neighbors -> In v neighbors ->
    expanded g positions v (negb isEnd) (d + 1).

(** Node [n] holds a start position or has a side within [width] of
    one. *)
Definition withinBand (g : AlignmentGraph) (positions : list nat)
  (width : nat) (n : nat) : Prop :=
  (exists p, In p positions /\ nth_error (indexToNode g) p = Some n) \/
  exists isEnd d, (d <= width)%nat /\ expanded g positions n isEnd d.

(** The distance recorded for a side of a node. *)
Definition recordedAt (b : ExpandedBand) (isEnd : bool) (node : nat)
  : option nat :=
  if isEnd then eb_distanceAtNodeEnd b node
  else eb_distanceAtNodeStart b node.

(** Number of queue entries that the sides without a recorded distance can
    still cause: one for the other side of the node and one for each
    neighbour. *)
Definition pendingWork (g : AlignmentGraph) (b : ExpandedBand) : nat :=
  list_sum
    (map (fun v =>
            (match recordedAt b true v with
             | Some _ => 0
             | None => 1 + List.length (nth v (outNeighbors g) [])
             end
             + match recordedAt b false v with
               | Some _ => 0
               | None => 1 + List.length (nth v (inNeighbors g) [])
               end)%nat)
       (seq 0 (List.length (nodeStart g)))).

(** The start positions of [projectForwardAndExpandBand]: the minimum of
    the previous column and what [ProjectForward] makes of it. *)
Definition projectedPositions (ProjectForward : list nat -> Z -> list nat)
  (previousMinimumIndex : nat) : list nat :=
  setInsert previousMinimumIndex
    (ProjectForward [previousMinimumIndex] WordSize).

(** [ProjectForward] that finds nothing beyond the position it is given. *)
Definition projectNowhere (positions : list nat) (distance : Z)
  : list nat := positions.

(** * Properties *)

(** ** Bit-level facts about 64-bit words *)

Lemma modulus_eq : modulus = 2 ^ 64.
Proof. reflexivity. Qed.

Lemma testbit_wrap (x i : Z) :
  Z.testbit (wrap x) i = (i <? 64) && Z.testbit x i.
Proof.
  unfold wrap. rewrite modulus_eq. apply Z.testbit_mod_pow2. lia.
Qed.

Lemma wrap_is_word (x : Z) : is_word (wrap x).
Proof.
  unfold is_word, wrap. apply Z.mod_pos_bound. reflexivity.
Qed.

Lemma wrap_small (x : Z) : is_word x -> wrap x = x.
Proof. intros H. unfold wrap. apply Z.mod_small. exact H. Qed.

Lemma testbit_word_high (x i : Z) :
  is_word x -> 64 <= i -> Z.testbit x i = false.
Proof.
  intros H Hi. rewrite <- (wrap_small x H), testbit_wrap.
  replace (i <? 64) with false by (symmetry; apply Z.ltb_ge; lia).
  reflexivity.
Qed.

Lemma testbit_not (x i : Z) :
  0 <= i -> Z.testbit (not x) i = (i <? 64) && negb (Z.testbit x i).
Proof.
  intros Hi. unfold not. rewrite testbit_wrap, Z.lnot_spec by lia.
  reflexivity.
Qed.

Lemma is_word_of_bits (x : Z) :
  0 <= x -> (forall i, 64 <= i -> Z.testbit x i = false) -> is_word x.
Proof.
  intros Hx H. unfold is_word. split; [exact Hx|].
  destruct (Z.lt_ge_cases x modulus) as [Hlt|Hge]; [exact Hlt|].
  exfalso.
  assert (Hpos : 0 < x) by (unfold modulus in Hge; lia).
  pose proof (Z.bit_log2 x Hpos) as Hbit.
  assert (Hlog : 64 <= Z.log2 x).
  { apply Z.log2_le_pow2; [lia|]. exact Hge. }
  rewrite (H _ Hlog) in Hbit. discriminate.
Qed.

Lemma land_is_word_l (x y : Z) : is_word x -> is_word (Z.land x y).
Proof.
  intros Hx. apply is_word_of_bits.
  - apply Z.land_nonneg. left. apply Hx.
  - intros i Hi. rewrite Z.land_spec, (testbit_word_high x i Hx Hi).
    reflexivity.
Qed.

Lemma land_is_word_r (x y : Z) : is_word y -> is_word (Z.land x y).
Proof. rewrite Z.land_comm. apply land_is_word_l. Qed.

Lemma lor_is_word (x y : Z) : is_word x -> is_word y -> is_word (Z.lor x y).
Proof.
  intros Hx Hy. apply is_word_of_bits.
  - apply Z.lor_nonneg. split; [apply Hx | apply Hy].
  - intros i Hi.
    rewrite Z.lor_spec, (testbit_word_high x i Hx Hi),
      (testbit_word_high y i Hy Hi). reflexivity.
Qed.

Lemma lxor_is_word (x y : Z) :
  is_word x -> is_word y -> is_word (Z.lxor x y).
Proof.
  intros Hx Hy. apply is_word_of_bits.
  - apply Z.lxor_nonneg. split; intros _; [apply Hy | apply Hx].
  - intros i Hi.
    rewrite Z.lxor_spec, (testbit_word_high x i Hx Hi),
      (testbit_word_high y i Hy Hi). reflexivity.
Qed.

Lemma not_is_word (x : Z) : is_word (not x).
Proof. apply wrap_is_word. Qed.

(** A word tested against a one-bit mask, as C does with
    [x & (1 << k)]. *)
Lemma nonzero_land_bit (x k : Z) :
  0 <= k -> nonzero (Z.land x (2 ^ k)) = Z.testbit x k.
Proof.
  intros Hk. unfold nonzero.
  destruct (Z.testbit x k) eqn:Hb.
  - apply negb_true_iff, Z.eqb_neq. intros H0.
    assert (Hbit : Z.testbit (Z.land x (2 ^ k)) k = true).
    { rewrite Z.land_spec, Hb, Z.pow2_bits_true by lia. reflexivity. }
    rewrite H0, Z.bits_0 in Hbit. discriminate.
  - apply negb_false_iff, Z.eqb_eq. apply Z.bits_inj'. intros i Hi.
    rewrite Z.land_spec, Z.bits_0.
    destruct (Z.eq_dec i k) as [->|Hne].
    + rewrite Hb. reflexivity.
    + rewrite Z.pow2_bits_false by lia. apply andb_false_r.
Qed.

Lemma lastBitMask_eq : lastBitMask = 2 ^ 63.
Proof. reflexivity. Qed.

Lemma nonzero_lastBit (x : Z) :
  nonzero (Z.land x lastBitMask) = Z.testbit x 63.
Proof. rewrite lastBitMask_eq. apply nonzero_land_bit. lia. Qed.

Lemma nonzero_land_1 (x : Z) : nonzero (Z.land x 1) = Z.testbit x 0.
Proof. apply (nonzero_land_bit x 0). lia. Qed.

Lemma testbit_one (i : Z) : 0 <= i -> Z.testbit 1 i = (i =? 0).
Proof.
  intros Hi. destruct i as [|p|p]; [reflexivity| |lia].
  destruct p; reflexivity.
Qed.

Lemma word_one : is_word 1.
Proof. unfold is_word. rewrite modulus_eq. lia. Qed.

Lemma nonneg_of_high_bits (x : Z) :
  (forall i, 64 <= i -> Z.testbit x i = false) -> 0 <= x.
Proof.
  intros H. destruct (Z.neg_nonneg_cases x) as [Hneg|Hpos]; [|exact Hpos].
  exfalso.
  set (n := Z.max 64 (Z.log2 (Z.abs x) + 1)).
  assert (Hn : Z.log2 (Z.abs x) < n) by (unfold n; lia).
  pose proof (proj1 (Z.bits_iff_neg x n Hn) Hneg) as Hbit.
  rewrite H in Hbit by (unfold n; lia). discriminate Hbit.
Qed.

Lemma word_of_bits (x : Z) :
  (forall i, 64 <= i -> Z.testbit x i = false) -> is_word x.
Proof.
  intros H. apply is_word_of_bits; [apply nonneg_of_high_bits|]; exact H.
Qed.


(** ** Lane calculus *)

Lemma testbit_lane_split (a x i : Z) :
  byte a -> 0 <= i ->
  Z.testbit (a + 256 * x) i
  = if i <? 8 then Z.testbit a i else Z.testbit x (i - 8).
Proof.
  intros Ha Hi. unfold byte in Ha.
  assert (Hmod : (a + 256 * x) mod 2 ^ 8 = a).
  { change (2 ^ 8) with 256. rewrite (Z.mul_comm 256 x), Z.mod_add by lia.
    apply Z.mod_small. exact Ha. }
  assert (Hdiv : (a + 256 * x) / 2 ^ 8 = x).
  { change (2 ^ 8) with 256. rewrite (Z.mul_comm 256 x), Z.div_add by lia.
    rewrite Z.div_small by exact Ha. lia. }
  destruct (Z.ltb_spec i 8) as [Hlt|Hge].
  - rewrite <- Hmod at 2. rewrite Z.mod_pow2_bits_low by lia. reflexivity.
  - rewrite <- Hdiv at 2. rewrite Z.div_pow2_bits by lia.
    f_equal. lia.
Qed.

Lemma byte_testbit_high (a i : Z) : byte a -> 8 <= i -> Z.testbit a i = false.
Proof.
  intros Ha Hi. unfold byte in Ha.
  destruct (Z.eq_dec a 0) as [->|Hne]; [apply Z.bits_0|].
  apply Z.bits_above_log2; [lia|].
  assert (Z.log2 a < 8); [|lia].
  apply Z.log2_lt_pow2; lia.
Qed.

Lemma byte_of_bits (a : Z) :
  0 <= a -> (forall i, 8 <= i -> Z.testbit a i = false) -> byte a.
Proof.
  intros Ha H. split; [exact Ha|].
  destruct (Z.lt_ge_cases a 256) as [Hlt|Hge]; [exact Hlt|].
  exfalso.
  assert (Hpos : 0 < a) by lia.
  pose proof (Z.bit_log2 a Hpos) as Hbit.
  assert (Hlog : 8 <= Z.log2 a).
  { apply Z.log2_le_pow2; [lia|]. exact Hge. }
  rewrite (H _ Hlog) in Hbit. discriminate.
Qed.

Lemma pack_nonneg (l : list Z) : Forall byte l -> 0 <= pack l.
Proof.
  induction 1 as [|a l Ha _ IH]; cbn [pack]; [lia|].
  unfold byte in Ha. lia.
Qed.

Lemma pack_bound (l : list Z) :
  Forall byte l -> 0 <= pack l < 256 ^ Z.of_nat (List.length l).
Proof.
  induction 1 as [|a l Ha _ IH]; cbn [pack List.length]; [cbn; lia|].
  rewrite Nat2Z.inj_succ, Z.pow_succ_r by lia.
  unfold byte in Ha. lia.
Qed.

Lemma pack_is_word (l : list Z) :
  Forall byte l -> List.length l = 8%nat -> is_word (pack l).
Proof.
  intros Hl Hlen. pose proof (pack_bound l Hl) as Hb.
  rewrite Hlen in Hb. exact Hb.
Qed.

Lemma lanesOf_length (n : nat) : forall x, List.length (lanesOf n x) = n.
Proof.
  induction n as [|n IH]; intros x; cbn [lanesOf List.length];
    [reflexivity|]. rewrite IH. reflexivity.
Qed.

Lemma lanesOf_byte (n : nat) : forall x, Forall byte (lanesOf n x).
Proof.
  induction n as [|n IH]; intros x; cbn [lanesOf]; constructor.
  - apply Z.mod_pos_bound. lia.
  - apply IH.
Qed.

Lemma pack_lanesOf (n : nat) :
  forall x, 0 <= x < 256 ^ Z.of_nat n -> pack (lanesOf n x) = x.
Proof.
  induction n as [|n IH]; intros x Hx; cbn [lanesOf pack].
  - cbn in Hx. lia.
  - rewrite Nat2Z.inj_succ, Z.pow_succ_r in Hx by lia.
    rewrite IH.
    + pose proof (Z.div_mod x 256 ltac:(lia)). lia.
    + split; [apply Z.div_pos; lia|].
      apply Z.div_lt_upper_bound; lia.
Qed.

Lemma pack_lanes (x : Z) : is_word x -> pack (lanes x) = x.
Proof. intros Hx. apply pack_lanesOf. exact Hx. Qed.

Lemma lanes_length (x : Z) : List.length (lanes x) = 8%nat.
Proof. apply lanesOf_length. Qed.

Lemma lanes_byte (x : Z) : Forall byte (lanes x).
Proof. apply lanesOf_byte. Qed.

Lemma zipWith_length {A B C : Type} (f : A -> B -> C) (l1 : list A) :
  forall l2, List.length l1 = List.length l2 ->
             List.length (zipWith f l1 l2) = List.length l1.
Proof.
  induction l1 as [|a r1 IH]; intros [|b r2] H; cbn in *; try lia.
  rewrite IH; lia.
Qed.

Lemma pack_add (l1 : list Z) :
  forall l2, List.length l1 = List.length l2 ->
             pack (zipWith Z.add l1 l2) = pack l1 + pack l2.
Proof.
  induction l1 as [|a r1 IH]; intros [|b r2] H; cbn in H; try lia;
    cbn [zipWith pack]; [reflexivity|].
  rewrite IH by lia. lia.
Qed.

Lemma pack_sub (l1 : list Z) :
  forall l2, List.length l1 = List.length l2 ->
             pack (zipWith Z.sub l1 l2) = pack l1 - pack l2.
Proof.
  induction l1 as [|a r1 IH]; intros [|b r2] H; cbn in H; try lia;
    cbn [zipWith pack]; [reflexivity|].
  rewrite IH by lia. lia.
Qed.

Lemma pack_scale (c : Z) (l : list Z) :
  pack (map (Z.mul c) l) = c * pack l.
Proof.
  induction l as [|a r IH]; cbn [map pack]; [lia|]. rewrite IH. lia.
Qed.

(** A lane-wise bit operation. *)
Lemma pack_bitwise (op : Z -> Z -> Z) (f : bool -> bool -> bool) :
  f false false = false ->
  (forall a b i, 0 <= i ->
     Z.testbit (op a b) i = f (Z.testbit a i) (Z.testbit b i)) ->
  (forall a b, 0 <= a -> 0 <= b -> 0 <= op a b) ->
  forall l1 l2,
    Forall byte l1 -> Forall byte l2 ->
    List.length l1 = List.length l2 ->
    op (pack l1) (pack l2) = pack (zipWith op l1 l2) /\
    Forall byte (zipWith op l1 l2).
Proof.
  intros Hff Hop Hpos l1.
  assert (Hzero : op 0 0 = 0).
  { apply Z.bits_inj'. intros i Hi. rewrite Hop, !Z.bits_0 by exact Hi.
    exact Hff. }
  induction l1 as [|a r1 IH]; intros [|b r2] H1 H2 Hlen; cbn in Hlen;
    try lia; cbn [zipWith pack].
  - split; [exact Hzero|constructor].
  - inversion H1 as [|? ? Ha Hr1]; subst.
    inversion H2 as [|? ? Hb Hr2]; subst.
    destruct (IH r2 Hr1 Hr2 ltac:(lia)) as [IHeq IHbyte].
    assert (Hab : byte (op a b)).
    { apply byte_of_bits.
      - apply Hpos; [apply Ha|apply Hb].
      - intros i Hi. rewrite Hop by lia.
        rewrite (byte_testbit_high a i Ha Hi), (byte_testbit_high b i Hb Hi).
        exact Hff. }
    split; [|constructor; assumption].
    rewrite <- IHeq. apply Z.bits_inj'. intros i Hi.
    rewrite Hop, !testbit_lane_split by assumption.
    destruct (i <? 8) eqn:Hlt.
    + rewrite Hop by exact Hi. reflexivity.
    + apply Z.ltb_ge in Hlt. rewrite Hop by lia. reflexivity.
Qed.

Lemma pack_land (l1 l2 : list Z) :
  Forall byte l1 -> Forall byte l2 -> List.length l1 = List.length l2 ->
  Z.land (pack l1) (pack l2) = pack (zipWith Z.land l1 l2).
Proof.
  intros H1 H2 Hlen.
  apply (pack_bitwise Z.land andb); try assumption; try reflexivity.
  - intros a b i _. apply Z.land_spec.
  - intros a b Ha Hb. apply Z.land_nonneg. left. exact Ha.
Qed.

Lemma pack_lor (l1 l2 : list Z) :
  Forall byte l1 -> Forall byte l2 -> List.length l1 = List.length l2 ->
  Z.lor (pack l1) (pack l2) = pack (zipWith Z.lor l1 l2).
Proof.
  intros H1 H2 Hlen.
  apply (pack_bitwise Z.lor orb); try assumption; try reflexivity.
  - intros a b i _. apply Z.lor_spec.
  - intros a b Ha Hb. apply Z.lor_nonneg. split; assumption.
Qed.

Lemma pack_lxor (l1 l2 : list Z) :
  Forall byte l1 -> Forall byte l2 -> List.length l1 = List.length l2 ->
  Z.lxor (pack l1) (pack l2) = pack (zipWith Z.lxor l1 l2).
Proof.
  intros H1 H2 Hlen.
  apply (pack_bitwise Z.lxor xorb); try assumption; try reflexivity.
  - intros a b i _. apply Z.lxor_spec.
  - intros a b Ha Hb. apply Z.lxor_nonneg. split; intros _; assumption.
Qed.

(** *** Lanes as a function of the lane index *)

Lemma lane_div_mod (x b : Z) :
  0 <= b -> lane x b = (x / 256 ^ b) mod 256.
Proof.
  intros Hb. unfold lane. change 255 with (Z.ones 8).
  rewrite Z.land_ones, Z.shiftr_div_pow2 by lia.
  rewrite Z.pow_mul_r by lia. reflexivity.
Qed.

Lemma lane_byte (x b : Z) : 0 <= b -> byte (lane x b).
Proof.
  intros Hb. rewrite lane_div_mod by exact Hb.
  apply Z.mod_pos_bound. lia.
Qed.

Lemma testbit_lane (x b t : Z) :
  0 <= b -> 0 <= t ->
  Z.testbit (lane x b) t = (t <? 8) && Z.testbit x (8 * b + t).
Proof.
  intros Hb Ht. unfold lane. change 255 with (Z.ones 8).
  rewrite Z.land_spec, Z.shiftr_spec, Z.testbit_ones_nonneg by lia.
  replace (t + 8 * b) with (8 * b + t) by lia.
  destruct (t <? 8); [apply andb_true_r|apply andb_false_r].
Qed.

Lemma nth_lanesOf (n : nat) :
  forall x b, (b < n)%nat ->
              nth b (lanesOf n x) 0 = lane x (Z.of_nat b).
Proof.
  induction n as [|n IH]; intros x b Hb; [lia|].
  cbn [lanesOf]. destruct b as [|b].
  - cbn [nth]. rewrite lane_div_mod by lia. cbn. rewrite Z.div_1_r.
    reflexivity.
  - cbn [nth]. rewrite IH by lia. rewrite !lane_div_mod by lia.
    rewrite Nat2Z.inj_succ, Z.pow_succ_r by lia.
    rewrite Z.div_div by lia. reflexivity.
Qed.

Lemma lane_pack (l : list Z) (b : nat) :
  Forall byte l -> lane (pack l) (Z.of_nat b) = nth b l 0.
Proof.
  intros Hl. revert b. induction Hl as [|a l Ha Hl IH]; intros b.
  - cbn [pack]. destruct b; cbn [nth]; unfold lane;
      rewrite Z.shiftr_0_l; reflexivity.
  - cbn [pack]. destruct b as [|b]; cbn [nth].
    + rewrite lane_div_mod by lia. change (Z.of_nat 0) with 0.
      rewrite Z.pow_0_r, Z.div_1_r.
      rewrite (Z.mul_comm 256), Z.mod_add by lia.
      apply Z.mod_small. exact Ha.
    + rewrite <- IH. rewrite !lane_div_mod by lia.
      rewrite Nat2Z.inj_succ, Z.pow_succ_r by lia.
      rewrite <- Z.div_div by lia.
      rewrite (Z.mul_comm 256 (pack l)), Z.div_add by lia.
      rewrite (Z.div_small a 256) by exact Ha. reflexivity.
Qed.

Lemma lane_high (x b : Z) : is_word x -> 8 <= b -> lane x b = 0.
Proof.
  intros Hx Hb. apply Z.bits_inj'. intros t Ht.
  rewrite testbit_lane, Z.bits_0 by lia.
  rewrite (testbit_word_high x (8 * b + t) Hx) by lia.
  apply andb_false_r.
Qed.

(** Two words with the same lanes are equal. *)
Lemma lane_ext (x y : Z) :
  is_word x -> is_word y ->
  (forall b, 0 <= b < 8 -> lane x b = lane y b) -> x = y.
Proof.
  intros Hx Hy H. apply Z.bits_inj'. intros i Hi.
  destruct (Z.lt_ge_cases i 64) as [Hlt|Hge].
  - pose proof (Z.div_mod i 8 ltac:(lia)) as Hdm.
    pose proof (Z.mod_pos_bound i 8 ltac:(lia)) as Hm.
    assert (Hq : 0 <= i / 8 < 8).
    { split; [apply Z.div_pos; lia|apply Z.div_lt_upper_bound; lia]. }
    pose proof (testbit_lane x (i / 8) (i mod 8) ltac:(lia) ltac:(lia)) as Tx.
    pose proof (testbit_lane y (i / 8) (i mod 8) ltac:(lia) ltac:(lia)) as Ty.
    rewrite (H (i / 8) Hq) in Tx. rewrite Tx in Ty.
    replace (i mod 8 <? 8) with true in Ty
      by (symmetry; apply Z.ltb_lt; lia).
    cbn [andb] in Ty. rewrite <- Hdm in Ty. exact Ty.
  - rewrite (testbit_word_high x i Hx Hge), (testbit_word_high y i Hy Hge).
    reflexivity.
Qed.

Lemma lane_land (x y b : Z) :
  0 <= b -> lane (Z.land x y) b = Z.land (lane x b) (lane y b).
Proof.
  intros Hb. apply Z.bits_inj'. intros t Ht.
  rewrite Z.land_spec, !testbit_lane, Z.land_spec by lia.
  destruct (t <? 8), (Z.testbit x (8 * b + t)), (Z.testbit y (8 * b + t));
    reflexivity.
Qed.

Lemma lane_lor (x y b : Z) :
  0 <= b -> lane (Z.lor x y) b = Z.lor (lane x b) (lane y b).
Proof.
  intros Hb. apply Z.bits_inj'. intros t Ht.
  rewrite Z.lor_spec, !testbit_lane, Z.lor_spec by lia.
  destruct (t <? 8), (Z.testbit x (8 * b + t)), (Z.testbit y (8 * b + t));
    reflexivity.
Qed.

Lemma lane_lxor (x y b : Z) :
  0 <= b -> lane (Z.lxor x y) b = Z.lxor (lane x b) (lane y b).
Proof.
  intros Hb. apply Z.bits_inj'. intros t Ht.
  rewrite Z.lxor_spec, !testbit_lane, Z.lxor_spec by lia.
  destruct (t <? 8), (Z.testbit x (8 * b + t)), (Z.testbit y (8 * b + t));
    reflexivity.
Qed.

Lemma lanes_nth (x : Z) (b : nat) :
  (b < 8)%nat -> nth b (lanes x) 0 = lane x (Z.of_nat b).
Proof. apply nth_lanesOf. Qed.

Lemma nth_zipWith (f : Z -> Z -> Z) (l1 : list Z) :
  forall l2 b,
    List.length l1 = List.length l2 -> (b < List.length l1)%nat ->
    nth b (zipWith f l1 l2) 0 = f (nth b l1 0) (nth b l2 0).
Proof.
  induction l1 as [|a r1 IH]; intros [|c r2] b Hlen Hb; cbn in Hlen, Hb;
    try lia.
  destruct b as [|b]; cbn [zipWith nth]; [reflexivity|].
  apply IH; lia.
Qed.

Lemma Forall_zipWith (P : Z -> Prop) (f : Z -> Z -> Z) (l1 : list Z) :
  forall l2,
    List.length l1 = List.length l2 ->
    (forall b, (b < List.length l1)%nat -> P (f (nth b l1 0) (nth b l2 0))) ->
    Forall P (zipWith f l1 l2).
Proof.
  induction l1 as [|a r1 IH]; intros [|c r2] Hlen H; cbn in Hlen; try lia;
    cbn [zipWith]; constructor.
  - apply (H 0%nat). cbn. lia.
  - apply IH; [lia|]. intros b Hb. apply (H (S b)). cbn. lia.
Qed.

(** Addition and subtraction of words act on the lanes when no lane
    overflows or underflows. *)
Lemma lane_add (x y : Z) :
  is_word x -> is_word y ->
  (forall b, 0 <= b < 8 -> lane x b + lane y b < 256) ->
  forall b, 0 <= b < 8 -> lane (add x y) b = lane x b + lane y b.
Proof.
  intros Hx Hy Hno b Hb.
  assert (Hlen : List.length (lanes x) = List.length (lanes y))
    by (rewrite !lanes_length; reflexivity).
  assert (Hbytes : Forall byte (zipWith Z.add (lanes x) (lanes y))).
  { apply Forall_zipWith; [exact Hlen|]. intros k Hk.
    rewrite lanes_length in Hk. rewrite !lanes_nth by exact Hk.
    pose proof (lane_byte x (Z.of_nat k) ltac:(lia)) as B1.
    pose proof (lane_byte y (Z.of_nat k) ltac:(lia)) as B2.
    specialize (Hno (Z.of_nat k) ltac:(lia)). unfold byte in *. lia. }
  unfold add. rewrite <- (pack_lanes x Hx) at 1.
  rewrite <- (pack_lanes y Hy) at 1. rewrite <- pack_add by exact Hlen.
  rewrite wrap_small.
  - replace b with (Z.of_nat (Z.to_nat b)) by lia.
    rewrite lane_pack by exact Hbytes.
    rewrite nth_zipWith by (rewrite ?lanes_length; lia).
    rewrite !lanes_nth by lia. reflexivity.
  - apply pack_is_word; [exact Hbytes|].
    rewrite zipWith_length, lanes_length; [reflexivity|exact Hlen].
Qed.

Lemma lane_sub (x y : Z) :
  is_word x -> is_word y ->
  (forall b, 0 <= b < 8 -> lane y b <= lane x b) ->
  forall b, 0 <= b < 8 -> lane (sub x y) b = lane x b - lane y b.
Proof.
  intros Hx Hy Hno b Hb.
  assert (Hlen : List.length (lanes x) = List.length (lanes y))
    by (rewrite !lanes_length; reflexivity).
  assert (Hbytes : Forall byte (zipWith Z.sub (lanes x) (lanes y))).
  { apply Forall_zipWith; [exact Hlen|]. intros k Hk.
    rewrite lanes_length in Hk. rewrite !lanes_nth by exact Hk.
    pose proof (lane_byte x (Z.of_nat k) ltac:(lia)) as B1.
    pose proof (lane_byte y (Z.of_nat k) ltac:(lia)) as B2.
    specialize (Hno (Z.of_nat k) ltac:(lia)). unfold byte in *. lia. }
  unfold sub. rewrite <- (pack_lanes x Hx) at 1.
  rewrite <- (pack_lanes y Hy) at 1. rewrite <- pack_sub by exact Hlen.
  rewrite wrap_small.
  - replace b with (Z.of_nat (Z.to_nat b)) by lia.
    rewrite lane_pack by exact Hbytes.
    rewrite nth_zipWith by (rewrite ?lanes_length; lia).
    rewrite !lanes_nth by lia. reflexivity.
  - apply pack_is_word; [exact Hbytes|].
    rewrite zipWith_length, lanes_length; [reflexivity|exact Hlen].
Qed.

(** *** Exhaustive checks over bytes *)

Lemma checkBytes_sound (f : Z -> bool) :
  checkBytes f = true -> forall a, byte a -> f a = true.
Proof.
  unfold checkBytes. intros H a Ha. rewrite forallb_forall in H.
  apply H. apply in_map_iff. exists (Z.to_nat a). unfold byte in Ha.
  split; [lia|]. apply in_seq. lia.
Qed.

Lemma checkBits_sound (f : Z -> bool) :
  checkBits f = true -> forall a, 0 <= a <= 1 -> f a = true.
Proof.
  unfold checkBits. intros H a Ha. apply andb_true_iff in H.
  destruct H as [H0 H1].
  assert (Hcases : a = 0 \/ a = 1) by lia.
  destruct Hcases as [-> | ->]; assumption.
Qed.

Lemma bitAt_range (x t : Z) : 0 <= bitAt x t <= 1.
Proof. unfold bitAt. destruct (Z.testbit x t); cbn; lia. Qed.

Lemma byte_lxor_255 (a : Z) : byte a -> Z.lxor a 255 = 255 - a.
Proof.
  intros Ha. apply Z.eqb_eq.
  apply (checkBytes_sound (fun a => Z.lxor a 255 =? 255 - a)); [|exact Ha].
  vm_compute. reflexivity.
Qed.

Lemma testbit_255 (t : Z) : 0 <= t -> Z.testbit 255 t = (t <? 8).
Proof.
  intros Ht. change 255 with (Z.ones 8). apply Z.testbit_ones_nonneg; lia.
Qed.

Lemma lane_not (x b : Z) :
  is_word x -> 0 <= b < 8 -> lane (not x) b = 255 - lane x b.
Proof.
  intros Hx Hb. rewrite <- byte_lxor_255 by (apply lane_byte; lia).
  apply Z.bits_inj'. intros t Ht.
  rewrite Z.lxor_spec, !testbit_lane, testbit_not, testbit_255 by lia.
  destruct (Z.ltb_spec t 8) as [Hlt|Hge]; [|reflexivity].
  replace (8 * b + t <? 64) with true by (symmetry; apply Z.ltb_lt; lia).
  cbn [andb]. destruct (Z.testbit x (8 * b + t)); reflexivity.
Qed.

Lemma lane_repeat (m b : Z) :
  byte m -> 0 <= b < 8 -> lane (pack (repeat m 8)) b = m.
Proof.
  intros Hm Hb. replace b with (Z.of_nat (Z.to_nat b)) by lia.
  rewrite lane_pack by (apply Forall_forall; intros y Hy;
                        apply repeat_spec in Hy; subst; exact Hm).
  apply nth_repeat_lt. lia.
Qed.

Lemma lane_SignMask (b : Z) : 0 <= b < 8 -> lane SignMask b = 128.
Proof.
  intros Hb. change SignMask with (pack (repeat 128 8)).
  apply lane_repeat; [unfold byte; lia|exact Hb].
Qed.

Lemma lane_LSBMask (b : Z) : 0 <= b < 8 -> lane LSBMask b = 1.
Proof.
  intros Hb. change LSBMask with (pack (repeat 1 8)).
  apply lane_repeat; [unfold byte; lia|exact Hb].
Qed.

Lemma lane_zero (b : Z) : lane 0 b = 0.
Proof. unfold lane. rewrite Z.shiftr_0_l. reflexivity. Qed.

(** A right shift whose mask removes the bits that come from the next
    lane. *)
Lemma lane_shr_masked (x m k b : Z) :
  0 <= k -> 0 <= b ->
  (forall t, 8 - k <= t < 8 -> Z.testbit (lane m b) t = false) ->
  lane (Z.land (shr x k) m) b = Z.land (Z.shiftr (lane x b) k) (lane m b).
Proof.
  intros Hk Hb Hm. apply Z.bits_inj'. intros t Ht.
  rewrite testbit_lane, !Z.land_spec by lia. unfold shr.
  rewrite !Z.shiftr_spec, !testbit_lane by lia.
  replace (8 * b + t + k) with (8 * b + (t + k)) by lia.
  destruct (Z.ltb_spec t 8) as [Hlt|Hge];
    [|cbn [andb]; rewrite andb_false_r; reflexivity].
  cbn [andb]. destruct (Z.ltb_spec (t + k) 8) as [Hlt'|Hge']; [reflexivity|].
  specialize (Hm t ltac:(lia)). rewrite testbit_lane in Hm by lia.
  replace (t <? 8) with true in Hm by (symmetry; apply Z.ltb_lt; lia).
  cbn [andb] in Hm. rewrite Hm. apply andb_false_r.
Qed.

(** A right shift of a word whose lanes have their low [k] bits clear. *)
Lemma lane_shr_aligned (x k b : Z) :
  0 <= k <= 8 -> 0 <= b ->
  (forall t, 0 <= t < k -> Z.testbit (lane x (b + 1)) t = false) ->
  lane (shr x k) b = Z.shiftr (lane x b) k.
Proof.
  intros Hk Hb Hx. apply Z.bits_inj'. intros t Ht. unfold shr.
  rewrite testbit_lane, !Z.shiftr_spec, testbit_lane by lia.
  replace (8 * b + t + k) with (8 * b + (t + k)) by lia.
  destruct (Z.ltb_spec t 8) as [Hlt|Hge].
  - cbn [andb]. destruct (Z.ltb_spec (t + k) 8) as [Hlt'|Hge'];
      [reflexivity|].
    specialize (Hx (t + k - 8) ltac:(lia)).
    rewrite testbit_lane in Hx by lia.
    replace (t + k - 8 <? 8) with true in Hx
      by (symmetry; apply Z.ltb_lt; lia).
    cbn [andb] in Hx.
    replace (8 * (b + 1) + (t + k - 8)) with (8 * b + (t + k)) in Hx by lia.
    exact Hx.
  - cbn [andb]. replace (t + k <? 8) with false
      by (symmetry; apply Z.ltb_ge; lia). reflexivity.
Qed.

(** [x << 8] moves every lane up by one. *)
Lemma lane_shl_8 (x b : Z) :
  0 <= b < 8 ->
  lane (shl x 8) b = if b =? 0 then 0 else lane x (b - 1).
Proof.
  intros Hb. apply Z.bits_inj'. intros t Ht. unfold shl.
  rewrite testbit_lane, testbit_wrap by lia.
  destruct (Z.eqb_spec b 0) as [->|Hne].
  - rewrite Z.bits_0.
    destruct (Z.ltb_spec t 8) as [Hlt|Hge]; [|reflexivity].
    rewrite Z.shiftl_spec_low by lia. rewrite andb_false_r. reflexivity.
  - rewrite testbit_lane by lia.
    destruct (Z.ltb_spec t 8) as [Hlt|Hge]; [|reflexivity].
    replace (8 * b + t <? 64) with true by (symmetry; apply Z.ltb_lt; lia).
    cbn [andb]. rewrite Z.shiftl_spec by lia. f_equal. lia.
Qed.

(** An unmasked right shift brings the low bits of the next lane in. *)
Lemma lane_shr (x k b : Z) :
  0 <= k <= 8 -> 0 <= b ->
  lane (shr x k) b
  = Z.shiftr (lane x b) k + 2 ^ (8 - k) * (lane x (b + 1) mod 2 ^ k).
Proof.
  intros Hk Hb.
  set (hi := Z.shiftl (Z.land (lane x (b + 1)) (Z.ones k)) (8 - k)).
  assert (Hhi : 2 ^ (8 - k) * (lane x (b + 1) mod 2 ^ k) = hi).
  { unfold hi. rewrite Z.land_ones, Z.shiftl_mul_pow2 by lia. lia. }
  rewrite Hhi.
  assert (Hdisj : Z.land (Z.shiftr (lane x b) k) hi = 0).
  { apply Z.bits_inj'. intros t Ht. unfold hi.
    rewrite Z.land_spec, Z.shiftr_spec, Z.bits_0, testbit_lane by lia.
    destruct (Z.ltb_spec (t + k) 8) as [Hlt|Hge]; [|reflexivity].
    rewrite Z.shiftl_spec_low by lia. apply andb_false_r. }
  rewrite <- Z.add_lor_land, Hdisj, Z.add_0_r.
  apply Z.bits_inj'. intros t Ht. unfold shr, hi.
  rewrite Z.lor_spec, testbit_lane, !Z.shiftr_spec, testbit_lane by lia.
  replace (8 * b + t + k) with (8 * b + (t + k)) by lia.
  destruct (Z.ltb_spec t 8) as [Hlt|Hge].
  - cbn [andb]. destruct (Z.ltb_spec (t + k) 8) as [Hlt'|Hge'].
    + cbn [andb]. rewrite Z.shiftl_spec_low by lia.
      rewrite orb_false_r. reflexivity.
    + cbn [andb orb]. rewrite Z.shiftl_spec by lia.
      rewrite Z.land_spec, testbit_lane, Z.testbit_ones_nonneg by lia.
      replace (t - (8 - k) <? 8) with true
        by (symmetry; apply Z.ltb_lt; lia).
      replace (t - (8 - k) <? k) with true
        by (symmetry; apply Z.ltb_lt; lia).
      cbn [andb]. rewrite andb_true_r. f_equal. lia.
  - cbn [andb]. replace (t + k <? 8) with false
      by (symmetry; apply Z.ltb_ge; lia).
    cbn [andb orb]. rewrite Z.shiftl_spec by lia.
    rewrite Z.land_spec, Z.testbit_ones_nonneg by lia.
    replace (t - (8 - k) <? k) with false
      by (symmetry; apply Z.ltb_ge; lia).
    rewrite andb_false_r. reflexivity.
Qed.

Lemma shr_is_word (x k : Z) : is_word x -> 0 <= k -> is_word (shr x k).
Proof.
  intros Hx Hk. unfold shr, is_word in *. rewrite Z.shiftr_div_pow2 by lia.
  assert (Hp : 0 < 2 ^ k) by (apply Z.pow_pos_nonneg; lia).
  split; [apply Z.div_pos; lia|].
  apply Z.div_lt_upper_bound; [lia|]. nia.
Qed.

Lemma lane_any_high (x b : Z) : is_word x -> 0 <= b -> ~ b < 8 -> lane x b = 0.
Proof. intros Hx Hb Hn. apply lane_high; [exact Hx|lia]. Qed.

(** *** [ChunkPopcounts] counts the bits of every lane *)

Lemma popLane1_check (a : Z) :
  byte a -> Z.land (Z.shiftr a 1) 0x55 <= a.
Proof.
  intros Ha. apply Z.leb_le.
  apply (checkBytes_sound (fun a => Z.land (Z.shiftr a 1) 0x55 <=? a));
    [vm_compute; reflexivity|exact Ha].
Qed.

Lemma popLane2_check (a : Z) :
  byte a ->
  Z.land (popLane1 a) 0x33 + Z.land (Z.shiftr (popLane1 a) 2) 0x33 < 256.
Proof.
  intros Ha. apply Z.ltb_lt.
  apply (checkBytes_sound
           (fun a => Z.land (popLane1 a) 0x33
                     + Z.land (Z.shiftr (popLane1 a) 2) 0x33 <? 256));
    [vm_compute; reflexivity|exact Ha].
Qed.

Lemma popLane3_check (a next : Z) :
  byte a -> byte next ->
  let u := popLane2 (popLane1 a) in
  let v := popLane2 (popLane1 next) in
  u + (Z.shiftr u 4 + 16 * (v mod 16)) < 256 /\
  popLane3 u v = countBits 8 a.
Proof.
  intros Ha Hn. cbv zeta.
  pose proof (checkBytes_sound
    (fun a => checkBytes (fun next =>
       let u := popLane2 (popLane1 a) in
       let v := popLane2 (popLane1 next) in
       (u + (Z.shiftr u 4 + 16 * (v mod 16)) <? 256)
       && (popLane3 u v =? countBits 8 a)))
    ltac:(vm_compute; reflexivity) a Ha) as H.
  cbv beta in H.
  pose proof (checkBytes_sound _ H next Hn) as H'. cbv beta zeta in H'.
  apply andb_true_iff in H'. destruct H' as [H1 H2].
  split; [apply Z.ltb_lt; exact H1|apply Z.eqb_eq; exact H2].
Qed.

Lemma lane_x55 (b : Z) : 0 <= b < 8 -> lane 0x5555555555555555 b = 0x55.
Proof.
  intros Hb. change 0x5555555555555555 with (pack (repeat 0x55 8)).
  apply lane_repeat; [unfold byte; lia|exact Hb].
Qed.

Lemma lane_x33 (b : Z) : 0 <= b < 8 -> lane 0x3333333333333333 b = 0x33.
Proof.
  intros Hb. change 0x3333333333333333 with (pack (repeat 0x33 8)).
  apply lane_repeat; [unfold byte; lia|exact Hb].
Qed.

Lemma lane_x0f (b : Z) : 0 <= b < 8 -> lane 0x0f0f0f0f0f0f0f0f b = 0x0f.
Proof.
  intros Hb. change 0x0f0f0f0f0f0f0f0f with (pack (repeat 0x0f 8)).
  apply lane_repeat; [unfold byte; lia|exact Hb].
Qed.

Lemma word_x55 : is_word 0x5555555555555555.
Proof. unfold is_word, modulus. lia. Qed.

Lemma word_x33 : is_word 0x3333333333333333.
Proof. unfold is_word, modulus. lia. Qed.

Lemma word_x0f : is_word 0x0f0f0f0f0f0f0f0f.
Proof. unfold is_word, modulus. lia. Qed.

Lemma testbit_x55_7 (t : Z) : 8 - 1 <= t < 8 -> Z.testbit 0x55 t = false.
Proof. intros Ht. replace t with 7 by lia. reflexivity. Qed.

Lemma testbit_x33_67 (t : Z) : 8 - 2 <= t < 8 -> Z.testbit 0x33 t = false.
Proof.
  intros Ht. assert (Hc : t = 6 \/ t = 7) by lia.
  destruct Hc as [-> | ->]; reflexivity.
Qed.

Section ChunkPopcountsLanes.

Variable x : Z.
Hypothesis Hx : is_word x.

Let x1 := sub x (Z.land (shr x 1) 0x5555555555555555).
Let x2 := add (Z.land x1 0x3333333333333333)
              (Z.land (shr x1 2) 0x3333333333333333).

Lemma popcount_step1_lane (b : Z) :
  0 <= b -> lane x1 b = popLane1 (lane x b).
Proof.
  intros Hb. destruct (Z.lt_ge_cases b 8) as [Hlt|Hge].
  - assert (Hm : forall c, 0 <= c < 8 ->
               lane (Z.land (shr x 1) 0x5555555555555555) c
               = Z.land (Z.shiftr (lane x c) 1) 0x55).
    { intros c Hc. rewrite lane_shr_masked, lane_x55 by
        (try rewrite lane_x55 by lia; try apply testbit_x55_7; lia).
      reflexivity. }
    unfold x1. rewrite lane_sub; try lia.
    + rewrite Hm by lia. reflexivity.
    + exact Hx.
    + apply land_is_word_r, word_x55.
    + intros c Hc. rewrite Hm by lia. apply popLane1_check, lane_byte. lia.
  - rewrite (lane_high x b Hx Hge).
    rewrite lane_high; [reflexivity|apply wrap_is_word|exact Hge].
Qed.

Lemma popcount_step2_lane (b : Z) :
  0 <= b -> lane x2 b = popLane2 (popLane1 (lane x b)).
Proof.
  intros Hb. destruct (Z.lt_ge_cases b 8) as [Hlt|Hge].
  - assert (Hl : forall c, 0 <= c < 8 ->
               lane (Z.land x1 0x3333333333333333) c
               = Z.land (popLane1 (lane x c)) 0x33).
    { intros c Hc. rewrite lane_land, lane_x33, popcount_step1_lane by lia.
      reflexivity. }
    assert (Hm : forall c, 0 <= c < 8 ->
               lane (Z.land (shr x1 2) 0x3333333333333333) c
               = Z.land (Z.shiftr (popLane1 (lane x c)) 2) 0x33).
    { intros c Hc. rewrite lane_shr_masked, lane_x33 by
        (try rewrite lane_x33 by lia; try apply testbit_x33_67; lia).
      rewrite popcount_step1_lane by lia. reflexivity. }
    unfold x2. rewrite lane_add; try lia.
    + rewrite Hl, Hm by lia. reflexivity.
    + apply land_is_word_r, word_x33.
    + apply land_is_word_r, word_x33.
    + intros c Hc. rewrite Hl, Hm by lia.
      apply popLane2_check, lane_byte. lia.
  - rewrite (lane_high x b Hx Hge).
    rewrite lane_high; [reflexivity|apply wrap_is_word|exact Hge].
Qed.

Lemma ChunkPopcounts_lane (b : Z) :
  0 <= b < 8 -> lane (ChunkPopcounts x) b = countBits 8 (lane x b).
Proof.
  intros Hb. unfold ChunkPopcounts. fold x1. fold x2.
  assert (Hs : forall c, 0 <= c < 8 ->
             lane (shr x2 4) c
             = Z.shiftr (popLane2 (popLane1 (lane x c))) 4
               + 16 * (popLane2 (popLane1 (lane x (c + 1))) mod 16)).
  { intros c Hc. rewrite lane_shr, !popcount_step2_lane by lia.
    reflexivity. }
  rewrite lane_land, lane_x0f by lia.
  rewrite lane_add; try lia.
  - rewrite Hs, popcount_step2_lane by lia.
    apply (popLane3_check (lane x b) (lane x (b + 1))); apply lane_byte; lia.
  - apply wrap_is_word.
  - apply shr_is_word; [apply wrap_is_word|lia].
  - intros c Hc. rewrite Hs, popcount_step2_lane by lia.
    apply (popLane3_check (lane x c) (lane x (c + 1))); apply lane_byte; lia.
Qed.

Lemma ChunkPopcounts_is_word : is_word (ChunkPopcounts x).
Proof.
  unfold ChunkPopcounts. apply land_is_word_r, word_x0f.
Qed.

End ChunkPopcountsLanes.

(** *** Multiplication by [0x0101010101010101]: running sums of the lanes *)

Lemma pack_repeat_scale (c : Z) (n : nat) :
  pack (repeat c n) = c * pack (repeat 1 n).
Proof.
  induction n as [|n IH]; cbn [repeat pack]; [lia|]. rewrite IH. lia.
Qed.

Lemma pack_ones_top (n : nat) :
  pack (repeat 1 (S n)) = pack (repeat 1 n) + 256 ^ Z.of_nat n.
Proof.
  induction n as [|n IH]; [reflexivity|].
  change (repeat 1 (S (S n))) with (1 :: repeat 1 (S n)).
  cbn [pack]. rewrite IH at 1. cbn [repeat pack].
  rewrite (Nat2Z.inj_succ n), Z.pow_succ_r by lia. lia.
Qed.

Lemma mul_ones_prefix (l : list Z) :
  forall a,
    exists q,
      pack (repeat a (List.length l))
      + pack l * pack (repeat 1 (List.length l))
      = pack (prefixFrom a l) + 256 ^ Z.of_nat (List.length l) * q.
Proof.
  induction l as [|x r IH]; intros a.
  - exists 0. cbn. lia.
  - destruct (IH (a + x)) as [q Hq]. exists (q + pack r).
    cbn [List.length prefixFrom].
    pose proof (pack_ones_top (List.length r)) as HC.
    cbn [repeat pack] in HC |- *.
    rewrite Nat2Z.inj_succ, Z.pow_succ_r by lia.
    rewrite (pack_repeat_scale a), (pack_repeat_scale (a + x)) in *.
    set (C := pack (repeat 1 (List.length r))) in *.
    set (P := 256 ^ Z.of_nat (List.length r)) in *.
    set (R := pack r) in *. set (F := pack (prefixFrom (a + x) r)) in *.
    replace ((x + 256 * R) * (1 + 256 * C))
      with (x + 256 * (x * C) + 256 * (R * (1 + 256 * C))) by ring.
    rewrite HC. lia.
Qed.

Lemma nth_prefixFrom (l : list Z) :
  forall a b,
    (b < List.length l)%nat ->
    nth b (prefixFrom a l) 0 = a + fold_right Z.add 0 (firstn (S b) l).
Proof.
  induction l as [|x r IH]; intros a b Hb; cbn in Hb; [lia|].
  cbn [prefixFrom]. destruct b as [|b]; cbn [nth].
  - cbn. lia.
  - rewrite IH by lia.
    change (firstn (S (S b)) (x :: r)) with (x :: firstn (S b) r).
    cbn [fold_right]. lia.
Qed.

Lemma sum_firstn_succ (l : list Z) :
  forall n,
    (n < List.length l)%nat ->
    fold_right Z.add 0 (firstn (S n) l)
    = fold_right Z.add 0 (firstn n l) + nth n l 0.
Proof.
  induction l as [|a r IH]; intros n Hn; cbn in Hn; [lia|].
  destruct n as [|n].
  - cbn. lia.
  - change (firstn (S (S n)) (a :: r)) with (a :: firstn (S n) r).
    change (firstn (S n) (a :: r)) with (a :: firstn n r).
    cbn [fold_right nth]. rewrite IH by lia. lia.
Qed.

Lemma sum_firstn_lanes (x : Z) (n : nat) :
  (n <= 8)%nat -> fold_right Z.add 0 (firstn n (lanes x)) = sumLanes n x.
Proof.
  induction n as [|n IH]; intros Hn; [reflexivity|].
  rewrite sum_firstn_succ by (rewrite lanes_length; lia).
  rewrite IH, lanes_nth by lia. reflexivity.
Qed.

Lemma sumLanes_nonneg (x : Z) (n : nat) : 0 <= sumLanes n x.
Proof.
  induction n as [|n IH]; cbn [sumLanes]; [lia|].
  pose proof (lane_byte x (Z.of_nat n) ltac:(lia)) as Hb.
  unfold byte in Hb. lia.
Qed.

Lemma sumLanes_mono (x : Z) (n m : nat) :
  (n <= m)%nat -> sumLanes n x <= sumLanes m x.
Proof.
  induction 1 as [|m _ IH]; [lia|]. cbn [sumLanes].
  pose proof (lane_byte x (Z.of_nat m) ltac:(lia)) as Hb.
  unfold byte in Hb. lia.
Qed.

Lemma prefixFrom_length (l : list Z) :
  forall a, List.length (prefixFrom a l) = List.length l.
Proof.
  induction l as [|x r IH]; intros a; cbn [prefixFrom List.length];
    [reflexivity|]. rewrite IH. reflexivity.
Qed.

Lemma Forall_nth_byte (l : list Z) :
  (forall b, (b < List.length l)%nat -> byte (nth b l 0)) -> Forall byte l.
Proof.
  intros H. apply Forall_forall. intros y Hy.
  destruct (In_nth l y 0 Hy) as [b [Hb <-]]. apply H. exact Hb.
Qed.

Lemma lane_mul_ones (x : Z) :
  is_word x -> sumLanes 8 x < 256 ->
  forall b, 0 <= b < 8 ->
    lane (mul x PrefixSumMultiplierConstant) b
    = sumLanes (S (Z.to_nat b)) x.
Proof.
  intros Hx Hsum b Hb.
  destruct (mul_ones_prefix (lanes x) 0) as [q Hq].
  rewrite lanes_length in Hq.
  change (pack (repeat 0 8)) with 0 in Hq.
  change (pack (repeat 1 8)) with PrefixSumMultiplierConstant in Hq.
  rewrite (pack_lanes x Hx), Z.add_0_l in Hq.
  assert (Hnth : forall c, (c < 8)%nat ->
             nth c (prefixFrom 0 (lanes x)) 0 = sumLanes (S c) x).
  { intros c Hc. rewrite nth_prefixFrom by (rewrite lanes_length; lia).
    rewrite sum_firstn_lanes by lia. lia. }
  assert (Hbytes : Forall byte (prefixFrom 0 (lanes x))).
  { apply Forall_nth_byte. intros c Hc.
    rewrite prefixFrom_length, lanes_length in Hc. rewrite Hnth by lia.
    pose proof (sumLanes_nonneg x (S c)).
    pose proof (sumLanes_mono x (S c) 8 ltac:(lia)). unfold byte. lia. }
  unfold mul, wrap. rewrite Hq.
  change (256 ^ Z.of_nat 8) with modulus.
  rewrite (Z.mul_comm modulus q), Z.mod_add by (unfold modulus; lia).
  rewrite Z.mod_small.
  - replace b with (Z.of_nat (Z.to_nat b)) at 1 by lia.
    rewrite lane_pack by exact Hbytes. apply Hnth. lia.
  - apply (pack_is_word _ Hbytes).
    rewrite prefixFrom_length, lanes_length. reflexivity.
Qed.

(** *** Counting bits *)

Lemma bitAt_lane (x b t : Z) :
  0 <= b -> 0 <= t < 8 -> bitAt (lane x b) t = bitAt x (8 * b + t).
Proof.
  intros Hb Ht. unfold bitAt. rewrite testbit_lane by lia.
  replace (t <? 8) with true by (symmetry; apply Z.ltb_lt; lia).
  reflexivity.
Qed.

Lemma countBits_range (n : nat) (x : Z) : 0 <= countBits n x <= Z.of_nat n.
Proof.
  induction n as [|n IH]; cbn [countBits]; [lia|].
  pose proof (bitAt_range x (Z.of_nat n)). lia.
Qed.

Lemma countBits_ext (n : nat) (x y : Z) :
  (forall t, 0 <= t < Z.of_nat n -> bitAt x t = bitAt y t) ->
  countBits n x = countBits n y.
Proof.
  induction n as [|n IH]; intros H; cbn [countBits]; [reflexivity|].
  rewrite IH, (H (Z.of_nat n)) by (try intros t Ht; try apply H; lia).
  reflexivity.
Qed.

Lemma countBits_split (x : Z) (n m : nat) :
  countBits (n + m) x
  = countBits n x + countBits m (Z.shiftr x (Z.of_nat n)).
Proof.
  induction m as [|m IH]; [rewrite Nat.add_0_r; cbn [countBits]; lia|].
  rewrite Nat.add_succ_r. cbn [countBits]. rewrite IH.
  unfold bitAt. rewrite Z.shiftr_spec by lia.
  replace (Z.of_nat m + Z.of_nat n) with (Z.of_nat (n + m)) by lia. lia.
Qed.

Lemma countBits_lane (x : Z) (b : nat) :
  countBits 8 (lane x (Z.of_nat b))
  = countBits 8 (Z.shiftr x (Z.of_nat (8 * b))).
Proof.
  apply countBits_ext. intros t Ht. rewrite bitAt_lane by lia.
  unfold bitAt. rewrite Z.shiftr_spec by lia. do 2 f_equal. lia.
Qed.

Lemma sumLanes_ChunkPopcounts (x : Z) (n : nat) :
  is_word x -> (n <= 8)%nat ->
  sumLanes n (ChunkPopcounts x) = countBits (8 * n) x.
Proof.
  intros Hx. induction n as [|n IH]; intros Hn; [reflexivity|].
  cbn [sumLanes]. rewrite IH, ChunkPopcounts_lane by (try assumption; lia).
  replace (8 * S n)%nat with (8 * n + 8)%nat by lia.
  rewrite countBits_split, countBits_lane. reflexivity.
Qed.

Lemma shr_56_lane (y : Z) : is_word y -> shr y 56 = lane y 7.
Proof.
  intros Hy. unfold lane. change (8 * 7) with 56. change 255 with (Z.ones 8).
  rewrite Z.land_ones by lia. symmetry. apply Z.mod_small.
  pose proof (shr_is_word y 56 Hy ltac:(lia)) as Hw. unfold shr in *.
  rewrite Z.shiftr_div_pow2 in * by lia. split; [apply Hw|].
  apply Z.div_lt_upper_bound; [lia|]. unfold is_word, modulus in Hy. lia.
Qed.

(** [popcount] is the number of set bits of a word. *)
Lemma popcount_countBits (x : Z) : is_word x -> popcount x = countBits 64 x.
Proof.
  intros Hx.
  change (popcount x)
    with (shr (mul (ChunkPopcounts x) PrefixSumMultiplierConstant) 56).
  rewrite shr_56_lane by apply wrap_is_word.
  pose proof (sumLanes_ChunkPopcounts x 8 Hx (le_n 8)) as Hs.
  pose proof (countBits_range (8 * 8) x) as Hr.
  rewrite lane_mul_ones; try lia.
  - exact Hs.
  - apply ChunkPopcounts_is_word.
Qed.

Lemma lane_of_byte (a b : Z) :
  byte a -> 0 <= b -> lane a b = if b =? 0 then a else 0.
Proof.
  intros Ha Hb. rewrite lane_div_mod by exact Hb.
  destruct (Z.eqb_spec b 0) as [->|Hne].
  - rewrite Z.pow_0_r, Z.div_1_r. apply Z.mod_small. exact Ha.
  - rewrite Z.div_small; [reflexivity|]. unfold byte in Ha.
    split; [lia|].
    assert (256 ^ 1 <= 256 ^ b) by (apply Z.pow_le_mono_r; lia). lia.
Qed.

Lemma byte_is_word (a : Z) : byte a -> is_word a.
Proof. unfold byte, is_word, modulus. lia. Qed.

(** [bytePrefixSums] of the lane counts: lane [b] holds [addition] plus the
    number of set bits below bit [8 b]. *)
Lemma bytePrefixSums_lane (v addition : Z) :
  is_word v -> 0 <= addition -> addition + countBits 56 v < 256 ->
  forall b, 0 <= b < 8 ->
    lane (bytePrefixSums (ChunkPopcounts v) addition) b
    = addition + countBits (8 * Z.to_nat b) v.
Proof.
  intros Hv Ha Hsum b Hb.
  assert (Hbyte : byte addition).
  { pose proof (countBits_range 56 v). unfold byte. lia. }
  unfold bytePrefixSums.
  set (y := add (shl (ChunkPopcounts v) ChunkBits) addition).
  assert (Hy : forall c, 0 <= c < 8 ->
             lane y c = if c =? 0 then addition
                        else countBits 8 (lane v (c - 1))).
  { intros c Hc. unfold y, ChunkBits.
    assert (Hl : forall d, 0 <= d < 8 ->
               lane (shl (ChunkPopcounts v) 8) d
               = if d =? 0 then 0 else countBits 8 (lane v (d - 1))).
    { intros d Hd. rewrite lane_shl_8 by lia.
      destruct (Z.eqb_spec d 0); [reflexivity|].
      apply ChunkPopcounts_lane; [exact Hv|lia]. }
    rewrite lane_add; try lia.
    - rewrite Hl, (lane_of_byte addition c) by (try assumption; lia).
      destruct (c =? 0); lia.
    - apply wrap_is_word.
    - apply byte_is_word. exact Hbyte.
    - intros d Hd.
      rewrite Hl, (lane_of_byte addition d) by (try assumption; lia).
      pose proof (countBits_range 8 (lane v (d - 1))).
      unfold byte in Hbyte. destruct (d =? 0); lia. }
  assert (Hsums : forall n, (n < 8)%nat ->
             sumLanes (S n) y = addition + countBits (8 * n) v).
  { induction n as [|n IH]; intros Hn.
    - cbn [sumLanes]. rewrite Hy by lia. cbn. lia.
    - change (sumLanes (S (S n)) y)
        with (sumLanes (S n) y + lane y (Z.of_nat (S n))).
      rewrite IH, Hy by lia.
      replace (Z.of_nat (S n) =? 0) with false
        by (symmetry; apply Z.eqb_neq; lia).
      replace (Z.of_nat (S n) - 1) with (Z.of_nat n) by lia.
      replace (8 * S n)%nat with (8 * n + 8)%nat by lia.
      rewrite countBits_split, countBits_lane. lia. }
  rewrite lane_mul_ones; try lia.
  - apply Hsums. lia.
  - apply wrap_is_word.
  - change 8%nat with (S 7). rewrite Hsums by lia. exact Hsum.
Qed.

(** ** The byte-lane arithmetic of [differenceMasks] *)

Lemma lane_mul_const (x c : Z) :
  is_word x -> 0 <= c ->
  (forall b, 0 <= b < 8 -> c * lane x b < 256) ->
  forall b, 0 <= b < 8 -> lane (mul x c) b = c * lane x b.
Proof.
  intros Hx Hc Hno b Hb.
  assert (Hbytes : Forall byte (map (Z.mul c) (lanes x))).
  { apply Forall_nth_byte. intros k Hk.
    rewrite length_map, lanes_length in Hk.
    replace 0 with (c * 0) at 1 by lia.
    rewrite map_nth, lanes_nth by lia.
    pose proof (lane_byte x (Z.of_nat k) ltac:(lia)) as Hl.
    specialize (Hno (Z.of_nat k) ltac:(lia)). unfold byte in *. nia. }
  unfold mul. rewrite <- (pack_lanes x Hx) at 1.
  rewrite (Z.mul_comm (pack (lanes x)) c), <- pack_scale.
  rewrite wrap_small.
  - replace b with (Z.of_nat (Z.to_nat b)) by lia.
    rewrite lane_pack by exact Hbytes.
    replace 0 with (c * 0) at 1 by lia.
    rewrite map_nth, lanes_nth by lia. reflexivity.
  - apply (pack_is_word _ Hbytes).
    rewrite length_map, lanes_length. reflexivity.
Qed.

Lemma word_SignMask : is_word SignMask.
Proof. unfold is_word, modulus, SignMask. lia. Qed.

Lemma word_LSBMask : is_word LSBMask.
Proof. unfold is_word, modulus, LSBMask. lia. Qed.

(** The bit of the current pass, taken from every lane. *)
Lemma lane_pass_bit (x t b : Z) :
  0 <= t -> 0 <= b < 8 ->
  lane (Z.land (Z.shiftr x t) LSBMask) b = bitAt x (8 * b + t).
Proof.
  intros Ht Hb. rewrite lane_land, lane_LSBMask by lia.
  apply Z.bits_inj'. intros u Hu. unfold bitAt.
  rewrite Z.land_spec, testbit_lane, Z.shiftr_spec, testbit_one by lia.
  destruct (Z.eqb_spec u 0) as [->|Hne].
  - cbn [andb]. rewrite andb_true_r.
    replace (8 * b + 0 + t) with (8 * b + t) by lia.
    destruct (Z.testbit x (8 * b + t)); reflexivity.
  - rewrite andb_false_r.
    destruct (Z.testbit x (8 * b + t)); cbn [Z.b2z].
    + rewrite testbit_one by lia.
      symmetry. apply Z.eqb_neq. exact Hne.
    + rewrite Z.bits_0. reflexivity.
Qed.

(** *** [byteVPVNSum] *)

Lemma byteVPVNSum_check (p q : Z) :
  0 <= p <= 127 -> 0 <= q <= 127 ->
  Z.lxor (128 + p - q) 128 = toLane (p - q).
Proof.
  intros Hp Hq.
  pose proof (checkBytes_sound
    (fun p => checkBytes (fun q =>
       negb ((p <=? 127) && (q <=? 127))
       || (Z.lxor (128 + p - q) 128 =? toLane (p - q))))
    ltac:(vm_compute; reflexivity) p ltac:(unfold byte; lia)) as H.
  cbv beta in H.
  pose proof (checkBytes_sound _ H q ltac:(unfold byte; lia)) as H'.
  cbv beta in H'.
  replace (p <=? 127) with true in H' by (symmetry; apply Z.leb_le; lia).
  replace (q <=? 127) with true in H' by (symmetry; apply Z.leb_le; lia).
  cbn [andb negb orb] in H'. apply Z.eqb_eq. exact H'.
Qed.

Lemma byteVPVNSum_lane (pVP pVN : Z) :
  is_word pVP -> is_word pVN ->
  (forall b, 0 <= b < 8 -> lane pVP b <= 127) ->
  (forall b, 0 <= b < 8 -> lane pVN b <= 127) ->
  forall b, 0 <= b < 8 ->
    lane (byteVPVNSum pVP pVN) b = toLane (lane pVP b - lane pVN b).
Proof.
  intros HP HN Hp Hn b Hb. unfold byteVPVNSum.
  assert (H1 : forall c, 0 <= c < 8 ->
             lane (add SignMask pVP) c = 128 + lane pVP c).
  { intros c Hc. rewrite lane_add, lane_SignMask; try lia.
    - apply word_SignMask.
    - exact HP.
    - intros d Hd. rewrite lane_SignMask by lia.
      specialize (Hp d Hd). lia. }
  assert (H2 : forall c, 0 <= c < 8 ->
             lane (sub (add SignMask pVP) pVN) c
             = 128 + lane pVP c - lane pVN c).
  { intros c Hc. rewrite lane_sub, H1; try lia.
    - apply wrap_is_word.
    - exact HN.
    - intros d Hd. rewrite H1 by lia.
      pose proof (lane_byte pVP d ltac:(lia)) as B.
      specialize (Hn d Hd). unfold byte in B. lia. }
  rewrite lane_lxor, H2, lane_SignMask by lia.
  pose proof (lane_byte pVP b ltac:(lia)) as B1.
  pose proof (lane_byte pVN b ltac:(lia)) as B2.
  unfold byte in *.
  apply byteVPVNSum_check; [specialize (Hp b Hb)|specialize (Hn b Hb)]; lia.
Qed.

Lemma byteVPVNSum_is_word (pVP pVN : Z) : is_word (byteVPVNSum pVP pVN).
Proof.
  unfold byteVPVNSum. apply lxor_is_word; [apply wrap_is_word|].
  apply word_SignMask.
Qed.

(** *** Words described lane by lane *)

Lemma lanewise_self (x : Z) : is_word x -> lanewise x (lane x).
Proof. intros Hx. split; [exact Hx|]. reflexivity. Qed.

Lemma lanewise_byte (x : Z) (f : Z -> Z) (b : Z) :
  lanewise x f -> 0 <= b < 8 -> byte (f b).
Proof.
  intros [_ H] Hb. rewrite <- H by exact Hb. apply lane_byte. lia.
Qed.

Lemma lanewise_ext (x : Z) (f g : Z -> Z) :
  lanewise x f -> (forall b, 0 <= b < 8 -> f b = g b) -> lanewise x g.
Proof.
  intros [Hx H] Hfg. split; [exact Hx|]. intros b Hb.
  rewrite H, Hfg by exact Hb. reflexivity.
Qed.

Lemma lanewise_const (m : Z) :
  byte m -> lanewise (pack (repeat m 8)) (fun _ => m).
Proof.
  intros Hm. split.
  - apply pack_is_word; [|apply repeat_length].
    apply Forall_forall. intros y Hy. apply repeat_spec in Hy. subst.
    exact Hm.
  - intros b Hb. apply lane_repeat; assumption.
Qed.

Lemma lanewise_SignMask : lanewise SignMask (fun _ => 128).
Proof. apply (lanewise_const 128). unfold byte. lia. Qed.

Lemma lanewise_LSBMask : lanewise LSBMask (fun _ => 1).
Proof. apply (lanewise_const 1). unfold byte. lia. Qed.

Lemma lanewise_land (x y : Z) (f g : Z -> Z) :
  lanewise x f -> lanewise y g ->
  lanewise (Z.land x y) (fun b => Z.land (f b) (g b)).
Proof.
  intros [Hx Hf] [Hy Hg]. split; [apply land_is_word_l; exact Hx|].
  intros b Hb. rewrite lane_land, Hf, Hg by lia. reflexivity.
Qed.

Lemma lanewise_lor (x y : Z) (f g : Z -> Z) :
  lanewise x f -> lanewise y g ->
  lanewise (Z.lor x y) (fun b => Z.lor (f b) (g b)).
Proof.
  intros [Hx Hf] [Hy Hg]. split; [apply lor_is_word; assumption|].
  intros b Hb. rewrite lane_lor, Hf, Hg by lia. reflexivity.
Qed.

Lemma lanewise_lxor (x y : Z) (f g : Z -> Z) :
  lanewise x f -> lanewise y g ->
  lanewise (Z.lxor x y) (fun b => Z.lxor (f b) (g b)).
Proof.
  intros [Hx Hf] [Hy Hg]. split; [apply lxor_is_word; assumption|].
  intros b Hb. rewrite lane_lxor, Hf, Hg by lia. reflexivity.
Qed.

Lemma lanewise_not (x : Z) (f : Z -> Z) :
  lanewise x f -> lanewise (not x) (fun b => 255 - f b).
Proof.
  intros [Hx Hf]. split; [apply not_is_word|].
  intros b Hb. rewrite lane_not, Hf by assumption. reflexivity.
Qed.

Lemma lanewise_add (x y : Z) (f g : Z -> Z) :
  lanewise x f -> lanewise y g ->
  (forall b, 0 <= b < 8 -> f b + g b < 256) ->
  lanewise (add x y) (fun b => f b + g b).
Proof.
  intros [Hx Hf] [Hy Hg] Hno. split; [apply wrap_is_word|].
  assert (Hno' : forall c, 0 <= c < 8 -> lane x c + lane y c < 256).
  { intros c Hc. rewrite Hf, Hg by exact Hc. apply Hno. exact Hc. }
  intros b Hb. rewrite (lane_add x y Hx Hy Hno' b Hb), Hf, Hg by exact Hb.
  reflexivity.
Qed.

Lemma lanewise_sub (x y : Z) (f g : Z -> Z) :
  lanewise x f -> lanewise y g ->
  (forall b, 0 <= b < 8 -> g b <= f b) ->
  lanewise (sub x y) (fun b => f b - g b).
Proof.
  intros [Hx Hf] [Hy Hg] Hno. split; [apply wrap_is_word|].
  assert (Hno' : forall c, 0 <= c < 8 -> lane y c <= lane x c).
  { intros c Hc. rewrite Hf, Hg by exact Hc. apply Hno. exact Hc. }
  intros b Hb. rewrite (lane_sub x y Hx Hy Hno' b Hb), Hf, Hg by exact Hb.
  reflexivity.
Qed.

Lemma lanewise_mul_const (x c : Z) (f : Z -> Z) :
  lanewise x f -> 0 <= c ->
  (forall b, 0 <= b < 8 -> c * f b < 256) ->
  lanewise (mul x c) (fun b => c * f b).
Proof.
  intros [Hx Hf] Hc Hno. split; [apply wrap_is_word|].
  assert (Hno' : forall d, 0 <= d < 8 -> c * lane x d < 256).
  { intros d Hd. rewrite Hf by exact Hd. apply Hno. exact Hd. }
  intros b Hb. rewrite (lane_mul_const x c Hx Hc Hno' b Hb), Hf by exact Hb.
  reflexivity.
Qed.

(** A right shift by [k] of a word whose lanes all have their low [k] bits
    clear. *)
Lemma lanewise_shr_aligned (x k : Z) (f : Z -> Z) :
  lanewise x f -> 0 <= k <= 8 ->
  (forall b t, 0 <= b < 8 -> 0 <= t < k -> Z.testbit (f b) t = false) ->
  lanewise (shr x k) (fun b => Z.shiftr (f b) k).
Proof.
  intros [Hx Hf] Hk Hlow. split; [apply shr_is_word; [exact Hx|lia]|].
  intros b Hb.
  assert (Hnext : forall t, 0 <= t < k ->
                            Z.testbit (lane x (b + 1)) t = false).
  { intros t Ht. destruct (Z.lt_ge_cases (b + 1) 8) as [Hlt|Hge].
    - rewrite Hf by lia. apply Hlow; lia.
    - rewrite lane_high by (try exact Hx; lia). apply Z.bits_0. }
  rewrite (lane_shr_aligned x k b Hk ltac:(lia) Hnext), Hf by exact Hb.
  reflexivity.
Qed.

Lemma lanewise_pass_bit (x t : Z) :
  is_word x -> 0 <= t ->
  lanewise (Z.land (shr x t) LSBMask) (fun b => bitAt x (8 * b + t)).
Proof.
  intros Hx Ht. split; [apply land_is_word_r, word_LSBMask|].
  intros b Hb. apply lane_pass_bit; assumption.
Qed.

(** *** Exhaustive checks over two lanes *)

Lemma check2_sound (F : Z -> Z -> bool) :
  checkBytes (fun l => checkBytes (F l)) = true ->
  forall l, byte l -> forall r, byte r -> F l r = true.
Proof.
  intros H l Hl r Hr.
  pose proof (checkBytes_sound _ H l Hl) as H1. cbv beta in H1.
  exact (checkBytes_sound _ H1 r Hr).
Qed.

Ltac by_bytes2 l Hl r Hr :=
  match goal with
  | |- ?E = true =>
      let E' := eval pattern l, r in E in
      match E' with
      | ?F _ _ =>
          exact (check2_sound F ltac:(vm_compute; reflexivity) l Hl r Hr)
      end
  end.

Ltac lane_bool :=
  first [ apply Z.ltb_lt | apply Z.leb_le | apply Z.eqb_eq ].

(** *** [chunkDifference] *)

Lemma SignMask_low_bits (b t : Z) :
  0 <= b < 8 -> 0 <= t < 7 -> Z.testbit (Z.land b 128) t = false.
Proof.
  intros _ Ht. rewrite Z.land_spec.
  change 128 with (2 ^ 7). rewrite Z.pow2_bits_false by lia.
  apply andb_false_r.
Qed.

Lemma land_128_low_bits (r t : Z) :
  0 <= t < 7 -> Z.testbit (Z.land r 128) t = false.
Proof.
  intros Ht. rewrite Z.land_spec.
  change 128 with (2 ^ 7). rewrite Z.pow2_bits_false by lia.
  apply andb_false_r.
Qed.

Lemma chunkDifference_lanewise (L R : Z) (f g : Z -> Z) :
  lanewise L f -> lanewise R g ->
  lanewise (chunkDifference L R) (fun b => toLane (f b - g b)).
Proof.
  intros HL HR. unfold chunkDifference.
  change (ChunkBits - 1) with 7. change (sub (shl 1 7) 1) with 127.
  assert (Bf : forall b, 0 <= b < 8 -> byte (f b))
    by (intros b Hb; exact (lanewise_byte L f b HL Hb)).
  assert (Bg : forall b, 0 <= b < 8 -> byte (g b))
    by (intros b Hb; exact (lanewise_byte R g b HR Hb)).
  pose proof lanewise_SignMask as HS.
  pose proof lanewise_LSBMask as HLSB.
  pose proof (lanewise_not _ _ HS) as HnS.
  (* smearmask *)
  pose proof (lanewise_land _ _ _ _ HR HS) as H1.
  pose proof (lanewise_shr_aligned _ 7 _ H1 ltac:(lia)
                ltac:(intros b t Hb Ht; apply land_128_low_bits; exact Ht))
    as H2.
  assert (Hsm : lanewise
            (mul (shr (Z.land R SignMask) 7) 127)
            (fun b => 127 * Z.shiftr (Z.land (g b) 128) 7)).
  { apply (lanewise_mul_const _ 127 _ H2); [lia|].
    intros b Hb. pose proof (Bg b Hb) as Br.
    set (r := g b) in *. clearbody r.
    pose proof (Bg b Hb) as Bl. set (l := g b) in Bl. clearbody l.
    lane_bool. by_bytes2 l Bl r Br. }
  set (smear := mul (shr (Z.land R SignMask) 7) 127) in *.
  (* deductions and additions *)
  pose proof (lanewise_land _ _ _ _
                (lanewise_land _ _ _ _ (lanewise_not _ _ Hsm) HR) HnS)
    as Hded.
  pose proof (lanewise_land _ _ _ _ Hsm (lanewise_not _ _ HR)) as Ha1.
  pose proof (lanewise_land _ _ _ _ Hsm HLSB) as Ha2.
  assert (Hadd : lanewise
            (add (Z.land smear (not R)) (Z.land smear LSBMask))
            (fun b => Z.land (127 * Z.shiftr (Z.land (g b) 128) 7)
                        (255 - g b)
                      + Z.land (127 * Z.shiftr (Z.land (g b) 128) 7) 1)).
  { apply (lanewise_add _ _ _ _ Ha1 Ha2).
    intros b Hb. pose proof (Bg b Hb) as Br.
    set (r := g b) in *. clearbody r.
    pose proof (Bf b Hb) as Bl. set (l := f b) in Bl. clearbody l.
    lane_bool. by_bytes2 l Bl r Br. }
  set (additions := add (Z.land smear (not R)) (Z.land smear LSBMask)) in *.
  set (deductions := Z.land (Z.land (not smear) R) (not SignMask)) in *.
  (* the addition *)
  pose proof (lanewise_land _ _ _ _ HL HS) as Hsb1.
  pose proof (lanewise_land _ _ _ _ HL HnS) as Hd1.
  cbv beta in Hd1, Hsb1, Hded, Hadd.
  assert (Hd2 : lanewise (add (Z.land L (not SignMask)) additions)
            (fun b => Z.land (f b) (255 - 128)
                      + (Z.land (127 * Z.shiftr (Z.land (g b) 128) 7)
                           (255 - g b)
                         + Z.land (127 * Z.shiftr (Z.land (g b) 128) 7) 1))).
  { apply (lanewise_add _ _ _ _ Hd1 Hadd).
    intros b Hb. pose proof (Bg b Hb) as Br.
    set (r := g b) in *. clearbody r.
    pose proof (Bf b Hb) as Bl. set (l := f b) in *. clearbody l.
    lane_bool. by_bytes2 l Bl r Br. }
  pose proof (lanewise_lxor _ _ _ _ Hd2 Hsb1) as Hd3.
  pose proof (lanewise_land _ _ _ _ Hd3 HS) as Hsb2.
  pose proof (lanewise_lor _ _ _ _ Hd3 HS) as Hd4.
  cbv beta in Hd3, Hsb2, Hd4.
  (* the subtraction *)
  pose proof (lanewise_sub _ _ _ _ Hd4 Hded) as Hd5.
  cbv beta in Hd5.
  assert (Hno : forall b, 0 <= b < 8 ->
            Z.land (Z.land (255 - 127 * Z.shiftr (Z.land (g b) 128) 7)
                      (g b)) (255 - 128)
            <= Z.lor
                 (Z.lxor
                    (Z.land (f b) (255 - 128)
                     + (Z.land (127 * Z.shiftr (Z.land (g b) 128) 7)
                          (255 - g b)
                        + Z.land (127 * Z.shiftr (Z.land (g b) 128) 7) 1))
                    (Z.land (f b) 128)) 128).
  { intros b Hb. pose proof (Bg b Hb) as Br.
    set (r := g b) in *. clearbody r.
    pose proof (Bf b Hb) as Bl. set (l := f b) in *. clearbody l.
    lane_bool. by_bytes2 l Bl r Br. }
  specialize (Hd5 Hno).
  pose proof (lanewise_lxor _ _ _ _ Hsb2
                (lanewise_land _ _ _ _ HS (lanewise_not _ _ Hd5))) as Hsb3.
  pose proof (lanewise_lor _ _ _ _
                (lanewise_land _ _ _ _ Hd5 HnS) Hsb3) as Hfinal.
  cbv beta in Hfinal.
  apply (lanewise_ext _ _ _ Hfinal).
  intros b Hb. pose proof (Bg b Hb) as Br.
  set (r := g b) in *. clearbody r.
  pose proof (Bf b Hb) as Bl. set (l := f b) in *. clearbody l.
  lane_bool. by_bytes2 l Bl r Br.
Qed.

(** *** [differenceStep] *)

Lemma check5_sound (F : Z -> Z -> Z -> Z -> Z -> bool) :
  checkBytes (fun d => checkBits (fun a => checkBits (fun e =>
    checkBits (fun b => checkBits (fun c => F d a e b c))))) = true ->
  forall d a e b c,
    byte d -> 0 <= a <= 1 -> 0 <= e <= 1 -> 0 <= b <= 1 -> 0 <= c <= 1 ->
    F d a e b c = true.
Proof.
  intros H d a e b c Hd Ha He Hb Hc.
  pose proof (checkBytes_sound _ H d Hd) as H1. cbv beta in H1.
  pose proof (checkBits_sound _ H1 a Ha) as H2. cbv beta in H2.
  pose proof (checkBits_sound _ H2 e He) as H3. cbv beta in H3.
  pose proof (checkBits_sound _ H3 b Hb) as H4. cbv beta in H4.
  exact (checkBits_sound _ H4 c Hc).
Qed.

Ltac by_step5 d Hd a Ha e He b Hb c Hc :=
  match goal with
  | |- ?E = true =>
      let E' := eval pattern d, a, e, b, c in E in
      match E' with
      | ?F _ _ _ _ _ =>
          exact (check5_sound F ltac:(vm_compute; reflexivity)
                   d a e b c Hd Ha He Hb Hc)
      end
  end.

Section DifferenceStepLanes.

Variable s : DiffState.
Variable bit : Z.
Variables fd fa fe fb fc : Z -> Z.

Hypothesis Hbit : 0 <= bit <= 7.
Hypothesis Hd : lanewise (ds_difference s) fd.
Hypothesis Ha : lanewise (Z.land (ds_leftVP s) LSBMask) fa.
Hypothesis He : lanewise (Z.land (ds_rightVN s) LSBMask) fe.
Hypothesis Hb : lanewise (Z.land (ds_leftVN s) LSBMask) fb.
Hypothesis Hc : lanewise (Z.land (ds_rightVP s) LSBMask) fc.
Hypothesis Ra : forall b, 0 <= b < 8 -> 0 <= fa b <= 1.
Hypothesis Re : forall b, 0 <= b < 8 -> 0 <= fe b <= 1.
Hypothesis Rb : forall b, 0 <= b < 8 -> 0 <= fb b <= 1.
Hypothesis Rc : forall b, 0 <= b < 8 -> 0 <= fc b <= 1.

Ltac step_vars b Hb' :=
  pose proof (lanewise_byte _ _ b Hd Hb') as Bd;
  pose proof (Ra b Hb') as Ba; pose proof (Re b Hb') as Be;
  pose proof (Rb b Hb') as Bb; pose proof (Rc b Hb') as Bc;
  set (d := fd b) in *; set (a := fa b) in *; set (e := fe b) in *;
  set (n := fb b) in *; set (c := fc b) in *;
  clearbody d a e n c.

Lemma differenceStep_difference :
  lanewise (ds_difference (differenceStep bit s))
    (fun b => toLane (fd b + fa b + fe b - fb b - fc b)).
Proof.
  unfold differenceStep. cbn [ds_difference].
  pose proof lanewise_SignMask as HS.
  pose proof (lanewise_not _ _ HS) as HnS.
  pose proof (lanewise_land _ _ _ _ Hd HS) as Hsb1.
  pose proof (lanewise_land _ _ _ _ Hd HnS) as Hd1.
  cbv beta in Hsb1, Hd1.
  assert (Hd2 : lanewise
            (add (Z.land (ds_difference s) (not SignMask))
               (Z.land (ds_leftVP s) LSBMask))
            (fun b => Z.land (fd b) (255 - 128) + fa b)).
  { apply (lanewise_add _ _ _ _ Hd1 Ha). intros b Hb'. step_vars b Hb'.
    lane_bool. by_step5 d Bd a Ba e Be n Bb c Bc. }
  assert (Hd3 : lanewise
            (add (add (Z.land (ds_difference s) (not SignMask))
                    (Z.land (ds_leftVP s) LSBMask))
               (Z.land (ds_rightVN s) LSBMask))
            (fun b => Z.land (fd b) (255 - 128) + fa b + fe b)).
  { apply (lanewise_add _ _ _ _ Hd2 He). intros b Hb'. step_vars b Hb'.
    lane_bool. by_step5 d Bd a Ba e Be n Bb c Bc. }
  pose proof (lanewise_lxor _ _ _ _ Hd3 Hsb1) as Hd4.
  pose proof (lanewise_land _ _ _ _ Hd4 HS) as Hsb2.
  pose proof (lanewise_lor _ _ _ _ Hd4 HS) as Hd5.
  cbv beta in Hd4, Hsb2, Hd5.
  assert (Hd6 : lanewise
            (sub (Z.lor
                    (Z.lxor
                       (add (add (Z.land (ds_difference s) (not SignMask))
                               (Z.land (ds_leftVP s) LSBMask))
                          (Z.land (ds_rightVN s) LSBMask))
                       (Z.land (ds_difference s) SignMask)) SignMask)
               (Z.land (ds_leftVN s) LSBMask))
            (fun b => Z.lor
                        (Z.lxor (Z.land (fd b) (255 - 128) + fa b + fe b)
                           (Z.land (fd b) 128)) 128 - fb b)).
  { apply (lanewise_sub _ _ _ _ Hd5 Hb). intros b Hb'. step_vars b Hb'.
    lane_bool. by_step5 d Bd a Ba e Be n Bb c Bc. }
  assert (Hd7 : lanewise
            (sub (sub (Z.lor
                    (Z.lxor
                       (add (add (Z.land (ds_difference s) (not SignMask))
                               (Z.land (ds_leftVP s) LSBMask))
                          (Z.land (ds_rightVN s) LSBMask))
                       (Z.land (ds_difference s) SignMask)) SignMask)
               (Z.land (ds_leftVN s) LSBMask))
               (Z.land (ds_rightVP s) LSBMask))
            (fun b => Z.lor
                        (Z.lxor (Z.land (fd b) (255 - 128) + fa b + fe b)
                           (Z.land (fd b) 128)) 128 - fb b - fc b)).
  { apply (lanewise_sub _ _ _ _ Hd6 Hc). intros b Hb'. step_vars b Hb'.
    lane_bool. by_step5 d Bd a Ba e Be n Bb c Bc. }
  pose proof (lanewise_lxor _ _ _ _ Hsb2
                (lanewise_land _ _ _ _ HS (lanewise_not _ _ Hd7))) as Hsb3.
  pose proof (lanewise_lor _ _ _ _
                (lanewise_land _ _ _ _ Hd7 HnS) Hsb3) as Hfinal.
  cbv beta in Hfinal.
  apply (lanewise_ext _ _ _ Hfinal).
  intros b Hb'. step_vars b Hb'.
  lane_bool. by_step5 d Bd a Ba e Be n Bb c Bc.
Qed.

End DifferenceStepLanes.

(** *** The sign tests of a pass *)

Lemma testbit_SignMask (j : Z) :
  0 <= j -> Z.testbit SignMask j = (j <? 64) && (j mod 8 =? 7).
Proof.
  intros Hj.
  pose proof (Z.div_mod j 8 ltac:(lia)) as Hdm.
  pose proof (Z.mod_pos_bound j 8 ltac:(lia)) as Hm.
  assert (Hq : 0 <= j / 8) by (apply Z.div_pos; lia).
  pose proof (testbit_lane SignMask (j / 8) (j mod 8) Hq ltac:(lia)) as T.
  replace (j mod 8 <? 8) with true in T by (symmetry; apply Z.ltb_lt; lia).
  cbn [andb] in T. rewrite <- Hdm in T. rewrite <- T.
  destruct (Z.ltb_spec j 64) as [Hlt|Hge].
  - rewrite lane_SignMask by lia. cbn [andb].
    change 128 with (2 ^ 7). rewrite Z.pow2_bits_eqb by lia.
    apply Z.eqb_sym.
  - rewrite lane_high by (try apply word_SignMask; lia). apply Z.bits_0.
Qed.

Lemma testbit_at_lane (x i : Z) :
  0 <= i -> Z.testbit x i = Z.testbit (lane x (i / 8)) (i mod 8).
Proof.
  intros Hi.
  pose proof (Z.div_mod i 8 ltac:(lia)) as Hdm.
  pose proof (Z.mod_pos_bound i 8 ltac:(lia)) as Hm.
  assert (Hq : 0 <= i / 8) by (apply Z.div_pos; lia).
  rewrite testbit_lane by lia.
  replace (i mod 8 <? 8) with true by (symmetry; apply Z.ltb_lt; lia).
  cbn [andb]. rewrite <- Hdm. reflexivity.
Qed.

(** Bit [i] of [(y & SignMask) >> (7 - bit)] is the sign bit of the lane of
    [i], when [i] is bit [bit] of its lane. *)
Lemma testbit_sign_shifted (y bit i : Z) :
  0 <= bit <= 7 -> 0 <= i ->
  Z.testbit (shr (Z.land y SignMask) (7 - bit)) i
  = (i <? 64) && (i mod 8 =? bit) && Z.testbit (lane y (i / 8)) 7.
Proof.
  intros Hbit Hi. unfold shr.
  rewrite Z.shiftr_spec, Z.land_spec, testbit_SignMask by lia.
  pose proof (Z.div_mod i 8 ltac:(lia)) as Hdm.
  pose proof (Z.mod_pos_bound i 8 ltac:(lia)) as Hm.
  destruct (Z.eqb_spec (i mod 8) bit) as [He|Hne].
  - assert (Hj : i + (7 - bit) = 8 * (i / 8) + 7) by lia.
    rewrite Hj.
    assert (Hmod : (8 * (i / 8) + 7) mod 8 = 7).
    { rewrite Z.add_comm, Z.mul_comm, Z.mod_add by lia. reflexivity. }
    rewrite Hmod, Z.eqb_refl, !andb_true_r.
    assert (Hq : 0 <= i / 8) by (apply Z.div_pos; lia).
    rewrite testbit_lane by lia. cbn [andb Z.ltb].
    replace (7 <? 8) with true by reflexivity. cbn [andb].
    destruct (Z.ltb_spec i 64) as [Hlt|Hge].
    + replace (8 * (i / 8) + 7 <? 64) with true
        by (symmetry; apply Z.ltb_lt; lia).
      apply andb_true_r.
    + replace (8 * (i / 8) + 7 <? 64) with false
        by (symmetry; apply Z.ltb_ge; lia).
      apply andb_false_r.
  - rewrite andb_false_r. cbn [andb].
    replace ((i + (7 - bit)) mod 8 =? 7) with false;
      [rewrite !andb_false_r; reflexivity|].
    symmetry. apply Z.eqb_neq. intros Hc. apply Hne.
    assert (Hx : (i + (7 - bit) - 7) mod 8 = 0).
    { rewrite <- Zminus_mod_idemp_l, Hc. reflexivity. }
    replace (i + (7 - bit) - 7) with (i - bit) in Hx by lia.
    rewrite Hdm in Hx at 1.
    replace (8 * (i / 8) + i mod 8 - bit)
      with (i mod 8 - bit + (i / 8) * 8) in Hx by lia.
    rewrite Z.mod_add in Hx by lia.
    apply Z.mod_divide in Hx; [|lia]. destruct Hx as [q Hq]. lia.
Qed.

(** ** The eight passes of [differenceMasks] *)

Lemma toLane_byte (v : Z) : byte (toLane v).
Proof. apply Z.mod_pos_bound. lia. Qed.

Lemma toLane_sub (x y : Z) : toLane (toLane x - toLane y) = toLane (x - y).
Proof. unfold toLane. symmetry. apply Zminus_mod. Qed.

Lemma toLane_step (v k : Z) : toLane (toLane v + k) = toLane (v + k).
Proof. unfold toLane. apply Zplus_mod_idemp_l. Qed.

Lemma toLane_negative (v : Z) :
  -128 <= v <= 127 -> (128 <=? toLane v) = (v <? 0).
Proof.
  intros Hv. unfold toLane.
  destruct (Z.ltb_spec v 0) as [Hn|Hp].
  - replace v with (v + 256 + (-1) * 256) by lia.
    rewrite Z.mod_add, Z.mod_small by lia. apply Z.leb_le. lia.
  - rewrite Z.mod_small by lia. apply Z.leb_gt. lia.
Qed.

Lemma toLane_positive (v : Z) :
  -128 <= v <= 127 ->
  (1 <=? toLane v) && (toLane v <=? 127) = (0 <? v).
Proof.
  intros Hv. unfold toLane.
  destruct (Z.ltb_spec 0 v) as [Hp|Hn].
  - rewrite Z.mod_small by lia.
    apply andb_true_iff. split; apply Z.leb_le; lia.
  - destruct (Z.eq_dec v 0) as [->|Hne]; [reflexivity|].
    replace v with (v + 256 + (-1) * 256) by lia.
    rewrite Z.mod_add, Z.mod_small by lia.
    apply andb_false_iff. right. apply Z.leb_gt. lia.
Qed.

Lemma lane_sign_bit (d : Z) : byte d -> Z.testbit d 7 = (128 <=? d).
Proof.
  intros Hd. apply Bool.eqb_prop.
  apply (checkBytes_sound
           (fun d => Bool.eqb (Z.testbit d 7) (128 <=? d)));
    [vm_compute; reflexivity|exact Hd].
Qed.

Lemma lane_positive_bit (d : Z) :
  byte d ->
  Z.testbit (Z.land (Z.lor d 128 - 1) (255 - Z.land d 128)) 7
  = (1 <=? d) && (d <=? 127).
Proof.
  intros Hd. apply Bool.eqb_prop.
  apply (checkBytes_sound
           (fun d => Bool.eqb
              (Z.testbit (Z.land (Z.lor d 128 - 1) (255 - Z.land d 128)) 7)
              ((1 <=? d) && (d <=? 127))));
    [vm_compute; reflexivity|exact Hd].
Qed.

(** The positive test of a pass, on the lanes of the new difference. *)
Lemma positive_lanewise (d : Z) :
  is_word d ->
  lanewise
    (Z.land (sub (Z.lor d SignMask) LSBMask) (not (Z.land d SignMask)))
    (fun b => Z.land (Z.lor (lane d b) 128 - 1)
                (255 - Z.land (lane d b) 128)).
Proof.
  intros Hd.
  pose proof (lanewise_self d Hd) as Hself.
  pose proof lanewise_SignMask as HS.
  pose proof lanewise_LSBMask as HL.
  pose proof (lanewise_lor _ _ _ _ Hself HS) as H1.
  assert (H2 : lanewise (sub (Z.lor d SignMask) LSBMask)
                 (fun b => Z.lor (lane d b) 128 - 1)).
  { apply (lanewise_sub _ _ _ _ H1 HL). intros b Hb.
    pose proof (lane_byte d b ltac:(lia)) as Bd.
    set (l := lane d b) in *. clearbody l.
    apply Z.leb_le.
    apply (checkBytes_sound (fun l => 1 <=? Z.lor l 128));
      [vm_compute; reflexivity|exact Bd]. }
  exact (lanewise_land _ _ _ _ H2
           (lanewise_not _ _ (lanewise_land _ _ _ _ Hself HS))).
Qed.

Lemma testbit_positive_shifted (d bit i : Z) :
  is_word d -> 0 <= bit <= 7 -> 0 <= i ->
  Z.testbit
    (shr (Z.land (Z.land (sub (Z.lor d SignMask) LSBMask) SignMask)
            (not (Z.land d SignMask))) (7 - bit)) i
  = (i <? 64) && (i mod 8 =? bit)
    && ((1 <=? lane d (i / 8)) && (lane d (i / 8) <=? 127)).
Proof.
  intros Hd Hbit Hi.
  replace (Z.land (Z.land (sub (Z.lor d SignMask) LSBMask) SignMask)
             (not (Z.land d SignMask)))
    with (Z.land
            (Z.land (sub (Z.lor d SignMask) LSBMask)
               (not (Z.land d SignMask))) SignMask).
  - rewrite testbit_sign_shifted by assumption.
    destruct (Z.ltb_spec i 64) as [Hlt|Hge]; [|reflexivity].
    cbn [andb]. f_equal.
    assert (Hq : 0 <= i / 8 < 8).
    { split; [apply Z.div_pos; lia|apply Z.div_lt_upper_bound; lia]. }
    destruct (positive_lanewise d Hd) as [_ Hl].
    rewrite Hl by exact Hq. apply lane_positive_bit, lane_byte. lia.
  - rewrite <- !Z.land_assoc. f_equal. apply Z.land_comm.
Qed.

Section Passes.

Variables leftVP leftVN rightVP rightVN scoreDifference : Z.

Hypothesis HlVP : is_word leftVP.
Hypothesis HlVN : is_word leftVN.
Hypothesis HrVP : is_word rightVP.
Hypothesis HrVN : is_word rightVN.

Let D := diffBelow leftVP leftVN rightVP rightVN scoreDifference.

(** The difference of the two columns stays in the range of a signed
    byte. *)
Hypothesis Drange : forall n, (n <= 64)%nat -> -128 <= D n <= 127.

Lemma diffBelow_succ (n : nat) :
  D (S n) = D n + bitAt leftVP (Z.of_nat n) + bitAt rightVN (Z.of_nat n)
            - bitAt leftVN (Z.of_nat n) - bitAt rightVP (Z.of_nat n).
Proof. unfold D, diffBelow. cbn [countBits]. lia. Qed.

Lemma shr_shr_1 (x : Z) (t : nat) :
  shr (Z.shiftr x (Z.of_nat t)) 1 = Z.shiftr x (Z.of_nat (S t)).
Proof.
  unfold shr. rewrite Z.shiftr_shiftr by lia. f_equal. lia.
Qed.

Lemma pass_step (t : nat) (s : DiffState) :
  (t < 8)%nat ->
  passInvariant leftVP leftVN rightVP rightVN scoreDifference t s ->
  passInvariant leftVP leftVN rightVP rightVN scoreDifference (S t)
    (differenceStep (Z.of_nat t) s).
Proof.
  intros Ht [H1 [H2 [H3 [H4 [Hd [HL HR]]]]]].
  fold D in Hd, HL, HR.
  assert (Hnew : lanewise (ds_difference (differenceStep (Z.of_nat t) s))
                   (fun b => toLane (D (Z.to_nat (8 * b) + S t)))).
  { eapply lanewise_ext.
    - apply (differenceStep_difference s (Z.of_nat t)
               (fun b => toLane (D (Z.to_nat (8 * b) + t)))
               (fun b => bitAt leftVP (8 * b + Z.of_nat t))
               (fun b => bitAt rightVN (8 * b + Z.of_nat t))
               (fun b => bitAt leftVN (8 * b + Z.of_nat t))
               (fun b => bitAt rightVP (8 * b + Z.of_nat t))).
      + exact Hd.
      + rewrite H1. apply lanewise_pass_bit; [exact HlVP|lia].
      + rewrite H4. apply lanewise_pass_bit; [exact HrVN|lia].
      + rewrite H2. apply lanewise_pass_bit; [exact HlVN|lia].
      + rewrite H3. apply lanewise_pass_bit; [exact HrVP|lia].
      + intros b _. apply bitAt_range.
      + intros b _. apply bitAt_range.
      + intros b _. apply bitAt_range.
      + intros b _. apply bitAt_range.
    - intros b Hb. cbv beta.
      replace (Z.to_nat (8 * b) + S t)%nat
        with (S (Z.to_nat (8 * b) + t)) by lia.
      rewrite diffBelow_succ.
      replace (Z.of_nat (Z.to_nat (8 * b) + t)) with (8 * b + Z.of_nat t)
        by lia.
      set (v := D (Z.to_nat (8 * b) + t)).
      replace (toLane v + bitAt leftVP (8 * b + Z.of_nat t)
               + bitAt rightVN (8 * b + Z.of_nat t)
               - bitAt leftVN (8 * b + Z.of_nat t)
               - bitAt rightVP (8 * b + Z.of_nat t))
        with (toLane v + (bitAt leftVP (8 * b + Z.of_nat t)
                          + bitAt rightVN (8 * b + Z.of_nat t)
                          - bitAt leftVN (8 * b + Z.of_nat t)
                          - bitAt rightVP (8 * b + Z.of_nat t))) by lia.
      rewrite toLane_step. f_equal. lia. }
  assert (Hlane : forall i, 0 <= i < 64 -> i mod 8 = Z.of_nat t ->
            lane (ds_difference (differenceStep (Z.of_nat t) s)) (i / 8)
            = toLane (D (S (Z.to_nat i)))).
  { intros i Hi Hm. destruct Hnew as [_ Hl].
    pose proof (Z.div_mod i 8 ltac:(lia)) as Hdm.
    assert (Hq : 0 <= i / 8 < 8).
    { split; [apply Z.div_pos; lia|apply Z.div_lt_upper_bound; lia]. }
    rewrite Hl by exact Hq. do 2 f_equal. lia. }
  assert (Hsplit : forall i, 0 <= i ->
            (i mod 8 <? Z.of_nat (S t))
            = (i mod 8 <? Z.of_nat t) || (i mod 8 =? Z.of_nat t)).
  { intros i Hi. destruct (Z.ltb_spec (i mod 8) (Z.of_nat (S t)));
      destruct (Z.ltb_spec (i mod 8) (Z.of_nat t));
      destruct (Z.eqb_spec (i mod 8) (Z.of_nat t)); cbn [orb]; lia. }
  split; [cbn [differenceStep ds_leftVP]; rewrite H1; apply shr_shr_1|].
  split; [cbn [differenceStep ds_leftVN]; rewrite H2; apply shr_shr_1|].
  split; [cbn [differenceStep ds_rightVP]; rewrite H3; apply shr_shr_1|].
  split; [cbn [differenceStep ds_rightVN]; rewrite H4; apply shr_shr_1|].
  split; [exact Hnew|]. split.
  - intros i Hi.
    change (ds_resultLeftSmallerThanRight (differenceStep (Z.of_nat t) s))
      with (Z.lor (ds_resultLeftSmallerThanRight s)
              (shr (Z.land (ds_difference (differenceStep (Z.of_nat t) s))
                      SignMask) (7 - Z.of_nat t))).
    rewrite Z.lor_spec, HL, testbit_sign_shifted, Hsplit by lia.
    destruct (Z.ltb_spec i 64) as [Hlt|Hge]; [|reflexivity]. cbn [andb].
    destruct (Z.eqb_spec (i mod 8) (Z.of_nat t)) as [He|Hne].
    + rewrite Hlane by lia.
      rewrite lane_sign_bit by apply toLane_byte.
      rewrite toLane_negative by (apply Drange; lia).
      fold D.
      repeat match goal with
             | |- context [?a <? ?b] => destruct (a <? b)
             end; reflexivity.
    + rewrite !orb_false_r. reflexivity.
  - intros i Hi.
    change (ds_resultRightSmallerThanLeft (differenceStep (Z.of_nat t) s))
      with (Z.lor (ds_resultRightSmallerThanLeft s)
              (shr (Z.land
                      (Z.land
                         (sub (Z.lor (ds_difference
                                        (differenceStep (Z.of_nat t) s))
                                 SignMask) LSBMask) SignMask)
                      (not (Z.land (ds_difference
                                      (differenceStep (Z.of_nat t) s))
                              SignMask))) (7 - Z.of_nat t))).
    rewrite Z.lor_spec, HR, testbit_positive_shifted, Hsplit
      by (try apply Hnew; lia).
    destruct (Z.ltb_spec i 64) as [Hlt|Hge]; [|reflexivity]. cbn [andb].
    destruct (Z.eqb_spec (i mod 8) (Z.of_nat t)) as [He|Hne].
    + rewrite Hlane by lia.
      rewrite toLane_positive by (apply Drange; lia).
      fold D.
      repeat match goal with
             | |- context [?a <? ?b] => destruct (a <? b)
             end; reflexivity.
    + rewrite !orb_false_r. reflexivity.
Qed.

Lemma passes_invariant (n : nat) :
  forall t s,
    (t + n <= 8)%nat ->
    passInvariant leftVP leftVN rightVP rightVN scoreDifference t s ->
    passInvariant leftVP leftVN rightVP rightVN scoreDifference (t + n)
      (forLoop n (Z.of_nat t) differenceStep s).
Proof.
  induction n as [|n IH]; intros t s Ht Hinv.
  - rewrite Nat.add_0_r. exact Hinv.
  - cbn [forLoop]. replace (t + S n)%nat with (S t + n)%nat by lia.
    replace (Z.of_nat t + 1) with (Z.of_nat (S t)) by lia.
    apply IH; [lia|]. apply pass_step; [lia|exact Hinv].
Qed.

End Passes.

Lemma countBits_mono (x : Z) (n m : nat) :
  (n <= m)%nat -> countBits n x <= countBits m x.
Proof.
  induction 1 as [|m _ IH]; [lia|]. cbn [countBits].
  pose proof (bitAt_range x (Z.of_nat m)). lia.
Qed.

Lemma bytePrefixSums_lanewise (v addition : Z) :
  is_word v -> 0 <= addition -> addition + countBits 56 v < 256 ->
  lanewise (bytePrefixSums (ChunkPopcounts v) addition)
    (fun b => addition + countBits (8 * Z.to_nat b) v).
Proof.
  intros Hv Ha Hs. split; [apply wrap_is_word|].
  intros b Hb. apply bytePrefixSums_lane; assumption.
Qed.

Lemma byteVPVNSum_lanewise (pVP pVN : Z) (f g : Z -> Z) :
  lanewise pVP f -> lanewise pVN g ->
  (forall b, 0 <= b < 8 -> f b <= 127) ->
  (forall b, 0 <= b < 8 -> g b <= 127) ->
  lanewise (byteVPVNSum pVP pVN) (fun b => toLane (f b - g b)).
Proof.
  intros [HP Hf] [HN Hg] Bf Bg. split; [apply byteVPVNSum_is_word|].
  intros b Hb. rewrite byteVPVNSum_lane; try assumption.
  - rewrite Hf, Hg by exact Hb. reflexivity.
  - intros c Hc. rewrite Hf by exact Hc. apply Bf. exact Hc.
  - intros c Hc. rewrite Hg by exact Hc. apply Bg. exact Hc.
Qed.

Section MainPath.

Variables leftVP leftVN rightVP rightVN scoreDifference : Z.

Hypothesis HlVP : is_word leftVP.
Hypothesis HlVN : is_word leftVN.
Hypothesis HrVP : is_word rightVP.
Hypothesis HrVN : is_word rightVN.
Hypothesis Hdiff : 0 <= scoreDifference.

Let D := diffBelow leftVP leftVN rightVP rightVN scoreDifference.

Hypothesis Drange : forall n, (n <= 64)%nat -> -128 <= D n <= 127.
Hypothesis Hprefix : scoreDifference + countBits 56 rightVP <= 127.

Let byteVPVNSumLeft :=
  byteVPVNSum (bytePrefixSums (ChunkPopcounts leftVP) 0)
    (bytePrefixSums (ChunkPopcounts leftVN) 0).
Let byteVPVNSumRight :=
  byteVPVNSum (bytePrefixSums (ChunkPopcounts rightVP) scoreDifference)
    (bytePrefixSums (ChunkPopcounts rightVN) 0).

Lemma small_prefix (x : Z) (b : Z) :
  0 <= b < 8 -> 0 + countBits (8 * Z.to_nat b) x <= 127.
Proof.
  intros Hb. pose proof (countBits_range (8 * Z.to_nat b) x). lia.
Qed.

Lemma initial_difference :
  lanewise (chunkDifference byteVPVNSumLeft byteVPVNSumRight)
    (fun b => toLane (D (Z.to_nat (8 * b) + 0))).
Proof.
  assert (H56 : forall x, 0 + countBits 56 x < 256).
  { intros x. pose proof (countBits_range 56 x). lia. }
  pose proof (byteVPVNSum_lanewise _ _ _ _
                (bytePrefixSums_lanewise leftVP 0 HlVP ltac:(lia) (H56 _))
                (bytePrefixSums_lanewise leftVN 0 HlVN ltac:(lia) (H56 _))
                (small_prefix leftVP) (small_prefix leftVN)) as HL.
  assert (Hright : forall b, 0 <= b < 8 ->
            scoreDifference + countBits (8 * Z.to_nat b) rightVP <= 127).
  { intros b Hb.
    pose proof (countBits_mono rightVP (8 * Z.to_nat b) 56 ltac:(lia)).
    lia. }
  pose proof (byteVPVNSum_lanewise _ _ _ _
                (bytePrefixSums_lanewise rightVP scoreDifference HrVP Hdiff
                   ltac:(lia))
                (bytePrefixSums_lanewise rightVN 0 HrVN ltac:(lia) (H56 _))
                Hright (small_prefix rightVN)) as HR.
  pose proof (chunkDifference_lanewise _ _ _ _ HL HR) as Hc.
  apply (lanewise_ext _ _ _ Hc). intros b Hb. cbv beta.
  rewrite toLane_sub. f_equal. unfold D, diffBelow.
  replace (Z.to_nat (8 * b) + 0)%nat with (8 * Z.to_nat b)%nat by lia.
  lia.
Qed.

Lemma main_path_masks :
  let s := forLoop 8 0 differenceStep
             (mkDiff (chunkDifference byteVPVNSumLeft byteVPVNSumRight)
                leftVP leftVN rightVP rightVN 0 0) in
  forall i, 0 <= i ->
    Z.testbit (ds_resultLeftSmallerThanRight s) i
      = (i <? 64) && (D (S (Z.to_nat i)) <? 0) /\
    Z.testbit (ds_resultRightSmallerThanLeft s) i
      = (i <? 64) && (0 <? D (S (Z.to_nat i))).
Proof.
  intros s i Hi.
  assert (Hinit : passInvariant leftVP leftVN rightVP rightVN
                    scoreDifference 0
                    (mkDiff (chunkDifference byteVPVNSumLeft byteVPVNSumRight)
                       leftVP leftVN rightVP rightVN 0 0)).
  { unfold passInvariant.
    cbn [ds_leftVP ds_leftVN ds_rightVP ds_rightVN ds_difference
         ds_resultLeftSmallerThanRight ds_resultRightSmallerThanLeft].
    change (Z.of_nat 0) with 0. rewrite !Z.shiftr_0_r.
    repeat (split; [reflexivity|]).
    split; [exact initial_difference|].
    split; intros j Hj; rewrite Z.bits_0;
      replace (j mod 8 <? 0) with false;
      rewrite ?andb_false_r; try reflexivity;
      symmetry; apply Z.ltb_ge;
      apply (Z.mod_pos_bound j 8); lia. }
  pose proof (passes_invariant leftVP leftVN rightVP rightVN scoreDifference
                HlVP HlVN HrVP HrVN Drange 8 0 _ (le_n 8) Hinit) as Hfin.
  change (Z.of_nat 0) with 0 in Hfin. fold s in Hfin.
  destruct Hfin as [_ [_ [_ [_ [_ [HL HR]]]]]].
  rewrite (HL i Hi), (HR i Hi).
  change (Z.of_nat (0 + 8)) with 8.
  replace (i mod 8 <? 8) with true
    by (symmetry; apply Z.ltb_lt; apply (Z.mod_pos_bound i 8); lia).
  rewrite !andb_true_r. split; reflexivity.
Qed.

End MainPath.

(** ** The scalar comparison of the two columns *)

Lemma land_1_bitAt (x t : Z) :
  0 <= t -> Z.land (shr x t) 1 = bitAt x t.
Proof.
  intros Ht. unfold bitAt, shr. change 1 with (Z.ones 1) at 1.
  rewrite Z.land_ones by lia. change (2 ^ 1) with 2.
  rewrite <- Z.bit0_mod, Z.shiftr_spec by lia. reflexivity.
Qed.

Lemma testbit_one_bit (t : nat) (i : Z) :
  (t < 64)%nat -> 0 <= i ->
  Z.testbit (shl 1 (Z.of_nat t)) i = (i =? Z.of_nat t).
Proof.
  intros Ht Hi. unfold shl. rewrite testbit_wrap.
  rewrite Z.shiftl_1_l, Z.pow2_bits_eqb by lia.
  destruct (Z.eqb_spec (Z.of_nat t) i) as [He|Hne].
  - rewrite <- He. replace (Z.of_nat t <? 64) with true
      by (symmetry; apply Z.ltb_lt; lia).
    rewrite Z.eqb_refl. reflexivity.
  - rewrite andb_false_r. symmetry. apply Z.eqb_neq. lia.
Qed.

Section CellByCell.

Variables leftVP leftVN rightVP rightVN scoreDifference : Z.

Let D := diffBelow leftVP leftVN rightVP rightVN scoreDifference.

Lemma cellByCell_step (t : nat) (s : CellByCellState) :
  (t < 64)%nat ->
  cellByCellInvariant leftVP leftVN rightVP rightVN scoreDifference t s ->
  cellByCellInvariant leftVP leftVN rightVP rightVN scoreDifference (S t)
    (cellByCellStep (Z.of_nat t) s).
Proof.
  intros Ht [H1 [H2 [H3 [H4 [H5 [H6 [HL HR]]]]]]].
  fold D in HL, HR.
  unfold cellByCellInvariant, cellByCellStep.
  cbn [cbc_leftscore cbc_rightscore cbc_leftVP cbc_leftVN cbc_rightVP
       cbc_rightVN cbc_leftSmaller cbc_rightSmaller].
  rewrite H1, H2, H3, H4, H5, H6.
  change (Z.shiftr ?x (Z.of_nat t)) with (shr x (Z.of_nat t)).
  rewrite !land_1_bitAt by lia. fold D.
  assert (Hdiff : countBits t leftVP - countBits t leftVN
                  + bitAt leftVP (Z.of_nat t) - bitAt leftVN (Z.of_nat t)
                  - (scoreDifference + countBits t rightVP
                     - countBits t rightVN + bitAt rightVP (Z.of_nat t)
                     - bitAt rightVN (Z.of_nat t))
                  = D (S t)).
  { unfold D, diffBelow. cbn [countBits]. lia. }
  set (ls := countBits t leftVP - countBits t leftVN
             + bitAt leftVP (Z.of_nat t) - bitAt leftVN (Z.of_nat t)) in *.
  set (rs := scoreDifference + countBits t rightVP - countBits t rightVN
             + bitAt rightVP (Z.of_nat t) - bitAt rightVN (Z.of_nat t)) in *.
  assert (Hsplit : forall i, 0 <= i ->
            (i <? Z.of_nat (S t)) = (i <? Z.of_nat t) || (i =? Z.of_nat t)).
  { intros i Hi. destruct (Z.ltb_spec i (Z.of_nat (S t)));
      destruct (Z.ltb_spec i (Z.of_nat t));
      destruct (Z.eqb_spec i (Z.of_nat t)); cbn [orb]; lia. }
  split; [unfold ls; cbn [countBits]; lia|].
  split; [unfold rs; cbn [countBits]; lia|].
  unfold shr. rewrite !Z.shiftr_shiftr by lia.
  replace (Z.of_nat t + 1) with (Z.of_nat (S t)) by lia.
  repeat (split; [reflexivity|]).
  split; intros i Hi; rewrite Hsplit by exact Hi.
  - destruct (Z.ltb_spec ls rs) as [Hlt|Hge].
    + rewrite Z.lor_spec, HL, testbit_one_bit by lia.
      destruct (Z.eqb_spec i (Z.of_nat t)) as [->|Hne].
      * rewrite Nat2Z.id.
        replace (D (S t) <? 0) with true by (symmetry; apply Z.ltb_lt; lia).
        rewrite !andb_true_r, orb_true_r. reflexivity.
      * rewrite !orb_false_r. reflexivity.
    + rewrite HL by exact Hi.
      destruct (Z.eqb_spec i (Z.of_nat t)) as [->|Hne].
      * rewrite Nat2Z.id.
        replace (D (S t) <? 0) with false by (symmetry; apply Z.ltb_ge; lia).
        rewrite !andb_false_r. reflexivity.
      * rewrite !orb_false_r. reflexivity.
  - destruct (Z.ltb_spec rs ls) as [Hlt|Hge].
    + rewrite Z.lor_spec, HR, testbit_one_bit by lia.
      destruct (Z.eqb_spec i (Z.of_nat t)) as [->|Hne].
      * rewrite Nat2Z.id.
        replace (0 <? D (S t)) with true by (symmetry; apply Z.ltb_lt; lia).
        rewrite !andb_true_r, orb_true_r. reflexivity.
      * rewrite !orb_false_r. reflexivity.
    + rewrite HR by exact Hi.
      destruct (Z.eqb_spec i (Z.of_nat t)) as [->|Hne].
      * rewrite Nat2Z.id.
        replace (0 <? D (S t)) with false by (symmetry; apply Z.ltb_ge; lia).
        rewrite !andb_false_r. reflexivity.
      * rewrite !orb_false_r. reflexivity.
Qed.

Lemma cellByCell_loop (n : nat) :
  forall t s,
    (t + n <= 64)%nat ->
    cellByCellInvariant leftVP leftVN rightVP rightVN scoreDifference t s ->
    cellByCellInvariant leftVP leftVN rightVP rightVN scoreDifference (t + n)
      (forLoop n (Z.of_nat t) cellByCellStep s).
Proof.
  induction n as [|n IH]; intros t s Ht Hinv.
  - rewrite Nat.add_0_r. exact Hinv.
  - cbn [forLoop]. replace (t + S n)%nat with (S t + n)%nat by lia.
    replace (Z.of_nat t + 1) with (Z.of_nat (S t)) by lia.
    apply IH; [lia|]. apply cellByCell_step; [lia|exact Hinv].
Qed.

(** Bit [i] of the masks of [differenceMasksCellByCell] tells the sign of the
    difference of the two columns after [i + 1] rows. *)
Lemma differenceMasksCellByCell_bits (i : Z) :
  0 <= i ->
  Z.testbit
    (fst (differenceMasksCellByCell leftVP leftVN rightVP rightVN
            scoreDifference)) i
  = (i <? 64) && (D (S (Z.to_nat i)) <? 0) /\
  Z.testbit
    (snd (differenceMasksCellByCell leftVP leftVN rightVP rightVN
            scoreDifference)) i
  = (i <? 64) && (0 <? D (S (Z.to_nat i))).
Proof.
  intros Hi. unfold differenceMasksCellByCell. cbn [fst snd].
  assert (Hinit : cellByCellInvariant leftVP leftVN rightVP rightVN
                    scoreDifference 0
                    (mkCBC 0 scoreDifference leftVP leftVN rightVP rightVN
                       0 0)).
  { unfold cellByCellInvariant.
    cbn [cbc_leftscore cbc_rightscore cbc_leftVP cbc_leftVN cbc_rightVP
         cbc_rightVN cbc_leftSmaller cbc_rightSmaller countBits].
    change (Z.of_nat 0) with 0. rewrite !Z.shiftr_0_r.
    split; [lia|]. split; [lia|]. repeat (split; [reflexivity|]).
    split; intros j Hj; rewrite Z.bits_0;
      replace (j <? 0) with false by (symmetry; apply Z.ltb_ge; lia);
      reflexivity. }
  pose proof (cellByCell_loop 64 0 _ (le_n 64) Hinit) as Hfin.
  change (Z.of_nat 0) with 0 in Hfin.
  destruct Hfin as [_ [_ [_ [_ [_ [_ [HL HR]]]]]]].
  rewrite (HL i Hi), (HR i Hi). split; reflexivity.
Qed.

End CellByCell.

(** ** Counting bits of disjoint, full and stripped masks *)

Lemma bitAt_disjoint (x y t : Z) :
  Z.land x y = 0 -> bitAt x t + bitAt y t <= 1.
Proof.
  intros H. unfold bitAt.
  assert (Hb : Z.testbit x t && Z.testbit y t = false).
  { rewrite <- Z.land_spec, H. apply Z.bits_0. }
  destruct (Z.testbit x t), (Z.testbit y t); cbn in *;
    try discriminate; lia.
Qed.

Lemma countBits_disjoint (n : nat) (x y : Z) :
  Z.land x y = 0 -> countBits n x + countBits n y <= Z.of_nat n.
Proof.
  intros H. induction n as [|n IH]; cbn [countBits]; [lia|].
  pose proof (bitAt_disjoint x y (Z.of_nat n) H). lia.
Qed.

Lemma countBits_all (n : nat) (x : Z) :
  countBits n x = Z.of_nat n ->
  forall t, 0 <= t < Z.of_nat n -> Z.testbit x t = true.
Proof.
  induction n as [|n IH]; intros H t Ht; [lia|].
  cbn [countBits] in H.
  pose proof (countBits_range n x). pose proof (bitAt_range x (Z.of_nat n)).
  destruct (Z.eq_dec t (Z.of_nat n)) as [->|Hne].
  - assert (Hb : bitAt x (Z.of_nat n) = 1) by lia.
    unfold bitAt in Hb. destruct (Z.testbit x (Z.of_nat n));
      [reflexivity|discriminate].
  - apply IH; lia.
Qed.

Lemma testbit_AllOnes (i : Z) : 0 <= i -> Z.testbit AllOnes i = (i <? 64).
Proof.
  intros Hi. change AllOnes with (Z.ones 64).
  apply Z.testbit_ones_nonneg; lia.
Qed.

Lemma countBits_full (x : Z) :
  is_word x -> countBits 64 x = 64 -> x = AllOnes.
Proof.
  intros Hx H. apply Z.bits_inj'. intros i Hi.
  rewrite testbit_AllOnes by exact Hi.
  destruct (Z.ltb_spec i 64).
  - apply (countBits_all 64 x H). lia.
  - apply testbit_word_high; [exact Hx|lia].
Qed.

Lemma countBits_AllOnes (n : nat) :
  (n <= 64)%nat -> countBits n AllOnes = Z.of_nat n.
Proof.
  induction n as [|n IH]; intros Hn; cbn [countBits]; [reflexivity|].
  rewrite IH by lia. unfold bitAt. rewrite testbit_AllOnes by lia.
  replace (Z.of_nat n <? 64) with true by (symmetry; apply Z.ltb_lt; lia).
  cbn [Z.b2z]. lia.
Qed.

Lemma countBits_zero (n : nat) : countBits n 0 = 0.
Proof.
  induction n as [|n IH]; cbn [countBits]; [reflexivity|].
  rewrite IH. unfold bitAt. rewrite Z.bits_0. reflexivity.
Qed.

Lemma disjoint_AllOnes (y : Z) :
  is_word y -> Z.land AllOnes y = 0 -> y = 0.
Proof.
  intros Hy H. rewrite <- H. apply Z.bits_inj'. intros i Hi.
  rewrite Z.land_spec, testbit_AllOnes by exact Hi.
  destruct (Z.ltb_spec i 64); [reflexivity|].
  apply testbit_word_high; [exact Hy|lia].
Qed.

(** Removing the bits two masks share keeps the difference of their
    counts. *)
Lemma testbit_strip (x c t : Z) :
  0 <= t < 64 ->
  Z.testbit (Z.land x (not c)) t = Z.testbit x t && negb (Z.testbit c t).
Proof.
  intros Ht. rewrite Z.land_spec, testbit_not by lia.
  replace (t <? 64) with true by (symmetry; apply Z.ltb_lt; lia).
  reflexivity.
Qed.

Lemma countBits_strip (n : nat) (x y : Z) :
  (n <= 64)%nat ->
  countBits n (Z.land x (not (Z.land x y)))
  - countBits n (Z.land y (not (Z.land x y)))
  = countBits n x - countBits n y.
Proof.
  induction n as [|n IH]; intros Hn; cbn [countBits]; [reflexivity|].
  assert (Hb : bitAt (Z.land x (not (Z.land x y))) (Z.of_nat n)
               - bitAt (Z.land y (not (Z.land x y))) (Z.of_nat n)
               = bitAt x (Z.of_nat n) - bitAt y (Z.of_nat n)).
  { unfold bitAt. rewrite !testbit_strip, Z.land_spec by lia.
    destruct (Z.testbit x (Z.of_nat n)), (Z.testbit y (Z.of_nat n));
      reflexivity. }
  specialize (IH ltac:(lia)). lia.
Qed.

Lemma diffBelow_strip (leftVP leftVN rightVP rightVN scoreDifference : Z)
  (n : nat) :
  (n <= 64)%nat ->
  diffBelow
    (Z.land leftVP (not (Z.land leftVP rightVP)))
    (Z.land leftVN (not (Z.land leftVN rightVN)))
    (Z.land rightVP (not (Z.land leftVP rightVP)))
    (Z.land rightVN (not (Z.land leftVN rightVN)))
    scoreDifference n
  = diffBelow leftVP leftVN rightVP rightVN scoreDifference n.
Proof.
  intros Hn. unfold diffBelow.
  pose proof (countBits_strip n leftVP rightVP Hn).
  pose proof (countBits_strip n leftVN rightVN Hn). lia.
Qed.

Lemma strip_disjoint (x y : Z) :
  Z.land (Z.land x (not (Z.land x y))) (Z.land y (not (Z.land x y))) = 0.
Proof.
  apply Z.bits_inj'. intros i Hi.
  rewrite Z.bits_0, !Z.land_spec, testbit_not, Z.land_spec by exact Hi.
  destruct (Z.testbit x i), (Z.testbit y i), (i <? 64); reflexivity.
Qed.

Lemma land_disjoint (x y c d : Z) :
  Z.land x y = 0 -> Z.land (Z.land x c) (Z.land y d) = 0.
Proof.
  intros H. apply Z.bits_inj'. intros i Hi.
  assert (Hb : Z.testbit x i && Z.testbit y i = false).
  { rewrite <- Z.land_spec, H. apply Z.bits_0. }
  rewrite Z.bits_0, !Z.land_spec.
  destruct (Z.testbit x i), (Z.testbit y i); cbn in *;
    try discriminate; try reflexivity; apply andb_false_r.
Qed.

(** ** The three shortcuts and the range of the main path *)

Section StrippedMasks.

Variables leftVP leftVN rightVP rightVN scoreDifference : Z.

Hypothesis HlVP : is_word leftVP.
Hypothesis HlVN : is_word leftVN.
Hypothesis HrVP : is_word rightVP.
Hypothesis HrVN : is_word rightVN.
Hypothesis Hleft : Z.land leftVP leftVN = 0.
Hypothesis Hright : Z.land rightVP rightVN = 0.
Hypothesis Hcommon : Z.land leftVP rightVP = 0.
Hypothesis Hdiff : 0 <= scoreDifference.

Let D := diffBelow leftVP leftVN rightVP rightVN scoreDifference.

Lemma diffBelow_upper (n : nat) :
  (n <= 64)%nat ->
  D n <= countBits 64 leftVP + countBits 64 rightVN - scoreDifference.
Proof.
  intros Hn. unfold D, diffBelow.
  pose proof (countBits_mono leftVP n 64 Hn).
  pose proof (countBits_mono rightVN n 64 Hn).
  pose proof (countBits_range n leftVN).
  pose proof (countBits_range n rightVP). lia.
Qed.

Lemma diffBelow_lower (n : nat) :
  (n <= 64)%nat ->
  scoreDifference <= countBits 64 rightVN + countBits 64 leftVP ->
  -128 <= D n.
Proof.
  intros Hn Hle. unfold D, diffBelow.
  pose proof (countBits_disjoint 64 leftVP leftVN Hleft).
  pose proof (countBits_disjoint 64 rightVP rightVN Hright).
  pose proof (countBits_mono leftVN n 64 Hn).
  pose proof (countBits_mono rightVP n 64 Hn).
  pose proof (countBits_range n leftVP).
  pose proof (countBits_range n rightVN). lia.
Qed.

Lemma shortcut_bound (i : Z) : 0 <= i -> i < 64 -> (S (Z.to_nat i) <= 64)%nat.
Proof. lia. Qed.

(** First shortcut: the right column starts too far above the left one. *)
Lemma shortcut_all_smaller (i : Z) :
  0 <= i ->
  (scoreDifference >? popcount rightVN + popcount leftVP) = true ->
  Z.testbit AllOnes i = (i <? 64) && (D (S (Z.to_nat i)) <? 0) /\
  Z.testbit AllZeros i = (i <? 64) && (0 <? D (S (Z.to_nat i))).
Proof.
  intros Hi Hgt. rewrite Z.gtb_ltb in Hgt. apply Z.ltb_lt in Hgt.
  rewrite !popcount_countBits in Hgt by assumption.
  rewrite testbit_AllOnes by exact Hi.
  change AllZeros with 0. rewrite Z.bits_0.
  destruct (Z.ltb_spec i 64) as [Hlt|Hge]; [|split; reflexivity].
  pose proof (diffBelow_upper _ (shortcut_bound i Hi Hlt)).
  cbn [andb]. split; symmetry; [apply Z.ltb_lt|apply Z.ltb_ge]; lia.
Qed.

Lemma full_masks_diffBelow (n : nat) :
  (n <= 64)%nat -> rightVN = AllOnes -> leftVP = AllOnes ->
  D n = 2 * Z.of_nat n - scoreDifference.
Proof.
  intros Hn HR HL.
  assert (HlVN0 : leftVN = 0).
  { apply disjoint_AllOnes; [exact HlVN|]. rewrite <- HL. exact Hleft. }
  assert (HrVP0 : rightVP = 0).
  { apply disjoint_AllOnes; [exact HrVP|]. rewrite <- HR, Z.land_comm.
    exact Hright. }
  unfold D, diffBelow. rewrite HlVN0, HrVP0, HR, HL.
  rewrite !countBits_AllOnes, !countBits_zero by exact Hn. lia.
Qed.

(** Second shortcut: the columns meet only in the last row. *)
Lemma shortcut_last_equal (i : Z) :
  0 <= i ->
  scoreDifference = 128 -> rightVN = AllOnes -> leftVP = AllOnes ->
  Z.testbit (Z.lxor AllOnes (shl 1 (WordSize - 1))) i
    = (i <? 64) && (D (S (Z.to_nat i)) <? 0) /\
  Z.testbit AllZeros i = (i <? 64) && (0 <? D (S (Z.to_nat i))).
Proof.
  intros Hi HS HR HL.
  change (Z.lxor AllOnes (shl 1 (WordSize - 1))) with (Z.ones 63).
  rewrite Z.testbit_ones_nonneg by lia.
  change AllZeros with 0. rewrite Z.bits_0.
  destruct (Z.ltb_spec i 64) as [Hlt|Hge].
  - rewrite (full_masks_diffBelow _ (shortcut_bound i Hi Hlt) HR HL), HS.
    cbn [andb]. split.
    + destruct (Z.ltb_spec i 63); symmetry;
        [apply Z.ltb_lt|apply Z.ltb_ge]; lia.
    + symmetry. apply Z.ltb_ge. lia.
  - cbn [andb]. split; [apply Z.ltb_ge; lia|reflexivity].
Qed.

(** Third shortcut: the left column is above the right one everywhere. *)
Lemma shortcut_all_larger (i : Z) :
  0 <= i ->
  scoreDifference = 0 -> rightVN = AllOnes -> leftVP = AllOnes ->
  Z.testbit 0 i = (i <? 64) && (D (S (Z.to_nat i)) <? 0) /\
  Z.testbit AllOnes i = (i <? 64) && (0 <? D (S (Z.to_nat i))).
Proof.
  intros Hi HS HR HL.
  rewrite testbit_AllOnes by exact Hi. rewrite Z.bits_0.
  destruct (Z.ltb_spec i 64) as [Hlt|Hge]; [|split; reflexivity].
  rewrite (full_masks_diffBelow _ (shortcut_bound i Hi Hlt) HR HL), HS.
  cbn [andb]. split; symmetry; [apply Z.ltb_ge|apply Z.ltb_lt]; lia.
Qed.

End StrippedMasks.

(** ** The main path stays within the range of a byte lane *)

Section MainRange.

Variables leftVP leftVN rightVP rightVN scoreDifference : Z.

Hypothesis HlVP : is_word leftVP.
Hypothesis HlVN : is_word leftVN.
Hypothesis HrVP : is_word rightVP.
Hypothesis HrVN : is_word rightVN.
Hypothesis Hleft : Z.land leftVP leftVN = 0.
Hypothesis Hright : Z.land rightVP rightVN = 0.
Hypothesis Hcommon : Z.land leftVP rightVP = 0.
Hypothesis Hdiff : 0 <= scoreDifference.
Hypothesis Hreach :
  scoreDifference <= countBits 64 rightVN + countBits 64 leftVP.
Hypothesis Hnot128 :
  ~ (scoreDifference = 128 /\ rightVN = AllOnes /\ leftVP = AllOnes).
Hypothesis Hnot0 :
  ~ (scoreDifference = 0 /\ rightVN = AllOnes /\ leftVP = AllOnes).

Let D := diffBelow leftVP leftVN rightVP rightVN scoreDifference.

Lemma main_range (n : nat) : (n <= 64)%nat -> -128 <= D n <= 127.
Proof.
  intros Hn. split.
  - apply diffBelow_lower; assumption.
  - pose proof (diffBelow_upper leftVP leftVN rightVP rightVN
                  scoreDifference n Hn) as Hup.
    fold D in Hup.
    pose proof (countBits_range 64 leftVP).
    pose proof (countBits_range 64 rightVN).
    destruct (Z.eq_dec (countBits 64 leftVP) 64) as [HL|HL];
      [|lia].
    destruct (Z.eq_dec (countBits 64 rightVN) 64) as [HR|HR];
      [|lia].
    apply countBits_full in HL; [|exact HlVP].
    apply countBits_full in HR; [|exact HrVN].
    assert (scoreDifference <> 0) by (intros Heq; apply Hnot0; auto).
    lia.
Qed.

Lemma main_prefix : scoreDifference + countBits 56 rightVP <= 127.
Proof.
  pose proof (countBits_range 64 leftVP).
  pose proof (countBits_range 64 rightVN).
  pose proof (countBits_disjoint 64 rightVP rightVN Hright).
  pose proof (countBits_mono rightVP 56 64 ltac:(lia)).
  destruct (Z.eq_dec (countBits 64 leftVP) 64) as [HL|HL]; [|lia].
  pose proof HL as HL'. apply countBits_full in HL'; [|exact HlVP].
  assert (HrVP0 : rightVP = 0).
  { apply disjoint_AllOnes; [exact HrVP|]. rewrite <- HL'. exact Hcommon. }
  rewrite HrVP0, countBits_zero.
  destruct (Z.eq_dec (countBits 64 rightVN) 64) as [HR|HR]; [|lia].
  apply countBits_full in HR; [|exact HrVN].
  assert (scoreDifference <> 128) by (intros Heq; apply Hnot128; auto).
  lia.
Qed.

(** The assertion [scoreDifference < 128] that follows the shortcuts. *)
Lemma main_scoreDifference_small : scoreDifference < 128.
Proof.
  pose proof (countBits_range 64 leftVP).
  pose proof (countBits_range 64 rightVN).
  destruct (Z.eq_dec (countBits 64 leftVP) 64) as [HL|HL]; [|lia].
  destruct (Z.eq_dec (countBits 64 rightVN) 64) as [HR|HR]; [|lia].
  apply countBits_full in HL; [|exact HlVP].
  apply countBits_full in HR; [|exact HrVN].
  assert (scoreDifference <> 128) by (intros Heq; apply Hnot128; auto).
  lia.
Qed.

End MainRange.

(** ** The bits of [differenceMasks] *)

Lemma guarded_strip (leftVP leftVN rightVP rightVN scoreDifference i : Z) :
  0 <= i ->
  (i <? 64)
  && (diffBelow
        (Z.land leftVP (not (Z.land leftVP rightVP)))
        (Z.land leftVN (not (Z.land leftVN rightVN)))
        (Z.land rightVP (not (Z.land leftVP rightVP)))
        (Z.land rightVN (not (Z.land leftVN rightVN)))
        scoreDifference (S (Z.to_nat i)) <? 0)
  = (i <? 64)
    && (diffBelow leftVP leftVN rightVP rightVN scoreDifference
          (S (Z.to_nat i)) <? 0) /\
  (i <? 64)
  && (0 <? diffBelow
        (Z.land leftVP (not (Z.land leftVP rightVP)))
        (Z.land leftVN (not (Z.land leftVN rightVN)))
        (Z.land rightVP (not (Z.land leftVP rightVP)))
        (Z.land rightVN (not (Z.land leftVN rightVN)))
        scoreDifference (S (Z.to_nat i)))
  = (i <? 64)
    && (0 <? diffBelow leftVP leftVN rightVP rightVN scoreDifference
               (S (Z.to_nat i))).
Proof.
  intros Hi. destruct (Z.ltb_spec i 64) as [Hlt|Hge]; [|split; reflexivity].
  rewrite diffBelow_strip by lia. split; reflexivity.
Qed.

Lemma differenceMasks_bits
  (leftVP leftVN rightVP rightVN scoreDifference i : Z) :
  is_word leftVP -> is_word leftVN -> is_word rightVP -> is_word rightVN ->
  Z.land leftVP leftVN = 0 -> Z.land rightVP rightVN = 0 ->
  0 <= scoreDifference -> 0 <= i ->
  Z.testbit
    (fst (differenceMasks leftVP leftVN rightVP rightVN scoreDifference)) i
  = (i <? 64)
    && (diffBelow leftVP leftVN rightVP rightVN scoreDifference
          (S (Z.to_nat i)) <? 0) /\
  Z.testbit
    (snd (differenceMasks leftVP leftVN rightVP rightVN scoreDifference)) i
  = (i <? 64)
    && (0 <? diffBelow leftVP leftVN rightVP rightVN scoreDifference
               (S (Z.to_nat i))).
Proof.
  intros HlVP HlVN HrVP HrVN Hleft Hright Hdiff Hi.
  destruct (guarded_strip leftVP leftVN rightVP rightVN scoreDifference i Hi)
    as [GL GR].
  rewrite <- GL, <- GR. clear GL GR.
  unfold differenceMasks. cbv zeta.
  set (lVP := Z.land leftVP (not (Z.land leftVP rightVP))).
  set (lVN := Z.land leftVN (not (Z.land leftVN rightVN))).
  set (rVP := Z.land rightVP (not (Z.land leftVP rightVP))).
  set (rVN := Z.land rightVN (not (Z.land leftVN rightVN))).
  assert (WlVP : is_word lVP) by (apply land_is_word_l; exact HlVP).
  assert (WlVN : is_word lVN) by (apply land_is_word_l; exact HlVN).
  assert (WrVP : is_word rVP) by (apply land_is_word_l; exact HrVP).
  assert (WrVN : is_word rVN) by (apply land_is_word_l; exact HrVN).
  assert (Dl : Z.land lVP lVN = 0) by (apply land_disjoint; exact Hleft).
  assert (Dr : Z.land rVP rVN = 0) by (apply land_disjoint; exact Hright).
  assert (Dc : Z.land lVP rVP = 0) by apply strip_disjoint.
  destruct (scoreDifference >? popcount rVN + popcount lVP) eqn:E1.
  { cbn [fst snd].
    apply (shortcut_all_smaller lVP lVN rVP rVN scoreDifference
             WlVP WrVN i Hi E1). }
  destruct ((scoreDifference =? 128) && (rVN =? AllOnes) && (lVP =? AllOnes))
    eqn:E2.
  { cbn [fst snd].
    apply andb_prop in E2. destruct E2 as [E2 E2c].
    apply andb_prop in E2. destruct E2 as [E2a E2b].
    apply Z.eqb_eq in E2a, E2b, E2c.
    apply shortcut_last_equal; assumption. }
  destruct ((scoreDifference =? 0) && (rVN =? AllOnes) && (lVP =? AllOnes))
    eqn:E3.
  { cbn [fst snd].
    apply andb_prop in E3. destruct E3 as [E3 E3c].
    apply andb_prop in E3. destruct E3 as [E3a E3b].
    apply Z.eqb_eq in E3a, E3b, E3c.
    apply shortcut_all_larger; assumption. }
  cbn [fst snd].
  assert (Hreach : scoreDifference <= countBits 64 rVN + countBits 64 lVP).
  { rewrite Z.gtb_ltb in E1. apply Z.ltb_ge in E1.
    rewrite !popcount_countBits in E1 by assumption. exact E1. }
  assert (Hnot128 :
            ~ (scoreDifference = 128 /\ rVN = AllOnes /\ lVP = AllOnes)).
  { intros [A [B C]]. rewrite A, B, C in E2. discriminate E2. }
  assert (Hnot0 : ~ (scoreDifference = 0 /\ rVN = AllOnes /\ lVP = AllOnes)).
  { intros [A [B C]]. rewrite A, B, C in E3. discriminate E3. }
  apply main_path_masks; try assumption.
  - intros n Hn. apply main_range; assumption.
  - apply main_prefix with (leftVP := lVP) (rightVN := rVN); assumption.
Qed.

Lemma columnScore_diffBelow
  (leftVP leftVN rightVP rightVN scoreDifference : Z) (k : nat) :
  columnScore 0 leftVP leftVN k - columnScore scoreDifference rightVP rightVN k
  = diffBelow leftVP leftVN rightVP rightVN scoreDifference (S k).
Proof. unfold columnScore, diffBelow. lia. Qed.

(** C1. For 64-bit masks with VP and VN disjoint in each pair and a score
    difference that is not negative, [differenceMasks] returns exactly the
    masks of the cell-by-cell comparison [differenceMasksCellByCell]; bit [k]
    of the first mask is set iff the score of row [k] of the left column is
    strictly below that of the right column, and bit [k] of the second mask
    iff it is strictly above. *)
Theorem differenceMasks_cellByCell
  (leftVP leftVN rightVP rightVN scoreDifference : Z) :
  is_word leftVP -> is_word leftVN -> is_word rightVP -> is_word rightVN ->
  Z.land leftVP leftVN = 0 -> Z.land rightVP rightVN = 0 ->
  0 <= scoreDifference ->
  differenceMasks leftVP leftVN rightVP rightVN scoreDifference
  = differenceMasksCellByCell leftVP leftVN rightVP rightVN scoreDifference
  /\
  forall k : nat, (k < 64)%nat ->
    Z.testbit
      (fst (differenceMasks leftVP leftVN rightVP rightVN scoreDifference))
      (Z.of_nat k)
    = (columnScore 0 leftVP leftVN k
       <? columnScore scoreDifference rightVP rightVN k) /\
    Z.testbit
      (snd (differenceMasks leftVP leftVN rightVP rightVN scoreDifference))
      (Z.of_nat k)
    = (columnScore scoreDifference rightVP rightVN k
       <? columnScore 0 leftVP leftVN k).
Proof.
  intros HlVP HlVN HrVP HrVN Hleft Hright Hdiff. split.
  - rewrite (surjective_pairing (differenceMasks _ _ _ _ _)).
    rewrite (surjective_pairing (differenceMasksCellByCell _ _ _ _ _)).
    f_equal; apply Z.bits_inj'; intros i Hi.
    + destruct (differenceMasks_bits leftVP leftVN rightVP rightVN
                  scoreDifference i) as [-> _]; try assumption.
      destruct (differenceMasksCellByCell_bits leftVP leftVN rightVP rightVN
                  scoreDifference i Hi) as [-> _].
      reflexivity.
    + destruct (differenceMasks_bits leftVP leftVN rightVP rightVN
                  scoreDifference i) as [_ ->]; try assumption.
      destruct (differenceMasksCellByCell_bits leftVP leftVN rightVP rightVN
                  scoreDifference i Hi) as [_ ->].
      reflexivity.
  - intros k Hk.
    destruct (differenceMasks_bits leftVP leftVN rightVP rightVN
                scoreDifference (Z.of_nat k)) as [-> ->];
      try assumption; [lia|].
    rewrite Nat2Z.id.
    replace (Z.of_nat k <? 64) with true by (symmetry; apply Z.ltb_lt; lia).
    cbn [andb].
    pose proof (columnScore_diffBelow leftVP leftVN rightVP rightVN
                  scoreDifference k) as HD.
    split.
    + destruct (Z.ltb_spec
                  (diffBelow leftVP leftVN rightVP rightVN scoreDifference
                     (S k)) 0); symmetry;
        [apply Z.ltb_lt|apply Z.ltb_ge]; lia.
    + destruct (Z.ltb_spec 0
                  (diffBelow leftVP leftVN rightVP rightVN scoreDifference
                     (S k))); symmetry;
        [apply Z.ltb_lt|apply Z.ltb_ge]; lia.
Qed.

Lemma differenceMasks_cellByCell_witness :
  differenceMasks 0x0F05 0x00F2 0x1108 0x2201 3
  = differenceMasksCellByCell 0x0F05 0x00F2 0x1108 0x2201 3
  /\
  forall k : nat, (k < 64)%nat ->
    Z.testbit (fst (differenceMasks 0x0F05 0x00F2 0x1108 0x2201 3))
      (Z.of_nat k)
    = (columnScore 0 0x0F05 0x00F2 k <? columnScore 3 0x1108 0x2201 k) /\
    Z.testbit (snd (differenceMasks 0x0F05 0x00F2 0x1108 0x2201 3))
      (Z.of_nat k)
    = (columnScore 3 0x1108 0x2201 k <? columnScore 0 0x0F05 0x00F2 k).
Proof.
  apply (differenceMasks_cellByCell 0x0F05 0x00F2 0x1108 0x2201 3).
  - unfold is_word, modulus. cbn. lia.
  - unfold is_word, modulus. cbn. lia.
  - unfold is_word, modulus. cbn. lia.
  - unfold is_word, modulus. cbn. lia.
  - reflexivity.
  - reflexivity.
  - lia.
Defined.

(** ** [getNextSlice]: the score above the slice *)

(** C5 (amended).  [getNextSlice] reads the two operands from two slices:
    [slice], the slice it advances (the cell to the left, in the same 64
    rows), and [previous], the slice of the 64 rows above.  When the upper
    neighbour exists ([previousInsideBand]) the new [scoreBeforeStart] is the
    minimum of [slice.scoreBeforeStart + 1] and of [previous.scoreEnd] moved
    back by one row with the top bits of [previous.VP] and [previous.VN],
    plus 0 when the diagonal character matched and 1 otherwise; when the
    upper neighbour is absent it is [slice.scoreBeforeStart + 1]. *)
Theorem getNextSlice_scoreBeforeStart
  (Eq : Z) (slice : WordSlice) (previousInsideBand previousEq : bool)
  (previous : WordSlice) :
  scoreBeforeStart
    (getNextSlice Eq slice previousInsideBand previousEq previous) =
  if previousInsideBand
  then Z.min (scoreBeforeStart slice + 1)
             (scoreEnd previous - topBit (VP previous)
              + topBit (VN previous) + (if previousEq then 0 else 1))
  else scoreBeforeStart slice + 1.
Proof.
  unfold getNextSlice, nextScoreBeforeStart, topBit. cbn [scoreBeforeStart].
  rewrite !nonzero_lastBit.
  destruct previousInsideBand; reflexivity.
Qed.

(** The claim C5 as the specification words it, with one slice [prev] for
    both operands, fails whichever of the two slices is taken for [prev].
    With [prev] the slice that is advanced: the slice above ends at 3 with a
    matching diagonal, the code returns 3, the formula 4.  With [prev] the
    slice above: that slice starts and ends at 5, the code returns 4, the
    formula 6.  In both calls the assertion of the source holds
    ([slice.scoreBeforeStart <= previous.scoreEnd]). *)
Lemma getNextSlice_scoreBeforeStart_not_from_one_slice :
  (scoreBeforeStart
     (getNextSlice 0 (mkWordSlice 7 0 6 3) true true (mkWordSlice 0 0 3 3))
   = 3 /\
   scoreBeforeStartFromPrev (mkWordSlice 7 0 6 3) true true = 4) /\
  (scoreBeforeStart
     (getNextSlice 0 (mkWordSlice 0 0 3 3) true false (mkWordSlice 0 0 5 5))
   = 4 /\
   scoreBeforeStartFromPrev (mkWordSlice 0 0 5 5) true false = 6).
Proof.
  split; split; vm_compute; reflexivity.
Qed.

(** ** [mergeTwoSlices]: merging a slice with itself *)

Lemma land_not_self (x : Z) : Z.land x (not (Z.land x x)) = 0.
Proof.
  apply Z.bits_inj'. intros i Hi.
  rewrite Z.land_spec, testbit_not, Z.land_spec, Z.bits_0 by exact Hi.
  destruct (Z.testbit x i), (i <? 64); reflexivity.
Qed.

Lemma differenceMasks_same (vp vn : Z) :
  differenceMasks vp vn vp vn 0 = (0, 0).
Proof.
  unfold differenceMasks. rewrite !land_not_self. reflexivity.
Qed.

Lemma land_not_zero (x : Z) : is_word x -> Z.land x (not 0) = x.
Proof.
  intros Hx. apply Z.bits_inj'. intros i Hi.
  rewrite Z.land_spec, testbit_not, Z.bits_0 by exact Hi.
  destruct (Z.ltb_spec i 64) as [Hlt|Hge].
  - apply andb_true_r.
  - rewrite (testbit_word_high x i Hx Hge). reflexivity.
Qed.

(** C4.  For every WordSlice [a] whose masks are 64-bit words,
    [mergeTwoSlices a a] is [a] field for field: same VP, same VN, same
    [scoreEnd], same [scoreBeforeStart]. *)
Theorem mergeTwoSlices_idempotent (a : WordSlice) :
  is_word (VP a) -> is_word (VN a) ->
  Z.land (VP a) (VN a) = 0 ->
  mergeTwoSlices a a = a.
Proof.
  intros HVP HVN _. destruct a as [vp vn se sbs].
  cbn [VP VN scoreEnd scoreBeforeStart] in *.
  unfold mergeTwoSlices. cbn [VP VN scoreEnd scoreBeforeStart].
  rewrite Z.gtb_ltb, Z.ltb_irrefl, Z.sub_diag, differenceMasks_same.
  cbn [fst snd].
  replace (nonzero (Z.land 0 1)) with false by reflexivity.
  cbn [andb].
  replace (Z.land (Z.lor 0 (sub (Z.lor 0 0) (shl 0 1))) (not 0))
    with 0 by reflexivity.
  replace (Z.land 0 (shl 0 1)) with 0 by reflexivity.
  rewrite !Z.land_0_r, !Z.lor_0_r, !Z.min_id, !land_not_zero
    by (try apply land_is_word_l; assumption).
  reflexivity.
Qed.

Lemma mergeTwoSlices_idempotent_witness :
  mergeTwoSlices (mkWordSlice 5 10 3 3) (mkWordSlice 5 10 3 3)
  = mkWordSlice 5 10 3 3.
Proof.
  apply (mergeTwoSlices_idempotent (mkWordSlice 5 10 3 3)).
  - unfold is_word, modulus. cbn. lia.
  - unfold is_word, modulus. cbn. lia.
  - reflexivity.
Defined.

(** ** The out-neighbour fast path of the column sweep *)

Section FastPath.

Variable graph : AlignmentGraph.

Lemma probeOutNeighbors_index sequence j nodeCalc neighbors :
  forall current r,
    probeOutNeighbors graph sequence j nodeCalc neighbors current = Some r ->
    snd r = snd current.
Proof.
  induction neighbors as [|neighbor rest IH]; intros current r H.
  - injection H as <-. reflexivity.
  - cbn [probeOutNeighbors] in H. unfold bindOpt in H.
    destruct (nth_error sequence (j + 64 - 1)%nat) as [c|]; [|discriminate].
    destruct (nth_error (nodeStart graph) neighbor) as [start|];
      [|discriminate].
    destruct (nth_error (nodeSequences graph) start) as [gc|];
      [|discriminate].
    apply IH in H. rewrite H. destruct (Ascii.eqb c gc); reflexivity.
Qed.

Lemma probeOutNeighbors_score sequence j nodeCalc neighbors :
  forall current r,
    probeOutNeighbors graph sequence j nodeCalc neighbors current = Some r ->
    fst current = minScore nodeCalc - 1 \/
    (exists neighbor, In neighbor neighbors /\
                      matchingOutNeighbor graph sequence j neighbor) ->
    fst r = minScore nodeCalc - 1.
Proof.
  induction neighbors as [|neighbor rest IH]; intros current r H Hm.
  - injection H as <-. destruct Hm as [Hm|[n [[] _]]]. exact Hm.
  - cbn [probeOutNeighbors] in H. unfold bindOpt in H.
    destruct (nth_error sequence (j + 64 - 1)%nat) as [c|] eqn:Hc;
      [|discriminate].
    destruct (nth_error (nodeStart graph) neighbor) as [start|] eqn:Hs;
      [|discriminate].
    destruct (nth_error (nodeSequences graph) start) as [gc|] eqn:Hg;
      [|discriminate].
    apply IH in H; [exact H|].
    destruct (Ascii.eqb c gc) eqn:Heq; [left; reflexivity|].
    destruct Hm as [Hm|[n [[<-|Hin] Hn]]].
    + left. exact Hm.
    + exfalso. destruct Hn as [start' [c' [Hs' [Hg' Hc']]]].
      rewrite Hs in Hs'. injection Hs' as <-.
      rewrite Hg in Hg'. injection Hg' as <-.
      rewrite Hc in Hc'. injection Hc' as ->.
      rewrite Ascii.eqb_refl in Heq. discriminate.
    + right. exists n. split; assumption.
Qed.

(** C8.  In the out-neighbour fast path of the column sweep (node minimum
    on its final character, top VP bit of the last cell set, read character
    of the column's last row equal to an out-neighbour's first character),
    [currentMinimumScore] is lowered to [minScore - 1] and
    [currentMinimumIndex] keeps the value it had: it is not set to the
    neighbour's first position. *)
Theorem outNeighborFastPath_keeps_index
  (sequence : list ascii) (j i : nat) (nodeCalc : NodeCalculationResult)
  (currentSlice : NodeSlice) (current r : Z * nat)
  (e : nat) (cells : list WordSlice) (last : WordSlice)
  (neighbors : list nat) (neighbor : nat) :
  outNeighborFastPath graph sequence j i nodeCalc currentSlice current
    = Some r ->
  minScore nodeCalc <= fst current ->
  nth_error (nodeEnd graph) i = Some e ->
  minScoreIndex nodeCalc = (e - 1)%nat ->
  currentSlice i = Some cells ->
  back cells = Some last ->
  Z.testbit (VP last) 63 = true ->
  nth_error (outNeighbors graph) i = Some neighbors ->
  In neighbor neighbors ->
  matchingOutNeighbor graph sequence j neighbor ->
  fst r = minScore nodeCalc - 1 /\ snd r = snd current.
Proof.
  intros H Hle He Hidx Hcells Hback Hbit Hnbs Hin Hmatch.
  unfold outNeighborFastPath in H.
  apply Z.leb_le in Hle. rewrite Hle in H.
  unfold bindOpt in H. rewrite He, Hidx, Nat.eqb_refl, Hcells, Hback in H.
  rewrite nonzero_lastBit, Hbit, Hnbs in H.
  split.
  - eapply probeOutNeighbors_score; [exact H|].
    right. exists neighbor. split; assumption.
  - eapply probeOutNeighbors_index. exact H.
Qed.

End FastPath.

Lemma outNeighborFastPath_keeps_index_witness :
  outNeighborFastPath fastPathGraph fastPathRead 0 0
    (mkNodeCalculationResult 7 1 128)
    (fun n => if Nat.eqb n 0
              then Some [mkWordSlice 0 0 9 9; mkWordSlice (2 ^ 63) 0 7 6]
              else None)
    (7, 1%nat) = Some (6, 1%nat) /\
  (fst (6, 1%nat) = 7 - 1 /\ snd (6, 1%nat) = 1%nat).
Proof.
  split; [reflexivity|].
  apply (outNeighborFastPath_keeps_index fastPathGraph fastPathRead 0 0
           (mkNodeCalculationResult 7 1 128)
           (fun n => if Nat.eqb n 0
              then Some [mkWordSlice 0 0 9 9; mkWordSlice (2 ^ 63) 0 7 6]
              else None)
           (7, 1%nat) (6, 1%nat) 2%nat
           [mkWordSlice 0 0 9 9; mkWordSlice (2 ^ 63) 0 7 6]
           (mkWordSlice (2 ^ 63) 0 7 6) [1%nat] 1%nat).
  - reflexivity.
  - cbn. lia.
  - reflexivity.
  - reflexivity.
  - reflexivity.
  - reflexivity.
  - reflexivity.
  - reflexivity.
  - left. reflexivity.
  - exists 2%nat, "G"%char. repeat split; reflexivity.
Defined.

(** ** The largest block of correct slices *)

(** Value of [maxBlockSize] when [getLargestContiguousBlock] returns. *)
Lemma finalBlock_zero (s : BlockState) :
  (if Nat.ltb (maxBlockSize s) (thisBlock s)
   then (thisBlock s - 1)%nat else maxBlockSize s) = 0%nat <->
  maxBlockSize s = 0%nat /\ (thisBlock s <= 1)%nat.
Proof.
  destruct (Nat.ltb_spec (maxBlockSize s) (thisBlock s)); lia.
Qed.

Lemma blockLoop_size_zero (vec : list bool) :
  forall i s,
    let s' := blockLoop vec i s in
    (if Nat.ltb (maxBlockSize s') (thisBlock s')
     then (thisBlock s' - 1)%nat else maxBlockSize s') = 0%nat <->
    maxBlockSize s = 0%nat /\ (longestRun vec (thisBlock s) <= 1)%nat.
Proof.
  induction vec as [|v rest IH]; intros i s; cbn [blockLoop longestRun].
  - apply finalBlock_zero.
  - cbv zeta in IH |- *. rewrite IH. unfold blockStep.
    destruct v; cbn [maxBlockSize thisBlock].
    + rewrite Nat.add_1_r. reflexivity.
    + destruct (Nat.ltb_spec (maxBlockSize s) (thisBlock s));
        cbn [maxBlockSize thisBlock]; lia.
Qed.

Lemma blockLoop_end_bound (vec : list bool) :
  forall i s,
    (thisBlock s <= i)%nat ->
    (maxBlockSize s <= maxBlockEnd s)%nat ->
    let s' := blockLoop vec i s in
    (thisBlock s' <= i + List.length vec)%nat /\
    (maxBlockSize s' <= maxBlockEnd s')%nat.
Proof.
  induction vec as [|v rest IH]; intros i s Ht Hm; cbn [blockLoop].
  - cbn. lia.
  - cbv zeta in IH |- *. cbn [List.length].
    replace (i + S (List.length rest))%nat
      with (S i + List.length rest)%nat by lia.
    apply IH; unfold blockStep; destruct v; cbn [thisBlock maxBlockSize
      maxBlockEnd]; try lia;
      destruct (Nat.ltb_spec (maxBlockSize s) (thisBlock s));
      cbn [thisBlock maxBlockSize maxBlockEnd]; lia.
Qed.

(** [getLargestContiguousBlock] returns equal start and end exactly when no
    run of correct slices is longer than one. *)
Lemma getLargestContiguousBlock_degenerate (vec : list bool) :
  fst (getLargestContiguousBlock vec) = snd (getLargestContiguousBlock vec)
  <-> (longestTrueRun vec <= 1)%nat.
Proof.
  unfold getLargestContiguousBlock, longestTrueRun.
  pose proof (blockLoop_size_zero vec 0 (mkBlockState 0 0 0)) as Hz.
  pose proof (blockLoop_end_bound vec 0 (mkBlockState 0 0 0)) as Hb.
  cbv zeta in Hz, Hb. cbn [thisBlock maxBlockSize maxBlockEnd] in Hz, Hb.
  specialize (Hb (le_n 0) (le_n 0)). destruct Hb as [Ht Hm].
  set (s := blockLoop vec 0 (mkBlockState 0 0 0)) in *.
  cbv zeta.
  destruct (Nat.ltb_spec (maxBlockSize s) (thisBlock s)) as [Hlt|Hge];
    cbn [fst snd maxBlockSize maxBlockEnd]; lia.
Qed.

(** ** The estimator without a usable block *)

(** Without a run of two slices labelled correct the estimator returns the
    length of the sequence and an empty trace; the backtrace is not
    invoked, whatever bound it is given. *)
Lemma estimate_without_block
  (graph : AlignmentGraph) (fuel : nat) (sequence : list ascii)
  (minScores : list Z) (minScoreIndices : list nat)
  (correctParts : list bool) :
  estimateCorrectAlignmentViterbi minScores = Some correctParts ->
  (longestTrueRun correctParts <= 1)%nat ->
  fst (getLargestContiguousBlock correctParts)
    = snd (getLargestContiguousBlock correctParts) /\
  estimateCorrectnessAndBacktraceBiggestPart graph fuel sequence minScores
    minScoreIndices = Some (Z.of_nat (List.length sequence), []).
Proof.
  intros Hv Hrun.
  apply getLargestContiguousBlock_degenerate in Hrun.
  split; [exact Hrun|].
  unfold estimateCorrectnessAndBacktraceBiggestPart, bindOpt.
  rewrite Hv, Hrun, Nat.eqb_refl. reflexivity.
Qed.

(** C10.  For every sequence of per-slice minima, if the longest run of
    slices that the Viterbi estimator labels correct has length at most one
    (so that [getLargestContiguousBlock] returns equal start and end),
    [estimateCorrectnessAndBacktraceBiggestPart] returns the full sequence
    length as score and an empty trace without invoking the backtrace.  The
    full-band driver does not report a failed alignment then: when the sweep
    stayed within the ceiling, [getBacktrace] takes [back()] of the empty
    trace in its loop over the padding, which is undefined, and neither it
    nor [AlignOneWay] returns. *)
Theorem getBacktrace_without_block_undefined
  (ScoreMax AlignmentScoreMax : Z) (LengthMax : nat)
  (graph : AlignmentGraph)
  (projectForwardAndExpandBand :
     Band -> nat -> Z -> Band * list nat * list nat)
  (cutCycles :
     nat -> list ascii -> Z -> Z -> Z -> Z -> NodeSlice -> NodeSlice ->
     Band -> Band -> list nat -> option NodeSlice)
  (fuel : nat) (seq_id read : list ascii) (dynamicWidth : Z)
  (dynamicRowStart : nat) (r : MatrixSlice) (final : Z)
  (correctParts : list bool) :
  let padded := read ++ repeat "N"%char (paddingFor (List.length read)) in
  getBitvectorSliceScoresAndFinalPosition ScoreMax LengthMax graph
    projectForwardAndExpandBand cutCycles padded dynamicWidth
    (getFullBand graph dynamicRowStart) dynamicRowStart
    (fortyPercent (List.length padded)) = Some r ->
  back (minScorePerWordSlice r) = Some final ->
  exceedsFortyPercent final (List.length padded) = false ->
  estimateCorrectAlignmentViterbi (minScorePerWordSlice r)
  = Some correctParts ->
  (longestTrueRun correctParts <= 1)%nat ->
  fst (getLargestContiguousBlock correctParts)
    = snd (getLargestContiguousBlock correctParts) /\
  estimateCorrectnessAndBacktraceBiggestPart graph fuel padded
    (minScorePerWordSlice r) (minScoreIndexPerWordSlice r)
  = Some (Z.of_nat (List.length padded), []) /\
  getBacktrace ScoreMax LengthMax graph projectForwardAndExpandBand
    cutCycles fuel read dynamicWidth dynamicRowStart
    (getFullBand graph dynamicRowStart) = None /\
  AlignOneWay ScoreMax AlignmentScoreMax LengthMax graph
    projectForwardAndExpandBand cutCycles fuel seq_id read dynamicWidth
    dynamicRowStart = None.
Proof.
  intros padded Hsweep Hfinal Hwithin Hv Hrun.
  destruct (estimate_without_block graph fuel padded
              (minScorePerWordSlice r) (minScoreIndexPerWordSlice r)
              correctParts Hv Hrun) as [Hends Hestimate].
  split; [exact Hends|]. split; [exact Hestimate|].
  assert (Hbacktrace :
    getBacktrace ScoreMax LengthMax graph projectForwardAndExpandBand
      cutCycles fuel read dynamicWidth dynamicRowStart
      (getFullBand graph dynamicRowStart) = None).
  { unfold getBacktrace. fold padded. rewrite Hsweep. cbn [bindOpt].
    rewrite Hfinal. cbn [bindOpt]. rewrite Hwithin, Hestimate.
    reflexivity. }
  split; [exact Hbacktrace|].
  unfold AlignOneWay. rewrite Hbacktrace. reflexivity.
Qed.

Lemma getBacktrace_without_block_undefined_witness :
  estimateCorrectnessAndBacktraceBiggestPart lineGraph 1000
    (repeat "A"%char 64) [0; 0] [0; 127]%nat = Some (64, []) /\
  getBacktrace (2 ^ 31 - 1) 1000 lineGraph (fullBandExpander 1) noCuts 1000
    (repeat "A"%char 64) 0 64 (getFullBand lineGraph 64) = None /\
  AlignOneWay (2 ^ 31 - 1) (2 ^ 31 - 1) 1000 lineGraph (fullBandExpander 1)
    noCuts 1000 [] (repeat "A"%char 64) 0 64 = None.
Proof.
  apply (getBacktrace_without_block_undefined (2 ^ 31 - 1) (2 ^ 31 - 1)
           1000 lineGraph (fullBandExpander 1) noCuts 1000 []
           (repeat "A"%char 64) 0 64
           (mkMatrixSlice [0; 0] [0; 127]%nat (64 * 128)) 0 [true]).
  - vm_compute. reflexivity.
  - reflexivity.
  - reflexivity.
  - vm_compute. reflexivity.
  - vm_compute. lia.
Defined.

(** ** The score ceiling of the column sweep *)

Lemma strideCount_step (j size : nat) :
  (j < size)%nat -> strideCount j size = S (strideCount (j + 64) size).
Proof.
  intros Hlt. unfold strideCount.
  replace (size - j + 63)%nat with (size - j - 1 + 1 * 64)%nat by lia.
  rewrite Nat.div_add by discriminate.
  destruct (Nat.le_gt_cases (j + 64) size) as [Hge|Hsmall].
  - replace (size - (j + 64) + 63)%nat with (size - j - 1)%nat by lia. lia.
  - replace (size - (j + 64))%nat with 0%nat by lia.
    rewrite (Nat.div_small (size - j - 1) 64) by lia. reflexivity.
Qed.

Lemma strideCount_zero (j size : nat) :
  strideCount j size = 0%nat -> (size <= j)%nat.
Proof.
  intros H. destruct (Nat.le_gt_cases size j) as [Hle|Hgt]; [exact Hle|].
  rewrite (strideCount_step j size Hgt) in H. discriminate.
Qed.


Section Threshold.

Variable ScoreMax : Z.
Variable AlignmentScoreMax : Z.
Variable LengthMax : nat.
Variable graph : AlignmentGraph.
Variable projectForwardAndExpandBand :
  Band -> nat -> Z -> Band * list nat * list nat.
Variable cutCycles :
  nat -> list ascii -> Z -> Z -> Z -> Z -> NodeSlice -> NodeSlice ->
  Band -> Band -> list nat -> option NodeSlice.
Variable fuel : nat.







End Threshold.



(** ** The forced first horizontal delta in [calculateNode] *)

Lemma testbit_clearLSB (x i : Z) :
  is_word x -> 0 <= i ->
  Z.testbit (clearLSB x) i = negb (i =? 0) && Z.testbit x i.
Proof.
  intros Hx Hi. unfold clearLSB.
  rewrite Z.land_spec, testbit_not, testbit_one by exact Hi.
  destruct (Z.ltb_spec i 64) as [Hlt|Hge].
  - destruct (i =? 0), (Z.testbit x i); reflexivity.
  - rewrite (testbit_word_high x i Hx Hge). destruct (i =? 0); reflexivity.
Qed.

Ltac lsb_bits Hx :=
  apply Z.bits_inj'; intros i Hi;
  repeat first
    [ rewrite Z.lor_spec | rewrite Z.land_spec
    | rewrite (testbit_not _ i Hi)
    | rewrite (testbit_clearLSB _ i Hx Hi)
    | rewrite (testbit_one i Hi) ];
  destruct (Z.eqb_spec i 0) as [->|Hne].

(** With bit 0 of VN set (and therefore bit 0 of VP clear), bit 0 of [Eq]
    does not reach the result of [getNextSlice]. *)
Lemma getNextSlice_clearLSB (Eq : Z) (slice : WordSlice)
  (previousInsideBand previousEq : bool) (previous : WordSlice) :
  is_word Eq ->
  Z.testbit (VN slice) 0 = true ->
  Z.testbit (VP slice) 0 = false ->
  getNextSlice (clearLSB Eq) slice previousInsideBand previousEq previous
  = getNextSlice Eq slice previousInsideBand previousEq previous.
Proof.
  intros Hx HVN HVP. unfold getNextSlice.
  set (hin := nextScoreBeforeStart slice previousInsideBand previousEq
                previous - scoreBeforeStart slice).
  assert (HXv : Z.lor (clearLSB Eq) (VN slice) = Z.lor Eq (VN slice)).
  { lsb_bits Hx.
    - rewrite HVN, !orb_true_r. reflexivity.
    - reflexivity. }
  rewrite HXv.
  destruct (hin <? 0).
  - assert (H1 : Z.lor (clearLSB Eq) 1 = Z.lor Eq 1).
    { lsb_bits Hx.
      - rewrite !orb_true_r. reflexivity.
      - reflexivity. }
    rewrite H1. reflexivity.
  - assert (Hand : Z.land (clearLSB Eq) (VP slice) = Z.land Eq (VP slice)).
    { lsb_bits Hx.
      - rewrite HVP, !andb_false_r. reflexivity.
      - reflexivity. }
    rewrite Hand.
    set (X := Z.lxor (add (Z.land Eq (VP slice)) (VP slice)) (VP slice)).
    assert (HPh : Z.lor (VN slice)
                    (not (Z.lor (Z.lor X (clearLSB Eq)) (VP slice)))
                  = Z.lor (VN slice) (not (Z.lor (Z.lor X Eq) (VP slice)))).
    { lsb_bits Hx.
      - rewrite HVN. reflexivity.
      - reflexivity. }
    assert (HMh : Z.land (VP slice) (Z.lor X (clearLSB Eq))
                  = Z.land (VP slice) (Z.lor X Eq)).
    { lsb_bits Hx.
      - rewrite HVP. reflexivity.
      - reflexivity. }
    rewrite HPh, HMh. reflexivity.
Qed.

Lemma clearLSB_clear (x : Z) :
  is_word x -> Z.testbit x 0 = false -> clearLSB x = x.
Proof.
  intros Hx H0. apply Z.bits_inj'. intros i Hi.
  rewrite testbit_clearLSB by assumption.
  destruct (Z.eqb_spec i 0) as [->|Hne]; [rewrite H0|]; reflexivity.
Qed.

Lemma getEq_is_word (graph : AlignmentGraph) (BA BT BC BG : Z) (w : nat)
  (Eq : Z) :
  is_word BA -> is_word BT -> is_word BC -> is_word BG ->
  getEq graph BA BT BC BG w = Some Eq -> is_word Eq.
Proof.
  intros HA HT HC HG H. unfold getEq, bindOpt in H.
  destruct (nth_error (nodeSequences graph) w) as [c|]; [|discriminate].
  injection H as <-.
  destruct (Ascii.eqb c "A"); [exact HA|].
  destruct (Ascii.eqb c "T"); [exact HT|].
  destruct (Ascii.eqb c "C"); [exact HC|].
  destruct (Ascii.eqb c "G"); [exact HG|].
  unfold is_word, modulus. lia.
Qed.

(** The claim C9 as the specification words it fails: for a node that is in
    the current band and not in the previous one, [firstZeroForced] holds and
    the stored cell keeps the negative first-row path that clearing the
    least-significant bit of [Eq] would remove. *)
Lemma firstZeroForced_not_applied :
  firstZeroForced [false; false] [true; true] 0 (mkWordSlice 0 0 10 10)
    AllOnes = true /\
  columnEqualityMasks forcedRead 64 = (0, 0, AllOnes, 0) /\
  calculateCell fastPathGraph 0 64 forcedRead 0 0 AllOnes 0 emptyNodeSlice
    [true; true] [false; false] forcedCells 1
  <> calculateCellSuppressed fastPathGraph 0 64 forcedRead 0 0 AllOnes 0
       emptyNodeSlice [true; true] [false; false] forcedCells 1.
Proof.
  split; [reflexivity|]. split; [reflexivity|].
  assert (Hcode :
    calculateCell fastPathGraph 0 64 forcedRead 0 0 AllOnes 0 emptyNodeSlice
      [true; true] [false; false] forcedCells 1
    = Some (mkWordSlice 0 1 10 11)) by (vm_compute; reflexivity).
  assert (Hspec :
    calculateCellSuppressed fastPathGraph 0 64 forcedRead 0 0 AllOnes 0
      emptyNodeSlice [true; true] [false; false] forcedCells 1
    = Some (mkWordSlice 0 2 10 11)) by (vm_compute; reflexivity).
  rewrite Hcode, Hspec. discriminate.
Qed.

(** C9 (amended).  In [calculateNode]'s per-character update the value of
    [firstZeroForced] is not used: the cell is advanced with the equality
    mask as it is.  For a node that is in the previous band, whenever
    [firstZeroForced] holds the stored cell is nevertheless the one obtained
    with the least-significant bit of [Eq] cleared, because that bit cannot
    reach the result. *)
Theorem calculateCell_forced_in_previous_band
  (graph : AlignmentGraph) (i j : nat) (sequence : list ascii)
  (BA BT BC BG : Z) (previousSlice : NodeSlice)
  (currentBand previousBand : Band) (slice : list WordSlice) (w : nat)
  (nodeStartPos : nat) (Eq : Z) (left : WordSlice) :
  is_word BA -> is_word BT -> is_word BC -> is_word BG ->
  nth_error (nodeStart graph) i = Some nodeStartPos ->
  getEq graph BA BT BC BG (nodeStartPos + w)%nat = Some Eq ->
  nth_error slice (w - 1)%nat = Some left ->
  Z.land (VP left) (VN left) = 0 ->
  inBand previousBand i = true ->
  firstZeroForced previousBand currentBand i left Eq = true ->
  calculateCell graph i j sequence BA BT BC BG previousSlice currentBand
    previousBand slice w
  = calculateCellSuppressed graph i j sequence BA BT BC BG previousSlice
      currentBand previousBand slice w.
Proof.
  intros HA HT HC HG Hstart HEq Hleft Hdisj Hprev Hforced.
  pose proof (getEq_is_word graph BA BT BC BG _ Eq HA HT HC HG HEq) as Hword.
  unfold calculateCell, calculateCellSuppressed.
  rewrite Hstart. cbn [bindOpt]. rewrite HEq. cbn [bindOpt].
  rewrite Hleft. cbn [bindOpt]. rewrite Hforced.
  assert (Hsame : forall b peq prev,
             getNextSlice (clearLSB Eq) left b peq prev
             = getNextSlice Eq left b peq prev).
  { intros b peq prev. unfold firstZeroForced in Hforced.
    rewrite Hprev in Hforced. cbn [andb negb] in Hforced.
    destruct (inBand currentBand i); [|discriminate].
    rewrite !nonzero_land_1 in Hforced.
    destruct (Z.testbit (VN left) 0) eqn:HVN.
    - apply getNextSlice_clearLSB; [exact Hword|exact HVN|].
      assert (Hbit : Z.testbit (Z.land (VP left) (VN left)) 0 = false)
        by (rewrite Hdisj; apply Z.bits_0).
      rewrite Z.land_spec, HVN, andb_true_r in Hbit. exact Hbit.
    - destruct (Z.testbit (VP left) 0); [discriminate|].
      destruct (Z.testbit Eq 0) eqn:HE; [discriminate|].
      rewrite (clearLSB_clear Eq Hword HE). reflexivity. }
  destruct (previousRowMatches graph sequence j (nodeStartPos + w))
    as [previousEq|]; [|reflexivity].
  cbn [bindOpt].
  destruct (oldSliceOf previousSlice previousBand i slice) as [oldSlice|];
    [|reflexivity].
  cbn [bindOpt].
  destruct (nth_error oldSlice (w - 1)) as [oldLeft|]; [|reflexivity].
  cbn [bindOpt]. rewrite Hsame. reflexivity.
Qed.

Lemma calculateCell_forced_in_previous_band_witness :
  calculateCell fastPathGraph 0 64 forcedRead 0 0 AllOnes 0 previousColumn
    [true; true] [true; true] fallingCells 1
  = calculateCellSuppressed fastPathGraph 0 64 forcedRead 0 0 AllOnes 0
      previousColumn [true; true] [true; true] fallingCells 1.
Proof.
  apply (calculateCell_forced_in_previous_band fastPathGraph 0 64 forcedRead
           0 0 AllOnes 0 previousColumn [true; true] [true; true]
           fallingCells 1 0 AllOnes (mkWordSlice 0 1 9 10)).
  - unfold is_word, modulus. lia.
  - unfold is_word, modulus. lia.
  - unfold is_word, modulus, AllOnes. lia.
  - unfold is_word, modulus. lia.
  - reflexivity.
  - reflexivity.
  - reflexivity.
  - reflexivity.
  - reflexivity.
  - reflexivity.
Defined.

(** ** The backtrace *)

Section Backtrace.

Variable g : AlignmentGraph.
Hypothesis wf : graphWellFormed g.

Lemma hasParent_grow (visited : list ExpandoCell) (x c : ExpandoCell) :
  hasParent g visited c -> hasParent g (visited ++ [x]) c.
Proof.
  intros [parent [Hp Hstep]]. exists parent. split; [|exact Hstep].
  rewrite nth_error_app1; [exact Hp|].
  apply nth_error_Some. rewrite Hp. discriminate.
Qed.

Lemma pushPredecessor_Forall (P : ExpandoCell -> Prop) (isMatch : bool)
  (u j bt : nat) (cur plusOne : list ExpandoCell) :
  P (mkExpandoCell (u, j) bt) ->
  P (mkExpandoCell (u, (j - 1)%nat) bt) ->
  Forall P (cur ++ plusOne) ->
  Forall P (fst (pushPredecessor isMatch u j bt (cur, plusOne))
            ++ snd (pushPredecessor isMatch u j bt (cur, plusOne))).
Proof.
  intros H1 H2 Hall. apply Forall_app in Hall. destruct Hall as [Hc Hp].
  unfold pushPredecessor. destruct isMatch; cbn [fst snd];
    apply Forall_app; split; repeat constructor; assumption.
Qed.

Lemma pushInNeighbors_Forall (P : ExpandoCell -> Prop) (isMatch : bool)
  (j bt : nat) (neighbors : list nat) :
  forall cur plusOne queues,
    (forall neighbor e,
       In neighbor neighbors ->
       nth_error (nodeEnd g) neighbor = Some e ->
       P (mkExpandoCell ((e - 1)%nat, j) bt) /\
       P (mkExpandoCell ((e - 1)%nat, (j - 1)%nat) bt)) ->
    Forall P (cur ++ plusOne) ->
    pushInNeighbors g isMatch neighbors j bt (cur, plusOne) = Some queues ->
    Forall P (fst queues ++ snd queues).
Proof.
  induction neighbors as [|neighbor rest IH]; intros cur plusOne queues HP
    Hall H.
  - injection H as <-. exact Hall.
  - cbn [pushInNeighbors] in H. unfold bindOpt in H.
    destruct (nth_error (nodeEnd g) neighbor) as [e|] eqn:He; [|discriminate].
    destruct (HP neighbor e (or_introl eq_refl) He) as [H1 H2].
    pose proof (pushPredecessor_Forall P isMatch (e - 1) j bt cur plusOne
                  H1 H2 Hall) as Hnext.
    destruct (pushPredecessor isMatch (e - 1) j bt (cur, plusOne))
      as [cur' plusOne'].
    eapply IH; [|exact Hnext|exact H].
    intros nb e' Hin. apply HP. right. exact Hin.
Qed.

(** The three predecessors pushed for a cell are one trace step before
    it. *)
Lemma step_same_character (w j : nat) :
  j <> 0%nat -> traceStep g (w, (j - 1)%nat) (w, j).
Proof.
  intros Hj. split; cbn [fst snd]; [right; lia|left; reflexivity].
Qed.

Lemma step_inside_node (w j nodeIndex start : nat) :
  nth_error (indexToNode g) w = Some nodeIndex ->
  nth_error (nodeStart g) nodeIndex = Some start ->
  w <> start -> j <> 0%nat ->
  traceStep g ((w - 1)%nat, j) (w, j) /\
  traceStep g ((w - 1)%nat, (j - 1)%nat) (w, j).
Proof.
  intros Hn Hs Hw Hj.
  destruct (wf w nodeIndex Hn) as [s [e [Hs' [He [Hrange Hown]]]]].
  rewrite Hs in Hs'. injection Hs' as <-.
  assert (Hstep : graphStep g (w - 1) w).
  { right. left. split; [lia|]. exists nodeIndex.
    split; [apply Hown; lia|exact Hn]. }
  split; (split; cbn [fst snd]; [|exact Hstep]); [left|right]; lia.
Qed.

Lemma step_from_neighbor (w j nodeIndex : nat) (neighbors : list nat)
  (neighbor e : nat) :
  nth_error (indexToNode g) w = Some nodeIndex ->
  nth_error (nodeStart g) nodeIndex = Some w ->
  nth_error (inNeighbors g) nodeIndex = Some neighbors ->
  In neighbor neighbors ->
  nth_error (nodeEnd g) neighbor = Some e ->
  j <> 0%nat ->
  traceStep g ((e - 1)%nat, j) (w, j) /\
  traceStep g ((e - 1)%nat, (j - 1)%nat) (w, j).
Proof.
  intros Hn Hs Hnb Hin He Hj.
  assert (Hstep : graphStep g (e - 1) w).
  { right. right. exists nodeIndex, neighbors, neighbor, e.
    repeat split; assumption. }
  split; (split; cbn [fst snd]; [|exact Hstep]); [left|right]; lia.
Qed.

Lemma last_index_parent (visited : list ExpandoCell) (current : ExpandoCell)
  (p : MatrixPosition) :
  traceStep g p (position current) ->
  hasParent g (visited ++ [current])
    (mkExpandoCell p (List.length (visited ++ [current]) - 1)).
Proof.
  intros Hstep. exists current. cbn [backtraceIndex position].
  split; [|exact Hstep].
  rewrite length_app. cbn [List.length].
  rewrite nth_error_app2 by lia.
  replace (List.length visited + 1 - 1 - List.length visited)%nat
    with 0%nat by lia.
  reflexivity.
Qed.

Lemma visited_grow (init : ExpandoCell) (visited : list ExpandoCell)
  (current : ExpandoCell) :
  (forall k c,
     nth_error visited k = Some c -> k <> 0%nat ->
     (backtraceIndex c < k)%nat /\ hasParent g visited c) ->
  (visited <> [] -> hasParent g visited current) ->
  forall k c,
    nth_error (visited ++ [current]) k = Some c -> k <> 0%nat ->
    (backtraceIndex c < k)%nat /\ hasParent g (visited ++ [current]) c.
Proof.
  intros HA Hcur k c Hk Hk0.
  destruct (Nat.lt_ge_cases k (List.length visited)) as [Hlt|Hge].
  - rewrite nth_error_app1 in Hk by exact Hlt.
    destruct (HA k c Hk Hk0) as [Hb Hp].
    split; [exact Hb|apply hasParent_grow; exact Hp].
  - rewrite nth_error_app2 in Hk by exact Hge.
    destruct (k - List.length visited)%nat as [|d] eqn:Hd.
    + injection Hk as <-.
      assert (Hne : visited <> []).
      { intros ->. cbn in Hge, Hd. lia. }
      specialize (Hcur Hne). split; [|apply hasParent_grow; exact Hcur].
      destruct Hcur as [parent [Hp _]].
      assert (Hlt : (backtraceIndex current < List.length visited)%nat).
      { apply nth_error_Some. rewrite Hp. discriminate. }
      lia.
    + destruct d; discriminate.
Qed.

Lemma backtraceExpand_invariant (init : ExpandoCell)
  (sequence : list ascii) (mins : list Z) (scoreAtEnd currentDistance : Z)
  (visited : list ExpandoCell) (cells : VisitedCells)
  (current : ExpandoCell) (cdq plusOne : list ExpandoCell)
  (r : LoopResult BacktraceState) :
  (forall k c,
     nth_error visited k = Some c -> k <> 0%nat ->
     (backtraceIndex c < k)%nat /\ hasParent g visited c) ->
  (visited <> [] ->
   hasParent g visited current /\ Forall (hasParent g visited)
                                    (cdq ++ plusOne)) ->
  (visited = [] -> current = init /\ cdq ++ plusOne = []) ->
  backtraceExpand g sequence mins scoreAtEnd currentDistance visited cells
    current cdq plusOne = Some r ->
  match r with
  | Continue s' => backtraceInvariant g init s'
  | Break s' => backtraceFinished g init s'
  end.
Proof.
  intros HA HB HC H. unfold backtraceExpand in H.
  set (w := fst (position current)) in *.
  set (j := snd (position current)) in *.
  assert (Hgrow := visited_grow init visited current HA
                     (fun Hne => proj1 (HB Hne))).
  assert (Hrest : Forall (hasParent g (visited ++ [current]))
                    (cdq ++ plusOne)).
  { destruct visited as [|v vs].
    - destruct (HC eq_refl) as [_ ->]. constructor.
    - eapply Forall_impl; [|apply HB; discriminate].
      intros c. apply hasParent_grow. }
  assert (Hunchanged :
    backtraceInvariant g init
      (mkBacktraceState currentDistance visited cdq plusOne cells)).
  { split; [exact HA|]. split; cbn [bt_visitedExpandos
      bt_currentDistanceQueue bt_currentDistancePlusOneQueue].
    - intros Hne. apply HB. exact Hne.
    - intros He. left. apply HC. exact He. }
  destruct (Nat.eqb_spec j 0) as [Hj|Hj].
  - injection H as <-. split; [exact Hgrow|].
    exists visited, current. split; [reflexivity|]. split; [exact Hj|].
    intros He. apply HC. exact He.
  - unfold bindOpt in H.
    destruct (nth_error mins ((j - 1) / 64)) as [m|]; [|discriminate].
    destruct (currentDistance >? scoreAtEnd - m);
      [injection H as <-; exact Hunchanged|].
    destruct (visitedGet cells w j);
      [injection H as <-; exact Hunchanged|].
    destruct (nth_error (indexToNode g) w) as [nodeIndex|] eqn:Hnode;
      [|discriminate].
    destruct (nth_error (nodeStart g) nodeIndex) as [start|] eqn:Hstart;
      [|discriminate].
    assert (Hpos : position current = (w, j)).
    { unfold w, j. destruct (position current). reflexivity. }
    assert (Hsame : hasParent g (visited ++ [current])
                      (mkExpandoCell (w, (j - 1)%nat)
                         (List.length (visited ++ [current]) - 1))).
    { apply last_index_parent. rewrite Hpos.
      apply step_same_character. exact Hj. }
    assert (Hrest' : Forall (hasParent g (visited ++ [current]))
                       (cdq ++ mkExpandoCell (w, (j - 1)%nat)
                          (List.length (visited ++ [current]) - 1)
                          :: plusOne)).
    { apply Forall_app in Hrest. destruct Hrest as [Hq Hp].
      apply Forall_app. split; [exact Hq|]. constructor; assumption. }
    assert (Hne : visited ++ [current] <> []).
    { destruct visited; discriminate. }
    destruct (Nat.eqb_spec w start) as [Hw|Hw].
    + destruct (nth_error (inNeighbors g) nodeIndex) as [neighbors|] eqn:Hnb;
        [|discriminate].
      destruct neighbors as [|n0 ns] eqn:Hns.
      * injection H as <-. split; [exact Hgrow|].
        split; cbn [bt_visitedExpandos bt_currentDistanceQueue
          bt_currentDistancePlusOneQueue].
        -- intros _. exact Hrest'.
        -- intros He. contradiction.
      * rewrite <- Hns in *.
        destruct (charMatches sequence g w j) as [isMatch|]; [|discriminate].
        destruct (pushInNeighbors g isMatch neighbors j
                    (List.length (visited ++ [current]) - 1)
                    (cdq, mkExpandoCell (w, (j - 1)%nat)
                            (List.length (visited ++ [current]) - 1)
                            :: plusOne)) as [queues|] eqn:Hpush;
          [|discriminate].
        injection H as <-. split; [exact Hgrow|].
        split; cbn [bt_visitedExpandos bt_currentDistanceQueue
          bt_currentDistancePlusOneQueue].
        -- intros _.
           eapply pushInNeighbors_Forall; [|exact Hrest'|exact Hpush].
           intros neighbor e Hin He. subst start.
           destruct (step_from_neighbor w j nodeIndex neighbors neighbor e
                       Hnode Hstart Hnb Hin He Hj) as [S1 S2].
           split; apply last_index_parent; rewrite Hpos; assumption.
        -- intros He. contradiction.
    + destruct (charMatches sequence g w j) as [isMatch|]; [|discriminate].
      injection H as <-. split; [exact Hgrow|].
      split; cbn [bt_visitedExpandos bt_currentDistanceQueue
        bt_currentDistancePlusOneQueue].
      * intros _.
        destruct (step_inside_node w j nodeIndex start Hnode Hstart Hw Hj)
          as [S1 S2].
        apply pushPredecessor_Forall; [| |exact Hrest'];
          apply last_index_parent; rewrite Hpos; assumption.
      * intros He. contradiction.
Qed.

Lemma backtraceIteration_invariant (init : ExpandoCell)
  (sequence : list ascii) (mins : list Z) (scoreAtEnd : Z)
  (s : BacktraceState) (r : LoopResult BacktraceState) :
  backtraceInvariant g init s ->
  backtraceIteration g sequence mins scoreAtEnd s = Some r ->
  match r with
  | Continue s' => backtraceInvariant g init s'
  | Break s' => backtraceFinished g init s'
  end.
Proof.
  intros [HA [HB HC]] H. unfold backtraceIteration in H.
  destruct (bt_currentDistanceQueue s) as [|c0 q0] eqn:Hq.
  - cbn [app] in HB, HC.
    destruct (bt_currentDistancePlusOneQueue s) as [|current cdq] eqn:Hp;
      [discriminate|].
    eapply backtraceExpand_invariant; [exact HA| | |exact H].
    + intros Hne. specialize (HB Hne). rewrite app_nil_r.
      inversion HB; subst. split; assumption.
    + intros He. destruct (HC He) as [Hnil|Hone]; [discriminate|].
      injection Hone as -> ->. split; reflexivity.
  - eapply backtraceExpand_invariant; [exact HA| | |exact H].
    + intros Hne. specialize (HB Hne). cbn [app] in HB.
      inversion HB; subst. split; assumption.
    + intros He. destruct (HC He) as [Hnil|Hone]; [discriminate|].
      cbn [app] in Hone. injection Hone as -> Hrest. split; [reflexivity|].
      exact Hrest.
Qed.

Lemma backtraceLoop_finished (init : ExpandoCell) (sequence : list ascii)
  (mins : list Z) (scoreAtEnd : Z) (fuel : nat) :
  forall s s',
    backtraceInvariant g init s ->
    backtraceLoop fuel g sequence mins scoreAtEnd s = Some s' ->
    backtraceFinished g init s'.
Proof.
  induction fuel as [|fuel IH]; intros s s' Hinv H; [discriminate|].
  cbn [backtraceLoop] in H. unfold bindOpt in H.
  destruct (backtraceIteration g sequence mins scoreAtEnd s) as [r|] eqn:Hit;
    [|discriminate].
  pose proof (backtraceIteration_invariant init sequence mins scoreAtEnd s r
                Hinv Hit) as Hr.
  destruct r as [s1|s1].
  - eapply IH; eassumption.
  - injection H as <-. exact Hr.
Qed.

(** The walk over the back pointers yields a chain of trace steps that starts
    at the cell of [index]. *)
Lemma walkBackpointers_chain (visited : list ExpandoCell) (fuel : nat) :
  (forall k c,
     nth_error visited k = Some c -> k <> 0%nat ->
     (backtraceIndex c < k)%nat /\ hasParent g visited c) ->
  forall index acc result,
    walkBackpointers fuel visited index acc = Some result ->
    exists chain,
      result = acc ++ chain /\
      consecutive (traceStep g) chain /\
      (index = 0%nat -> chain = []) /\
      (index <> 0%nat ->
       exists c, nth_error visited index = Some c /\
                 hd_error chain = Some (position c)).
Proof.
  intros HA. induction fuel as [|fuel IH]; intros index acc result H.
  - destruct index; [|discriminate]. injection H as <-.
    exists []. rewrite app_nil_r.
    split; [reflexivity|]. split; [exact I|].
    split; [reflexivity|]. intros Hc. contradiction.
  - destruct index as [|index'].
    + injection H as <-. exists []. rewrite app_nil_r.
      split; [reflexivity|]. split; [exact I|].
      split; [reflexivity|]. intros Hc. contradiction.
    + cbn [walkBackpointers] in H. unfold bindOpt in H.
      destruct (nth_error visited (S index')) as [cell|] eqn:Hcell;
        [|discriminate].
      apply IH in H. destruct H as [chain [Hres [Hchain [Hzero Hhead]]]].
      exists (position cell :: chain). rewrite Hres, <- app_assoc.
      split; [reflexivity|]. split.
      * cbn [consecutive]. destruct chain as [|b rest]; [exact I|].
        split; [|exact Hchain].
        destruct (Nat.eq_dec (backtraceIndex cell) 0) as [H0|Hn0];
          [specialize (Hzero H0); discriminate|].
        destruct (Hhead Hn0) as [c [Hc Hhd]]. injection Hhd as ->.
        destruct (HA (S index') cell Hcell ltac:(discriminate))
          as [_ [parent [Hp Hstep]]].
        rewrite Hc in Hp. injection Hp as <-. exact Hstep.
      * split; [discriminate|]. intros _. exists cell.
        split; reflexivity.
Qed.

Lemma consecutive_rows_sorted (trace : list MatrixPosition) :
  consecutive (traceStep g) trace ->
  consecutive (fun a b => (snd a <= snd b)%nat) trace.
Proof.
  induction trace as [|a rest IH]; intros H; [exact I|].
  cbn [consecutive] in *. destruct rest as [|b rest']; [exact I|].
  destruct H as [[Hrow _] Hrest]. split; [lia|]. apply IH. exact Hrest.
Qed.

(** C6.  For every endpoint and per-slice minima on which [backtraceInner]
    returns, the trace is monotone non-decreasing in [readRow]; its first
    element has [readRow] 0 (the trace is empty only when the endpoint itself
    is in row 0); and for consecutive steps [(p1, r1)], [(p2, r2)] the
    difference [r2 - r1] is 0 or 1 and the graph step stays at the same
    character, moves to the next character of the same node, or crosses from
    the last character of an in-neighbour to the start of a node. *)
Theorem backtraceInner_trace_steps
  (fuel : nat) (endPosition : MatrixPosition) (sequence : list ascii)
  (minScores : list Z) (distance : Z) (trace : list MatrixPosition) :
  backtraceInner fuel g endPosition sequence minScores
    = Some (distance, trace) ->
  consecutive (fun a b => (snd a <= snd b)%nat) trace /\
  match trace with
  | [] => snd endPosition = 0%nat
  | first :: _ => snd first = 0%nat
  end /\
  consecutive (traceStep g) trace.
Proof.
  intros H. unfold backtraceInner, bindOpt in H.
  destruct (nth_error minScores (List.length minScores - 1))
    as [scoreAtEnd|]; [|discriminate].
  set (init := mkExpandoCell endPosition 0) in *.
  destruct (backtraceLoop fuel g sequence minScores scoreAtEnd
              (mkBacktraceState 0 [] [init] [] [])) as [s|] eqn:Hloop;
    [|discriminate].
  assert (Hinv : backtraceInvariant g init
                   (mkBacktraceState 0 [] [init] [] [])).
  { split; [|split]; cbn [bt_visitedExpandos bt_currentDistanceQueue
      bt_currentDistancePlusOneQueue].
    - intros k c Hk. destruct k; discriminate.
    - intros Hne. contradiction.
    - intros _. right. reflexivity. }
  pose proof (backtraceLoop_finished init sequence minScores scoreAtEnd fuel
                _ s Hinv Hloop) as [HA [visited [last [HV [Hrow Hfirst]]]]].
  destruct (walkBackpointers fuel (bt_visitedExpandos s)
              (List.length (bt_visitedExpandos s) - 1) []) as [result|]
    eqn:Hwalk; [|discriminate].
  injection H as _ <-.
  destruct (walkBackpointers_chain (bt_visitedExpandos s) fuel HA _ _ _
              Hwalk) as [chain [Hres [Hchain [Hzero Hhead]]]].
  cbn [app] in Hres. subst result.
  split; [apply consecutive_rows_sorted; exact Hchain|].
  split; [|exact Hchain].
  rewrite HV, length_app in Hzero, Hhead. cbn [List.length] in Hzero, Hhead.
  destruct visited as [|v vs].
  - cbn [List.length Nat.add Nat.sub] in Hzero.
    rewrite (Hzero eq_refl). rewrite (Hfirst eq_refl) in Hrow. exact Hrow.
  - destruct Hhead as [c [Hc Hhd]]; [cbn; lia|].
    rewrite nth_error_app2 in Hc by (cbn [List.length]; lia).
    replace (List.length (v :: vs) + 1 - 1 - List.length (v :: vs))%nat
      with 0%nat in Hc by lia.
    injection Hc as <-. destruct chain as [|first rest]; [discriminate|].
    injection Hhd as ->. exact Hrow.
Qed.

End Backtrace.

Lemma fastPathGraph_wellFormed : graphWellFormed fastPathGraph.
Proof.
  intros w n Hn.
  destruct w as [|[|[|[|w]]]]; cbn in Hn;
    try (destruct w; discriminate); injection Hn as <-.
  - exists 0%nat, 2%nat. repeat split; try lia.
    intros p Hp. destruct p as [|[|p]]; [reflexivity|reflexivity|lia].
  - exists 0%nat, 2%nat. repeat split; try lia.
    intros p Hp. destruct p as [|[|p]]; [reflexivity|reflexivity|lia].
  - exists 2%nat, 4%nat. repeat split; try lia.
    intros p Hp. destruct p as [|[|[|[|p]]]]; try lia; reflexivity.
  - exists 2%nat, 4%nat. repeat split; try lia.
    intros p Hp. destruct p as [|[|[|[|p]]]]; try lia; reflexivity.
Qed.

Lemma backtraceInner_trace_steps_witness :
  backtraceInner 100 fastPathGraph (3, 3)%nat ["A"; "G"; "T"]%char [0; 1]
    = Some (1, [(0, 0); (1, 1); (2, 2)]%nat) /\
  consecutive (traceStep fastPathGraph) [(0, 0); (1, 1); (2, 2)]%nat.
Proof.
  split; [vm_compute; reflexivity|].
  apply (backtraceInner_trace_steps fastPathGraph fastPathGraph_wellFormed
           100 (3, 3)%nat ["A"; "G"; "T"]%char [0; 1] 1
           [(0, 0); (1, 1); (2, 2)]%nat).
  vm_compute. reflexivity.
Defined.

(** ** Carries and borrows, bit by bit *)

Lemma testbit_odd_div (a n : Z) :
  0 <= n -> Z.testbit a n = Z.odd (a / 2 ^ n).
Proof.
  intros Hn. rewrite Z.testbit_odd, Z.shiftr_div_pow2 by exact Hn.
  reflexivity.
Qed.

Lemma mod_pow2_succ (a n : Z) :
  0 <= n -> a mod 2 ^ (n + 1) = a mod 2 ^ n + 2 ^ n * bitAt a n.
Proof.
  intros Hn. rewrite Z.pow_add_r by lia. change (2 ^ 1) with 2.
  rewrite Z.rem_mul_r by lia. unfold bitAt.
  rewrite Z.testbit_spec' by exact Hn. reflexivity.
Qed.

Lemma testbit_add_carry (a b n : Z) :
  0 <= n ->
  Z.testbit (a + b) n
  = xorb (xorb (Z.testbit a n) (Z.testbit b n)) (carryInto a b n).
Proof.
  intros Hn. unfold carryInto. rewrite !testbit_odd_div by exact Hn.
  assert (Hp : 0 < 2 ^ n) by (apply Z.pow_pos_nonneg; lia).
  pose proof (Z.div_mod a (2 ^ n) ltac:(lia)) as Ha.
  pose proof (Z.div_mod b (2 ^ n) ltac:(lia)) as Hb.
  pose proof (Z.mod_pos_bound a (2 ^ n) Hp) as Ra.
  pose proof (Z.mod_pos_bound b (2 ^ n) Hp) as Rb.
  destruct (Z.leb_spec (2 ^ n) (a mod 2 ^ n + b mod 2 ^ n)) as [Hc|Hc].
  - assert (Hq : (a + b) / 2 ^ n = a / 2 ^ n + b / 2 ^ n + 1).
    { symmetry.
      apply (Z.div_unique _ _ _ (a mod 2 ^ n + b mod 2 ^ n - 2 ^ n));
        [left|]; lia. }
    rewrite Hq, Z.odd_add, Z.odd_add. reflexivity.
  - assert (Hq : (a + b) / 2 ^ n = a / 2 ^ n + b / 2 ^ n).
    { symmetry.
      apply (Z.div_unique _ _ _ (a mod 2 ^ n + b mod 2 ^ n));
        [left|]; lia. }
    rewrite Hq, Z.odd_add, xorb_false_r. reflexivity.
Qed.

Lemma carryInto_zero (a b : Z) : carryInto a b 0 = false.
Proof. unfold carryInto. rewrite !Z.mod_1_r. reflexivity. Qed.

Lemma carryInto_succ (a b n : Z) :
  0 <= n ->
  carryInto a b (n + 1)
  = (Z.testbit a n && Z.testbit b n)
    || (xorb (Z.testbit a n) (Z.testbit b n) && carryInto a b n).
Proof.
  intros Hn. unfold carryInto. rewrite !mod_pow2_succ by exact Hn.
  rewrite Z.pow_add_r by lia. change (2 ^ 1) with 2.
  assert (Hp : 0 < 2 ^ n) by (apply Z.pow_pos_nonneg; lia).
  pose proof (Z.mod_pos_bound a (2 ^ n) Hp) as Ra.
  pose proof (Z.mod_pos_bound b (2 ^ n) Hp) as Rb.
  unfold bitAt.
  destruct (Z.testbit a n), (Z.testbit b n); cbn [Z.b2z andb orb xorb];
    destruct (Z.leb_spec (2 ^ n) (a mod 2 ^ n + b mod 2 ^ n));
    [apply Z.leb_le|apply Z.leb_le|apply Z.leb_le|apply Z.leb_gt
    |apply Z.leb_le|apply Z.leb_gt|apply Z.leb_gt|apply Z.leb_gt]; lia.
Qed.

Lemma testbit_sub_borrow (a b n : Z) :
  0 <= n ->
  Z.testbit (a - b) n
  = xorb (xorb (Z.testbit a n) (Z.testbit b n)) (borrowInto a b n).
Proof.
  intros Hn. unfold borrowInto. rewrite !testbit_odd_div by exact Hn.
  assert (Hp : 0 < 2 ^ n) by (apply Z.pow_pos_nonneg; lia).
  pose proof (Z.div_mod a (2 ^ n) ltac:(lia)) as Ha.
  pose proof (Z.div_mod b (2 ^ n) ltac:(lia)) as Hb.
  pose proof (Z.mod_pos_bound a (2 ^ n) Hp) as Ra.
  pose proof (Z.mod_pos_bound b (2 ^ n) Hp) as Rb.
  destruct (Z.ltb_spec (a mod 2 ^ n) (b mod 2 ^ n)) as [Hc|Hc].
  - assert (Hq : (a - b) / 2 ^ n = a / 2 ^ n - b / 2 ^ n - 1).
    { symmetry.
      apply (Z.div_unique _ _ _ (a mod 2 ^ n - b mod 2 ^ n + 2 ^ n));
        [left|]; lia. }
    rewrite Hq, Z.odd_sub, Z.odd_sub. reflexivity.
  - assert (Hq : (a - b) / 2 ^ n = a / 2 ^ n - b / 2 ^ n).
    { symmetry.
      apply (Z.div_unique _ _ _ (a mod 2 ^ n - b mod 2 ^ n));
        [left|]; lia. }
    rewrite Hq, Z.odd_sub, xorb_false_r. reflexivity.
Qed.

Lemma borrowInto_zero (a b : Z) : borrowInto a b 0 = false.
Proof. unfold borrowInto. rewrite !Z.mod_1_r. reflexivity. Qed.

Lemma borrowInto_succ (a b n : Z) :
  0 <= n ->
  borrowInto a b (n + 1)
  = (negb (Z.testbit a n) && Z.testbit b n)
    || (negb (xorb (Z.testbit a n) (Z.testbit b n)) && borrowInto a b n).
Proof.
  intros Hn. unfold borrowInto. rewrite !mod_pow2_succ by exact Hn.
  assert (Hp : 0 < 2 ^ n) by (apply Z.pow_pos_nonneg; lia).
  pose proof (Z.mod_pos_bound a (2 ^ n) Hp) as Ra.
  pose proof (Z.mod_pos_bound b (2 ^ n) Hp) as Rb.
  unfold bitAt.
  destruct (Z.testbit a n), (Z.testbit b n); cbn [Z.b2z andb orb xorb negb];
    destruct (Z.ltb_spec (a mod 2 ^ n) (b mod 2 ^ n));
    [apply Z.ltb_lt|apply Z.ltb_ge|apply Z.ltb_ge|apply Z.ltb_ge
    |apply Z.ltb_lt|apply Z.ltb_lt|apply Z.ltb_lt|apply Z.ltb_ge]; lia.
Qed.

(** ** [getNextSlice] keeps a column well formed *)

Lemma cellScore_zero (s : WordSlice) : cellScore s 0 = scoreBeforeStart s.
Proof. unfold cellScore. cbn [countBits]. lia. Qed.

Lemma cellScore_succ (s : WordSlice) (k : nat) :
  cellScore s (S k)
  = cellScore s k + bitAt (VP s) (Z.of_nat k) - bitAt (VN s) (Z.of_nat k).
Proof. unfold cellScore. cbn [countBits]. lia. Qed.

Lemma testbit_shl_1 (x n : Z) :
  0 <= n ->
  Z.testbit (shl x 1) n = (n <? 64) && negb (n =? 0) && Z.testbit x (n - 1).
Proof.
  intros Hn. unfold shl. rewrite testbit_wrap.
  destruct (Z.eqb_spec n 0) as [->|Hne].
  - rewrite Z.shiftl_spec_low by lia. reflexivity.
  - rewrite Z.shiftl_spec by lia. cbn [negb]. rewrite andb_true_r.
    reflexivity.
Qed.

Section NextSlice.

Variables (Eq : Z) (slice : WordSlice).
Variables (previousInsideBand previousEq : bool) (previous : WordSlice).

Hypothesis Hgood : goodSlice slice.
Hypothesis Hprevious :
  previousInsideBand = true ->
  goodSlice previous /\ scoreBeforeStart slice <= scoreEnd previous.

Let newBeforeStart :=
  nextScoreBeforeStart slice previousInsideBand previousEq previous.
Let hin := newBeforeStart - scoreBeforeStart slice.
Let Eq' := if hin <? 0 then Z.lor Eq 1 else Eq.
Let Xv := Z.lor Eq (VN slice).
Let Xh :=
  Z.lor (Z.lxor (add (Z.land Eq' (VP slice)) (VP slice)) (VP slice)) Eq'.
Let Ph := Z.lor (VN slice) (not (Z.lor Xh (VP slice))).
Let Mh := Z.land (VP slice) Xh.
Let Mh' := if hin <? 0 then Z.lor (shl Mh 1) 1 else shl Mh 1.
Let Ph' :=
  if hin <? 0 then shl Ph 1
  else if hin >? 0 then Z.lor (shl Ph 1) 1 else shl Ph 1.

Lemma getNextSlice_parts :
  getNextSlice Eq slice previousInsideBand previousEq previous
  = mkWordSlice (Z.lor Mh' (not (Z.lor Xv Ph'))) (Z.land Ph' Xv)
      (if nonzero (Z.land Ph lastBitMask) then scoreEnd slice + 1
       else if nonzero (Z.land Mh lastBitMask) then scoreEnd slice - 1
       else scoreEnd slice)
      newBeforeStart.
Proof. reflexivity. Qed.

Lemma hin_range : -1 <= hin <= 1 /\ 0 <= newBeforeStart.
Proof.
  destruct Hgood as [_ [_ [_ [_ Hcells]]]].
  pose proof (Hcells 0%nat ltac:(lia)) as H0. rewrite cellScore_zero in H0.
  unfold hin, newBeforeStart, nextScoreBeforeStart.
  destruct previousInsideBand; cbn [negb]; [|lia].
  destruct (Hprevious eq_refl) as [[_ [_ [_ [Hend Hc]]]] Hle].
  pose proof (Hc 63%nat ltac:(lia)) as H63.
  change 64%nat with (S 63) in Hend. rewrite cellScore_succ in Hend.
  rewrite !nonzero_lastBit. unfold bitAt in Hend.
  change (Z.of_nat 63) with 63 in Hend.
  destruct (Z.testbit (VP previous) 63), (Z.testbit (VN previous) 63),
    previousEq; cbn [Z.b2z] in Hend; lia.
Qed.

Lemma Mh'_bits (n : Z) :
  0 <= n < 64 ->
  Z.testbit Mh' n = if n =? 0 then hin <? 0 else Z.testbit Mh (n - 1).
Proof.
  intros Hn. unfold Mh'.
  replace (n <? 64) with true by (symmetry; apply Z.ltb_lt; lia).
  destruct (hin <? 0).
  - rewrite Z.lor_spec, testbit_shl_1, testbit_one by lia.
    replace (n <? 64) with true by (symmetry; apply Z.ltb_lt; lia).
    destruct (n =? 0); cbn [negb andb orb];
      [reflexivity|apply orb_false_r].
  - rewrite testbit_shl_1 by lia.
    replace (n <? 64) with true by (symmetry; apply Z.ltb_lt; lia).
    destruct (n =? 0); reflexivity.
Qed.

Lemma Ph'_bits (n : Z) :
  0 <= n < 64 ->
  Z.testbit Ph' n = if n =? 0 then 0 <? hin else Z.testbit Ph (n - 1).
Proof.
  intros Hn. unfold Ph'. rewrite Z.gtb_ltb.
  destruct (Z.ltb_spec hin 0) as [Hneg|Hpos].
  - rewrite testbit_shl_1 by lia.
    replace (n <? 64) with true by (symmetry; apply Z.ltb_lt; lia).
    replace (0 <? hin) with false by (symmetry; apply Z.ltb_ge; lia).
    destruct (n =? 0); reflexivity.
  - destruct (0 <? hin).
    + rewrite Z.lor_spec, testbit_shl_1, testbit_one by lia.
      replace (n <? 64) with true by (symmetry; apply Z.ltb_lt; lia).
      destruct (n =? 0); cbn [negb andb orb];
        [reflexivity|apply orb_false_r].
    + rewrite testbit_shl_1 by lia.
      replace (n <? 64) with true by (symmetry; apply Z.ltb_lt; lia).
      destruct (n =? 0); reflexivity.
Qed.

Lemma Xh_carry (n : Z) :
  0 <= n < 64 ->
  Z.testbit Xh n
  = Z.testbit Eq' n
    || carryInto (Z.land Eq' (VP slice)) (VP slice) n.
Proof.
  intros Hn. unfold Xh, add.
  rewrite Z.lor_spec, Z.lxor_spec, testbit_wrap, testbit_add_carry,
    Z.land_spec by lia.
  replace (n <? 64) with true by (symmetry; apply Z.ltb_lt; lia).
  destruct (Z.testbit Eq' n), (Z.testbit (VP slice) n),
    (carryInto (Z.land Eq' (VP slice)) (VP slice) n); reflexivity.
Qed.

Lemma carry_is_Mh (n : Z) :
  0 <= n < 64 ->
  carryInto (Z.land Eq' (VP slice)) (VP slice) (n + 1) = Z.testbit Mh n.
Proof.
  intros Hn. rewrite carryInto_succ by lia. unfold Mh.
  rewrite !Z.land_spec, Xh_carry by exact Hn.
  destruct (Z.testbit Eq' n), (Z.testbit (VP slice) n),
    (carryInto (Z.land Eq' (VP slice)) (VP slice) n); reflexivity.
Qed.

(** The carry chain of the addition computes the horizontal decrease that
    enters each row. *)
Lemma Xh_bits (n : Z) :
  0 <= n < 64 -> Z.testbit Xh n = Z.testbit Eq n || Z.testbit Mh' n.
Proof.
  intros Hn. rewrite Xh_carry, Mh'_bits by exact Hn.
  destruct (Z.eqb_spec n 0) as [->|Hne].
  - rewrite carryInto_zero, orb_false_r. unfold Eq'.
    destruct (hin <? 0); [|rewrite orb_false_r; reflexivity].
    rewrite Z.lor_spec. reflexivity.
  - replace n with (n - 1 + 1) at 2 by lia.
    rewrite carry_is_Mh by lia.
    assert (HE : Z.testbit Eq' n = Z.testbit Eq n).
    { unfold Eq'. destruct (hin <? 0); [|reflexivity].
      rewrite Z.lor_spec, testbit_one by lia.
      replace (n =? 0) with false by (symmetry; apply Z.eqb_neq; lia).
      apply orb_false_r. }
    rewrite HE. reflexivity.
Qed.

Lemma slice_disjoint_bits (n : Z) :
  Z.testbit (VP slice) n && Z.testbit (VN slice) n = false.
Proof.
  destruct Hgood as [_ [_ [Hd _]]].
  rewrite <- Z.land_spec, Hd. apply Z.bits_0.
Qed.

Lemma Ph_bits (n : Z) :
  0 <= n < 64 ->
  Z.testbit Ph n
  = Z.testbit (VN slice) n
    || negb (Z.testbit Xh n || Z.testbit (VP slice) n).
Proof.
  intros Hn. unfold Ph. rewrite Z.lor_spec, testbit_not, Z.lor_spec by lia.
  replace (n <? 64) with true by (symmetry; apply Z.ltb_lt; lia).
  reflexivity.
Qed.

Lemma Mh_bits (n : Z) :
  Z.testbit Mh n = Z.testbit (VP slice) n && Z.testbit Xh n.
Proof. unfold Mh. apply Z.land_spec. Qed.

Lemma horizontal_disjoint (n : Z) :
  0 <= n < 64 -> Z.testbit Mh' n && Z.testbit Ph' n = false.
Proof.
  intros Hn. rewrite Mh'_bits, Ph'_bits by exact Hn.
  destruct (Z.eqb_spec n 0) as [->|Hne].
  - destruct (Z.ltb_spec hin 0), (Z.ltb_spec 0 hin); try reflexivity; lia.
  - rewrite Mh_bits, Ph_bits by lia.
    pose proof (slice_disjoint_bits (n - 1)) as Hd.
    destruct (Z.testbit (VP slice) (n - 1)), (Z.testbit (VN slice) (n - 1)),
      (Z.testbit Xh (n - 1)); cbn in *; congruence.
Qed.

Lemma VP'_bits (n : Z) :
  0 <= n < 64 ->
  Z.testbit (Z.lor Mh' (not (Z.lor Xv Ph'))) n
  = Z.testbit Mh' n
    || negb (Z.testbit Eq n || Z.testbit (VN slice) n || Z.testbit Ph' n).
Proof.
  intros Hn. unfold Xv.
  rewrite Z.lor_spec, testbit_not, !Z.lor_spec by lia.
  replace (n <? 64) with true by (symmetry; apply Z.ltb_lt; lia).
  reflexivity.
Qed.

Lemma VN'_bits (n : Z) :
  Z.testbit (Z.land Ph' Xv) n
  = Z.testbit Ph' n && (Z.testbit Eq n || Z.testbit (VN slice) n).
Proof. unfold Xv. rewrite Z.land_spec, Z.lor_spec. reflexivity. Qed.

(** Row [n] of the new column: its vertical step is the old vertical step
    plus the horizontal step that leaves the row minus the one that enters
    it. *)
Lemma vertical_step (n : Z) :
  0 <= n < 64 ->
  bitAt (Z.lor Mh' (not (Z.lor Xv Ph'))) n - bitAt (Z.land Ph' Xv) n
  = bitAt (VP slice) n - bitAt (VN slice) n
    + (bitAt Ph n - bitAt Mh n) - (bitAt Ph' n - bitAt Mh' n).
Proof.
  intros Hn. unfold bitAt.
  rewrite VP'_bits, VN'_bits, Ph_bits, Mh_bits, Xh_bits by exact Hn.
  pose proof (slice_disjoint_bits n) as Hd.
  pose proof (horizontal_disjoint n Hn) as Hh.
  destruct (Z.testbit Eq n), (Z.testbit (VP slice) n),
    (Z.testbit (VN slice) n), (Z.testbit Mh' n), (Z.testbit Ph' n);
    cbn in *; congruence.
Qed.

Let next := getNextSlice Eq slice previousInsideBand previousEq previous.

Lemma next_cell_zero : cellScore next 0 = newBeforeStart.
Proof. rewrite cellScore_zero. reflexivity. Qed.

Lemma entering_first_row : bitAt Ph' 0 - bitAt Mh' 0 = hin.
Proof.
  unfold bitAt. rewrite Ph'_bits, Mh'_bits by lia.
  change (0 =? 0) with true. cbv iota.
  pose proof hin_range as [Hr _].
  destruct (Z.ltb_spec hin 0), (Z.ltb_spec 0 hin); cbn [Z.b2z]; lia.
Qed.

Lemma entering_next_row (k : nat) :
  (S k < 64)%nat ->
  bitAt Ph' (Z.of_nat (S k)) - bitAt Mh' (Z.of_nat (S k))
  = bitAt Ph (Z.of_nat k) - bitAt Mh (Z.of_nat k).
Proof.
  intros Hk. unfold bitAt. rewrite Ph'_bits, Mh'_bits by lia.
  replace (Z.of_nat (S k) =? 0) with false by (symmetry; apply Z.eqb_neq; lia).
  replace (Z.of_nat (S k) - 1) with (Z.of_nat k) by lia.
  reflexivity.
Qed.

(** Every cell of the new column is the cell to its left plus the
    horizontal step that leaves that row. *)
Lemma next_cells (k : nat) :
  (k < 64)%nat ->
  cellScore next (S k)
  = cellScore slice (S k) + (bitAt Ph (Z.of_nat k) - bitAt Mh (Z.of_nat k)).
Proof.
  induction k as [|k IH]; intros Hk.
  - rewrite (cellScore_succ next), (cellScore_succ slice), next_cell_zero,
      cellScore_zero.
    unfold next. rewrite getNextSlice_parts. cbn [VP VN].
    pose proof (vertical_step 0 ltac:(lia)) as Hv.
    pose proof entering_first_row as He.
    change (Z.of_nat 0) with 0. unfold hin in He. lia.
  - rewrite (cellScore_succ next (S k)), (cellScore_succ slice (S k)).
    rewrite IH by lia.
    unfold next at 1 2. rewrite getNextSlice_parts. cbn [VP VN].
    pose proof (vertical_step (Z.of_nat (S k)) ltac:(lia)) as Hv.
    pose proof (entering_next_row k Hk) as He.
    lia.
Qed.

Lemma Mh'_is_word : is_word Mh'.
Proof.
  unfold Mh'. destruct (hin <? 0);
    [apply lor_is_word; [|apply word_one]|]; apply wrap_is_word.
Qed.

Lemma Ph'_is_word : is_word Ph'.
Proof.
  unfold Ph'. destruct (hin <? 0); [apply wrap_is_word|].
  destruct (hin >? 0);
    [apply lor_is_word; [|apply word_one]|]; apply wrap_is_word.
Qed.

Lemma leaving_last_row :
  (if nonzero (Z.land Ph lastBitMask) then scoreEnd slice + 1
   else if nonzero (Z.land Mh lastBitMask) then scoreEnd slice - 1
   else scoreEnd slice)
  = scoreEnd slice + (bitAt Ph 63 - bitAt Mh 63).
Proof.
  rewrite !nonzero_lastBit. unfold bitAt.
  rewrite Ph_bits, Mh_bits by lia.
  pose proof (slice_disjoint_bits 63) as Hd.
  destruct (Z.testbit (VP slice) 63), (Z.testbit (VN slice) 63),
    (Z.testbit Xh 63); cbn in *; try congruence; lia.
Qed.

Lemma getNextSlice_good_here : goodSlice next.
Proof.
  pose proof Hgood as [HwP [HwN [Hd [Hend Hcells]]]].
  unfold goodSlice. split; [|split; [|split; [|split]]].
  - unfold next. rewrite getNextSlice_parts. cbn [VP].
    apply lor_is_word; [apply Mh'_is_word|apply not_is_word].
  - unfold next. rewrite getNextSlice_parts. cbn [VN].
    apply land_is_word_l, Ph'_is_word.
  - unfold next. rewrite getNextSlice_parts. cbn [VP VN].
    apply Z.bits_inj'. intros n Hn. rewrite Z.bits_0, Z.land_spec.
    destruct (Z.ltb_spec n 64) as [Hlt|Hge].
    + rewrite VP'_bits, VN'_bits by lia.
      pose proof (horizontal_disjoint n ltac:(lia)) as Hh.
      destruct (Z.testbit Mh' n), (Z.testbit Ph' n), (Z.testbit Eq n),
        (Z.testbit (VN slice) n); cbn in *; congruence.
    + rewrite (testbit_word_high (Z.land Ph' Xv)), andb_false_r;
        [reflexivity| |lia].
      apply land_is_word_l, Ph'_is_word.
  - rewrite (next_cells 63) by lia.
    unfold next. rewrite getNextSlice_parts. cbn [scoreEnd].
    rewrite leaving_last_row, Hend. reflexivity.
  - intros k Hk. destruct k as [|k].
    + rewrite next_cell_zero. apply hin_range.
    + rewrite next_cells by lia.
      pose proof (Hcells k ltac:(lia)) as Hk0.
      pose proof (Hcells (S k) ltac:(lia)) as Hk1.
      rewrite cellScore_succ in Hk1 |- *.
      unfold bitAt in *. rewrite Mh_bits.
      pose proof (slice_disjoint_bits (Z.of_nat k)) as Hdk.
      destruct (Z.testbit (VP slice) (Z.of_nat k)),
        (Z.testbit (VN slice) (Z.of_nat k)), (Z.testbit Xh (Z.of_nat k)),
        (Z.testbit Ph (Z.of_nat k)); cbn in *; try congruence; lia.
Qed.

Lemma getNextSlice_lower_here (m : Z) :
  lowerBounded m slice -> m <= newBeforeStart -> lowerBounded m next.
Proof.
  intros L Hm k Hk. destruct k as [|k].
  - rewrite next_cell_zero. exact Hm.
  - rewrite next_cells by lia.
    pose proof (L k ltac:(lia)) as Hk0.
    pose proof (L (S k) ltac:(lia)) as Hk1.
    rewrite cellScore_succ in Hk1 |- *.
    unfold bitAt in *. rewrite Mh_bits.
    pose proof (slice_disjoint_bits (Z.of_nat k)) as Hdk.
    destruct (Z.testbit (VP slice) (Z.of_nat k)),
      (Z.testbit (VN slice) (Z.of_nat k)), (Z.testbit Xh (Z.of_nat k)),
      (Z.testbit Ph (Z.of_nat k)); cbn in *; try congruence; lia.
Qed.

(** The last cell of the new column is at most the diagonal step away from
    the cell above it in the old column. *)
Lemma getNextSlice_diagonal_here :
  scoreEnd next
  <= cellScore slice 63 + (if Z.testbit Eq 63 then 0 else 1).
Proof.
  pose proof Hgood as [_ [_ [_ [Hend _]]]].
  unfold next. rewrite getNextSlice_parts. cbn [scoreEnd].
  rewrite leaving_last_row, Hend.
  change 64%nat with (S 63). rewrite cellScore_succ.
  change (Z.of_nat 63) with 63. unfold bitAt.
  rewrite Ph_bits, Mh_bits, Xh_bits by lia.
  pose proof (slice_disjoint_bits 63) as Hd.
  destruct (Z.testbit (VP slice) 63), (Z.testbit (VN slice) 63),
    (Z.testbit Eq 63), (Z.testbit Mh' 63); cbn in *; try congruence; lia.
Qed.

Lemma next_minus_slice (k : nat) :
  (k < 64)%nat ->
  cellScore next k - cellScore slice k
  = bitAt Ph' (Z.of_nat k) - bitAt Mh' (Z.of_nat k).
Proof.
  intros Hk. destruct k as [|k].
  - rewrite next_cell_zero, cellScore_zero.
    change (Z.of_nat 0) with 0. rewrite entering_first_row. reflexivity.
  - rewrite next_cells, entering_next_row by lia. lia.
Qed.

(** Row by row, the new column is the edit-distance recurrence over the old
    column. *)
Lemma next_recurrence_here (k : nat) :
  (k < 64)%nat ->
  cellScore next (S k)
  = Z.min (Z.min (cellScore slice (S k) + 1)
                 (cellScore slice k
                  + (if Z.testbit Eq (Z.of_nat k) then 0 else 1)))
          (cellScore next k + 1).
Proof.
  intros Hk. pose proof (next_minus_slice k Hk) as Hin.
  rewrite next_cells by exact Hk. rewrite (cellScore_succ slice k).
  unfold bitAt in *.
  rewrite Ph_bits, Mh_bits, Xh_bits by lia.
  pose proof (slice_disjoint_bits (Z.of_nat k)) as Hd.
  pose proof (horizontal_disjoint (Z.of_nat k) ltac:(lia)) as Hh.
  destruct (Z.testbit Eq (Z.of_nat k)), (Z.testbit (VP slice) (Z.of_nat k)),
    (Z.testbit (VN slice) (Z.of_nat k)), (Z.testbit Mh' (Z.of_nat k)),
    (Z.testbit Ph' (Z.of_nat k)); cbn in *; try congruence; lia.
Qed.

Lemma next_adjacent_here (k : nat) :
  (k <= 64)%nat -> -1 <= cellScore next k - cellScore slice k <= 1.
Proof.
  intros Hk. destruct k as [|k].
  - rewrite next_cell_zero, cellScore_zero. apply hin_range.
  - rewrite next_cells by lia. unfold bitAt. rewrite Ph_bits, Mh_bits by lia.
    pose proof (slice_disjoint_bits (Z.of_nat k)) as Hd.
    destruct (Z.testbit (VP slice) (Z.of_nat k)),
      (Z.testbit (VN slice) (Z.of_nat k)), (Z.testbit Xh (Z.of_nat k));
      cbn in *; try congruence; lia.
Qed.

End NextSlice.

Lemma getNextSlice_good (Eq : Z) (slice : WordSlice)
  (previousInsideBand previousEq : bool) (previous : WordSlice) :
  goodSlice slice ->
  (previousInsideBand = true ->
   goodSlice previous /\ scoreBeforeStart slice <= scoreEnd previous) ->
  goodSlice (getNextSlice Eq slice previousInsideBand previousEq previous).
Proof. intros H1 H2. apply getNextSlice_good_here; assumption. Qed.

Lemma getNextSlice_lower (m : Z) (Eq : Z) (slice : WordSlice)
  (previousInsideBand previousEq : bool) (previous : WordSlice) :
  goodSlice slice ->
  (previousInsideBand = true ->
   goodSlice previous /\ scoreBeforeStart slice <= scoreEnd previous) ->
  lowerBounded m slice ->
  m <= nextScoreBeforeStart slice previousInsideBand previousEq previous ->
  lowerBounded m
    (getNextSlice Eq slice previousInsideBand previousEq previous).
Proof. intros. apply getNextSlice_lower_here; assumption. Qed.

Lemma getNextSlice_diagonal (Eq : Z) (slice : WordSlice)
  (previousInsideBand previousEq : bool) (previous : WordSlice) :
  goodSlice slice ->
  (previousInsideBand = true ->
   goodSlice previous /\ scoreBeforeStart slice <= scoreEnd previous) ->
  scoreEnd (getNextSlice Eq slice previousInsideBand previousEq previous)
  <= cellScore slice 63 + (if Z.testbit Eq 63 then 0 else 1).
Proof. intros. apply getNextSlice_diagonal_here; assumption. Qed.

Lemma cellScore_before_end (s : WordSlice) :
  goodSlice s ->
  cellScore s 63
  = scoreEnd s - (if Z.testbit (VP s) 63 then 1 else 0)
    + (if Z.testbit (VN s) 63 then 1 else 0).
Proof.
  intros [_ [_ [_ [Hend _]]]]. rewrite Hend.
  change 64%nat with (S 63). rewrite (cellScore_succ s 63).
  change (Z.of_nat 63) with 63. unfold bitAt.
  destruct (Z.testbit (VP s) 63), (Z.testbit (VN s) 63); cbn [Z.b2z]; lia.
Qed.

Lemma nextScoreBeforeStart_diagonal (slice : WordSlice)
  (previousEq : bool) (previous : WordSlice) :
  goodSlice previous ->
  nextScoreBeforeStart slice true previousEq previous
  = Z.min (scoreBeforeStart slice + 1)
      (cellScore previous 63 + mismatchCost previousEq).
Proof.
  intros Hp. unfold nextScoreBeforeStart. cbn [negb].
  rewrite !nonzero_lastBit, cellScore_before_end by exact Hp.
  unfold mismatchCost. reflexivity.
Qed.

Lemma nextScoreBeforeStart_outside (slice : WordSlice)
  (previousEq : bool) (previous : WordSlice) :
  nextScoreBeforeStart slice false previousEq previous
  = scoreBeforeStart slice + 1.
Proof. reflexivity. Qed.

Lemma getNextSlice_cells_recurrence (Eq : Z) (slice : WordSlice)
  (previousInsideBand previousEq : bool) (previous : WordSlice) (k : nat) :
  goodSlice slice ->
  (previousInsideBand = true ->
   goodSlice previous /\ scoreBeforeStart slice <= scoreEnd previous) ->
  (k < 64)%nat ->
  cellScore (getNextSlice Eq slice previousInsideBand previousEq previous)
    (S k)
  = Z.min (Z.min (cellScore slice (S k) + 1)
                 (cellScore slice k
                  + (if Z.testbit Eq (Z.of_nat k) then 0 else 1)))
          (cellScore
             (getNextSlice Eq slice previousInsideBand previousEq previous)
             k + 1).
Proof. intros. apply next_recurrence_here; assumption. Qed.

Lemma getNextSlice_cells_adjacent (Eq : Z) (slice : WordSlice)
  (previousInsideBand previousEq : bool) (previous : WordSlice) (k : nat) :
  goodSlice slice ->
  (previousInsideBand = true ->
   goodSlice previous /\ scoreBeforeStart slice <= scoreEnd previous) ->
  (k <= 64)%nat ->
  -1 <= cellScore
          (getNextSlice Eq slice previousInsideBand previousEq previous) k
        - cellScore slice k <= 1.
Proof. intros. apply next_adjacent_here; assumption. Qed.

(** ** [mergeTwoSlices] is the row-wise minimum of two columns *)

Lemma diffBelow_cells (left right : WordSlice) (k : nat) :
  diffBelow (VP left) (VN left) (VP right) (VN right)
    (scoreBeforeStart right - scoreBeforeStart left) k
  = cellScore left k - cellScore right k.
Proof. unfold diffBelow, cellScore. lia. Qed.

Section MergeOrdered.

Variables left right : WordSlice.

Hypothesis Hleft : goodSlice left.
Hypothesis Hright : goodSlice right.
Hypothesis Horder : scoreBeforeStart left <= scoreBeforeStart right.

Let masks :=
  differenceMasks (VP left) (VN left) (VP right) (VN right)
    (scoreBeforeStart right - scoreBeforeStart left).
Let leftSmaller := fst masks.
Let rightSmaller := snd masks.
Let mask :=
  Z.land (Z.lor rightSmaller
            (sub (Z.lor leftSmaller rightSmaller) (shl rightSmaller 1)))
         (not leftSmaller).
Let leftReduction := Z.land leftSmaller (shl rightSmaller 1).
Let rightReduction :=
  if nonzero (Z.land rightSmaller 1)
     && (scoreBeforeStart left <? scoreBeforeStart right)
  then Z.lor (Z.land rightSmaller (shl leftSmaller 1)) 1
  else Z.land rightSmaller (shl leftSmaller 1).
Let leftVN := Z.land (VN left) (not leftReduction).
Let rightVN := Z.land (VN right) (not rightReduction).
Let resultVN := Z.lor (Z.land leftVN (not mask)) (Z.land rightVN mask).
Let resultVP :=
  Z.lor (Z.land (VP left) (not mask)) (Z.land (VP right) mask).

(** The difference of the two columns after [k] rows. *)
Let D (k : nat) : Z := cellScore left k - cellScore right k.

Lemma leftSmaller_bits (i : nat) :
  (i < 64)%nat -> Z.testbit leftSmaller (Z.of_nat i) = (D (S i) <? 0).
Proof.
  intros Hi. destruct Hleft as [A [B [C _]]], Hright as [A' [B' [C' _]]].
  unfold leftSmaller, masks.
  destruct (differenceMasks_bits (VP left) (VN left) (VP right) (VN right)
              (scoreBeforeStart right - scoreBeforeStart left)
              (Z.of_nat i)) as [-> _]; try assumption; try lia.
  rewrite Nat2Z.id, diffBelow_cells.
  replace (Z.of_nat i <? 64) with true by (symmetry; apply Z.ltb_lt; lia).
  reflexivity.
Qed.

Lemma rightSmaller_bits (i : nat) :
  (i < 64)%nat -> Z.testbit rightSmaller (Z.of_nat i) = (0 <? D (S i)).
Proof.
  intros Hi. destruct Hleft as [A [B [C _]]], Hright as [A' [B' [C' _]]].
  unfold rightSmaller, masks.
  destruct (differenceMasks_bits (VP left) (VN left) (VP right) (VN right)
              (scoreBeforeStart right - scoreBeforeStart left)
              (Z.of_nat i)) as [_ ->]; try assumption; try lia.
  rewrite Nat2Z.id, diffBelow_cells.
  replace (Z.of_nat i <? 64) with true by (symmetry; apply Z.ltb_lt; lia).
  reflexivity.
Qed.

Lemma D_zero : D 0 <= 0.
Proof. unfold D. rewrite !cellScore_zero. lia. Qed.

Lemma D_zero_negative :
  (scoreBeforeStart left <? scoreBeforeStart right) = (D 0 <? 0).
Proof.
  unfold D. rewrite !cellScore_zero.
  destruct (Z.ltb_spec (scoreBeforeStart left) (scoreBeforeStart right));
    symmetry; [apply Z.ltb_lt|apply Z.ltb_ge]; lia.
Qed.

(** The masks shifted up by one row tell the sign of the difference before
    the row. *)
Lemma shifted_leftSmaller_bits (i : nat) :
  (i < 64)%nat ->
  Z.testbit (shl leftSmaller 1) (Z.of_nat i)
  = negb (Nat.eqb i 0) && (D i <? 0).
Proof.
  intros Hi. rewrite testbit_shl_1 by lia.
  replace (Z.of_nat i <? 64) with true by (symmetry; apply Z.ltb_lt; lia).
  destruct i as [|i]; [reflexivity|].
  replace (Z.of_nat (S i) =? 0) with false
    by (symmetry; apply Z.eqb_neq; lia).
  replace (Z.of_nat (S i) - 1) with (Z.of_nat i) by lia.
  rewrite leftSmaller_bits by lia. reflexivity.
Qed.

Lemma shifted_rightSmaller_bits (i : nat) :
  (i < 64)%nat ->
  Z.testbit (shl rightSmaller 1) (Z.of_nat i) = (0 <? D i).
Proof.
  intros Hi. rewrite testbit_shl_1 by lia.
  replace (Z.of_nat i <? 64) with true by (symmetry; apply Z.ltb_lt; lia).
  destruct i as [|i].
  - cbn [Z.of_nat Z.eqb negb andb]. symmetry. apply Z.ltb_ge, D_zero.
  - replace (Z.of_nat (S i) =? 0) with false
      by (symmetry; apply Z.eqb_neq; lia).
    replace (Z.of_nat (S i) - 1) with (Z.of_nat i) by lia.
    rewrite rightSmaller_bits by lia. reflexivity.
Qed.

Lemma mask_formula (i : nat) :
  (i < 64)%nat ->
  Z.testbit mask (Z.of_nat i)
  = ((0 <? D (S i))
     || xorb (xorb ((D (S i) <? 0) || (0 <? D (S i))) (0 <? D i))
          (borrowInto (Z.lor leftSmaller rightSmaller) (shl rightSmaller 1)
             (Z.of_nat i)))
    && negb (D (S i) <? 0).
Proof.
  intros Hi. unfold mask, sub.
  rewrite Z.land_spec, Z.lor_spec, testbit_wrap, testbit_sub_borrow,
    testbit_not, Z.lor_spec by lia.
  rewrite shifted_rightSmaller_bits, leftSmaller_bits, rightSmaller_bits
    by exact Hi.
  replace (Z.of_nat i <? 64) with true by (symmetry; apply Z.ltb_lt; lia).
  reflexivity.
Qed.

Lemma borrow_mask (i : nat) :
  (i < 64)%nat ->
  borrowInto (Z.lor leftSmaller rightSmaller) (shl rightSmaller 1)
    (Z.of_nat i)
  = match i with
    | O => false
    | S j => Z.testbit mask (Z.of_nat j) && negb (0 <? D (S j))
    end.
Proof.
  induction i as [|j IH]; intros Hi; [apply borrowInto_zero|].
  replace (Z.of_nat (S j)) with (Z.of_nat j + 1) by lia.
  rewrite borrowInto_succ by lia.
  rewrite mask_formula by lia.
  rewrite Z.lor_spec, shifted_rightSmaller_bits, leftSmaller_bits,
    rightSmaller_bits by lia.
  specialize (IH ltac:(lia)).
  assert (Hno : (0 <? D j)
                && borrowInto (Z.lor leftSmaller rightSmaller)
                     (shl rightSmaller 1) (Z.of_nat j) = false).
  { rewrite IH. destruct j as [|j']; [apply andb_false_r|].
    destruct (0 <? D (S j')); [|reflexivity].
    cbn [negb andb]. rewrite andb_false_r. reflexivity. }
  destruct (Z.ltb_spec (D (S j)) 0), (Z.ltb_spec 0 (D (S j))); try lia;
    destruct (0 <? D j),
      (borrowInto (Z.lor leftSmaller rightSmaller) (shl rightSmaller 1)
         (Z.of_nat j)); cbn in *; congruence.
Qed.

(** Each row of [mask] follows the sign of the difference after the row,
    and a row where the columns are equal repeats the choice made for the
    row above it. *)
Lemma mask_choice (i : nat) :
  (i < 64)%nat ->
  exists previousChoice : bool,
    Z.testbit mask (Z.of_nat i)
    = negb (D (S i) <? 0) && ((0 <? D (S i)) || previousChoice) /\
    (previousChoice = true -> 0 <= D i) /\
    (previousChoice = false -> D i <= 0).
Proof.
  intros Hi.
  exists ((0 <? D i)
          || match i with
             | O => false
             | S j => Z.testbit mask (Z.of_nat j)
             end).
  split; [|split].
  - rewrite mask_formula, borrow_mask by exact Hi.
    destruct i as [|j].
    + destruct (Z.ltb_spec (D 1) 0), (Z.ltb_spec 0 (D 1)); try lia;
        destruct (0 <? D 0); reflexivity.
    + destruct (Z.ltb_spec (D (S (S j))) 0), (Z.ltb_spec 0 (D (S (S j))));
        try lia;
        destruct (0 <? D (S j)), (Z.testbit mask (Z.of_nat j));
        reflexivity.
  - intros Hc. apply orb_prop in Hc. destruct Hc as [Hc|Hc].
    + apply Z.ltb_lt in Hc. lia.
    + destruct i as [|j]; [discriminate|].
      rewrite mask_formula in Hc by lia.
      apply andb_prop in Hc. destruct Hc as [_ Hc].
      apply negb_true_iff, Z.ltb_ge in Hc. exact Hc.
  - intros Hc. apply orb_false_elim in Hc. destruct Hc as [Hc _].
    apply Z.ltb_ge in Hc. exact Hc.
Qed.

Lemma leftReduction_bits (i : nat) :
  (i < 64)%nat ->
  Z.testbit leftReduction (Z.of_nat i) = (D (S i) <? 0) && (0 <? D i).
Proof.
  intros Hi. unfold leftReduction.
  rewrite Z.land_spec, leftSmaller_bits, shifted_rightSmaller_bits
    by exact Hi.
  reflexivity.
Qed.

Lemma rightReduction_bits (i : nat) :
  (i < 64)%nat ->
  Z.testbit rightReduction (Z.of_nat i) = (0 <? D (S i)) && (D i <? 0).
Proof.
  intros Hi. unfold rightReduction.
  rewrite nonzero_land_1, D_zero_negative.
  change 0 with (Z.of_nat 0) at 1.
  rewrite rightSmaller_bits by lia.
  destruct ((0 <? D 1) && (D 0 <? 0)) eqn:Hcond.
  - rewrite Z.lor_spec, Z.land_spec, rightSmaller_bits,
      shifted_leftSmaller_bits, testbit_one by lia.
    destruct i as [|i].
    + cbn [Nat.eqb negb andb Z.of_nat Z.eqb]. rewrite andb_false_r.
      cbn [orb]. symmetry. exact Hcond.
    + replace (Z.of_nat (S i) =? 0) with false
        by (symmetry; apply Z.eqb_neq; lia).
      cbn [Nat.eqb negb andb]. apply orb_false_r.
  - rewrite Z.land_spec, rightSmaller_bits, shifted_leftSmaller_bits
      by lia.
    destruct i as [|i].
    + cbn [Nat.eqb negb andb]. rewrite andb_false_r. symmetry. exact Hcond.
    + reflexivity.
Qed.

Lemma resultVP_bits (i : nat) :
  (i < 64)%nat ->
  Z.testbit resultVP (Z.of_nat i)
  = (Z.testbit (VP left) (Z.of_nat i) && negb (Z.testbit mask (Z.of_nat i)))
    || (Z.testbit (VP right) (Z.of_nat i) && Z.testbit mask (Z.of_nat i)).
Proof.
  intros Hi. unfold resultVP.
  rewrite Z.lor_spec, !Z.land_spec, testbit_not by lia.
  replace (Z.of_nat i <? 64) with true by (symmetry; apply Z.ltb_lt; lia).
  reflexivity.
Qed.

Lemma resultVN_bits (i : nat) :
  (i < 64)%nat ->
  Z.testbit resultVN (Z.of_nat i)
  = (Z.testbit (VN left) (Z.of_nat i)
     && negb ((D (S i) <? 0) && (0 <? D i))
     && negb (Z.testbit mask (Z.of_nat i)))
    || (Z.testbit (VN right) (Z.of_nat i)
        && negb ((0 <? D (S i)) && (D i <? 0))
        && Z.testbit mask (Z.of_nat i)).
Proof.
  intros Hi. unfold resultVN, leftVN, rightVN.
  rewrite Z.lor_spec, !Z.land_spec, !testbit_not by lia.
  rewrite leftReduction_bits, rightReduction_bits by exact Hi.
  replace (Z.of_nat i <? 64) with true by (symmetry; apply Z.ltb_lt; lia).
  reflexivity.
Qed.

Lemma disjoint_bits (s : WordSlice) (n : Z) :
  goodSlice s -> Z.testbit (VP s) n && Z.testbit (VN s) n = false.
Proof.
  intros [_ [_ [Hd _]]]. rewrite <- Z.land_spec, Hd. apply Z.bits_0.
Qed.

(** Row [i] of the merged column steps from the smaller of the two cells
    above it to the smaller of the two cells of the row. *)
Lemma merged_step (i : nat) :
  (i < 64)%nat ->
  bitAt resultVP (Z.of_nat i) - bitAt resultVN (Z.of_nat i)
  = Z.min (cellScore left (S i)) (cellScore right (S i))
    - Z.min (cellScore left i) (cellScore right i).
Proof.
  intros Hi. unfold bitAt.
  rewrite resultVP_bits, resultVN_bits by exact Hi.
  destruct (mask_choice i Hi) as [pc [-> [Hpt Hpf]]].
  pose proof (disjoint_bits left (Z.of_nat i) Hleft) as Hdl.
  pose proof (disjoint_bits right (Z.of_nat i) Hright) as Hdr.
  unfold D in *.
  rewrite (cellScore_succ left i), (cellScore_succ right i) in *.
  unfold bitAt in *.
  destruct (Z.testbit (VP left) (Z.of_nat i)),
    (Z.testbit (VN left) (Z.of_nat i)); try discriminate Hdl;
    destruct (Z.testbit (VP right) (Z.of_nat i)),
      (Z.testbit (VN right) (Z.of_nat i)); try discriminate Hdr;
    cbn [Z.b2z] in *;
    (destruct pc;
     [ specialize (Hpt eq_refl); clear Hpf
     | specialize (Hpf eq_refl); clear Hpt ]);
    repeat match goal with
           | |- context [?a <? ?b] => destruct (Z.ltb_spec a b)
           end;
    cbn [Z.b2z negb andb orb]; lia.
Qed.

Let merged :=
  mkWordSlice resultVP resultVN
    (Z.min (scoreEnd left) (scoreEnd right))
    (Z.min (scoreBeforeStart left) (scoreBeforeStart right)).

Lemma mergeTwoSlices_ordered : mergeTwoSlices left right = merged.
Proof.
  unfold mergeTwoSlices.
  replace (scoreBeforeStart left >? scoreBeforeStart right) with false
    by (symmetry; rewrite Z.gtb_ltb; apply Z.ltb_ge; exact Horder).
  reflexivity.
Qed.

Lemma merged_cells (k : nat) :
  (k <= 64)%nat ->
  cellScore merged k = Z.min (cellScore left k) (cellScore right k).
Proof.
  induction k as [|k IH]; intros Hk.
  - rewrite !cellScore_zero. reflexivity.
  - rewrite (cellScore_succ merged), IH by lia.
    pose proof (merged_step k ltac:(lia)) as Hs.
    unfold merged. cbn [VP VN]. lia.
Qed.

Lemma merged_good : goodSlice merged.
Proof.
  pose proof Hleft as [HlP [HlN [Hdl [Hel Hcl]]]].
  pose proof Hright as [HrP [HrN [Hdr [Her Hcr]]]].
  unfold goodSlice. split; [|split; [|split; [|split]]].
  - unfold merged, resultVP. cbn [VP].
    apply lor_is_word; apply land_is_word_l; assumption.
  - unfold merged, resultVN, leftVN, rightVN. cbn [VN].
    apply lor_is_word; apply land_is_word_l, land_is_word_l; assumption.
  - unfold merged, resultVP, resultVN, leftVN, rightVN. cbn [VP VN].
    apply Z.bits_inj'. intros n Hn.
    rewrite Z.bits_0, !Z.land_spec, !Z.lor_spec, !Z.land_spec.
    rewrite (testbit_not mask) by exact Hn.
    pose proof (disjoint_bits left n Hleft) as Bl.
    pose proof (disjoint_bits right n Hright) as Br.
    destruct (Z.testbit (VP left) n), (Z.testbit (VN left) n);
      try discriminate Bl;
      destruct (Z.testbit (VP right) n), (Z.testbit (VN right) n);
      try discriminate Br;
      destruct (Z.testbit mask n), (n <? 64),
        (Z.testbit (not leftReduction) n),
        (Z.testbit (not rightReduction) n); reflexivity.
  - rewrite merged_cells by lia. unfold merged. cbn [scoreEnd].
    rewrite Hel, Her. reflexivity.
  - intros k Hk. rewrite merged_cells by exact Hk.
    pose proof (Hcl k Hk). pose proof (Hcr k Hk). lia.
Qed.

End MergeOrdered.

Lemma mergeTwoSlices_swap (left right : WordSlice) :
  scoreBeforeStart right < scoreBeforeStart left ->
  mergeTwoSlices left right = mergeTwoSlices right left.
Proof.
  intros Hlt. unfold mergeTwoSlices.
  replace (scoreBeforeStart left >? scoreBeforeStart right) with true
    by (symmetry; rewrite Z.gtb_ltb; apply Z.ltb_lt; exact Hlt).
  replace (scoreBeforeStart right >? scoreBeforeStart left) with false
    by (symmetry; rewrite Z.gtb_ltb; apply Z.ltb_ge; lia).
  reflexivity.
Qed.

Lemma mergeTwoSlices_good (left right : WordSlice) :
  goodSlice left -> goodSlice right ->
  goodSlice (mergeTwoSlices left right).
Proof.
  intros Hl Hr.
  destruct (Z.le_gt_cases (scoreBeforeStart left) (scoreBeforeStart right))
    as [Hle|Hgt].
  - rewrite (mergeTwoSlices_ordered left right Hle).
    apply merged_good; assumption.
  - rewrite mergeTwoSlices_swap by exact Hgt.
    rewrite (mergeTwoSlices_ordered right left ltac:(lia)).
    apply merged_good; [assumption|assumption|lia].
Qed.

Lemma mergeTwoSlices_scoreBeforeStart (left right : WordSlice) :
  scoreBeforeStart (mergeTwoSlices left right)
  = Z.min (scoreBeforeStart left) (scoreBeforeStart right).
Proof.
  unfold mergeTwoSlices. cbn [scoreBeforeStart].
  destruct (scoreBeforeStart left >? scoreBeforeStart right);
    [apply Z.min_comm|reflexivity].
Qed.

Lemma mergeTwoSlices_scoreEnd (left right : WordSlice) :
  scoreEnd (mergeTwoSlices left right)
  = Z.min (scoreEnd left) (scoreEnd right).
Proof.
  unfold mergeTwoSlices. cbn [scoreEnd].
  destruct (scoreBeforeStart left >? scoreBeforeStart right);
    [apply Z.min_comm|reflexivity].
Qed.

(** ** Source slices, clamps and the specification's invariant *)

Lemma goodSlice_invariant (s : WordSlice) : goodSlice s -> sliceInvariant s.
Proof.
  intros [HP [HN [Hd [Hend Hcells]]]].
  pose proof (Hcells 0%nat ltac:(lia)) as H0. rewrite cellScore_zero in H0.
  pose proof (Hcells 64%nat ltac:(lia)) as H64.
  pose proof (countBits_disjoint 64 (VP s) (VN s) Hd) as Hsum.
  pose proof (countBits_range 64 (VP s)).
  pose proof (countBits_range 64 (VN s)).
  unfold sliceInvariant. rewrite !popcount_countBits by assumption.
  unfold cellScore in *. repeat split; try assumption; lia.
Qed.

Lemma word_AllOnes : is_word AllOnes.
Proof. vm_compute. split; [discriminate|reflexivity]. Qed.

Lemma word_zero : is_word AllZeros.
Proof. vm_compute. split; [discriminate|reflexivity]. Qed.

Lemma sourceSlice_good (score : Z) :
  0 <= score ->
  goodSlice (mkWordSlice AllOnes AllZeros (score + WordSize) score).
Proof.
  intros Hs. unfold goodSlice. cbn [VP VN scoreEnd scoreBeforeStart].
  split; [|split; [|split; [|split]]].
  - apply word_AllOnes.
  - apply word_zero.
  - reflexivity.
  - unfold cellScore. cbn [VP VN scoreBeforeStart].
    change AllZeros with 0. change WordSize with 64.
    rewrite countBits_AllOnes, countBits_zero by lia. lia.
  - intros k Hk. unfold cellScore. cbn [VP VN scoreBeforeStart].
    change AllZeros with 0.
    rewrite countBits_AllOnes, countBits_zero by lia. lia.
Qed.

Lemma getSourceSliceWithoutBefore_good (row : Z) :
  0 <= row -> goodSlice (getSourceSliceWithoutBefore row).
Proof. apply sourceSlice_good. Qed.

Lemma getSourceSliceFromScore_good (previousScore : Z) :
  0 <= previousScore -> goodSlice (getSourceSliceFromScore previousScore).
Proof. apply sourceSlice_good. Qed.

Lemma defaultWordSlice_good : goodSlice defaultWordSlice.
Proof.
  unfold goodSlice, defaultWordSlice. cbn [VP VN scoreEnd scoreBeforeStart].
  split; [|split; [|split; [|split]]].
  - apply word_zero.
  - apply word_zero.
  - reflexivity.
  - unfold cellScore. cbn [VP VN scoreBeforeStart]. change AllZeros with 0.
    rewrite countBits_zero. reflexivity.
  - intros k Hk. unfold cellScore. cbn [VP VN scoreBeforeStart].
    change AllZeros with 0. rewrite countBits_zero. lia.
Qed.

Lemma goodSlice_scoreEnd (s : WordSlice) : goodSlice s -> 0 <= scoreEnd s.
Proof. intros H. apply goodSlice_invariant in H. apply H. Qed.

Lemma goodSlice_scoreBeforeStart (s : WordSlice) :
  goodSlice s -> 0 <= scoreBeforeStart s.
Proof. intros H. apply goodSlice_invariant in H. apply H. Qed.

Lemma clampSlice_good (inPreviousBand : bool) (oldScoreEnd : Z) (j : nat)
  (s : WordSlice) :
  goodSlice s ->
  (inPreviousBand = true -> 0 <= oldScoreEnd) ->
  goodSlice (clampSlice inPreviousBand oldScoreEnd j s) /\
  (inPreviousBand = true ->
   scoreBeforeStart (clampSlice inPreviousBand oldScoreEnd j s)
   <= oldScoreEnd).
Proof.
  intros Hs Hold. unfold clampSlice.
  set (s1 := if inPreviousBand && (scoreBeforeStart s >? oldScoreEnd)
             then mergeTwoSlices (getSourceSliceFromScore oldScoreEnd) s
             else s).
  assert (H1 : goodSlice s1 /\
               (inPreviousBand = true -> scoreBeforeStart s1 <= oldScoreEnd)).
  { unfold s1. destruct inPreviousBand; cbn [andb].
    - rewrite Z.gtb_ltb.
      destruct (Z.ltb_spec oldScoreEnd (scoreBeforeStart s)) as [Hlt|Hge].
      + split.
        * apply mergeTwoSlices_good; [|exact Hs].
          apply getSourceSliceFromScore_good, Hold. reflexivity.
        * intros _. rewrite mergeTwoSlices_scoreBeforeStart.
          cbn [getSourceSliceFromScore scoreBeforeStart]. lia.
      + split; [exact Hs|intros _; exact Hge].
    - split; [exact Hs|discriminate]. }
  destruct H1 as [G1 B1].
  destruct (scoreBeforeStart s1 >? Z.of_nat j).
  - split.
    + apply mergeTwoSlices_good; [|exact G1].
      apply getSourceSliceWithoutBefore_good. lia.
    + intros Hin. rewrite mergeTwoSlices_scoreBeforeStart.
      specialize (B1 Hin). lia.
  - split; assumption.
Qed.

Lemma goodSliceb_sound (s : WordSlice) : goodSliceb s = true -> goodSlice s.
Proof.
  unfold goodSliceb. intros H.
  repeat (apply andb_prop in H; destruct H as [H ?]).
  unfold goodSlice, is_word.
  repeat match goal with
         | Hb : (_ <=? _) = true |- _ => apply Z.leb_le in Hb
         | Hb : (_ <? _) = true |- _ => apply Z.ltb_lt in Hb
         | Hb : (_ =? _) = true |- _ => apply Z.eqb_eq in Hb
         end.
  repeat split; try assumption.
  intros k Hk.
  match goal with
  | Hall : forallb _ _ = true |- _ =>
      rewrite forallb_forall in Hall;
      apply Z.leb_le, Hall, in_seq; lia
  end.
Qed.

(** ** [calculateNode] stores well-formed slices *)

Ltac bind_step H :=
  match type of H with
  | bindOpt (bindOpt ?c _) _ = Some _ =>
      let E := fresh "E" in
      destruct c eqn:E; cbn [bindOpt] in H; [|discriminate H]
  | bindOpt ?c _ = Some _ =>
      let E := fresh "E" in
      destruct c eqn:E; cbn [bindOpt] in H; [|discriminate H]
  end.

Lemma back_In {A : Type} (l : list A) (b : A) : back l = Some b -> In b l.
Proof. unfold back. apply nth_error_In. Qed.

Lemma Forall_setNth {A : Type} (P : A -> Prop) (l : list A) (w : nat)
  (v : A) :
  Forall P l -> P v -> Forall P (setNth l w v).
Proof.
  intros Hl Hv. revert w.
  induction Hl as [|x l Hx Hl IH]; intros w; [constructor|].
  destruct w as [|w]; cbn [setNth]; constructor; auto.
Qed.

Lemma setNth_length {A : Type} (l : list A) (w : nat) (v : A) :
  List.length (setNth l w v) = List.length l.
Proof.
  revert w. induction l as [|x l IH]; intros w; [reflexivity|].
  destruct w as [|w]; cbn [setNth List.length]; [reflexivity|].
  rewrite IH. reflexivity.
Qed.

Lemma nth_error_setNth {A : Type} (l : list A) (w w' : nat) (v x : A) :
  nth_error (setNth l w v) w' = Some x ->
  (w' = w /\ x = v) \/ nth_error l w' = Some x.
Proof.
  revert w w'. induction l as [|y l IH]; intros w w' H.
  - right. exact H.
  - destruct w as [|w]; cbn [setNth] in H.
    + destruct w' as [|w']; cbn [nth_error] in *.
      * left. split; [reflexivity|congruence].
      * right. exact H.
    + destruct w' as [|w']; cbn [nth_error] in *.
      * right. exact H.
      * destruct (IH w w' H) as [[-> ->]|Hr]; [left; auto|right; exact Hr].
Qed.

Lemma vectorBelow_setNth (current previous : list WordSlice) (w : nat)
  (v : WordSlice) :
  vectorBelow current previous ->
  (forall p, nth_error previous w = Some p ->
             scoreBeforeStart v <= scoreEnd p) ->
  vectorBelow (setNth current w v) previous.
Proof.
  intros [Hlen Hb] Hv. split; [rewrite setNth_length; exact Hlen|].
  intros w' c p Hc Hp.
  destruct (nth_error_setNth _ _ _ _ _ Hc) as [[-> ->]|Hc'].
  - apply Hv. exact Hp.
  - apply (Hb w' c p Hc' Hp).
Qed.

Lemma vectorBelow_back (current previous : list WordSlice)
  (c p : WordSlice) :
  vectorBelow current previous ->
  back current = Some c -> back previous = Some p ->
  scoreBeforeStart c <= scoreEnd p.
Proof.
  intros [Hlen Hb] Hc Hp. unfold back in *. rewrite Hlen in Hc.
  apply (Hb _ c p Hc Hp).
Qed.

Lemma mergeInto_good (found : bool) (acc competitor : WordSlice) :
  goodSlice acc -> goodSlice competitor ->
  goodSlice (mergeInto found acc competitor).
Proof.
  intros Ha Hc. unfold mergeInto.
  destruct found; [apply mergeTwoSlices_good; assumption|exact Hc].
Qed.

Lemma mergeInto_scoreBeforeStart (found : bool) (acc competitor : WordSlice) :
  scoreBeforeStart (mergeInto found acc competitor)
  = if found
    then Z.min (scoreBeforeStart acc) (scoreBeforeStart competitor)
    else scoreBeforeStart competitor.
Proof.
  unfold mergeInto.
  destruct found; [apply mergeTwoSlices_scoreBeforeStart|reflexivity].
Qed.

Lemma mergeInto_scoreEnd (found : bool) (acc competitor : WordSlice) :
  scoreEnd (mergeInto found acc competitor)
  = if found then Z.min (scoreEnd acc) (scoreEnd competitor)
    else scoreEnd competitor.
Proof.
  unfold mergeInto.
  destruct found; [apply mergeTwoSlices_scoreEnd|reflexivity].
Qed.

Section StartSlice.

Variables previousSlice currentSlice : NodeSlice.
Variables currentBand previousBand : Band.

Hypothesis Hprevious : slicesGood previousSlice.
Hypothesis Hcurrent : slicesGood currentSlice.
Hypothesis Hbelow : slicesBelow previousBand currentSlice previousSlice.

Lemma stored_back_good (slices : NodeSlice) (n : nat) (v : list WordSlice)
  (b : WordSlice) :
  slicesGood slices -> slices n = Some v -> back v = Some b -> goodSlice b.
Proof.
  intros Hs Hv Hb. specialize (Hs n v Hv).
  rewrite Forall_forall in Hs. apply Hs, back_In, Hb.
Qed.

Lemma nodeStartNeighbor_invariant (neighbor : nat)
  (s s' : StartSliceState) :
  startSliceInvariant s ->
  nodeStartNeighbor previousSlice currentSlice currentBand previousBand
    neighbor s = Some s' ->
  startSliceInvariant s'.
Proof.
  intros [Gp [Gu Hf]] H. unfold nodeStartNeighbor in H.
  destruct (inBand previousBand neighbor) eqn:Bp;
    destruct (inBand currentBand neighbor) eqn:Bc;
    cbn [andb negb bindOpt] in H.
  - bind_step H. bind_step H. bind_step H. bind_step H.
    injection H as <-. unfold startSliceInvariant.
    cbn [ss_previous ss_previousUp ss_foundOne ss_foundOneUp].
    pose proof (stored_back_good _ _ _ _ Hprevious E E0) as Gb.
    pose proof (stored_back_good _ _ _ _ Hcurrent E1 E2) as Gc.
    pose proof (vectorBelow_back _ _ _ _ (Hbelow _ _ _ Bp E1 E) E2 E0)
      as Hle.
    split; [apply mergeInto_good; assumption|].
    split; [apply mergeInto_good; assumption|].
    intros _. split; [reflexivity|].
    rewrite mergeInto_scoreBeforeStart, mergeInto_scoreEnd.
    destruct (ss_foundOneUp s).
    + destruct (Hf eq_refl) as [-> Hle']. lia.
    + destruct (ss_foundOne s); lia.
  - bind_step H. bind_step H. injection H as <-.
    unfold startSliceInvariant.
    cbn [ss_previous ss_previousUp ss_foundOne ss_foundOneUp].
    pose proof (stored_back_good _ _ _ _ Hprevious E E0) as Gb.
    pose proof (goodSlice_scoreEnd _ Gb) as Hb0.
    split; [apply mergeInto_good;
            [assumption|apply getSourceSliceFromScore_good; exact Hb0]|].
    split; [apply mergeInto_good; assumption|].
    intros _. split; [reflexivity|].
    rewrite mergeInto_scoreBeforeStart, mergeInto_scoreEnd.
    cbn [getSourceSliceFromScore scoreBeforeStart].
    destruct (ss_foundOneUp s).
    + destruct (Hf eq_refl) as [-> Hle']. lia.
    + destruct (ss_foundOne s); lia.
  - bind_step H. bind_step H. injection H as <-.
    unfold startSliceInvariant.
    cbn [ss_previous ss_previousUp ss_foundOne ss_foundOneUp].
    pose proof (stored_back_good _ _ _ _ Hcurrent E E0) as Gc.
    split; [apply mergeInto_good; assumption|].
    split; [exact Gu|].
    intros Hup. destruct (Hf Hup) as [Hone Hle]. split; [reflexivity|].
    rewrite mergeInto_scoreBeforeStart, Hone. lia.
  - injection H as <-. unfold startSliceInvariant. auto.
Qed.

Lemma nodeStartLoop_invariant (neighbors : list nat) :
  forall s s',
    startSliceInvariant s ->
    nodeStartLoop previousSlice currentSlice currentBand previousBand
      neighbors s = Some s' ->
    startSliceInvariant s'.
Proof.
  induction neighbors as [|neighbor rest IH]; intros s s' Hs H;
    cbn [nodeStartLoop] in H.
  - injection H as <-. exact Hs.
  - bind_step H. apply (IH s0 s'); [|exact H].
    apply (nodeStartNeighbor_invariant neighbor s s0 Hs E).
Qed.

End StartSlice.

Section NodeCells.

Variable graph : AlignmentGraph.
Variables i j : nat.
Variable sequence : list ascii.
Variables BA BT BC BG : Z.
Variable previousSlice : NodeSlice.
Variables currentBand previousBand : Band.

Hypothesis Hprevious : slicesGood previousSlice.

Lemma stored_nth_good (slices : NodeSlice) (n w : nat)
  (v : list WordSlice) (c : WordSlice) :
  slicesGood slices -> slices n = Some v -> nth_error v w = Some c ->
  goodSlice c.
Proof.
  intros Hs Hv Hc. specialize (Hs n v Hv).
  rewrite Forall_forall in Hs. apply Hs. apply (nth_error_In _ _ Hc).
Qed.

Lemma calculateCell_good (slice : list WordSlice) (w : nat)
  (c : WordSlice) :
  vectorInvariant previousSlice previousBand i slice ->
  calculateCell graph i j sequence BA BT BC BG previousSlice currentBand
    previousBand slice w = Some c ->
  goodSlice c /\
  (inBand previousBand i = true ->
   forall vp p, previousSlice i = Some vp -> nth_error vp w = Some p ->
                scoreBeforeStart c <= scoreEnd p).
Proof.
  intros [Hgood Hbelow] H. unfold calculateCell in H. cbv zeta in H.
  bind_step H. bind_step H. bind_step H. bind_step H. bind_step H.
  bind_step H.
  unfold oldSliceOf in E3.
  assert (Gleft : goodSlice w0).
  { rewrite Forall_forall in Hgood. apply Hgood.
    apply (nth_error_In _ _ E1). }
  destruct (inBand previousBand i) eqn:Bp.
  - bind_step H. injection H as <-.
    pose proof (stored_nth_good _ _ _ _ _ Hprevious E3 E4) as GoldLeft.
    pose proof (stored_nth_good _ _ _ _ _ Hprevious E3 E5) as Gold.
    destruct (Hbelow eq_refl l E3) as [_ Hb].
    pose proof (Hb _ _ _ E1 E4) as Hle.
    destruct (clampSlice_good true (scoreEnd w2) j
                (getNextSlice z w0 true b w1)) as [Gc Bc].
    + apply getNextSlice_good; [exact Gleft|]. intros _. split; assumption.
    + intros _. apply goodSlice_scoreEnd, Gold.
    + split; [exact Gc|].
      intros _ vp p Hvp Hp. rewrite E3 in Hvp. injection Hvp as <-.
      rewrite E5 in Hp. injection Hp as <-. apply Bc. reflexivity.
  - cbn [bindOpt] in H. injection H as <-.
    destruct (clampSlice_good false 0 j
                (getNextSlice z w0 false b w1)) as [Gc _].
    + apply getNextSlice_good; [exact Gleft|discriminate].
    + discriminate.
    + split; [exact Gc|discriminate].
Qed.

Lemma calculateCells_good (count : nat) :
  forall w acc acc',
    vectorInvariant previousSlice previousBand i (fst acc) ->
    calculateCells graph count i j sequence BA BT BC BG previousSlice
      currentBand previousBand w acc = Some acc' ->
    vectorInvariant previousSlice previousBand i (fst acc').
Proof.
  induction count as [|count IH]; intros w [slice result] acc' Hinv H;
    cbn [calculateCells] in H.
  - injection H as <-. exact Hinv.
  - bind_step H. bind_step H. apply IH in H; [exact H|].
    cbn [fst] in *.
    destruct (calculateCell_good slice w w0 Hinv E0) as [Gc Bc].
    destruct Hinv as [Hgood Hbelow]. split.
    + apply Forall_setNth; assumption.
    + intros Hin vp Hvp. apply vectorBelow_setNth.
      * apply Hbelow; assumption.
      * intros p Hp. apply (Bc Hin vp p Hvp Hp).
Qed.

Variable currentSlice : NodeSlice.

Hypothesis Hcurrent : slicesGood currentSlice.
Hypothesis Hbelow : slicesBelow previousBand currentSlice previousSlice.

Lemma initial_startSliceInvariant :
  startSliceInvariant
    (mkStartSliceState defaultWordSlice defaultWordSlice false false).
Proof.
  unfold startSliceInvariant.
  cbn [ss_previous ss_previousUp ss_foundOne ss_foundOneUp].
  split; [apply defaultWordSlice_good|].
  split; [apply defaultWordSlice_good|discriminate].
Qed.

Lemma getNodeStartSlice_good (Eq : Z) (previousEq : bool) (s : WordSlice) :
  getNodeStartSlice graph Eq i previousSlice currentSlice currentBand
    previousBand previousEq = Some s ->
  goodSlice s.
Proof.
  intros H. unfold getNodeStartSlice in H.
  bind_step H. bind_step H. injection H as <-.
  destruct (nodeStartLoop_invariant previousSlice currentSlice currentBand
              previousBand Hprevious Hcurrent Hbelow l _ s0
              initial_startSliceInvariant E0) as [Gp [Gu Hf]].
  apply getNextSlice_good; [exact Gp|].
  intros Hup. split; [exact Gu|]. apply (Hf Hup).
Qed.

Lemma setNode_good (slices : NodeSlice) (node : nat)
  (v : list WordSlice) :
  slicesGood slices -> Forall goodSlice v ->
  slicesGood (setNode slices node v).
Proof.
  intros Hs Hv n v' H. unfold setNode in H.
  destruct (Nat.eqb n node); [injection H as <-; exact Hv|].
  apply (Hs n v' H).
Qed.

Lemma firstSlice_good (slice : list WordSlice) (source : bool)
  (nodeStartPos : nat) (first : WordSlice) :
  (if source
   then
     if inBand previousBand i then getSourceSlice i previousSlice
     else Some (getSourceSliceWithoutBefore (Z.of_nat j))
   else
     Eq <- getEq graph BA BT BC BG nodeStartPos ;;
     previousEq <- previousRowMatches graph sequence j nodeStartPos ;;
     s <- getNodeStartSlice graph Eq i previousSlice currentSlice
            currentBand previousBand previousEq ;;
     oldSlice <- oldSliceOf previousSlice previousBand i
                   (setNth slice 0 s) ;;
     oldScoreEnd <- (if inBand previousBand i
                     then o <- nth_error oldSlice 0 ;; Some (scoreEnd o)
                     else Some 0) ;;
     Some (clampSlice (inBand previousBand i) oldScoreEnd j s))
  = Some first ->
  goodSlice first /\
  (inBand previousBand i = true ->
   forall vp p, previousSlice i = Some vp -> nth_error vp 0 = Some p ->
                scoreBeforeStart first <= scoreEnd p).
Proof.
  intros H. destruct source.
  - destruct (inBand previousBand i) eqn:Bp.
    + unfold getSourceSlice in H. bind_step H. bind_step H.
      injection H as <-.
      pose proof (stored_nth_good _ _ _ _ _ Hprevious E E0) as Gs.
      split.
      * apply getSourceSliceFromScore_good, goodSlice_scoreEnd, Gs.
      * intros _ vp p Hvp Hp. injection Hvp as <-.
        rewrite E0 in Hp. injection Hp as <-.
        cbn [getSourceSliceFromScore scoreBeforeStart]. lia.
    + injection H as <-. split; [|discriminate].
      apply getSourceSliceWithoutBefore_good. lia.
  - bind_step H. bind_step H. bind_step H. bind_step H.
    pose proof (getNodeStartSlice_good _ _ _ E1) as Gs.
    unfold oldSliceOf in E2.
    destruct (inBand previousBand i) eqn:Bp.
    + bind_step H. injection H as <-.
      pose proof (stored_nth_good _ _ _ _ _ Hprevious E2 E3) as Gold.
      destruct (clampSlice_good true (scoreEnd w0) j w) as [Gc Bc];
        [exact Gs|intros _; apply goodSlice_scoreEnd, Gold|].
      split; [exact Gc|].
      intros _ vp p Hvp Hp. rewrite E2 in Hvp. injection Hvp as <-.
      rewrite E3 in Hp. injection Hp as <-. apply Bc. reflexivity.
    + cbn [bindOpt] in H. injection H as <-.
      destruct (clampSlice_good false 0 j w) as [Gc _];
        [exact Gs|discriminate|].
      split; [exact Gc|discriminate].
Qed.

Variable ScoreMax : Z.

Lemma calculateNode_good (forceSource : bool)
  (result : NodeCalculationResult) (slices : NodeSlice) :
  calculateNode ScoreMax graph i j sequence BA BT BC BG currentSlice
    previousSlice currentBand previousBand forceSource
  = Some (result, slices) ->
  slicesGood slices /\ slicesBelow previousBand slices previousSlice.
Proof.
  intros H. unfold calculateNode in H.
  bind_step H. bind_step H. bind_step H. bind_step H. bind_step H.
  cbv zeta in H. bind_step H. destruct p as [slice' result'].
  injection H as _ <-.
  destruct (firstSlice_good l b n w E3) as [Gfirst Bfirst].
  assert (Hinit : vectorInvariant previousSlice previousBand i
                    (setNth l 0 w)).
  { split.
    - apply Forall_setNth; [apply (Hcurrent i l E)|exact Gfirst].
    - intros Hin vp Hvp. apply vectorBelow_setNth.
      + apply (Hbelow i l vp Hin E Hvp).
      + intros p Hp. apply (Bfirst Hin vp p Hvp Hp). }
  pose proof (calculateCells_good _ _ (setNth l 0 w, _) _ Hinit E4)
    as [Gfinal Bfinal].
  cbn [fst] in Gfinal, Bfinal.
  split.
  - apply setNode_good; assumption.
  - intros n' vc vp Hin Hvc Hvp. unfold setNode in Hvc.
    destruct (Nat.eqb_spec n' i) as [->|Hne].
    + injection Hvc as <-. apply Bfinal; assumption.
    + apply (Hbelow n' vc vp Hin Hvc Hvp).
Qed.

End NodeCells.

(** ** The invariant of every slice the core produces *)

(** C2.  Every slice produced by the source-slice constructors, by
    [mergeTwoSlices], by [getNextSlice] and every slice stored by
    [calculateNode] has disjoint [VP] and [VN], satisfies
    [scoreEnd = scoreBeforeStart + popcount VP - popcount VN], has two scores
    that are not negative and that differ by at most 64.  The slices fed to
    a producer are well-formed columns ([goodSlice]: the same identity, with
    no negative cell anywhere in the column), [getNextSlice] is called as its
    own assertion demands (the slice starts no higher than the slice above it
    ends), and each produced slice is again a well-formed column, so that the
    invariant carries through a whole run. *)
Theorem wordSlice_invariant
  (row previousScore : Z) (left right : WordSlice)
  (Eq : Z) (slice : WordSlice) (previousInsideBand previousEq : bool)
  (previous : WordSlice)
  (ScoreMax : Z) (graph : AlignmentGraph) (i j : nat)
  (sequence : list ascii) (BA BT BC BG : Z)
  (currentSlice previousSlice : NodeSlice)
  (currentBand previousBand : Band) (forceSource : bool) :
  0 <= row -> 0 <= previousScore ->
  goodSlice left -> goodSlice right ->
  goodSlice slice ->
  (previousInsideBand = true ->
   goodSlice previous /\ scoreBeforeStart slice <= scoreEnd previous) ->
  slicesGood previousSlice -> slicesGood currentSlice ->
  slicesBelow previousBand currentSlice previousSlice ->
  (goodSlice (getSourceSliceWithoutBefore row) /\
   sliceInvariant (getSourceSliceWithoutBefore row)) /\
  (goodSlice (getSourceSliceFromScore previousScore) /\
   sliceInvariant (getSourceSliceFromScore previousScore)) /\
  (goodSlice (mergeTwoSlices left right) /\
   sliceInvariant (mergeTwoSlices left right)) /\
  (goodSlice
     (getNextSlice Eq slice previousInsideBand previousEq previous) /\
   sliceInvariant
     (getNextSlice Eq slice previousInsideBand previousEq previous)) /\
  (forall result slices,
     calculateNode ScoreMax graph i j sequence BA BT BC BG currentSlice
       previousSlice currentBand previousBand forceSource
     = Some (result, slices) ->
     slicesGood slices /\
     slicesBelow previousBand slices previousSlice /\
     forall n v s, slices n = Some v -> In s v -> sliceInvariant s).
Proof.
  intros Hrow Hscore Hl Hr Hs Hp Hprev Hcur Hbelow.
  assert (both : forall s, goodSlice s -> goodSlice s /\ sliceInvariant s).
  { intros s G. split; [exact G|apply goodSlice_invariant, G]. }
  split; [apply both, getSourceSliceWithoutBefore_good, Hrow|].
  split; [apply both, getSourceSliceFromScore_good, Hscore|].
  split; [apply both, mergeTwoSlices_good; assumption|].
  split; [apply both, getNextSlice_good; assumption|].
  intros result slices H.
  destruct (calculateNode_good graph i j sequence BA BT BC BG previousSlice
              currentBand previousBand Hprev currentSlice Hcur Hbelow
              ScoreMax forceSource result slices H) as [G B].
  split; [exact G|]. split; [exact B|].
  intros n v s Hv Hin. apply goodSlice_invariant.
  specialize (G n v Hv). rewrite Forall_forall in G. apply G, Hin.
Qed.

Lemma levelColumn_good : slicesGood levelColumn.
Proof.
  intros n v H. unfold levelColumn, setNode, emptyNodeSlice in H.
  destruct n as [|[|n]]; cbn in H; try discriminate H;
    injection H as <-; repeat constructor;
    apply goodSliceb_sound; reflexivity.
Qed.

Lemma halfColumn_good : slicesGood halfColumn.
Proof.
  intros n v H. unfold halfColumn, setNode, emptyNodeSlice in H.
  destruct n as [|[|n]]; cbn in H; try discriminate H;
    injection H as <-; repeat constructor;
    apply goodSliceb_sound; reflexivity.
Qed.

Lemma halfColumn_below : slicesBelow [true; true] halfColumn levelColumn.
Proof.
  intros n vc vp Hin Hvc Hvp.
  unfold halfColumn, levelColumn, setNode, emptyNodeSlice in Hvc, Hvp.
  destruct n as [|[|n]]; cbn in Hvc, Hvp; try discriminate Hvc;
    injection Hvc as <-; injection Hvp as <-;
    (split; [reflexivity|]);
    intros w c p Hc Hp;
    destruct w as [|[|w]]; cbn in Hc, Hp;
    try (destruct w; discriminate Hc);
    injection Hc as <-; injection Hp as <-; cbn; lia.
Qed.

Lemma wordSlice_invariant_witness :
  ((goodSlice (getSourceSliceWithoutBefore 64) /\
    sliceInvariant (getSourceSliceWithoutBefore 64)) /\
   (goodSlice (getSourceSliceFromScore 3) /\
    sliceInvariant (getSourceSliceFromScore 3)) /\
   (goodSlice (mergeTwoSlices (mkWordSlice 5 2 4 3) (mkWordSlice 6 1 2 1)) /\
    sliceInvariant
      (mergeTwoSlices (mkWordSlice 5 2 4 3) (mkWordSlice 6 1 2 1))) /\
   (goodSlice
      (getNextSlice 16 (mkWordSlice 5 2 4 3) true false
         (mkWordSlice 0 0 3 3)) /\
    sliceInvariant
      (getNextSlice 16 (mkWordSlice 5 2 4 3) true false
         (mkWordSlice 0 0 3 3))) /\
   (forall result slices,
      calculateNode 1000 fastPathGraph 1 0 fastPathRead
        9223372036854775807 0 0 9223372036854775808 halfColumn levelColumn
        [true; true] [true; true] false
      = Some (result, slices) ->
      slicesGood slices /\
      slicesBelow [true; true] slices levelColumn /\
      forall n v s, slices n = Some v -> In s v -> sliceInvariant s)) /\
  exists result slices,
    calculateNode 1000 fastPathGraph 1 0 fastPathRead
      9223372036854775807 0 0 9223372036854775808 halfColumn levelColumn
      [true; true] [true; true] false
    = Some (result, slices).
Proof.
  split.
  - apply (wordSlice_invariant 64 3 (mkWordSlice 5 2 4 3)
             (mkWordSlice 6 1 2 1) 16 (mkWordSlice 5 2 4 3) true false
             (mkWordSlice 0 0 3 3) 1000 fastPathGraph 1 0 fastPathRead
             9223372036854775807 0 0 9223372036854775808 halfColumn
             levelColumn [true; true] [true; true] false).
    + lia.
    + lia.
    + apply goodSliceb_sound. reflexivity.
    + apply goodSliceb_sound. reflexivity.
    + apply goodSliceb_sound. reflexivity.
    + intros _. split; [apply goodSliceb_sound; reflexivity|cbn; lia].
    + apply levelColumn_good.
    + apply halfColumn_good.
    + apply halfColumn_below.
  - destruct (calculateNode 1000 fastPathGraph 1 0 fastPathRead
                9223372036854775807 0 0 9223372036854775808 halfColumn
                levelColumn [true; true] [true; true] false)
      as [[result slices]|] eqn:E.
    + exists result, slices. reflexivity.
    + vm_compute in E. discriminate E.
Defined.

(** ** Lower bounds on the cells of the produced slices *)

Lemma mergeTwoSlices_cells (left right : WordSlice) (k : nat) :
  goodSlice left -> goodSlice right -> (k <= 64)%nat ->
  cellScore (mergeTwoSlices left right) k
  = Z.min (cellScore left k) (cellScore right k).
Proof.
  intros Hl Hr Hk.
  destruct (Z.le_gt_cases (scoreBeforeStart left) (scoreBeforeStart right))
    as [Hle|Hgt].
  - rewrite (mergeTwoSlices_ordered left right Hle).
    apply merged_cells; assumption.
  - rewrite mergeTwoSlices_swap by exact Hgt.
    rewrite (mergeTwoSlices_ordered right left ltac:(lia)).
    rewrite merged_cells by (try assumption; lia). apply Z.min_comm.
Qed.

Lemma mergeTwoSlices_lower (m : Z) (left right : WordSlice) :
  goodSlice left -> goodSlice right ->
  lowerBounded m left -> lowerBounded m right ->
  lowerBounded m (mergeTwoSlices left right).
Proof.
  intros Hl Hr Ll Lr k Hk. rewrite mergeTwoSlices_cells by assumption.
  specialize (Ll k Hk). specialize (Lr k Hk). lia.
Qed.

Lemma mergeInto_lower (m : Z) (found : bool) (acc competitor : WordSlice) :
  goodSlice acc -> goodSlice competitor ->
  (found = true -> lowerBounded m acc) -> lowerBounded m competitor ->
  lowerBounded m (mergeInto found acc competitor).
Proof.
  intros Ga Gc La Lc. unfold mergeInto. destruct found; [|exact Lc].
  apply mergeTwoSlices_lower; auto.
Qed.

Lemma sourceSlice_lower (m score : Z) :
  m <= score ->
  lowerBounded m (mkWordSlice AllOnes AllZeros (score + WordSize) score).
Proof.
  intros Hm k Hk. unfold cellScore. cbn [VP VN scoreBeforeStart].
  change AllZeros with 0.
  rewrite countBits_AllOnes, countBits_zero by lia. lia.
Qed.

Lemma lowerBounded_scoreEnd (m : Z) (s : WordSlice) :
  goodSlice s -> lowerBounded m s -> m <= scoreEnd s.
Proof.
  intros [_ [_ [_ [Hend _]]]] L. rewrite Hend. apply L. lia.
Qed.

Lemma lowerBounded_scoreBeforeStart (m : Z) (s : WordSlice) :
  lowerBounded m s -> m <= scoreBeforeStart s.
Proof. intros L. rewrite <- cellScore_zero. apply L. lia. Qed.

Lemma lowerBounded_weaken (m m' : Z) (s : WordSlice) :
  m' <= m -> lowerBounded m s -> lowerBounded m' s.
Proof. intros Hm L k Hk. specialize (L k Hk). lia. Qed.

Lemma clampSlice_lower (m : Z) (inPreviousBand : bool) (oldScoreEnd : Z)
  (j : nat) (s : WordSlice) :
  goodSlice s -> lowerBounded m s ->
  (inPreviousBand = true -> m <= oldScoreEnd) ->
  0 <= m -> m <= Z.of_nat j ->
  lowerBounded m (clampSlice inPreviousBand oldScoreEnd j s).
Proof.
  intros Gs Ls Hold Hm0 Hmj. unfold clampSlice.
  set (s1 := if inPreviousBand && (scoreBeforeStart s >? oldScoreEnd)
             then mergeTwoSlices (getSourceSliceFromScore oldScoreEnd) s
             else s).
  assert (H1 : goodSlice s1 /\ lowerBounded m s1).
  { unfold s1. destruct inPreviousBand; cbn [andb]; [|split; assumption].
    destruct (scoreBeforeStart s >? oldScoreEnd); [|split; assumption].
    specialize (Hold eq_refl).
    assert (Gsrc : goodSlice (getSourceSliceFromScore oldScoreEnd))
      by (apply getSourceSliceFromScore_good; lia).
    split; [apply mergeTwoSlices_good; assumption|].
    apply mergeTwoSlices_lower; try assumption.
    apply sourceSlice_lower. exact Hold. }
  destruct H1 as [G1 L1].
  destruct (scoreBeforeStart s1 >? Z.of_nat j); [|exact L1].
  apply mergeTwoSlices_lower; try assumption.
  - apply getSourceSliceWithoutBefore_good. lia.
  - apply sourceSlice_lower. exact Hmj.
Qed.

Lemma clampSlice_upper (inPreviousBand : bool) (oldScoreEnd : Z) (j : nat)
  (s : WordSlice) :
  scoreBeforeStart (clampSlice inPreviousBand oldScoreEnd j s)
  <= Z.of_nat j.
Proof.
  unfold clampSlice.
  set (s1 := if inPreviousBand && (scoreBeforeStart s >? oldScoreEnd)
             then mergeTwoSlices (getSourceSliceFromScore oldScoreEnd) s
             else s).
  rewrite Z.gtb_ltb.
  destruct (Z.ltb_spec (Z.of_nat j) (scoreBeforeStart s1)) as [Hlt|Hge];
    [|exact Hge].
  rewrite mergeTwoSlices_scoreBeforeStart.
  cbn [getSourceSliceWithoutBefore scoreBeforeStart]. lia.
Qed.

Lemma clampSlice_scoreEnd (inPreviousBand : bool) (oldScoreEnd : Z) (j : nat)
  (s : WordSlice) :
  scoreEnd (clampSlice inPreviousBand oldScoreEnd j s) <= scoreEnd s.
Proof.
  unfold clampSlice.
  set (s1 := if inPreviousBand && (scoreBeforeStart s >? oldScoreEnd)
             then mergeTwoSlices (getSourceSliceFromScore oldScoreEnd) s
             else s).
  assert (H1 : scoreEnd s1 <= scoreEnd s).
  { unfold s1.
    destruct (inPreviousBand && (scoreBeforeStart s >? oldScoreEnd));
      [rewrite mergeTwoSlices_scoreEnd|]; lia. }
  destruct (scoreBeforeStart s1 >? Z.of_nat j);
    [rewrite mergeTwoSlices_scoreEnd|]; lia.
Qed.

(** ** [calculateNode] keeps the column above the previous minimum *)

Lemma nth_error_setNth_other {A : Type} (l : list A) (w k : nat) (v : A) :
  k <> w -> nth_error (setNth l w v) k = nth_error l k.
Proof.
  revert w k. induction l as [|y l IH]; intros w k Hne; [reflexivity|].
  destruct w as [|w]; cbn [setNth].
  - destruct k as [|k]; [congruence|reflexivity].
  - destruct k as [|k]; [reflexivity|]. cbn [nth_error]. apply IH. congruence.
Qed.

Lemma nth_error_setNth_same {A : Type} (l : list A) (w : nat) (v x : A) :
  nth_error (setNth l w v) w = Some x -> x = v.
Proof.
  intros H. destruct (nth_error_setNth _ _ _ _ _ H) as [[_ Hx]|Hold];
    [exact Hx|].
  revert w H Hold. induction l as [|y l IH]; intros w H Hold.
  - destruct w; discriminate Hold.
  - destruct w as [|w]; cbn [setNth nth_error] in *; [congruence|].
    apply (IH w H Hold).
Qed.

Section NodeBounds.

Variable graph : AlignmentGraph.
Variables i j : nat.
Variable sequence : list ascii.
Variables BA BT BC BG : Z.
Variable previousSlice : NodeSlice.
Variables currentBand previousBand : Band.
Variable m : Z.

Hypothesis Hprevious : slicesGood previousSlice.
Hypothesis Hlower : previousLower m previousSlice.
Hypothesis Hhorizontal : previousHorizontal graph sequence j previousSlice i.
Hypothesis Hm0 : 0 <= m.
Hypothesis Hmj : m <= Z.of_nat j.

Lemma calculateCell_bounds (slice : list WordSlice) (w pos : nat)
  (left c : WordSlice) :
  vectorInvariant previousSlice previousBand i slice ->
  nth_error (nodeStart graph) i = Some pos ->
  nth_error slice w = Some left -> lowerBounded m left ->
  calculateCell graph i j sequence BA BT BC BG previousSlice currentBand
    previousBand slice (S w) = Some c ->
  lowerBounded m c /\ scoreBeforeStart c <= Z.of_nat j /\
  forall Eq, getEq graph BA BT BC BG (pos + S w) = Some Eq ->
    scoreEnd c <= cellScore left 63 + (if Z.testbit Eq 63 then 0 else 1).
Proof.
  intros [Hgood Hbelow] Hpos Hleft Lleft H.
  unfold calculateCell in H. cbv zeta in H.
  rewrite Hpos in H. cbn [bindOpt] in H.
  replace (S w - 1)%nat with w in H by lia. rewrite Hleft in H.
  bind_step H. cbn [bindOpt] in H. bind_step H. bind_step H. bind_step H.
  unfold oldSliceOf in E1.
  assert (Gleft : goodSlice left).
  { rewrite Forall_forall in Hgood. apply Hgood.
    apply (nth_error_In _ _ Hleft). }
  destruct (inBand previousBand i) eqn:Bp.
  - bind_step H. injection H as <-.
    pose proof (stored_nth_good _ _ _ _ _ Hprevious E1 E2) as GoldLeft.
    pose proof (stored_nth_good _ _ _ _ _ Hprevious E1 E3) as Gold.
    destruct (Hbelow eq_refl l E1) as [_ Hb].
    pose proof (Hb _ _ _ Hleft E2) as Hle.
    assert (Hpre : true = true ->
                   goodSlice w0 /\ scoreBeforeStart left <= scoreEnd w0)
      by (intros _; split; assumption).
    pose proof (Hlower i l w1 E1 (nth_error_In _ _ E3)) as Hold.
    pose proof (Hhorizontal l pos w w0 w1 b E1 Hpos E2 E3 E0) as Hdiag.
    pose proof (getNextSlice_good z left true b w0 Gleft Hpre) as Gnext.
    assert (Lnext : lowerBounded m (getNextSlice z left true b w0)).
    { apply getNextSlice_lower; try assumption.
      rewrite nextScoreBeforeStart_diagonal by exact GoldLeft.
      pose proof (lowerBounded_scoreBeforeStart m left Lleft). lia. }
    split; [apply clampSlice_lower; try assumption; intros _; exact Hold|].
    split; [apply clampSlice_upper|].
    intros Eq HEq. injection HEq as <-.
    pose proof (clampSlice_scoreEnd true (scoreEnd w1) j
                  (getNextSlice z left true b w0)).
    pose proof (getNextSlice_diagonal z left true b w0 Gleft Hpre). lia.
  - cbn [bindOpt] in H. injection H as <-.
    assert (Hpre : false = true ->
                   goodSlice w0 /\ scoreBeforeStart left <= scoreEnd w0)
      by discriminate.
    pose proof (getNextSlice_good z left false b w0 Gleft Hpre) as Gnext.
    assert (Lnext : lowerBounded m (getNextSlice z left false b w0)).
    { apply getNextSlice_lower; try assumption.
      rewrite nextScoreBeforeStart_outside.
      pose proof (lowerBounded_scoreBeforeStart m left Lleft). lia. }
    split; [apply clampSlice_lower; try assumption; discriminate|].
    split; [apply clampSlice_upper|].
    intros Eq HEq. injection HEq as <-.
    pose proof (clampSlice_scoreEnd false 0 j
                  (getNextSlice z left false b w0)).
    pose proof (getNextSlice_diagonal z left false b w0 Gleft Hpre). lia.
Qed.

Let eqAt (pos w : nat) : option Z := getEq graph BA BT BC BG (pos + w).

Lemma calculateCells_bounds (pos count : nat) :
  forall w slice result acc',
    nth_error (nodeStart graph) i = Some pos ->
    vectorInvariant previousSlice previousBand i slice ->
    prefixValid m j (eqAt pos) (S w) slice ->
    minimumTracked m pos (S w) slice result ->
    calculateCells graph count i j sequence BA BT BC BG previousSlice
      currentBand previousBand (S w) (slice, result) = Some acc' ->
    prefixValid m j (eqAt pos) (S w + count) (fst acc') /\
    minimumTracked m pos (S w + count) (fst acc') (snd acc').
Proof.
  induction count as [|count IH];
    intros w slice result acc' Hpos Hinv Hvalid Hmin H;
    cbn [calculateCells] in H.
  - injection H as <-. rewrite Nat.add_0_r. split; assumption.
  - rewrite Hpos in H. cbn [bindOpt] in H. bind_step H.
    assert (Hleft : exists left, nth_error slice w = Some left).
    { unfold calculateCell in E. cbv zeta in E.
      rewrite Hpos in E. cbn [bindOpt] in E. bind_step E.
      replace (S w - 1)%nat with w in E by lia.
      destruct (nth_error slice w) as [left|]; [eauto|discriminate E]. }
    destruct Hleft as [left Hleft].
    destruct Hvalid as [Hcells Hpairs].
    destruct (Hcells w left ltac:(lia) Hleft) as [Lleft _].
    destruct (calculateCell_bounds slice w pos left w0 Hinv Hpos Hleft
                Lleft E) as [Lc [Uc Dc]].
    destruct (calculateCell_good graph i j sequence BA BT BC BG
                previousSlice currentBand previousBand Hprevious slice
                (S w) w0 Hinv E) as [Gc Bc].
    replace (S w + S count)%nat with (S (S w) + count)%nat by lia.
    refine (IH (S w) _ _ acc' Hpos _ _ _ H).
    + destruct Hinv as [Hgood Hbelow]. split.
      * apply Forall_setNth; assumption.
      * intros Hin vp Hvp. apply vectorBelow_setNth.
        -- apply Hbelow; assumption.
        -- intros p Hp. apply (Bc Hin vp p Hvp Hp).
    + split.
      * intros k s Hk Hs. destruct (Nat.eq_dec k (S w)) as [->|Hne].
        -- apply nth_error_setNth_same in Hs. subst s. split; assumption.
        -- rewrite nth_error_setNth_other in Hs by exact Hne.
           apply (Hcells k s ltac:(lia) Hs).
      * intros k a b Eq Hk Ha Hb HEq.
        destruct (Nat.eq_dec k w) as [->|Hne].
        -- apply nth_error_setNth_same in Hb. subst b.
           rewrite nth_error_setNth_other in Ha by lia.
           rewrite Hleft in Ha. injection Ha as <-.
           apply Dc. exact HEq.
        -- rewrite nth_error_setNth_other in Ha by lia.
           rewrite nth_error_setNth_other in Hb by lia.
           apply (Hpairs k a b Eq ltac:(lia) Ha Hb HEq).
    + destruct Hmin as [Hall [Hm Hidx]].
      assert (Gend : m <= scoreEnd w0)
        by (apply lowerBounded_scoreEnd; assumption).
      destruct (Z.leb_spec (scoreEnd w0) (minScore result)) as [Hle|Hgt];
        unfold minimumTracked; cbn [minScore minScoreIndex].
      * split; [|split; [exact Gend|]].
        -- intros k s Hk Hs. destruct (Nat.eq_dec k (S w)) as [->|Hne].
           ++ apply nth_error_setNth_same in Hs. subst s. lia.
           ++ rewrite nth_error_setNth_other in Hs by exact Hne.
              specialize (Hall k s ltac:(lia) Hs). lia.
        -- intros s Hs _. replace (S (S w) - 1)%nat with (S w) by lia.
           reflexivity.
      * split; [|split; [exact Hm|]].
        -- intros k s Hk Hs. destruct (Nat.eq_dec k (S w)) as [->|Hne].
           ++ apply nth_error_setNth_same in Hs. subst s. lia.
           ++ rewrite nth_error_setNth_other in Hs by exact Hne.
              apply (Hall k s ltac:(lia) Hs).
        -- intros s Hs Heq. replace (S (S w) - 1)%nat with (S w) in Hs by lia.
           apply nth_error_setNth_same in Hs. subst s. lia.
Qed.

Variable currentSlice : NodeSlice.
Variable previousEq : bool.
Variable neighbors : list nat.
Variable pos : nat.

Hypothesis Hcurrent : slicesGood currentSlice.
Hypothesis Hneighbors : nth_error (inNeighbors graph) i = Some neighbors.
Hypothesis Hpos : nth_error (nodeStart graph) i = Some pos.
Hypothesis HpreviousEq :
  previousRowMatches graph sequence j pos = Some previousEq.
Hypothesis Hboundary : previousBoundary graph sequence j m previousSlice i.
Hypothesis Hready : neighboursReady graph m currentBand currentSlice i.

Lemma mergeInto_cells (found : bool) (acc competitor : WordSlice)
  (k : nat) :
  goodSlice acc -> goodSlice competitor -> (k <= 64)%nat ->
  cellScore (mergeInto found acc competitor) k
  = if found then Z.min (cellScore acc k) (cellScore competitor k)
    else cellScore competitor k.
Proof.
  intros Ga Gc Hk. unfold mergeInto.
  destruct found; [apply mergeTwoSlices_cells; assumption|reflexivity].
Qed.

Lemma nodeStartNeighbor_lower (neighbor : nat) (s s' : StartSliceState) :
  In neighbor neighbors ->
  startSliceInvariant s ->
  (ss_foundOne s = true -> lowerBounded m (ss_previous s)) ->
  (ss_foundOneUp s = true ->
   m <= cellScore (ss_previousUp s) 63 + mismatchCost previousEq) ->
  nodeStartNeighbor previousSlice currentSlice currentBand previousBand
    neighbor s = Some s' ->
  (ss_foundOne s' = true -> lowerBounded m (ss_previous s')) /\
  (ss_foundOneUp s' = true ->
   m <= cellScore (ss_previousUp s') 63 + mismatchCost previousEq) /\
  (inBand currentBand neighbor || inBand previousBand neighbor = true ->
   ss_foundOne s' = true) /\
  (ss_foundOne s = true -> ss_foundOne s' = true).
Proof.
  intros Hin [Gp [Gu Hf]] Lp Lu H. unfold nodeStartNeighbor in H.
  destruct (inBand previousBand neighbor) eqn:Bp;
    destruct (inBand currentBand neighbor) eqn:Bc;
    cbn [andb negb bindOpt orb] in H |- *.
  - bind_step H. bind_step H. bind_step H. bind_step H.
    injection H as <-.
    cbn [ss_previous ss_previousUp ss_foundOne ss_foundOneUp].
    pose proof (stored_back_good _ _ _ _ Hprevious E E0) as Gb.
    pose proof (stored_back_good _ _ _ _ Hcurrent E1 E2) as Gc.
    pose proof (Hready neighbors neighbor l0 w0 Hneighbors Hin Bc E1 E2)
      as Lc.
    pose proof (Hboundary neighbors neighbor l w pos previousEq Hneighbors
                  Hin E E0 Hpos HpreviousEq) as Lb.
    split; [intros _; apply mergeInto_lower; assumption|].
    split; [|auto].
    intros _. rewrite mergeInto_cells by (try assumption; lia).
    destruct (ss_foundOneUp s); [specialize (Lu eq_refl)|]; lia.
  - bind_step H. bind_step H. injection H as <-.
    cbn [ss_previous ss_previousUp ss_foundOne ss_foundOneUp].
    pose proof (stored_back_good _ _ _ _ Hprevious E E0) as Gb.
    pose proof (Hlower neighbor l w E (back_In _ _ E0)) as Lend.
    pose proof (Hboundary neighbors neighbor l w pos previousEq Hneighbors
                  Hin E E0 Hpos HpreviousEq) as Lb.
    split.
    + intros _. apply mergeInto_lower; try assumption.
      * apply getSourceSliceFromScore_good. lia.
      * apply sourceSlice_lower. exact Lend.
    + split; [|auto].
      intros _. rewrite mergeInto_cells by (try assumption; lia).
      destruct (ss_foundOneUp s); [specialize (Lu eq_refl)|]; lia.
  - bind_step H. bind_step H. injection H as <-.
    cbn [ss_previous ss_previousUp ss_foundOne ss_foundOneUp].
    pose proof (stored_back_good _ _ _ _ Hcurrent E E0) as Gc.
    pose proof (Hready neighbors neighbor l w Hneighbors Hin Bc E E0) as Lc.
    split; [intros _; apply mergeInto_lower; assumption|].
    split; [exact Lu|auto].
  - injection H as <-. split; [exact Lp|]. split; [exact Lu|].
    split; [discriminate|auto].
Qed.

Hypothesis Hbelow : slicesBelow previousBand currentSlice previousSlice.

Lemma nodeStartLoop_lower (rest : list nat) :
  forall s s',
    incl rest neighbors ->
    startSliceInvariant s ->
    (ss_foundOne s = true -> lowerBounded m (ss_previous s)) ->
    (ss_foundOneUp s = true ->
     m <= cellScore (ss_previousUp s) 63 + mismatchCost previousEq) ->
    nodeStartLoop previousSlice currentSlice currentBand previousBand
      rest s = Some s' ->
    (ss_foundOne s' = true -> lowerBounded m (ss_previous s')) /\
    (ss_foundOneUp s' = true ->
     m <= cellScore (ss_previousUp s') 63 + mismatchCost previousEq) /\
    (ss_foundOne s = true
     \/ isSourceLoop rest currentBand previousBand = false ->
     ss_foundOne s' = true).
Proof.
  induction rest as [|neighbor rest IH]; intros s s' Hincl Hs Lp Lu H;
    cbn [nodeStartLoop] in H.
  - injection H as <-. split; [exact Lp|]. split; [exact Lu|].
    intros [Hone|Hsrc]; [exact Hone|discriminate Hsrc].
  - bind_step H.
    assert (Hin : In neighbor neighbors) by (apply Hincl; left; reflexivity).
    destruct (nodeStartNeighbor_lower neighbor s s0 Hin Hs Lp Lu E)
      as [Lp0 [Lu0 [Hfound Hkeep]]].
    pose proof (nodeStartNeighbor_invariant previousSlice currentSlice
                  currentBand previousBand Hprevious Hcurrent Hbelow
                  neighbor s s0 Hs E) as Hs0.
    destruct (IH s0 s' ltac:(intros x Hx; apply Hincl; right; exact Hx)
                Hs0 Lp0 Lu0 H) as [Lp' [Lu' Hfinal]].
    split; [exact Lp'|]. split; [exact Lu'|].
    intros [Hone|Hsrc]; apply Hfinal.
    + left. apply Hkeep, Hone.
    + cbn [isSourceLoop] in Hsrc.
      destruct (inBand currentBand neighbor) eqn:Bc;
        [left; apply Hfound; reflexivity|].
      destruct (inBand previousBand neighbor) eqn:Bp;
        [left; apply Hfound; reflexivity|].
      right. exact Hsrc.
Qed.

Lemma getNodeStartSlice_lower (Eq : Z) (s : WordSlice) :
  isSourceLoop neighbors currentBand previousBand = false ->
  getNodeStartSlice graph Eq i previousSlice currentSlice currentBand
    previousBand previousEq = Some s ->
  lowerBounded m s.
Proof.
  intros Hsrc H. unfold getNodeStartSlice in H.
  rewrite Hneighbors in H. cbn [bindOpt] in H. bind_step H.
  injection H as <-.
  pose proof (nodeStartLoop_invariant previousSlice currentSlice currentBand
                previousBand Hprevious Hcurrent Hbelow neighbors _ s0
                initial_startSliceInvariant E) as [Gp [Gu Hf]].
  destruct (nodeStartLoop_lower neighbors _ s0 (incl_refl _)
              initial_startSliceInvariant
              ltac:(cbn; discriminate) ltac:(cbn; discriminate) E)
    as [Lp [Lu Hfound]].
  specialize (Hfound (or_intror Hsrc)). specialize (Lp Hfound).
  apply getNextSlice_lower; try assumption.
  - intros Hup. split; [exact Gu|apply (Hf Hup)].
  - pose proof (lowerBounded_scoreBeforeStart m _ Lp) as Hb.
    destruct (ss_foundOneUp s0) eqn:Hup.
    + rewrite nextScoreBeforeStart_diagonal by exact Gu.
      specialize (Lu eq_refl). lia.
    + rewrite nextScoreBeforeStart_outside. lia.
Qed.

End NodeBounds.

Section NodeColumn.

Variable ScoreMax : Z.
Variable graph : AlignmentGraph.
Variables i j : nat.
Variable sequence : list ascii.
Variables BA BT BC BG : Z.
Variables currentSlice previousSlice : NodeSlice.
Variables currentBand previousBand : Band.
Variable m : Z.

Hypothesis Hprevious : slicesGood previousSlice.
Hypothesis Hlower : previousLower m previousSlice.
Hypothesis Hupper : previousUpper j previousSlice.
Hypothesis Hhorizontal : previousHorizontal graph sequence j previousSlice i.
Hypothesis Hboundary : previousBoundary graph sequence j m previousSlice i.
Hypothesis Hcurrent : slicesGood currentSlice.
Hypothesis Hbelow : slicesBelow previousBand currentSlice previousSlice.
Hypothesis Hready : neighboursReady graph m currentBand currentSlice i.
Hypothesis Hm0 : 0 <= m.
Hypothesis Hmj : m <= Z.of_nat j.

Lemma firstSlice_bounds (slice : list WordSlice) (source : bool)
  (pos : nat) (first : WordSlice) :
  nth_error (nodeStart graph) i = Some pos ->
  (source = false ->
   exists neighbors,
     nth_error (inNeighbors graph) i = Some neighbors /\
     isSourceLoop neighbors currentBand previousBand = false) ->
  (if source
   then
     if inBand previousBand i then getSourceSlice i previousSlice
     else Some (getSourceSliceWithoutBefore (Z.of_nat j))
   else
     Eq <- getEq graph BA BT BC BG pos ;;
     previousEq <- previousRowMatches graph sequence j pos ;;
     s <- getNodeStartSlice graph Eq i previousSlice currentSlice
            currentBand previousBand previousEq ;;
     oldSlice <- oldSliceOf previousSlice previousBand i
                   (setNth slice 0 s) ;;
     oldScoreEnd <- (if inBand previousBand i
                     then o <- nth_error oldSlice 0 ;; Some (scoreEnd o)
                     else Some 0) ;;
     Some (clampSlice (inBand previousBand i) oldScoreEnd j s))
  = Some first ->
  lowerBounded m first /\ scoreBeforeStart first <= Z.of_nat j.
Proof.
  intros Hpos Hsrc H. destruct source.
  - destruct (inBand previousBand i) eqn:Bp.
    + unfold getSourceSlice in H. bind_step H. bind_step H.
      injection H as <-.
      pose proof (Hlower i l w E (nth_error_In _ _ E0)).
      pose proof (Hupper i l w E (nth_error_In _ _ E0)).
      split; [apply sourceSlice_lower; assumption|].
      cbn [getSourceSliceFromScore scoreBeforeStart]. assumption.
    + injection H as <-. split; [apply sourceSlice_lower; exact Hmj|].
      cbn [getSourceSliceWithoutBefore scoreBeforeStart]. lia.
  - destruct (Hsrc eq_refl) as [neighbors [Hn Hloop]].
    bind_step H. bind_step H. bind_step H. bind_step H.
    pose proof (getNodeStartSlice_good graph i previousSlice currentBand
                  previousBand Hprevious currentSlice Hcurrent Hbelow
                  z b w E1) as Gs.
    pose proof (getNodeStartSlice_lower graph i j sequence previousSlice
                  currentBand previousBand m Hprevious Hlower Hm0
                  currentSlice b neighbors pos Hcurrent Hn Hpos E0
                  Hboundary Hready Hbelow z w Hloop E1) as Ls.
    unfold oldSliceOf in E2.
    destruct (inBand previousBand i) eqn:Bp.
    + bind_step H. injection H as <-.
      pose proof (Hlower i l w0 E2 (nth_error_In _ _ E3)) as Hold.
      split; [|apply clampSlice_upper].
      apply clampSlice_lower; try assumption. intros _. exact Hold.
    + cbn [bindOpt] in H. injection H as <-.
      split; [|apply clampSlice_upper].
      apply clampSlice_lower; try assumption. discriminate.
Qed.

End NodeColumn.

(** ** A well-formed slice is determined by its column *)

Lemma slice_bits_of_cells (s : WordSlice) (i : nat) :
  goodSlice s -> (i < 64)%nat ->
  Z.testbit (VP s) (Z.of_nat i)
    = (cellScore s (S i) - cellScore s i =? 1) /\
  Z.testbit (VN s) (Z.of_nat i)
    = (cellScore s (S i) - cellScore s i =? -1).
Proof.
  intros Hs Hi. rewrite cellScore_succ. unfold bitAt.
  pose proof (disjoint_bits s (Z.of_nat i) Hs) as Hd.
  destruct (Z.testbit (VP s) (Z.of_nat i)),
    (Z.testbit (VN s) (Z.of_nat i)); cbn in *; try discriminate Hd;
    split; symmetry;
    first [apply Z.eqb_eq; lia | apply Z.eqb_neq; lia].
Qed.

Lemma word_bits_ext (x y : Z) :
  is_word x -> is_word y ->
  (forall i, (i < 64)%nat ->
     Z.testbit x (Z.of_nat i) = Z.testbit y (Z.of_nat i)) ->
  x = y.
Proof.
  intros Hx Hy H. apply Z.bits_inj'. intros n Hn.
  destruct (Z.ltb_spec n 64) as [Hlt|Hge].
  - rewrite <- (Z2Nat.id n Hn). apply H. lia.
  - rewrite !testbit_word_high by (try assumption; lia). reflexivity.
Qed.

Lemma goodSlice_ext (a b : WordSlice) :
  goodSlice a -> goodSlice b ->
  (forall k, (k <= 64)%nat -> cellScore a k = cellScore b k) ->
  a = b.
Proof.
  intros Ga Gb H.
  assert (HVP : VP a = VP b).
  { apply word_bits_ext; [apply Ga|apply Gb|]. intros i Hi.
    destruct (slice_bits_of_cells a i Ga Hi) as [-> _].
    destruct (slice_bits_of_cells b i Gb Hi) as [-> _].
    rewrite !H by lia. reflexivity. }
  assert (HVN : VN a = VN b).
  { apply word_bits_ext; [apply Ga|apply Gb|]. intros i Hi.
    destruct (slice_bits_of_cells a i Ga Hi) as [_ ->].
    destruct (slice_bits_of_cells b i Gb Hi) as [_ ->].
    rewrite !H by lia. reflexivity. }
  assert (Hend : scoreEnd a = scoreEnd b).
  { destruct Ga as [_ [_ [_ [-> _]]]], Gb as [_ [_ [_ [-> _]]]].
    apply H. lia. }
  assert (Hstart : scoreBeforeStart a = scoreBeforeStart b).
  { rewrite <- !cellScore_zero. apply H. lia. }
  destruct a, b. cbn in *. subst. reflexivity.
Qed.

(** ** [mergeTwoSlicesCellByCell] *)

Lemma nonzero_one_bit (x : Z) (t : nat) :
  (t < 64)%nat ->
  nonzero (Z.land x (shl 1 (Z.of_nat t))) = Z.testbit x (Z.of_nat t).
Proof.
  intros Ht.
  assert (Hs : shl 1 (Z.of_nat t) = 2 ^ Z.of_nat t).
  { unfold shl. rewrite Z.shiftl_1_l. apply wrap_small.
    unfold is_word. rewrite modulus_eq. split; [lia|].
    apply Z.pow_lt_mono_r; lia. }
  rewrite Hs. apply nonzero_land_bit. lia.
Qed.

Section MergeCellByCell.

Variables left right : WordSlice.

Hypothesis Hleft : goodSlice left.
Hypothesis Hright : goodSlice right.

Let M (k : nat) : Z := Z.min (cellScore left k) (cellScore right k).

Lemma mergeCell_step (t : nat) (s : MergeCellState) :
  (t < 64)%nat ->
  mergeCellInvariant left right t s ->
  mergeCellInvariant left right (S t)
    (mergeCellStep left right (Z.of_nat t) s).
Proof.
  intros Ht [HL [HR [HP [HVP HVN]]]].
  unfold mergeCellInvariant, mergeCellStep.
  cbn [mc_leftScore mc_rightScore mc_previousScore mc_VP mc_VN].
  rewrite !nonzero_one_bit by exact Ht.
  rewrite HL, HR, HP.
  assert (HL' : (if Z.testbit (VP left) (Z.of_nat t)
                 then cellScore left t + 1
                 else if Z.testbit (VN left) (Z.of_nat t)
                      then cellScore left t - 1 else cellScore left t)
                = cellScore left (S t)).
  { rewrite cellScore_succ. unfold bitAt.
    pose proof (disjoint_bits left (Z.of_nat t) Hleft) as Hd.
    destruct (Z.testbit (VP left) (Z.of_nat t)),
      (Z.testbit (VN left) (Z.of_nat t)); cbn in *;
      try discriminate Hd; lia. }
  assert (HR' : (if Z.testbit (VN right) (Z.of_nat t)
                 then cellScore right t - 1
                 else if Z.testbit (VP right) (Z.of_nat t)
                      then cellScore right t + 1 else cellScore right t)
                = cellScore right (S t)).
  { rewrite cellScore_succ. unfold bitAt.
    pose proof (disjoint_bits right (Z.of_nat t) Hright) as Hd.
    destruct (Z.testbit (VP right) (Z.of_nat t)),
      (Z.testbit (VN right) (Z.of_nat t)); cbn in *;
      try discriminate Hd; lia. }
  rewrite HL', HR'.
  set (a := Z.min (cellScore left (S t)) (cellScore right (S t))) in *.
  set (b := Z.min (cellScore left t) (cellScore right t)) in *.
  assert (Hsplit : forall i, 0 <= i ->
            (i <? Z.of_nat (S t)) = (i <? Z.of_nat t) || (i =? Z.of_nat t)).
  { intros i Hi. destruct (Z.ltb_spec i (Z.of_nat (S t)));
      destruct (Z.ltb_spec i (Z.of_nat t));
      destruct (Z.eqb_spec i (Z.of_nat t)); cbn [orb]; lia. }
  split; [reflexivity|]. split; [reflexivity|]. split; [reflexivity|].
  split; intros i Hi; rewrite Hsplit by exact Hi.
  - destruct (Z.eqb_spec a (b + 1)) as [He|Hne].
    + rewrite Z.lor_spec, HVP, testbit_one_bit by lia.
      destruct (Z.eqb_spec i (Z.of_nat t)) as [->|Hn].
      * rewrite Nat2Z.id. fold a b.
        replace (a - b =? 1) with true by (symmetry; apply Z.eqb_eq; lia).
        rewrite !andb_true_r, orb_true_r. reflexivity.
      * rewrite !orb_false_r. reflexivity.
    + rewrite HVP by exact Hi.
      destruct (Z.eqb_spec i (Z.of_nat t)) as [->|Hn].
      * rewrite Nat2Z.id. fold a b.
        replace (a - b =? 1) with false by (symmetry; apply Z.eqb_neq; lia).
        rewrite !andb_false_r. reflexivity.
      * rewrite !orb_false_r. reflexivity.
  - destruct (Z.eqb_spec a (b + 1)) as [He|Hne].
    + rewrite HVN by exact Hi.
      destruct (Z.eqb_spec i (Z.of_nat t)) as [->|Hn].
      * rewrite Nat2Z.id. fold a b.
        replace (a - b =? -1) with false
          by (symmetry; apply Z.eqb_neq; lia).
        rewrite !andb_false_r. reflexivity.
      * rewrite !orb_false_r. reflexivity.
    + destruct (Z.eqb_spec a (b - 1)) as [He'|Hne'].
      * rewrite Z.lor_spec, HVN, testbit_one_bit by lia.
        destruct (Z.eqb_spec i (Z.of_nat t)) as [->|Hn].
        -- rewrite Nat2Z.id. fold a b.
           replace (a - b =? -1) with true
             by (symmetry; apply Z.eqb_eq; lia).
           rewrite !andb_true_r, orb_true_r. reflexivity.
        -- rewrite !orb_false_r. reflexivity.
      * rewrite HVN by exact Hi.
        destruct (Z.eqb_spec i (Z.of_nat t)) as [->|Hn].
        -- rewrite Nat2Z.id. fold a b.
           replace (a - b =? -1) with false
             by (symmetry; apply Z.eqb_neq; lia).
           rewrite !andb_false_r. reflexivity.
        -- rewrite !orb_false_r. reflexivity.
Qed.

Lemma mergeCell_loop (n : nat) :
  forall t s,
    (t + n <= 64)%nat ->
    mergeCellInvariant left right t s ->
    mergeCellInvariant left right (t + n)
      (forLoop n (Z.of_nat t) (mergeCellStep left right) s).
Proof.
  induction n as [|n IH]; intros t s Ht Hinv.
  - rewrite Nat.add_0_r. exact Hinv.
  - cbn [forLoop]. replace (t + S n)%nat with (S t + n)%nat by lia.
    replace (Z.of_nat t + 1) with (Z.of_nat (S t)) by lia.
    apply IH; [lia|]. apply mergeCell_step; [lia|exact Hinv].
Qed.

Lemma mergeTwoSlices_is_cellByCell :
  mergeTwoSlices left right = mergeTwoSlicesCellByCell left right.
Proof.
  pose proof (mergeTwoSlices_good left right Hleft Hright) as Gm.
  assert (Hinit : mergeCellInvariant left right 0
                    (mkMergeCell (scoreBeforeStart left)
                       (scoreBeforeStart right)
                       (Z.min (scoreBeforeStart left)
                          (scoreBeforeStart right)) AllZeros AllZeros)).
  { unfold mergeCellInvariant.
    cbn [mc_leftScore mc_rightScore mc_previousScore mc_VP mc_VN].
    rewrite !cellScore_zero. repeat (split; [reflexivity|]).
    change AllZeros with 0.
    split; intros i Hi; rewrite Z.bits_0;
      replace (i <? Z.of_nat 0) with false
        by (symmetry; apply Z.ltb_ge; lia); reflexivity. }
  pose proof (mergeCell_loop 64 0 _ (le_n 64) Hinit) as Hfin.
  change (Z.of_nat 0) with 0 in Hfin.
  change (0 + 64)%nat with 64%nat in Hfin.
  destruct Hfin as [_ [_ [HP [HVP HVN]]]].
  unfold mergeTwoSlicesCellByCell. change (Z.to_nat WordSize) with 64%nat.
  set (s := forLoop 64 0 (mergeCellStep left right) _) in *.
  assert (Hcells : forall k, (k <= 64)%nat ->
            cellScore (mergeTwoSlices left right) k = M k).
  { intros k Hk. apply mergeTwoSlices_cells; assumption. }
  assert (EVP : VP (mergeTwoSlices left right) = mc_VP s).
  { apply word_bits_ext; [apply Gm| |].
    - apply word_of_bits. intros i Hi. rewrite HVP by lia.
      replace (i <? Z.of_nat 64) with false
        by (symmetry; apply Z.ltb_ge; lia). reflexivity.
    - intros i Hi.
      destruct (slice_bits_of_cells _ i Gm Hi) as [-> _].
      rewrite HVP, Nat2Z.id, !Hcells by lia.
      replace (Z.of_nat i <? Z.of_nat 64) with true
        by (symmetry; apply Z.ltb_lt; lia). reflexivity. }
  assert (EVN : VN (mergeTwoSlices left right) = mc_VN s).
  { apply word_bits_ext; [apply Gm| |].
    - apply word_of_bits. intros i Hi. rewrite HVN by lia.
      replace (i <? Z.of_nat 64) with false
        by (symmetry; apply Z.ltb_ge; lia). reflexivity.
    - intros i Hi.
      destruct (slice_bits_of_cells _ i Gm Hi) as [_ ->].
      rewrite HVN, Nat2Z.id, !Hcells by lia.
      replace (Z.of_nat i <? Z.of_nat 64) with true
        by (symmetry; apply Z.ltb_lt; lia). reflexivity. }
  assert (Eend : scoreEnd (mergeTwoSlices left right) = mc_previousScore s).
  { rewrite HP. destruct Gm as [_ [_ [_ [-> _]]]]. apply Hcells. lia. }
  assert (Estart : scoreBeforeStart (mergeTwoSlices left right)
                   = Z.min (scoreBeforeStart left)
                       (scoreBeforeStart right))
    by apply mergeTwoSlices_scoreBeforeStart.
  rewrite <- EVP, <- EVN, <- Eend, <- Estart.
  destruct (mergeTwoSlices left right). reflexivity.
Qed.

End MergeCellByCell.

(** * Further properties of the code *)

(** ** Word helpers *)

(** X1.  [popcount] returns the number of set bits among the 64 bits of its
    argument, and [ChunkPopcounts] the number of set bits of each byte in
    that byte. *)
Theorem popcount_counts_set_bits (x : Z) :
  is_word x ->
  popcount x = countBits 64 x /\
  0 <= popcount x <= 64 /\
  forall b, 0 <= b < 8 -> lane (ChunkPopcounts x) b = countBits 8 (lane x b).
Proof.
  intros Hx. rewrite popcount_countBits by exact Hx.
  split; [reflexivity|]. split.
  - pose proof (countBits_range 64 x). lia.
  - intros b Hb. apply ChunkPopcounts_lane; assumption.
Qed.

Lemma popcount_counts_set_bits_witness :
  popcount 0xF00F00000000A001 = countBits 64 0xF00F00000000A001 /\
  0 <= popcount 0xF00F00000000A001 <= 64 /\
  forall b, 0 <= b < 8 ->
    lane (ChunkPopcounts 0xF00F00000000A001) b
    = countBits 8 (lane 0xF00F00000000A001 b).
Proof.
  apply (popcount_counts_set_bits 0xF00F00000000A001).
  unfold is_word, modulus. lia.
Defined.

(** X2.  [bytePrefixSums] applied to the byte popcounts of [v]: byte [b] of
    the result is [addition] plus the number of set bits of [v] below bit
    [8 * b], as long as the last byte does not overflow. *)
Theorem bytePrefixSums_counts_below (v addition : Z) :
  is_word v -> 0 <= addition -> addition + countBits 56 v < 256 ->
  is_word (bytePrefixSums (ChunkPopcounts v) addition) /\
  forall b, 0 <= b < 8 ->
    lane (bytePrefixSums (ChunkPopcounts v) addition) b
    = addition + countBits (8 * Z.to_nat b) v.
Proof.
  intros Hv Ha Hs. apply bytePrefixSums_lanewise; assumption.
Qed.

Lemma bytePrefixSums_counts_below_witness :
  is_word (bytePrefixSums (ChunkPopcounts 0xFF00000000000301) 5) /\
  forall b, 0 <= b < 8 ->
    lane (bytePrefixSums (ChunkPopcounts 0xFF00000000000301) 5) b
    = 5 + countBits (8 * Z.to_nat b) 0xFF00000000000301.
Proof.
  apply (bytePrefixSums_counts_below 0xFF00000000000301 5).
  - unfold is_word, modulus. lia.
  - lia.
  - vm_compute. reflexivity.
Defined.

(** X3.  [byteVPVNSum] subtracts byte by byte: with every byte of both
    arguments at most 127, byte [b] of the result is the two's-complement
    byte of [lane prefixSumVP b - lane prefixSumVN b], and no borrow crosses
    a byte boundary. *)
Theorem byteVPVNSum_bytewise (prefixSumVP prefixSumVN : Z) :
  is_word prefixSumVP -> is_word prefixSumVN ->
  (forall b, 0 <= b < 8 -> lane prefixSumVP b <= 127) ->
  (forall b, 0 <= b < 8 -> lane prefixSumVN b <= 127) ->
  is_word (byteVPVNSum prefixSumVP prefixSumVN) /\
  forall b, 0 <= b < 8 ->
    lane (byteVPVNSum prefixSumVP prefixSumVN) b
    = (lane prefixSumVP b - lane prefixSumVN b) mod 256.
Proof.
  intros HP HN Hp Hn. split; [apply byteVPVNSum_is_word|].
  intros b Hb. rewrite byteVPVNSum_lane by assumption. reflexivity.
Qed.

Ltac each_lane b Hb :=
  assert (b = 0 \/ b = 1 \/ b = 2 \/ b = 3 \/ b = 4 \/ b = 5 \/ b = 6
          \/ b = 7) as Hcases by lia;
  clear Hb;
  repeat (destruct Hcases as [Hcases|Hcases]; [subst b|]); [..|subst b].

Lemma byteVPVNSum_bytewise_witness :
  is_word (byteVPVNSum 0x0102030405060708 0x0807060504030201) /\
  forall b, 0 <= b < 8 ->
    lane (byteVPVNSum 0x0102030405060708 0x0807060504030201) b
    = (lane 0x0102030405060708 b - lane 0x0807060504030201 b) mod 256.
Proof.
  apply (byteVPVNSum_bytewise 0x0102030405060708 0x0807060504030201).
  - unfold is_word, modulus. lia.
  - unfold is_word, modulus. lia.
  - intros b Hb. each_lane b Hb; vm_compute; discriminate.
  - intros b Hb. each_lane b Hb; vm_compute; discriminate.
Defined.

(** ** The masks of [differenceMasks] *)

(** X4.  The two masks of [differenceMasks] are 64-bit words and never share
    a bit: what [mergeTwoSlices] asserts of them before it builds its
    selection mask. *)
Theorem differenceMasks_disjoint
  (leftVP leftVN rightVP rightVN scoreDifference : Z) :
  is_word leftVP -> is_word leftVN -> is_word rightVP -> is_word rightVN ->
  Z.land leftVP leftVN = 0 -> Z.land rightVP rightVN = 0 ->
  0 <= scoreDifference ->
  let masks :=
    differenceMasks leftVP leftVN rightVP rightVN scoreDifference in
  is_word (fst masks) /\ is_word (snd masks) /\
  Z.land (fst masks) (snd masks) = 0.
Proof.
  intros HlVP HlVN HrVP HrVN Hleft Hright Hdiff masks.
  assert (Hbits : forall i, 0 <= i ->
            Z.testbit (fst masks) i
            = (i <? 64)
              && (diffBelow leftVP leftVN rightVP rightVN scoreDifference
                    (S (Z.to_nat i)) <? 0) /\
            Z.testbit (snd masks) i
            = (i <? 64)
              && (0 <? diffBelow leftVP leftVN rightVP rightVN
                         scoreDifference (S (Z.to_nat i)))).
  { intros i Hi. apply differenceMasks_bits; assumption. }
  split; [|split].
  - apply word_of_bits. intros i Hi.
    destruct (Hbits i ltac:(lia)) as [-> _].
    replace (i <? 64) with false by (symmetry; apply Z.ltb_ge; lia).
    reflexivity.
  - apply word_of_bits. intros i Hi.
    destruct (Hbits i ltac:(lia)) as [_ ->].
    replace (i <? 64) with false by (symmetry; apply Z.ltb_ge; lia).
    reflexivity.
  - apply Z.bits_inj'. intros i Hi. rewrite Z.land_spec, Z.bits_0.
    destruct (Hbits i Hi) as [-> ->].
    destruct (i <? 64); [cbn [andb]|reflexivity].
    destruct (Z.ltb_spec
                (diffBelow leftVP leftVN rightVP rightVN scoreDifference
                   (S (Z.to_nat i))) 0);
      destruct (Z.ltb_spec 0
                  (diffBelow leftVP leftVN rightVP rightVN scoreDifference
                     (S (Z.to_nat i)))); try reflexivity; lia.
Qed.

Lemma differenceMasks_disjoint_witness :
  let masks := differenceMasks 0x0F05 0x00F2 0x1108 0x2201 3 in
  is_word (fst masks) /\ is_word (snd masks) /\
  Z.land (fst masks) (snd masks) = 0.
Proof.
  apply (differenceMasks_disjoint 0x0F05 0x00F2 0x1108 0x2201 3).
  - unfold is_word, modulus. lia.
  - unfold is_word, modulus. lia.
  - unfold is_word, modulus. lia.
  - unfold is_word, modulus. lia.
  - reflexivity.
  - reflexivity.
  - lia.
Defined.

(** ** Columns computed by [getNextSlice] and [mergeTwoSlices] *)

(** X5.  [getNextSlice] computes the edit-distance recurrence in every row:
    a cell of the new column is the least of the cell to its left plus one,
    the cell diagonally above it plus the mismatch cost that bit [k] of [Eq]
    gives, and the cell above it plus one.  The old column is a well-formed
    one, and the call respects the assertion of the source on the slice
    above. *)
Theorem getNextSlice_recurrence (Eq : Z) (slice : WordSlice)
  (previousInsideBand previousEq : bool) (previous : WordSlice) (k : nat) :
  goodSlice slice ->
  (previousInsideBand = true ->
   goodSlice previous /\ scoreBeforeStart slice <= scoreEnd previous) ->
  (k < 64)%nat ->
  let next :=
    getNextSlice Eq slice previousInsideBand previousEq previous in
  cellScore next (S k)
  = Z.min (Z.min (cellScore slice (S k) + 1)
                 (cellScore slice k
                  + (if Z.testbit Eq (Z.of_nat k) then 0 else 1)))
          (cellScore next k + 1).
Proof.
  intros Hs Hp Hk next. apply getNextSlice_cells_recurrence; assumption.
Qed.

Lemma getNextSlice_recurrence_witness :
  let next :=
    getNextSlice 20 (mkWordSlice 5 2 4 3) true false (mkWordSlice 0 0 3 3) in
  cellScore next 3
  = Z.min (Z.min (cellScore (mkWordSlice 5 2 4 3) 3 + 1)
                 (cellScore (mkWordSlice 5 2 4 3) 2
                  + (if Z.testbit 20 (Z.of_nat 2) then 0 else 1)))
          (cellScore next 2 + 1).
Proof.
  apply (getNextSlice_recurrence 20 (mkWordSlice 5 2 4 3) true false
           (mkWordSlice 0 0 3 3) 2).
  - apply goodSliceb_sound. reflexivity.
  - intros _. split; [apply goodSliceb_sound; reflexivity|cbn; lia].
  - lia.
Defined.

(** X6.  Every cell of the column [getNextSlice] returns is within one of
    the cell to its left, the cell above the slice included. *)
Theorem getNextSlice_adjacent (Eq : Z) (slice : WordSlice)
  (previousInsideBand previousEq : bool) (previous : WordSlice) (k : nat) :
  goodSlice slice ->
  (previousInsideBand = true ->
   goodSlice previous /\ scoreBeforeStart slice <= scoreEnd previous) ->
  (k <= 64)%nat ->
  Z.abs
    (cellScore
       (getNextSlice Eq slice previousInsideBand previousEq previous) k
     - cellScore slice k) <= 1.
Proof.
  intros Hs Hp Hk.
  pose proof (getNextSlice_cells_adjacent Eq slice previousInsideBand
                previousEq previous k Hs Hp Hk).
  lia.
Qed.

Lemma getNextSlice_adjacent_witness :
  Z.abs
    (cellScore
       (getNextSlice 20 (mkWordSlice 5 2 4 3) true false
          (mkWordSlice 0 0 3 3)) 64
     - cellScore (mkWordSlice 5 2 4 3) 64) <= 1.
Proof.
  apply (getNextSlice_adjacent 20 (mkWordSlice 5 2 4 3) true false
           (mkWordSlice 0 0 3 3) 64).
  - apply goodSliceb_sound. reflexivity.
  - intros _. split; [apply goodSliceb_sound; reflexivity|cbn; lia].
  - lia.
Defined.

(** X7.  The column of [mergeTwoSlices left right] is, row by row, the
    smaller of the two columns. *)
Theorem mergeTwoSlices_rowwise_minimum (left right : WordSlice) (k : nat) :
  goodSlice left -> goodSlice right -> (k <= 64)%nat ->
  cellScore (mergeTwoSlices left right) k
  = Z.min (cellScore left k) (cellScore right k).
Proof.
  intros Hl Hr Hk. apply mergeTwoSlices_cells; assumption.
Qed.

Lemma mergeTwoSlices_rowwise_minimum_witness :
  cellScore (mergeTwoSlices (mkWordSlice 5 2 4 3) (mkWordSlice 6 1 2 1)) 3
  = Z.min (cellScore (mkWordSlice 5 2 4 3) 3)
          (cellScore (mkWordSlice 6 1 2 1) 3).
Proof.
  apply (mergeTwoSlices_rowwise_minimum (mkWordSlice 5 2 4 3)
           (mkWordSlice 6 1 2 1) 3).
  - apply goodSliceb_sound. reflexivity.
  - apply goodSliceb_sound. reflexivity.
  - lia.
Defined.

(** X8.  On well-formed columns the bit-parallel [mergeTwoSlices] returns
    exactly the slice of its scalar cross-check
    [mergeTwoSlicesCellByCell]: the same [VP], [VN] and scores. *)
Theorem mergeTwoSlices_matches_cellByCell (left right : WordSlice) :
  goodSlice left -> goodSlice right ->
  mergeTwoSlices left right = mergeTwoSlicesCellByCell left right.
Proof.
  intros Hl Hr. apply mergeTwoSlices_is_cellByCell; assumption.
Qed.

Lemma mergeTwoSlices_matches_cellByCell_witness :
  mergeTwoSlices (mkWordSlice 5 2 4 3) (mkWordSlice 6 1 2 1)
  = mergeTwoSlicesCellByCell (mkWordSlice 5 2 4 3) (mkWordSlice 6 1 2 1).
Proof.
  apply (mergeTwoSlices_matches_cellByCell (mkWordSlice 5 2 4 3)
           (mkWordSlice 6 1 2 1)).
  - apply goodSliceb_sound. reflexivity.
  - apply goodSliceb_sound. reflexivity.
Defined.

(** X9.  [mergeTwoSlices] does not depend on the order of its arguments,
    although it swaps them only when the left one starts higher. *)
Theorem mergeTwoSlices_commutative (left right : WordSlice) :
  goodSlice left -> goodSlice right ->
  mergeTwoSlices left right = mergeTwoSlices right left.
Proof.
  intros Hl Hr. apply goodSlice_ext.
  - apply mergeTwoSlices_good; assumption.
  - apply mergeTwoSlices_good; assumption.
  - intros k Hk. rewrite !mergeTwoSlices_cells by assumption.
    apply Z.min_comm.
Qed.

Lemma mergeTwoSlices_commutative_witness :
  mergeTwoSlices (mkWordSlice 5 2 4 3) (mkWordSlice 6 1 4 3)
  = mergeTwoSlices (mkWordSlice 6 1 4 3) (mkWordSlice 5 2 4 3).
Proof.
  apply (mergeTwoSlices_commutative (mkWordSlice 5 2 4 3)
           (mkWordSlice 6 1 4 3)).
  - apply goodSliceb_sound. reflexivity.
  - apply goodSliceb_sound. reflexivity.
Defined.

(** X10.  Merging three columns gives the same slice in either grouping, so
    the slice [getNodeStartSlice] accumulates over the in-neighbours does not
    depend on how the merges are nested. *)
Theorem mergeTwoSlices_associative (a b c : WordSlice) :
  goodSlice a -> goodSlice b -> goodSlice c ->
  mergeTwoSlices (mergeTwoSlices a b) c
  = mergeTwoSlices a (mergeTwoSlices b c).
Proof.
  intros Ha Hb Hc.
  pose proof (mergeTwoSlices_good a b Ha Hb) as Gab.
  pose proof (mergeTwoSlices_good b c Hb Hc) as Gbc.
  apply goodSlice_ext.
  - apply mergeTwoSlices_good; assumption.
  - apply mergeTwoSlices_good; assumption.
  - intros k Hk. rewrite !mergeTwoSlices_cells by assumption.
    symmetry. apply Z.min_assoc.
Qed.

Lemma mergeTwoSlices_associative_witness :
  mergeTwoSlices
    (mergeTwoSlices (mkWordSlice 5 2 4 3) (mkWordSlice 6 1 4 3))
    (mkWordSlice 0 0 3 3)
  = mergeTwoSlices (mkWordSlice 5 2 4 3)
      (mergeTwoSlices (mkWordSlice 6 1 4 3) (mkWordSlice 0 0 3 3)).
Proof.
  apply (mergeTwoSlices_associative (mkWordSlice 5 2 4 3)
           (mkWordSlice 6 1 4 3) (mkWordSlice 0 0 3 3)).
  - apply goodSliceb_sound. reflexivity.
  - apply goodSliceb_sound. reflexivity.
  - apply goodSliceb_sound. reflexivity.
Defined.

(** ** The block that [getLargestContiguousBlock] returns *)

Lemma skipn_cons_nth {A : Type} (l rest : list A) (i : nat) (x d : A) :
  skipn i l = x :: rest -> nth i l d = x /\ skipn (S i) l = rest.
Proof.
  revert i. induction l as [|y l IH]; intros i H.
  - destruct i; discriminate H.
  - destruct i as [|i].
    + cbn in H. injection H as -> ->. split; reflexivity.
    + cbn [skipn] in H. cbn [nth]. apply IH in H. exact H.
Qed.

Ltac at_index i :=
  match goal with
  | |- nth ?x _ _ = _ => replace x with i by lia
  end.

Lemma blockStep_invariant (vec : list bool) (i : nat) (s : BlockState) :
  blockInvariant vec i s ->
  blockInvariant vec (S i) (blockStep i (nth i vec false) s).
Proof.
  intros (H1 & H2 & H3 & H4 & H5). unfold blockStep.
  destruct (nth i vec false) eqn:Hv.
  - (* the run grows *)
    unfold blockInvariant. cbn [thisBlock maxBlockSize maxBlockEnd].
    replace (S i - (thisBlock s + 1))%nat with (i - thisBlock s)%nat by lia.
    split; [lia|]. split.
    { intros k Hk. destruct (Nat.eq_dec k i) as [->|Hne]; [exact Hv|].
      apply H2. lia. }
    split; [intros Hlt; apply H3; lia|]. split; [exact H4|exact H5].
  - (* the run ends at [i] *)
    assert (Hrun : forall a b, (a <= b)%nat -> (b < S i)%nat ->
              allTrue vec a b ->
              (b < i - thisBlock s)%nat \/
              ((i - thisBlock s <= a)%nat /\ (b < i)%nat)).
    { intros a b Hab Hb Hall.
      assert (b <> i) by (intros ->; specialize (Hall i ltac:(lia));
                          congruence).
      destruct (Nat.lt_ge_cases b (i - thisBlock s)) as [Hlt|Hge];
        [left; exact Hlt|right].
      split; [|lia].
      destruct (Nat.lt_ge_cases a (i - thisBlock s)) as [Ha|Ha]; [|exact Ha].
      specialize (H3 ltac:(lia)).
      specialize (Hall (i - thisBlock s - 1)%nat ltac:(lia)). congruence. }
    destruct (Nat.ltb_spec (maxBlockSize s) (thisBlock s)) as [Hlt|Hge];
      unfold blockInvariant; cbn [thisBlock maxBlockSize maxBlockEnd];
      rewrite ?Nat.sub_0_r.
    + split; [lia|]. split; [intros k Hk; lia|].
      split; [intros _; at_index i; exact Hv|]. split.
      * intros a b Hab Hb Hall.
        destruct (Hrun a b Hab Hb Hall) as [Hold|[Ha Hbi]]; [|lia].
        specialize (H4 a b Hab Hold Hall). lia.
      * right. split; [lia|]. split; [lia|].
        intros k Hk. apply H2. lia.
    + split; [lia|]. split; [intros k Hk; lia|].
      split; [intros _; at_index i; exact Hv|]. split.
      * intros a b Hab Hb Hall.
        destruct (Hrun a b Hab Hb Hall) as [Hold|[Ha Hbi]]; [|lia].
        apply (H4 a b Hab Hold Hall).
      * destruct H5 as [(Hz & He & Hnone)|(Hle & Hend & Hall)].
        -- left. split; [exact Hz|]. split; [exact He|].
           intros k Hk. destruct (Nat.eq_dec k i) as [->|Hne]; [exact Hv|].
           apply Hnone. lia.
        -- right. split; [exact Hle|]. split; [lia|exact Hall].
Qed.

Lemma blockLoop_invariant (vec : list bool) :
  forall rest i s,
    skipn i vec = rest -> blockInvariant vec i s ->
    blockInvariant vec (i + List.length rest) (blockLoop rest i s).
Proof.
  induction rest as [|v rest IH]; intros i s Hskip Hinv.
  - cbn. rewrite Nat.add_0_r. exact Hinv.
  - cbn [blockLoop List.length].
    destruct (skipn_cons_nth vec rest i v false Hskip) as [Hnth Hrest].
    replace (i + S (List.length rest))%nat
      with (S i + List.length rest)%nat by lia.
    apply IH; [exact Hrest|]. rewrite <- Hnth.
    apply blockStep_invariant, Hinv.
Qed.

(** X11.  When some entry of [vec] is [true], the pair
    [getLargestContiguousBlock] returns bounds a longest run of [true]
    entries, both ends included: the block lies inside the vector, all its
    entries are [true], and no run of [true] entries spans more. *)
Theorem getLargestContiguousBlock_longest_run (vec : list bool) :
  In true vec ->
  let block := getLargestContiguousBlock vec in
  (fst block <= snd block < List.length vec)%nat /\
  allTrue vec (fst block) (snd block) /\
  forall a b, (a <= b < List.length vec)%nat -> allTrue vec a b ->
              (b - a <= snd block - fst block)%nat.
Proof.
  intros Hin.
  pose proof (blockLoop_invariant vec vec 0 (mkBlockState 0 0 0) eq_refl)
    as Hinv.
  cbn [Nat.add] in Hinv.
  assert (H0 : blockInvariant vec 0 (mkBlockState 0 0 0)).
  { unfold blockInvariant. cbn [thisBlock maxBlockSize maxBlockEnd].
    split; [lia|]. split; [intros k Hk; lia|]. split; [lia|].
    split; [intros a b _ Hb; lia|]. left.
    split; [reflexivity|]. split; [reflexivity|]. intros k Hk. lia. }
  specialize (Hinv H0). clear H0.
  unfold getLargestContiguousBlock.
  set (s := blockLoop vec 0 (mkBlockState 0 0 0)) in *.
  set (n := List.length vec) in *.
  destruct Hinv as (H1 & H2 & H3 & H4 & H5).
  assert (Hrun : forall a b, (a <= b < n)%nat -> allTrue vec a b ->
            (b < n - thisBlock s)%nat \/ (n - thisBlock s <= a)%nat).
  { intros a b Hab Hall.
    destruct (Nat.lt_ge_cases b (n - thisBlock s)) as [Hlt|Hge];
      [left; exact Hlt|right].
    destruct (Nat.lt_ge_cases a (n - thisBlock s)) as [Ha|Ha]; [|exact Ha].
    specialize (H3 ltac:(lia)).
    specialize (Hall (n - thisBlock s - 1)%nat ltac:(lia)). congruence. }
  cbv zeta.
  destruct (Nat.ltb_spec (maxBlockSize s) (thisBlock s)) as [Hlt|Hge];
    cbn [fst snd maxBlockSize maxBlockEnd].
  - split; [lia|]. split.
    + intros k Hk. apply H2. lia.
    + intros a b Hab Hall.
      destruct (Hrun a b Hab Hall) as [Hold|Ha]; [|lia].
      specialize (H4 a b ltac:(lia) Hold Hall). lia.
  - destruct H5 as [(Hz & He & Hnone)|(Hle & Hend & Hall)].
    + exfalso. apply In_nth with (d := false) in Hin.
      destruct Hin as [k [Hk Hnth]]. fold n in Hk.
      rewrite Hnone in Hnth by lia. discriminate Hnth.
    + split; [lia|]. split; [exact Hall|].
      intros a b Hab Hrunab.
      destruct (Hrun a b Hab Hrunab) as [Hold|Ha]; [|lia].
      specialize (H4 a b ltac:(lia) Hold Hrunab). lia.
Qed.

Lemma getLargestContiguousBlock_longest_run_witness :
  let block :=
    getLargestContiguousBlock [true; false; true; true; false; true; true]
  in
  (fst block <= snd block < 7)%nat /\
  allTrue [true; false; true; true; false; true; true]
    (fst block) (snd block) /\
  forall a b, (a <= b < 7)%nat ->
              allTrue [true; false; true; true; false; true; true] a b ->
              (b - a <= snd block - fst block)%nat.
Proof.
  apply (getLargestContiguousBlock_longest_run
           [true; false; true; true; false; true; true]).
  cbn. left. reflexivity.
Defined.

(** ** What [calculateNode] reports and what it writes *)

Lemma nth_error_setNth_eq {A : Type} (l : list A) (w : nat) (v : A) :
  (w < List.length l)%nat -> nth_error (setNth l w v) w = Some v.
Proof.
  revert w. induction l as [|y l IH]; intros w Hw; [cbn in Hw; lia|].
  destruct w as [|w]; [reflexivity|].
  cbn [setNth nth_error]. apply IH. cbn in Hw. lia.
Qed.

Section NodeMinimum.

Variable ScoreMax : Z.
Variable graph : AlignmentGraph.
Variables i j : nat.
Variable sequence : list ascii.
Variables BA BT BC BG : Z.
Variable previousSlice : NodeSlice.
Variables currentBand previousBand : Band.
Variable pos : nat.

Hypothesis Hpos : nth_error (nodeStart graph) i = Some pos.

Lemma calculateCells_minimum (count : nat) :
  forall w slice result slice' result',
    minimumAttained ScoreMax pos w slice result ->
    (w + count <= List.length slice)%nat ->
    calculateCells graph count i j sequence BA BT BC BG previousSlice
      currentBand previousBand w (slice, result) = Some (slice', result') ->
    minimumAttained ScoreMax pos (w + count) slice' result' /\
    List.length slice' = List.length slice.
Proof.
  induction count as [|count IH];
    intros w slice result slice' result' Hinv Hlen H.
  - cbn in H. injection H as <- <-. rewrite Nat.add_0_r. auto.
  - cbn [calculateCells] in H. rewrite Hpos in H. cbn [bindOpt] in H.
    bind_step H.
    replace (w + S count)%nat with (S w + count)%nat by lia.
    apply IH in H; [|clear H|rewrite setNth_length; lia].
    { destruct H as [Hm Hl]. rewrite setNth_length in Hl. auto. }
    destruct Hinv as (Hmax & Hall & Hatt).
    assert (Hnew : nth_error (setNth slice w w0) w = Some w0)
      by (apply nth_error_setNth_eq; lia).
    assert (Hold : forall k, (k < w)%nat ->
              nth_error (setNth slice w w0) k = nth_error slice k)
      by (intros k Hk; apply nth_error_setNth_other; lia).
    destruct (Z.leb_spec (scoreEnd w0) (minScore result)) as [Hle|Hgt];
      unfold minimumAttained; cbn [minScore minScoreIndex].
    + split; [lia|]. split.
      * intros k s Hk Hs. destruct (Nat.eq_dec k w) as [->|Hne].
        -- rewrite Hnew in Hs. injection Hs as <-. lia.
        -- rewrite Hold in Hs by lia. specialize (Hall k s ltac:(lia) Hs).
           lia.
      * right. exists w, w0. split; [lia|]. split; [exact Hnew|].
        split; [reflexivity|]. split; [reflexivity|].
        intros k' s' Hk'. lia.
    + split; [exact Hmax|]. split.
      * intros k s Hk Hs. destruct (Nat.eq_dec k w) as [->|Hne].
        -- rewrite Hnew in Hs. injection Hs as <-. lia.
        -- rewrite Hold in Hs by lia. apply (Hall k s); [lia|exact Hs].
      * destruct Hatt as [Hinit|(k & s & Hk & Hs & Hend & Hidx & Hafter)];
          [left; exact Hinit|right].
        exists k, s. split; [lia|]. split; [rewrite Hold by lia; exact Hs|].
        split; [exact Hend|]. split; [exact Hidx|].
        intros k' s' Hk' Hs'. destruct (Nat.eq_dec k' w) as [->|Hne].
        -- rewrite Hnew in Hs'. injection Hs' as <-. lia.
        -- rewrite Hold in Hs' by lia. apply (Hafter k' s'); [lia|exact Hs'].
Qed.

End NodeMinimum.

(** X12.  [calculateNode] on a node of [nodeEnd - nodeStart >= 1] characters
    whose vector has that size: the vector written back has the same size,
    [cellsProcessed] is 64 cells per character, and [minScore] is the least
    [scoreEnd] of the node's slices (capped by [ScoreMax]), with
    [minScoreIndex] the position of the last slice that ends there. *)
Theorem calculateNode_minimum
  (ScoreMax : Z) (graph : AlignmentGraph) (i j : nat)
  (sequence : list ascii) (BA BT BC BG : Z)
  (currentSlice previousSlice : NodeSlice)
  (currentBand previousBand : Band) (forceSource : bool)
  (result : NodeCalculationResult) (slices : NodeSlice)
  (old : list WordSlice) (pos e : nat) :
  calculateNode ScoreMax graph i j sequence BA BT BC BG currentSlice
    previousSlice currentBand previousBand forceSource
  = Some (result, slices) ->
  currentSlice i = Some old ->
  nth_error (nodeStart graph) i = Some pos ->
  nth_error (nodeEnd graph) i = Some e ->
  List.length old = (e - pos)%nat -> (pos < e)%nat ->
  exists v,
    slices i = Some v /\ List.length v = (e - pos)%nat /\
    cellsProcessed result = ((e - pos) * 64)%nat /\
    minimumAttained ScoreMax pos (e - pos) v result.
Proof.
  intros H Hold Hpos He Hlen Hne. unfold calculateNode in H.
  rewrite Hold, Hpos, He in H. cbn [bindOpt] in H.
  bind_step H. bind_step H. cbv zeta in H. bind_step H.
  destruct p as [slice' result']. injection H as <- <-.
  apply (calculateCells_minimum ScoreMax graph i j sequence BA BT BC BG
           previousSlice currentBand previousBand pos Hpos) in E1.
  - destruct E1 as [Hm Hl]. rewrite setNth_length in Hl.
    exists slice'. unfold setNode. rewrite Nat.eqb_refl.
    split; [reflexivity|]. split; [lia|]. split; [reflexivity|].
    replace (1 + (e - pos - 1))%nat with (e - pos)%nat in Hm by lia.
    destruct Hm as (Hmax & Hall & Hatt). split; [exact Hmax|].
    split; [exact Hall|exact Hatt].
  - assert (Hnew : nth_error (setNth old 0 w) 0 = Some w)
      by (apply nth_error_setNth_eq; lia).
    destruct (Z.ltb_spec (scoreEnd w) ScoreMax) as [Hlt|Hge];
      unfold minimumAttained; cbn [minScore minScoreIndex].
    + split; [lia|]. split.
      * intros k s Hk Hs. replace k with 0%nat in Hs by lia.
        rewrite Hnew in Hs. injection Hs as <-. lia.
      * right. exists 0%nat, w. split; [lia|]. split; [exact Hnew|].
        split; [reflexivity|]. split; [f_equal; lia|]. intros k' s' Hk'. lia.
    + split; [lia|]. split.
      * intros k s Hk Hs. replace k with 0%nat in Hs by lia.
        rewrite Hnew in Hs. injection Hs as <-. lia.
      * left. split; reflexivity.
  - rewrite setNth_length. lia.
Qed.

Lemma calculateNode_minimum_witness :
  match
    calculateNode 1000 fastPathGraph 1 0 fastPathRead
      9223372036854775807 0 0 9223372036854775808 halfColumn levelColumn
      [true; true] [true; true] false
  with
  | Some (result, slices) =>
      exists v,
        slices 1%nat = Some v /\ List.length v = (4 - 2)%nat /\
        cellsProcessed result = ((4 - 2) * 64)%nat /\
        minimumAttained 1000 2 (4 - 2) v result
  | None => False
  end.
Proof.
  destruct (calculateNode 1000 fastPathGraph 1 0 fastPathRead
              9223372036854775807 0 0 9223372036854775808 halfColumn
              levelColumn [true; true] [true; true] false)
    as [[result slices]|] eqn:E.
  - apply (calculateNode_minimum 1000 fastPathGraph 1 0 fastPathRead
             9223372036854775807 0 0 9223372036854775808 halfColumn
             levelColumn [true; true] [true; true] false result slices
             [defaultWordSlice; defaultWordSlice] 2 4 E).
    + reflexivity.
    + reflexivity.
    + reflexivity.
    + reflexivity.
    + lia.
  - vm_compute in E. discriminate E.
Defined.

(** ** The equality words of a column *)

Lemma testbit_orIf (b : bool) (word i p : Z) :
  0 <= i < 64 -> 0 <= p ->
  Z.testbit (orIf b word (shl 1 i)) p = Z.testbit word p || (b && (p =? i)).
Proof.
  intros Hi Hp. unfold orIf. destruct b; [|rewrite orb_false_r; reflexivity].
  rewrite Z.lor_spec. f_equal.
  replace i with (Z.of_nat (Z.to_nat i)) by lia.
  apply testbit_one_bit; lia.
Qed.

Lemma orIf_is_word (b : bool) (word i : Z) :
  is_word word -> is_word (orIf b word (shl 1 i)).
Proof.
  intros Hw. unfold orIf. destruct b; [|exact Hw].
  apply lor_is_word; [exact Hw|apply wrap_is_word].
Qed.

Lemma equalityMasks_bits (base : ascii) (chars : list ascii) :
  forall i acc p,
    0 <= i -> i + Z.of_nat (List.length chars) <= 64 -> 0 <= p ->
    Z.testbit (maskFor base (equalityMasks chars i acc)) p
    = Z.testbit (maskFor base acc) p
      || (if p <? i then false
          else match nth_error chars (Z.to_nat (p - i)) with
               | Some c => readAllows c base
               | None => false
               end).
Proof.
  induction chars as [|c rest IH]; intros i acc p Hi Hlen Hp.
  - cbn [equalityMasks]. destruct (p <? i); [|rewrite nth_error_nil];
      rewrite orb_false_r; reflexivity.
  - cbn [equalityMasks]. destruct acc as [[[BA BT] BC] BG].
    cbn [List.length] in Hlen.
    destruct (charEqualityMasks c) as [[[a t] cc] g] eqn:Hc.
    cbv zeta. rewrite IH by lia.
    assert (Hone : Z.testbit
                     (maskFor base
                        (orIf a BA (shl 1 i), orIf t BT (shl 1 i),
                         orIf cc BC (shl 1 i), orIf g BG (shl 1 i))) p
                   = Z.testbit (maskFor base (BA, BT, BC, BG)) p
                     || (readAllows c base && (p =? i))).
    { unfold maskFor, readAllows. rewrite Hc.
      destruct (Ascii.eqb base "A"); [apply testbit_orIf; lia|].
      destruct (Ascii.eqb base "T"); [apply testbit_orIf; lia|].
      destruct (Ascii.eqb base "C"); [apply testbit_orIf; lia|].
      destruct (Ascii.eqb base "G"); [apply testbit_orIf; lia|].
      rewrite orb_false_r. reflexivity. }
    rewrite Hone, <- orb_assoc. f_equal.
    destruct (Z.ltb_spec p i) as [Hlt|Hge].
    + replace (p =? i) with false by (symmetry; apply Z.eqb_neq; lia).
      replace (p <? i + 1) with true by (symmetry; apply Z.ltb_lt; lia).
      rewrite andb_false_r. reflexivity.
    + destruct (Z.eqb_spec p i) as [->|Hne].
      * replace (i <? i + 1) with true by (symmetry; apply Z.ltb_lt; lia).
        rewrite Z.sub_diag, andb_true_r, orb_false_r. reflexivity.
      * replace (p <? i + 1) with false by (symmetry; apply Z.ltb_ge; lia).
        rewrite andb_false_r. cbn [orb].
        replace (Z.to_nat (p - i)) with (S (Z.to_nat (p - (i + 1)))) by lia.
        reflexivity.
Qed.

Lemma equalityMasks_is_word (base : ascii) (chars : list ascii) :
  forall i acc,
    is_word (maskFor base acc) ->
    is_word (maskFor base (equalityMasks chars i acc)).
Proof.
  induction chars as [|c rest IH]; intros i acc Hacc; [exact Hacc|].
  cbn [equalityMasks]. destruct acc as [[[BA BT] BC] BG].
  destruct (charEqualityMasks c) as [[[a t] cc] g]. cbv zeta.
  apply IH. unfold maskFor in *.
  destruct (Ascii.eqb base "A"); [apply orIf_is_word, Hacc|].
  destruct (Ascii.eqb base "T"); [apply orIf_is_word, Hacc|].
  destruct (Ascii.eqb base "C"); [apply orIf_is_word, Hacc|].
  destruct (Ascii.eqb base "G"); [apply orIf_is_word, Hacc|].
  exact Hacc.
Qed.

(** X13.  The equality word that [getEq] hands to the slice functions, taken
    from the words the sweep builds for the column of rows [j .. j + 63]:
    for a graph character [A], [T], [C] or [G], bit [k] is set exactly when
    read character [j + k] exists and its code allows that character (the
    letter itself in either case, or an ambiguity code that covers it); rows
    past the end of the read have their bit clear, and so has a read
    character that is no nucleotide code, for which the source only
    asserts. *)
Theorem getEq_bits (graph : AlignmentGraph) (sequence : list ascii)
  (j w k : nat) (base : ascii) :
  nth_error (nodeSequences graph) w = Some base ->
  In base ["A"; "T"; "C"; "G"]%char ->
  (k < 64)%nat ->
  let '(BA, BT, BC, BG) := columnEqualityMasks sequence j in
  exists Eq,
    getEq graph BA BT BC BG w = Some Eq /\ is_word Eq /\
    Z.testbit Eq (Z.of_nat k)
    = match nth_error sequence (j + k) with
      | Some c => readAllows c base
      | None => false
      end.
Proof.
  intros Hbase _ Hk.
  pose proof (equalityMasks_bits base (firstn 64 (skipn j sequence)) 0
                (AllZeros, AllZeros, AllZeros, AllZeros) (Z.of_nat k))
    as Hbits.
  pose proof (equalityMasks_is_word base (firstn 64 (skipn j sequence)) 0
                (AllZeros, AllZeros, AllZeros, AllZeros)) as Hword.
  unfold columnEqualityMasks.
  destruct (equalityMasks (firstn 64 (skipn j sequence)) 0
              (AllZeros, AllZeros, AllZeros, AllZeros))
    as [[[BA BT] BC] BG].
  exists (maskFor base (BA, BT, BC, BG)).
  split; [unfold getEq, bindOpt; rewrite Hbase; reflexivity|]. split.
  - apply Hword. unfold maskFor.
    repeat match goal with |- context [if ?b then _ else _] => destruct b end;
      apply word_zero.
  - rewrite Hbits; [|lia|rewrite length_firstn; lia|lia].
    assert (Hz : Z.testbit
                   (maskFor base (AllZeros, AllZeros, AllZeros, AllZeros))
                   (Z.of_nat k) = false).
    { unfold maskFor.
      repeat match goal with
             | |- context [if ?b then _ else _] => destruct b
             end; apply Z.testbit_0_l. }
    rewrite Hz. cbn [orb].
    replace (Z.of_nat k <? 0) with false by (symmetry; apply Z.ltb_ge; lia).
    rewrite Z.sub_0_r, Nat2Z.id, nth_error_firstn.
    replace (k <? 64)%nat with true by (symmetry; apply Nat.ltb_lt; lia).
    rewrite nth_error_skipn. reflexivity.
Qed.

Lemma getEq_bits_witness :
  let '(BA, BT, BC, BG) := columnEqualityMasks fastPathRead 0 in
  exists Eq,
    getEq fastPathGraph BA BT BC BG 2 = Some Eq /\ is_word Eq /\
    Z.testbit Eq (Z.of_nat 63)
    = match nth_error fastPathRead (0 + 63) with
      | Some c => readAllows c "G"
      | None => false
      end.
Proof.
  apply (getEq_bits fastPathGraph fastPathRead 0 2 63 "G").
  - reflexivity.
  - cbn. right. right. right. left. reflexivity.
  - lia.
Defined.

(** ** Arithmetic of the correctness estimator *)

Lemma factorial_loop (m : nat) :
  forall t,
    forLoop m (Z.of_nat (S t)) (fun i result => result * i)
      (Z.of_nat (fact t))
    = Z.of_nat (fact (t + m)).
Proof.
  induction m as [|m IH]; intros t.
  - cbn [forLoop]. rewrite Nat.add_0_r. reflexivity.
  - cbn [forLoop].
    replace (Z.of_nat (S t) + 1) with (Z.of_nat (S (S t))) by lia.
    replace (Z.of_nat (fact t) * Z.of_nat (S t))
      with (Z.of_nat (fact (S t))) by (cbn [fact]; lia).
    rewrite IH. f_equal. f_equal. lia.
Qed.

Lemma factorial_fact (n : nat) : factorial (Z.of_nat n) = Z.of_nat (fact n).
Proof.
  unfold factorial. destruct n as [|n]; [reflexivity|].
  replace (Z.to_nat (Z.of_nat (S n) - 1)) with n by lia.
  apply (factorial_loop n 1).
Qed.

Lemma binomial_above (n : nat) :
  forall k, (n < k)%nat -> binomial n k = 0.
Proof.
  induction n as [|n IH]; intros k Hk.
  - destruct k; [lia|reflexivity].
  - destruct k as [|k]; [lia|]. cbn [binomial].
    rewrite !IH by lia. reflexivity.
Qed.

Lemma fact_positive (n : nat) : 0 < Z.of_nat (fact n).
Proof. pose proof (lt_O_fact n). lia. Qed.

Lemma binomial_fact (n : nat) :
  forall k, (k <= n)%nat ->
    binomial n k * Z.of_nat (fact k) * Z.of_nat (fact (n - k))
    = Z.of_nat (fact n).
Proof.
  induction n as [|n IH]; intros k Hk.
  - replace k with 0%nat by lia. reflexivity.
  - destruct k as [|k].
    + cbn [binomial]. rewrite Nat.sub_0_r. cbn [fact]. lia.
    + cbn [binomial]. cbn [Nat.sub].
      destruct (Nat.eq_dec k n) as [->|Hne].
      * rewrite (binomial_above n (S n)) by lia.
        pose proof (IH n (le_n n)) as Hn. rewrite Nat.sub_diag in *.
        cbn [fact] in *. nia.
      * pose proof (IH k ltac:(lia)) as H1.
        pose proof (IH (S k) ltac:(lia)) as H2.
        replace (n - k)%nat with (S (n - S k)) in H1 by lia.
        set (a := binomial n k) in *. set (b := binomial n (S k)) in *.
        replace (fact (S n)) with (S n * fact n)%nat by reflexivity.
        replace (fact (S k)) with (S k * fact k)%nat in * by reflexivity.
        replace (fact (S (n - S k)))
          with (S (n - S k) * fact (n - S k))%nat in H1 by reflexivity.
        rewrite !Nat2Z.inj_mul in *.
        set (fk := Z.of_nat (fact k)) in *.
        set (fr := Z.of_nat (fact (n - S k))) in *.
        set (fn := Z.of_nat (fact n)) in *.
        replace (Z.of_nat (S n))
          with (Z.of_nat (S k) + Z.of_nat (S (n - S k))) by lia.
        replace (Z.of_nat (fact (n - k)))
          with (Z.of_nat (S (n - S k)) * fr)
          by (subst fr; rewrite <- Nat2Z.inj_mul; f_equal;
              replace (n - k)%nat with (S (n - S k)) by lia; reflexivity).
        transitivity
          (Z.of_nat (S k) * (a * fk * (Z.of_nat (S (n - S k)) * fr))
           + Z.of_nat (S (n - S k)) * (b * (Z.of_nat (S k) * fk) * fr));
          [ring|rewrite H1, H2; ring].
Qed.

Lemma choose_binomial_aux (n k : nat) :
  (k <= n)%nat ->
  choose (Z.of_nat n) (Z.of_nat k) = binomial n k /\
  0 < choose (Z.of_nat n) (Z.of_nat k).
Proof.
  intros Hk.
  assert (Hc : choose (Z.of_nat n) (Z.of_nat k) = binomial n k).
  { unfold choose.
    replace (Z.of_nat n - Z.of_nat k) with (Z.of_nat (n - k)) by lia.
    rewrite !factorial_fact, <- (binomial_fact n k Hk).
    pose proof (fact_positive k). pose proof (fact_positive (n - k)).
    replace (binomial n k * Z.of_nat (fact k) * Z.of_nat (fact (n - k)))
      with (binomial n k * Z.of_nat (fact (n - k)) * Z.of_nat (fact k))
      by ring.
    rewrite Z.quot_mul by lia. apply Z.quot_mul. lia. }
  split; [exact Hc|]. rewrite Hc.
  pose proof (binomial_fact n k Hk). pose proof (fact_positive k).
  pose proof (fact_positive (n - k)). pose proof (fact_positive n). nia.
Qed.

(** X14.  [factorial] and [choose] compute the factorial and, for
    [0 <= k <= n], the binomial coefficient, the two truncating divisions of
    [choose] being exact. *)
Theorem choose_binomial (n k : nat) :
  (k <= n)%nat ->
  factorial (Z.of_nat n) = Z.of_nat (fact n) /\
  choose (Z.of_nat n) (Z.of_nat k) = binomial n k /\
  0 < choose (Z.of_nat n) (Z.of_nat k).
Proof.
  intros Hk. split; [apply factorial_fact|].
  apply choose_binomial_aux. exact Hk.
Qed.

Lemma choose_binomial_witness :
  factorial (Z.of_nat 6) = Z.of_nat (fact 6) /\
  choose (Z.of_nat 6) (Z.of_nat 2) = binomial 6 2 /\
  0 < choose (Z.of_nat 6) (Z.of_nat 2).
Proof.
  apply (choose_binomial 6 2). lia.
Defined.

(** ** Square and multiply *)

Ltac same_exponent :=
  match goal with
  | |- (_ ^ ?a == _ ^ ?b)%Q => replace a with b by lia; reflexivity
  end.

Lemma powr_returns (fuel : nat) :
  forall (base : Q) (exponent : Z),
    (0 < fuel)%nat -> 0 <= exponent < 2 ^ Z.of_nat fuel ->
    exists q, powr fuel base exponent = Some q /\ (q == base ^ exponent)%Q.
Proof.
  induction fuel as [|fuel IH]; intros base exponent Hfuel He; [lia|].
  cbn [powr].
  destruct (Z.eqb_spec exponent 0) as [->|H0].
  { exists 1%Q. split; reflexivity. }
  destruct (Z.eqb_spec exponent 1) as [->|H1].
  { exists base. split; [reflexivity|]. symmetry. apply Qpower_1_r. }
  pose proof (Z.quot_rem' exponent 2) as Hsplit.
  pose proof (Z.rem_bound_pos exponent 2 ltac:(lia) ltac:(lia)) as Hrem.
  assert (Hhalf : 0 <= Z.quot exponent 2 < 2 ^ Z.of_nat fuel).
  { rewrite Nat2Z.inj_succ, Z.pow_succ_r in He by lia. lia. }
  assert (Hpos : (0 < fuel)%nat).
  { destruct fuel; [cbn in He; lia|lia]. }
  destruct (IH base (Z.quot exponent 2) Hpos Hhalf) as [part [Hpart Heq]].
  rewrite Hpart. cbn [bindOpt].
  destruct (Z.eqb_spec (Z.rem exponent 2) 0) as [Hr0|Hr0].
  - eexists. split; [reflexivity|]. rewrite Qred_correct, Heq.
    rewrite <- Qpower_plus' by lia. same_exponent.
  - destruct (Z.eqb_spec (Z.rem exponent 2) 1) as [Hr1|Hr1]; [|lia].
    eexists. split; [reflexivity|]. rewrite Qred_correct, Heq.
    transitivity
      (base ^ (Z.quot exponent 2) * base ^ (Z.quot exponent 2) * base ^ 1)%Q;
      [rewrite Qpower_1_r; reflexivity|].
    rewrite <- !Qpower_plus' by lia. same_exponent.
Qed.

Lemma powr_negative (fuel : nat) :
  forall (base : Q) (exponent : Z),
    exponent < 0 -> powr fuel base exponent = None.
Proof.
  induction fuel as [|fuel IH]; intros base exponent He; [reflexivity|].
  cbn [powr].
  destruct (Z.eqb_spec exponent 0) as [H0|H0]; [lia|].
  destruct (Z.eqb_spec exponent 1) as [H1|H1]; [lia|].
  pose proof (Z.quot_rem' exponent 2) as Hsplit.
  assert (Hrem : -2 < Z.rem exponent 2 <= 0).
  { pose proof (Z.rem_bound_pos (- exponent) 2 ltac:(lia) ltac:(lia)).
    pose proof (Z.rem_opp_l' exponent 2). lia. }
  destruct (Z.eqb_spec (Z.rem exponent 2) 0) as [Hr0|Hr0].
  - rewrite IH by lia. reflexivity.
  - destruct (Z.eqb_spec (Z.rem exponent 2) 1) as [Hr1|Hr1]; [lia|].
    reflexivity.
Qed.

(** X15.  [powr] is exponentiation by squaring: with fuel for the binary
    digits of the exponent it returns [base ^ exponent] for every exponent
    that is not negative, and it reaches no [return] for a negative one.
    The assertions of the source are left out; for a positive base the
    result is positive, so that [assert(part > 0)] holds for the result of
    every recursive call. *)
Theorem powr_power (fuel : nat) (base : Q) (exponent : Z) :
  (0 < fuel)%nat -> exponent < 2 ^ Z.of_nat fuel ->
  match powr fuel base exponent with
  | Some q =>
      0 <= exponent /\ (q == base ^ exponent)%Q /\
      ((0 < base)%Q -> (0 < q)%Q)
  | None => exponent < 0
  end.
Proof.
  intros Hfuel He. destruct (Z.lt_ge_cases exponent 0) as [Hneg|Hpos].
  - rewrite powr_negative by exact Hneg. exact Hneg.
  - destruct (powr_returns fuel base exponent Hfuel (conj Hpos He))
      as [q [Hq Heq]].
    rewrite Hq. split; [exact Hpos|]. split; [exact Heq|].
    intros Hbase. rewrite Heq. apply Qpower_0_lt. exact Hbase.
Qed.

Lemma powr_power_witness :
  match powr 64 (15 # 100) 5 with
  | Some q =>
      0 <= 5 /\ (q == (15 # 100) ^ 5)%Q /\
      ((0 < 15 # 100)%Q -> (0 < q)%Q)
  | None => 5 < 0
  end.
Proof.
  apply (powr_power 64 (15 # 100) 5).
  - lia.
  - reflexivity.
Defined.

(** ** The Viterbi estimator *)

Lemma Qmax_positive (a b : Q) : (0 < a)%Q -> (0 < b)%Q -> (0 < Qmax a b)%Q.
Proof. intros Ha Hb. unfold Qmax. destruct (Qle_bool b a); assumption. Qed.

Lemma choose_positive (d : Z) :
  0 <= d <= 64 -> (0 < inject_Z (choose WordSize d))%Q.
Proof.
  intros Hd. change WordSize with (Z.of_nat 64).
  replace d with (Z.of_nat (Z.to_nat d)) by lia.
  destruct (choose_binomial_aux 64 (Z.to_nat d) ltac:(lia)) as [_ Hpos].
  change 0%Q with (inject_Z 0). rewrite <- Zlt_Qlt. exact Hpos.
Qed.

Lemma normalised (a b : Q) :
  (0 < a)%Q -> (0 < b)%Q ->
  (0 < Qred (a / (a + b)))%Q /\ (0 < Qred (b / (a + b)))%Q /\
  (Qred (a / (a + b)) + Qred (b / (a + b)) == 1)%Q.
Proof.
  intros Ha Hb.
  assert (Hn : (0 < a + b)%Q).
  { apply Qlt_trans with a; [exact Ha|].
    rewrite <- (Qplus_0_r a) at 1. apply Qplus_lt_r. exact Hb. }
  rewrite !Qred_correct. split; [|split].
  - apply Qlt_shift_div_l; [exact Hn|]. rewrite Qmult_0_l. exact Ha.
  - apply Qlt_shift_div_l; [exact Hn|]. rewrite Qmult_0_l. exact Hb.
  - unfold Qdiv. rewrite <- Qmult_plus_distr_l. apply Qmult_inv_r.
    intros Hz. rewrite Hz in Hn. apply (Qlt_irrefl 0). exact Hn.
Qed.

Lemma viterbiStep_defined (scorediff : Z) (s : ViterbiState) :
  0 <= scorediff <= 64 ->
  (0 < correctProbability s)%Q -> (0 < falseProbability s)%Q ->
  exists s',
    viterbiStep scorediff s = Some s' /\
    (0 < correctProbability s')%Q /\ (0 < falseProbability s')%Q /\
    (correctProbability s' + falseProbability s' == 1)%Q /\
    List.length (falseFromCorrectBacktrace s')
      = S (List.length (falseFromCorrectBacktrace s)) /\
    List.length (correctFromCorrectBacktrace s')
      = S (List.length (correctFromCorrectBacktrace s)).
Proof.
  intros Hd Hc Hf. unfold viterbiStep.
  assert (Hfuel : (0 < 64)%nat) by lia.
  assert (H64 : 2 ^ Z.of_nat 64 = 18446744073709551616) by reflexivity.
  change WordSize with 64.
  destruct (powr_returns 64 correctMismatchProbability scorediff Hfuel
              ltac:(lia)) as [pc [Hpc Epc]].
  destruct (powr_returns 64 (1 - correctMismatchProbability)%Q
              (64 - scorediff) Hfuel ltac:(lia)) as [pcn [Hpcn Epcn]].
  destruct (powr_returns 64 falseMismatchProbability scorediff Hfuel
              ltac:(lia)) as [pf [Hpf Epf]].
  destruct (powr_returns 64 (1 - falseMismatchProbability)%Q
              (64 - scorediff) Hfuel ltac:(lia)) as [pfn [Hpfn Epfn]].
  rewrite Hpc, Hpcn, Hpf, Hpfn. cbn [bindOpt]. cbv zeta.
  eexists. split; [reflexivity|].
  cbn [correctProbability falseProbability falseFromCorrectBacktrace
       correctFromCorrectBacktrace].
  rewrite !length_app. cbn [List.length].
  pose proof (choose_positive scorediff Hd) as Hchoose.
  change WordSize with 64 in Hchoose.
  assert (Ppc : (0 < pc)%Q) by (rewrite Epc; apply Qpower_0_lt; reflexivity).
  assert (Ppcn : (0 < pcn)%Q)
    by (rewrite Epcn; apply Qpower_0_lt; reflexivity).
  assert (Ppf : (0 < pf)%Q) by (rewrite Epf; apply Qpower_0_lt; reflexivity).
  assert (Ppfn : (0 < pfn)%Q)
    by (rewrite Epfn; apply Qpower_0_lt; reflexivity).
  assert (Ha : (0 <
            Qmax (correctProbability s
                  * (1 - correctToFalseTransitionProbability))
                 (falseProbability s * falseToCorrectTransitionProbability)
            * (inject_Z (choose 64 scorediff) * pc * pcn))%Q).
  { repeat apply Qmult_lt_0_compat; try assumption.
    apply Qmax_positive; apply Qmult_lt_0_compat; try assumption;
      reflexivity. }
  assert (Hb : (0 <
            Qmax (correctProbability s * correctToFalseTransitionProbability)
                 (falseProbability s
                  * (1 - falseToCorrectTransitionProbability))
            * (inject_Z (choose 64 scorediff) * pf * pfn))%Q).
  { repeat apply Qmult_lt_0_compat; try assumption.
    apply Qmax_positive; apply Qmult_lt_0_compat; try assumption;
      reflexivity. }
  destruct (normalised _ _ Ha Hb) as (H1 & H2 & H3).
  split; [exact H1|]. split; [exact H2|]. split; [exact H3|].
  split; lia.
Qed.

Lemma viterbiStep_undefined (scorediff : Z) (s : ViterbiState) :
  ~ 0 <= scorediff <= 64 -> viterbiStep scorediff s = None.
Proof.
  intros Hd. unfold viterbiStep. cbv zeta. change WordSize with 64.
  destruct (Z.lt_ge_cases scorediff 0) as [Hneg|Hpos].
  - rewrite (powr_negative 64 correctMismatchProbability scorediff Hneg).
    reflexivity.
  - destruct (powr 64 correctMismatchProbability scorediff);
      [|reflexivity].
    cbn [bindOpt].
    rewrite (powr_negative 64 (1 - correctMismatchProbability)%Q
               (64 - scorediff)) by lia.
    reflexivity.
Qed.

Lemma stepsWithin_dec (previous score : Z) :
  {0 <= score - previous <= 64} + {~ 0 <= score - previous <= 64}.
Proof.
  destruct (Z_le_dec 0 (score - previous));
    destruct (Z_le_dec (score - previous) 64);
    [left; lia|right; lia|right; lia|right; lia].
Qed.

Lemma viterbiForward_spec (scores : list Z) :
  forall previous s,
    (0 < correctProbability s)%Q -> (0 < falseProbability s)%Q ->
    match viterbiForward previous scores s with
    | Some s' =>
        stepsWithin previous scores /\
        (0 < correctProbability s')%Q /\ (0 < falseProbability s')%Q /\
        List.length (falseFromCorrectBacktrace s')
          = (List.length (falseFromCorrectBacktrace s)
             + List.length scores)%nat /\
        List.length (correctFromCorrectBacktrace s')
          = (List.length (correctFromCorrectBacktrace s)
             + List.length scores)%nat
    | None => ~ stepsWithin previous scores
    end.
Proof.
  induction scores as [|score rest IH]; intros previous s Hc Hf.
  - cbn [viterbiForward stepsWithin List.length]. rewrite !Nat.add_0_r.
    repeat split; assumption.
  - cbn [viterbiForward stepsWithin List.length].
    destruct (stepsWithin_dec previous score) as [Hin|Hout].
    + destruct (viterbiStep_defined (score - previous) s Hin Hc Hf)
        as (s1 & Hs1 & Hc1 & Hf1 & _ & Lf & Lc).
      rewrite Hs1. cbn [bindOpt]. specialize (IH score s1 Hc1 Hf1).
      destruct (viterbiForward score rest s1) as [s'|].
      * destruct IH as (Hrest & Hc' & Hf' & Lf' & Lc').
        split; [split; assumption|]. split; [exact Hc'|].
        split; [exact Hf'|]. split; lia.
      * intros [_ Hrest]. apply IH. exact Hrest.
    + rewrite (viterbiStep_undefined _ s Hout). cbn [bindOpt].
      intros [Hin _]. apply Hout. exact Hin.
Qed.

Lemma viterbiLabels_length (cs : list bool) :
  forall fs current,
    List.length cs = List.length fs ->
    List.length (viterbiLabels cs fs current) = List.length cs.
Proof.
  induction cs as [|c cs IH]; intros fs current Hlen.
  - destruct fs; reflexivity.
  - destruct fs as [|f fs]; [discriminate Hlen|].
    cbn [viterbiLabels List.length]. f_equal. apply IH.
    cbn [List.length] in Hlen. lia.
Qed.

(** X16.  [estimateCorrectAlignmentViterbi] on a vector that is not empty
    returns exactly when every entry exceeds the one before it by 0 to 64
    (otherwise [powr] is given a negative exponent), and it then labels every
    transition: the result has one entry fewer than the vector. *)
Theorem estimateCorrectAlignmentViterbi_labels (first : Z) (rest : list Z) :
  match estimateCorrectAlignmentViterbi (first :: rest) with
  | Some labels =>
      stepsWithin first rest /\ List.length labels = List.length rest
  | None => ~ stepsWithin first rest
  end.
Proof.
  unfold estimateCorrectAlignmentViterbi.
  pose proof (viterbiForward_spec rest first
                (mkViterbiState (30 # 100) (70 # 100) [] [])) as H.
  cbn [correctProbability falseProbability falseFromCorrectBacktrace
       correctFromCorrectBacktrace List.length Nat.add] in H.
  specialize (H eq_refl eq_refl).
  destruct (viterbiForward first rest
              (mkViterbiState (30 # 100) (70 # 100) [] [])) as [s|];
    cbn [bindOpt]; [|exact H].
  destruct H as (Hsteps & _ & _ & Lf & Lc).
  split; [exact Hsteps|].
  rewrite length_rev, viterbiLabels_length; rewrite !length_rev; lia.
Qed.

(** X17.  One step of the Viterbi forward pass on a score difference from 0
    to 64, with both probabilities positive: the step returns, both new
    probabilities are positive and they add up to one, so that the division
    by the normaliser is never a division by zero; each back-pointer vector
    grows by one entry. *)
Theorem viterbiStep_normalised (scorediff : Z) (s : ViterbiState) :
  0 <= scorediff <= 64 ->
  (0 < correctProbability s)%Q -> (0 < falseProbability s)%Q ->
  exists s',
    viterbiStep scorediff s = Some s' /\
    (0 < correctProbability s')%Q /\ (0 < falseProbability s')%Q /\
    (correctProbability s' + falseProbability s' == 1)%Q /\
    List.length (falseFromCorrectBacktrace s')
      = S (List.length (falseFromCorrectBacktrace s)) /\
    List.length (correctFromCorrectBacktrace s')
      = S (List.length (correctFromCorrectBacktrace s)).
Proof.
  intros Hd Hc Hf. apply viterbiStep_defined; assumption.
Qed.

Lemma viterbiStep_normalised_witness :
  exists s',
    viterbiStep 3 (mkViterbiState (30 # 100) (70 # 100) [] []) = Some s' /\
    (0 < correctProbability s')%Q /\ (0 < falseProbability s')%Q /\
    (correctProbability s' + falseProbability s' == 1)%Q /\
    List.length (falseFromCorrectBacktrace s') = 1%nat /\
    List.length (correctFromCorrectBacktrace s') = 1%nat.
Proof.
  apply (viterbiStep_normalised 3
           (mkViterbiState (30 # 100) (70 # 100) [] [])).
  - lia.
  - reflexivity.
  - reflexivity.
Defined.

(** ** The column that enters a node *)

Section EnteringColumn.

Variables previousSlice currentSlice : NodeSlice.
Variables currentBand previousBand : Band.

Hypothesis Hprevious : slicesGood previousSlice.
Hypothesis Hcurrent : slicesGood currentSlice.

Local Abbreviation enters := (entersFrom previousSlice currentSlice currentBand
                      previousBand).

Lemma entersFrom_good (neighbor : nat) (c : WordSlice) :
  enters neighbor c -> goodSlice c.
Proof.
  intros [[_ [v [Hv Hb]]]|[_ [_ [v [b [Hv [Hb ->]]]]]]].
  - apply (stored_back_good currentSlice neighbor v c Hcurrent Hv Hb).
  - apply getSourceSliceFromScore_good, goodSlice_scoreEnd.
    apply (stored_back_good previousSlice neighbor v b Hprevious Hv Hb).
Qed.

(** What one round of the loop does to [previous] and [foundOne]. *)
Lemma nodeStartNeighbor_previous (neighbor : nat) (s s' : StartSliceState) :
  nodeStartNeighbor previousSlice currentSlice currentBand previousBand
    neighbor s = Some s' ->
  ((forall c, ~ enters neighbor c) /\
   ss_previous s' = ss_previous s /\ ss_foundOne s' = ss_foundOne s) \/
  (exists c0,
     enters neighbor c0 /\ (forall c, enters neighbor c -> c = c0) /\
     ss_previous s' = mergeInto (ss_foundOne s) (ss_previous s) c0 /\
     ss_foundOne s' = true).
Proof.
  intros H. unfold nodeStartNeighbor in H.
  destruct (inBand previousBand neighbor) eqn:Bp;
    destruct (inBand currentBand neighbor) eqn:Bc;
    cbn [andb negb bindOpt] in H.
  - bind_step H. bind_step H. bind_step H. bind_step H.
    injection H as <-. right. exists w0.
    cbn [ss_previous ss_foundOne].
    split; [left; split; [exact Bc|exists l0; auto]|].
    split; [|split; reflexivity].
    intros c [[_ [v [Hv Hb]]]|[Hc _]]; [|congruence].
    rewrite E1 in Hv. injection Hv as <-. congruence.
  - bind_step H. bind_step H. injection H as <-. right.
    exists (getSourceSliceFromScore (scoreEnd w)).
    cbn [ss_previous ss_foundOne].
    split; [right; split; [exact Bc|split; [exact Bp|exists l, w; auto]]|].
    split; [|split; reflexivity].
    intros c [[Hc _]|[_ [_ [v [b [Hv [Hb ->]]]]]]]; [congruence|].
    rewrite E in Hv. injection Hv as <-. congruence.
  - bind_step H. bind_step H. injection H as <-. right. exists w.
    cbn [ss_previous ss_foundOne].
    split; [left; split; [exact Bc|exists l; auto]|].
    split; [|split; reflexivity].
    intros c [[_ [v [Hv Hb]]]|[Hc _]]; [|congruence].
    rewrite E in Hv. injection Hv as <-. congruence.
  - injection H as <-. left. split; [|split; reflexivity].
    intros c [[Hc _]|[_ [Hp _]]]; congruence.
Qed.

Lemma nodeStartLoop_minimum (k : nat) (rest : list nat) :
  (k <= 64)%nat ->
  forall done s s',
    goodSlice (ss_previous s) ->
    (ss_foundOne s = false ->
     forall n c, In n done -> ~ enters n c) ->
    (ss_foundOne s = true ->
     (forall n c, In n done -> enters n c ->
        cellScore (ss_previous s) k <= cellScore c k) /\
     exists n c, In n done /\ enters n c /\
                 cellScore (ss_previous s) k = cellScore c k) ->
    nodeStartLoop previousSlice currentSlice currentBand previousBand
      rest s = Some s' ->
    goodSlice (ss_previous s') /\
    (ss_foundOne s' = false ->
     forall n c, In n (done ++ rest) -> ~ enters n c) /\
    (ss_foundOne s' = true ->
     (forall n c, In n (done ++ rest) -> enters n c ->
        cellScore (ss_previous s') k <= cellScore c k) /\
     exists n c, In n (done ++ rest) /\ enters n c /\
                 cellScore (ss_previous s') k = cellScore c k).
Proof.
  intros Hk. induction rest as [|neighbor rest IH];
    intros done s s' Hgood Hnone Hsome H; cbn [nodeStartLoop] in H.
  - injection H as <-. rewrite app_nil_r. auto.
  - bind_step H.
    replace (done ++ neighbor :: rest) with ((done ++ [neighbor]) ++ rest)
      by (rewrite <- app_assoc; reflexivity).
    apply (IH (done ++ [neighbor]) s0 s'); [| | |exact H]; clear IH H.
    + destruct (nodeStartNeighbor_previous neighbor s s0 E)
        as [(_ & -> & _)|(c0 & Hc0 & _ & -> & _)]; [exact Hgood|].
      apply mergeInto_good; [exact Hgood|apply (entersFrom_good _ _ Hc0)].
    + intros Hf n c Hin.
      destruct (nodeStartNeighbor_previous neighbor s s0 E)
        as [(Hno & _ & Hfound)|(c0 & _ & _ & _ & Hfound)]; [|congruence].
      apply in_app_or in Hin. destruct Hin as [Hin|[<-|[]]].
      * apply Hnone; [congruence|exact Hin].
      * apply Hno.
    + intros Hf.
      destruct (nodeStartNeighbor_previous neighbor s s0 E)
        as [(Hno & Hp & Hfound)|(c0 & Hc0 & Hone & Hp & Hfound)].
      * rewrite Hp. rewrite Hfound in Hf.
        destruct (Hsome Hf) as [Hall (n & c & Hin & Hc & Heq)]. split.
        -- intros n' c' Hin' Hc'. apply in_app_or in Hin'.
           destruct Hin' as [Hin'|[<-|[]]]; [apply (Hall n' c' Hin' Hc')|].
           exfalso. apply (Hno c' Hc').
        -- exists n, c. split; [apply in_or_app; left; exact Hin|]. auto.
      * pose proof (entersFrom_good _ _ Hc0) as G0.
        assert (Hcell : cellScore (ss_previous s0) k
                        = if ss_foundOne s
                          then Z.min (cellScore (ss_previous s) k)
                                     (cellScore c0 k)
                          else cellScore c0 k).
        { rewrite Hp. apply mergeInto_cells; assumption. }
        rewrite Hcell. destruct (ss_foundOne s) eqn:Hfs.
        -- destruct (Hsome eq_refl) as [Hall (n & c & Hin & Hc & Heq)].
           split.
           ++ intros n' c' Hin' Hc'. apply in_app_or in Hin'.
              destruct Hin' as [Hin'|[<-|[]]].
              ** specialize (Hall n' c' Hin' Hc'). lia.
              ** rewrite (Hone c' Hc'). lia.
           ++ destruct (Z.le_ge_cases (cellScore (ss_previous s) k)
                          (cellScore c0 k)) as [Hle|Hge].
              ** exists n, c. split; [apply in_or_app; left; exact Hin|].
                 split; [exact Hc|]. lia.
              ** exists neighbor, c0.
                 split; [apply in_or_app; right; left; reflexivity|].
                 split; [exact Hc0|]. lia.
        -- split.
           ++ intros n' c' Hin' Hc'. apply in_app_or in Hin'.
              destruct Hin' as [Hin'|[<-|[]]].
              ** exfalso. apply (Hnone eq_refl n' c' Hin' Hc').
              ** rewrite (Hone c' Hc'). lia.
           ++ exists neighbor, c0.
              split; [apply in_or_app; right; left; reflexivity|].
              split; [exact Hc0|reflexivity].
Qed.

End EnteringColumn.

Lemma nodeStartNeighbor_foundOne (previousSlice currentSlice : NodeSlice)
  (currentBand previousBand : Band) (neighbor : nat)
  (s s' : StartSliceState) :
  nodeStartNeighbor previousSlice currentSlice currentBand previousBand
    neighbor s = Some s' ->
  ss_foundOne s'
  = ss_foundOne s || inBand currentBand neighbor
    || inBand previousBand neighbor.
Proof.
  intros H. unfold nodeStartNeighbor in H.
  destruct (inBand previousBand neighbor) eqn:Bp;
    destruct (inBand currentBand neighbor) eqn:Bc;
    cbn [andb negb bindOpt] in H.
  - bind_step H. bind_step H. bind_step H. bind_step H.
    injection H as <-. cbn [ss_foundOne]. rewrite !orb_true_r. reflexivity.
  - bind_step H. bind_step H. injection H as <-. cbn [ss_foundOne].
    rewrite !orb_true_r. reflexivity.
  - bind_step H. bind_step H. injection H as <-. cbn [ss_foundOne].
    rewrite orb_true_r. reflexivity.
  - injection H as <-. rewrite !orb_false_r. reflexivity.
Qed.

Lemma nodeStartLoop_foundOne (previousSlice currentSlice : NodeSlice)
  (currentBand previousBand : Band) (neighbors : list nat) :
  forall s s',
    nodeStartLoop previousSlice currentSlice currentBand previousBand
      neighbors s = Some s' ->
    ss_foundOne s'
    = ss_foundOne s || negb (isSourceLoop neighbors currentBand previousBand).
Proof.
  induction neighbors as [|neighbor rest IH]; intros s s' H;
    cbn [nodeStartLoop isSourceLoop] in *.
  - injection H as <-. rewrite orb_false_r. reflexivity.
  - bind_step H. rewrite (IH _ _ H).
    rewrite (nodeStartNeighbor_foundOne _ _ _ _ _ _ _ E).
    destruct (inBand currentBand neighbor);
      [rewrite !orb_true_r; reflexivity|].
    destruct (inBand previousBand neighbor);
      [rewrite !orb_true_r; reflexivity|].
    rewrite !orb_false_r. reflexivity.
Qed.

(** X18.  The column from which [getNodeStartSlice] advances into a node is
    the row-wise minimum of the columns its in-neighbours contribute: the
    slice returned is [getNextSlice] applied to one accumulated slice
    [previous], and this one slice lies in every row at or below the
    contribution of every in-neighbour and equals, row by row, the
    contribution of one of them. *)
Theorem getNodeStartSlice_entering_minimum
  (graph : AlignmentGraph) (Eq : Z) (nodeIndex : nat)
  (previousSlice currentSlice : NodeSlice)
  (currentBand previousBand : Band) (previousEq : bool)
  (neighbors : list nat) (result : WordSlice) :
  slicesGood previousSlice -> slicesGood currentSlice ->
  nth_error (inNeighbors graph) nodeIndex = Some neighbors ->
  isSource graph nodeIndex currentBand previousBand = Some false ->
  getNodeStartSlice graph Eq nodeIndex previousSlice currentSlice
    currentBand previousBand previousEq = Some result ->
  exists previous previousUp foundOneUp,
    result = getNextSlice Eq previous foundOneUp previousEq previousUp /\
    forall k,
      (k <= 64)%nat ->
      (forall n c,
         In n neighbors ->
         entersFrom previousSlice currentSlice currentBand previousBand n c ->
         cellScore previous k <= cellScore c k) /\
      exists n c,
        In n neighbors /\
        entersFrom previousSlice currentSlice currentBand previousBand n c /\
        cellScore previous k = cellScore c k.
Proof.
  intros Hprevious Hcurrent Hn Hsource H.
  unfold getNodeStartSlice in H. rewrite Hn in H. cbn [bindOpt] in H.
  bind_step H. injection H as <-.
  exists (ss_previous s), (ss_previousUp s), (ss_foundOneUp s).
  split; [reflexivity|]. intros k Hk.
  unfold isSource in Hsource. rewrite Hn in Hsource.
  cbn [bindOpt] in Hsource. injection Hsource as Hsource.
  pose proof (nodeStartLoop_foundOne _ _ _ _ _ _ _ E) as Hfound.
  rewrite Hsource in Hfound. cbn in Hfound.
  destruct (nodeStartLoop_minimum previousSlice currentSlice currentBand
              previousBand Hprevious Hcurrent k neighbors Hk []
              (mkStartSliceState defaultWordSlice defaultWordSlice false
                 false) s defaultWordSlice_good) as (_ & _ & Hmin).
  - intros _ n c [].
  - cbn [ss_foundOne]. discriminate.
  - exact E.
  - cbn [app] in Hmin. apply Hmin. exact Hfound.
Qed.

Lemma getNodeStartSlice_entering_minimum_witness :
  match
    getNodeStartSlice fastPathGraph 16 1 levelColumn halfColumn
      [true; true] [true; true] false
  with
  | Some result =>
      exists previous previousUp foundOneUp,
        result = getNextSlice 16 previous foundOneUp false previousUp /\
        forall k,
          (k <= 64)%nat ->
          (forall n c,
             In n [0%nat] ->
             entersFrom levelColumn halfColumn [true; true] [true; true]
               n c ->
             cellScore previous k <= cellScore c k) /\
          exists n c,
            In n [0%nat] /\
            entersFrom levelColumn halfColumn [true; true] [true; true]
              n c /\
            cellScore previous k = cellScore c k
  | None => False
  end.
Proof.
  destruct (getNodeStartSlice fastPathGraph 16 1 levelColumn halfColumn
              [true; true] [true; true] false) as [result|] eqn:E.
  - apply (getNodeStartSlice_entering_minimum fastPathGraph 16 1 levelColumn
             halfColumn [true; true] [true; true] false [0%nat] result).
    + apply levelColumn_good.
    + apply halfColumn_good.
    + reflexivity.
    + reflexivity.
    + exact E.
  - vm_compute in E. discriminate E.
Defined.

(** X19.  The loop of [getNodeStartSlice] finds a neighbour exactly when
    [isSource] says the node is no source: on the path [calculateNode]
    takes to it, the assertion [foundOne] of the source holds. *)
Theorem getNodeStartSlice_foundOne
  (graph : AlignmentGraph) (nodeIndex : nat)
  (previousSlice currentSlice : NodeSlice)
  (currentBand previousBand : Band)
  (neighbors : list nat) (s : StartSliceState) :
  nth_error (inNeighbors graph) nodeIndex = Some neighbors ->
  nodeStartLoop previousSlice currentSlice currentBand previousBand
    neighbors
    (mkStartSliceState defaultWordSlice defaultWordSlice false false)
  = Some s ->
  isSource graph nodeIndex currentBand previousBand
  = Some (negb (ss_foundOne s)) /\
  (ss_foundOne s = false ->
   ss_previous s = defaultWordSlice /\ ss_foundOneUp s = false).
Proof.
  intros Hn H. unfold isSource. rewrite Hn. cbn [bindOpt].
  pose proof (nodeStartLoop_foundOne _ _ _ _ _ _ _ H) as Hfound.
  cbn [ss_foundOne orb] in Hfound. split.
  - rewrite Hfound, negb_involutive. reflexivity.
  - intros Hf. rewrite Hf in Hfound.
    assert (Hsrc : isSourceLoop neighbors currentBand previousBand = true)
      by (destruct (isSourceLoop neighbors currentBand previousBand);
          [reflexivity|discriminate Hfound]).
    clear Hfound Hf Hn. revert H.
    induction neighbors as [|neighbor rest IH]; intros H;
      cbn [nodeStartLoop isSourceLoop] in *.
    + injection H as <-. split; reflexivity.
    + destruct (inBand currentBand neighbor) eqn:Bc; [discriminate Hsrc|].
      destruct (inBand previousBand neighbor) eqn:Bp; [discriminate Hsrc|].
      unfold nodeStartNeighbor in H. rewrite Bc, Bp in H.
      cbn [andb negb bindOpt] in H. apply IH; assumption.
Qed.

Lemma getNodeStartSlice_foundOne_witness :
  match
    nodeStartLoop levelColumn halfColumn [true; true] [true; true] [0%nat]
      (mkStartSliceState defaultWordSlice defaultWordSlice false false)
  with
  | Some s =>
      isSource fastPathGraph 1 [true; true] [true; true]
      = Some (negb (ss_foundOne s)) /\
      (ss_foundOne s = false ->
       ss_previous s = defaultWordSlice /\ ss_foundOneUp s = false)
  | None => False
  end.
Proof.
  destruct (nodeStartLoop levelColumn halfColumn [true; true] [true; true]
              [0%nat]
              (mkStartSliceState defaultWordSlice defaultWordSlice false
                 false)) as [s|] eqn:E.
  - apply (getNodeStartSlice_foundOne fastPathGraph 1 levelColumn halfColumn
             [true; true] [true; true] [0%nat] s).
    + reflexivity.
    + exact E.
  - vm_compute in E. discriminate E.
Defined.

(** ** Where the trace of [backtraceInner] ends *)

Section BacktraceEnd.

Variable g : AlignmentGraph.
Hypothesis wf : graphWellFormed g.

Lemma anchored_grow (init current : ExpandoCell)
  (visited : list ExpandoCell) :
  anchored init visited -> (visited = [] -> current = init) ->
  anchored init (visited ++ [current]).
Proof.
  intros Ha Hc c Hhd. destruct visited as [|v vs].
  - cbn in Hhd. injection Hhd as <-. apply Hc. reflexivity.
  - cbn in Hhd. apply Ha. exact Hhd.
Qed.

Lemma backtraceExpand_visited (sequence : list ascii) (mins : list Z)
  (scoreAtEnd currentDistance : Z) (visited : list ExpandoCell)
  (cells : VisitedCells) (current : ExpandoCell)
  (cdq plusOne : list ExpandoCell) (r : LoopResult BacktraceState) :
  backtraceExpand g sequence mins scoreAtEnd currentDistance visited cells
    current cdq plusOne = Some r ->
  bt_visitedExpandos (loopState r) = visited \/
  bt_visitedExpandos (loopState r) = visited ++ [current].
Proof.
  intros H. unfold backtraceExpand in H.
  destruct (Nat.eqb (snd (position current)) 0);
    [injection H as <-; right; reflexivity|].
  unfold bindOpt in H.
  destruct (nth_error mins _); [|discriminate].
  destruct (currentDistance >? _); [injection H as <-; left; reflexivity|].
  destruct (visitedGet cells _ _); [injection H as <-; left; reflexivity|].
  destruct (nth_error (indexToNode g) _); [|discriminate].
  destruct (nth_error (nodeStart g) _); [|discriminate].
  destruct (Nat.eqb _ _).
  - destruct (nth_error (inNeighbors g) _) as [[|nb ns]|]; [| |discriminate].
    + injection H as <-. right. reflexivity.
    + destruct (charMatches sequence g _ _); [|discriminate].
      destruct (pushInNeighbors g _ _ _ _ _); [|discriminate].
      injection H as <-. right. reflexivity.
  - destruct (charMatches sequence g _ _); [|discriminate].
    injection H as <-. right. reflexivity.
Qed.

Lemma backtraceIteration_anchored (init : ExpandoCell)
  (sequence : list ascii) (mins : list Z) (scoreAtEnd : Z)
  (s : BacktraceState) (r : LoopResult BacktraceState) :
  backtraceInvariant g init s ->
  anchored init (bt_visitedExpandos s) ->
  backtraceIteration g sequence mins scoreAtEnd s = Some r ->
  anchored init (bt_visitedExpandos (loopState r)).
Proof.
  intros [_ [_ HC]] Ha H. unfold backtraceIteration in H.
  destruct (bt_currentDistanceQueue s) as [|c0 q0] eqn:Hq.
  - cbn [app] in HC.
    destruct (bt_currentDistancePlusOneQueue s) as [|current cdq] eqn:Hp;
      [discriminate|].
    destruct (backtraceExpand_visited _ _ _ _ _ _ _ _ _ _ H) as [->| ->];
      [exact Ha|].
    apply anchored_grow; [exact Ha|]. intros He.
    destruct (HC He) as [Hnil|Hone]; [discriminate|]. congruence.
  - destruct (backtraceExpand_visited _ _ _ _ _ _ _ _ _ _ H) as [->| ->];
      [exact Ha|].
    apply anchored_grow; [exact Ha|]. intros He.
    destruct (HC He) as [Hnil|Hone]; [discriminate|].
    cbn [app] in Hone. congruence.
Qed.

Lemma backtraceLoop_anchored (init : ExpandoCell) (sequence : list ascii)
  (mins : list Z) (scoreAtEnd : Z) (fuel : nat) :
  forall s s',
    backtraceInvariant g init s ->
    anchored init (bt_visitedExpandos s) ->
    backtraceLoop fuel g sequence mins scoreAtEnd s = Some s' ->
    anchored init (bt_visitedExpandos s').
Proof.
  induction fuel as [|fuel IH]; intros s s' Hinv Ha H; [discriminate|].
  cbn [backtraceLoop] in H. unfold bindOpt in H.
  destruct (backtraceIteration g sequence mins scoreAtEnd s) as [r|] eqn:Hit;
    [|discriminate].
  pose proof (backtraceIteration_invariant g wf init sequence mins
                scoreAtEnd s r Hinv Hit) as Hr.
  pose proof (backtraceIteration_anchored init sequence mins scoreAtEnd s r
                Hinv Ha Hit) as Har.
  destruct r as [s1|s1]; cbn [loopState] in Har.
  - apply (IH s1 s' Hr Har H).
  - injection H as <-. exact Har.
Qed.

(** The last position that the walk over the back pointers records belongs
    to a cell whose back pointer is the first recorded cell. *)
Lemma walkBackpointers_last (visited : list ExpandoCell) (fuel : nat) :
  forall index acc result,
    walkBackpointers fuel visited index acc = Some result ->
    index <> 0%nat ->
    exists front k c,
      result = front ++ [position c] /\
      nth_error visited k = Some c /\ k <> 0%nat /\
      backtraceIndex c = 0%nat.
Proof.
  induction fuel as [|fuel IH]; intros index acc result H Hne.
  - destruct index; [contradiction|discriminate].
  - destruct index as [|index']; [contradiction|].
    cbn [walkBackpointers] in H. unfold bindOpt in H.
    destruct (nth_error visited (S index')) as [cell|] eqn:Hcell;
      [|discriminate].
    destruct (Nat.eq_dec (backtraceIndex cell) 0) as [Hz|Hnz].
    + rewrite Hz in H. destruct fuel; cbn in H; injection H as <-;
        exists acc, (S index'), cell; auto.
    + apply (IH _ _ _ H Hnz).
Qed.

Lemma rows_below_last (trace : list MatrixPosition) (bound : nat) :
  consecutive (fun a b => (snd a <= snd b)%nat) trace ->
  (forall front last, trace = front ++ [last] -> (snd last <= bound)%nat) ->
  Forall (fun p => (snd p <= bound)%nat) trace.
Proof.
  induction trace as [|a rest IH]; intros Hsorted Hlast; [constructor|].
  destruct rest as [|b rest'].
  - constructor; [|constructor]. apply (Hlast [] a). reflexivity.
  - cbn [consecutive] in Hsorted. destruct Hsorted as [Hab Hrest].
    assert (Hall : Forall (fun p => (snd p <= bound)%nat) (b :: rest')).
    { apply IH; [exact Hrest|]. intros front last Heq.
      apply (Hlast (a :: front) last). rewrite Heq. reflexivity. }
    constructor; [|exact Hall]. inversion Hall; subst. lia.
Qed.

Lemma backtraceInner_end (fuel : nat) (endPosition : MatrixPosition)
  (sequence : list ascii) (minScores : list Z) (distance : Z)
  (trace : list MatrixPosition) :
  backtraceInner fuel g endPosition sequence minScores
    = Some (distance, trace) ->
  ((forall front last,
      trace = front ++ [last] -> traceStep g last endPosition) /\
   Forall (fun p => (snd p <= snd endPosition)%nat) trace) /\
  consecutive (fun a b => (snd a <= snd b)%nat) trace.
Proof.
  intros H. unfold backtraceInner, bindOpt in H.
  destruct (nth_error minScores (List.length minScores - 1))
    as [scoreAtEnd|]; [|discriminate].
  set (init := mkExpandoCell endPosition 0) in *.
  destruct (backtraceLoop fuel g sequence minScores scoreAtEnd
              (mkBacktraceState 0 [] [init] [] [])) as [s|] eqn:Hloop;
    [|discriminate].
  assert (Hinv : backtraceInvariant g init
                   (mkBacktraceState 0 [] [init] [] [])).
  { split; [|split]; cbn [bt_visitedExpandos bt_currentDistanceQueue
      bt_currentDistancePlusOneQueue].
    - intros k c Hk. destruct k; discriminate.
    - intros Hne. contradiction.
    - intros _. right. reflexivity. }
  assert (Ha0 : anchored init
                  (bt_visitedExpandos (mkBacktraceState 0 [] [init] [] [])))
    by (intros c Hc; discriminate Hc).
  pose proof (backtraceLoop_finished g wf init sequence minScores scoreAtEnd
                fuel _ s Hinv Hloop) as [HA _].
  pose proof (backtraceLoop_anchored init sequence minScores scoreAtEnd fuel
                _ s Hinv Ha0 Hloop) as Ha.
  destruct (walkBackpointers fuel (bt_visitedExpandos s)
              (List.length (bt_visitedExpandos s) - 1) []) as [result|]
    eqn:Hwalk; [|discriminate].
  injection H as _ <-.
  assert (Hlast : forall front last,
            result = front ++ [last] -> traceStep g last endPosition).
  { intros front last Heq.
    destruct (Nat.eq_dec (List.length (bt_visitedExpandos s) - 1) 0)
      as [Hz|Hnz].
    - rewrite Hz in Hwalk. destruct fuel; cbn in Hwalk;
        injection Hwalk as <-; destruct front; discriminate Heq.
    - destruct (walkBackpointers_last _ _ _ _ _ Hwalk Hnz)
        as (front' & k & c & Hres & Hk & Hk0 & Hidx).
      rewrite Hres in Heq. apply app_inj_tail in Heq.
      destruct Heq as [_ <-].
      destruct (HA k c Hk Hk0) as [_ [parent [Hp Hstep]]].
      rewrite Hidx in Hp.
      assert (Hparent : parent = init).
      { apply Ha. destruct (bt_visitedExpandos s); [discriminate Hp|].
        exact Hp. }
      rewrite Hparent in Hstep. exact Hstep. }
  destruct (walkBackpointers_chain g (bt_visitedExpandos s) fuel HA _ _ _
              Hwalk) as [chain [Hres [Hchain _]]].
  cbn [app] in Hres. subst chain.
  pose proof (consecutive_rows_sorted g _ Hchain) as Hsorted.
  split; [|exact Hsorted]. split; [exact Hlast|].
  apply rows_below_last; [exact Hsorted|].
  intros front last Heq. destruct (Hlast front last Heq) as [Hrow _].
  cbn [snd] in Hrow. lia.
Qed.


End BacktraceEnd.

(** X20.  The trace [backtraceInner] returns leads up to the end
    position: its last element is one trace step before [endPosition], and
    no element lies in a row below that of [endPosition]. *)
Theorem backtraceInner_reaches_end (g : AlignmentGraph) (fuel : nat)
  (endPosition : MatrixPosition) (sequence : list ascii)
  (minScores : list Z) (distance : Z) (trace : list MatrixPosition) :
  graphWellFormed g ->
  backtraceInner fuel g endPosition sequence minScores
    = Some (distance, trace) ->
  (forall front last,
     trace = front ++ [last] -> traceStep g last endPosition) /\
  Forall (fun p => (snd p <= snd endPosition)%nat) trace.
Proof.
  intros wf H.
  apply (proj1 (backtraceInner_end g wf fuel endPosition sequence minScores
                  distance trace H)).
Qed.

Lemma backtraceInner_reaches_end_witness :
  (forall front last,
     [(0, 0); (1, 1); (2, 2)]%nat = front ++ [last] ->
     traceStep fastPathGraph last (3, 3)%nat) /\
  Forall (fun p => (snd p <= snd (3, 3)%nat)%nat)
    [(0, 0); (1, 1); (2, 2)]%nat.
Proof.
  apply (backtraceInner_reaches_end fastPathGraph 100 (3, 3)%nat
           ["A"; "G"; "T"]%char [0; 1] 1 [(0, 0); (1, 1); (2, 2)]%nat).
  - apply fastPathGraph_wellFormed.
  - vm_compute. reflexivity.
Defined.

(** ** The path that [traceToAlignment] builds *)

Section AlignmentPath.

Variable AlignmentScoreMax : Z.
Variable graph : AlignmentGraph.

(** Every mapping of [mappings] has its index as rank and one edit. *)
Let ranked (mappings : list Mapping) : Prop :=
  forall k m, nth_error mappings k = Some m ->
              rank m = k /\ List.length (edits m) = 1%nat.

Lemma ranked_snoc (done : list Mapping) (current : Mapping) (e : Edit) :
  ranked done -> rank current = List.length done -> edits current = [] ->
  ranked (done ++ [addEdit current e]).
Proof.
  intros Hdone Hrank Hedits k m Hk.
  destruct (Nat.lt_ge_cases k (List.length done)) as [Hlt|Hge].
  - rewrite nth_error_app1 in Hk by exact Hlt. apply Hdone. exact Hk.
  - rewrite nth_error_app2 in Hk by exact Hge.
    destruct (k - List.length done)%nat as [|d] eqn:Hd.
    + injection Hk as <-. unfold addEdit. cbn [rank edits].
      rewrite Hedits. split; [lia|reflexivity].
    + destruct d; discriminate Hk.
Qed.

Lemma mappingLoop_ranked (sequence : list ascii)
  (trace : list MatrixPosition) :
  forall oldNode btNodeStart btNodeEnd done current done' current'
         btNodeStart' btNodeEnd',
    ranked done -> rank current = List.length done -> edits current = [] ->
    mappingLoop graph sequence trace oldNode btNodeStart btNodeEnd done
      current = Some (done', current', btNodeStart', btNodeEnd') ->
    ranked done' /\ rank current' = List.length done' /\
    edits current' = [].
Proof.
  induction trace as [|p rest IH];
    intros oldNode bs be done current done' current' bs' be' Hdone Hrank
      Hedits H; cbn [mappingLoop] in H.
  - injection H as <- <- _ _. auto.
  - unfold bindOpt in H.
    destruct (nth_error (indexToNode graph) (fst p)) as [node|];
      [|discriminate].
    destruct (Nat.eqb node (dummyNodeEnd graph));
      [injection H as <- <- _ _; auto|].
    destruct (Nat.eqb node oldNode);
      [apply (IH _ _ _ _ _ _ _ _ _ Hdone Hrank Hedits H)|].
    destruct (substr sequence (snd bs) (snd be - snd bs + 1)) as [s|];
      [|discriminate].
    unfold newMapping, bindOpt in H.
    destruct (nth_error (nodeIDs graph) node) as [id|]; [|discriminate].
    destruct (nth_error (reverse graph) node) as [r|]; [|discriminate].
    apply (IH _ _ _ _ _ _ _ _ _) in H; [exact H| | |reflexivity].
    + apply ranked_snoc; assumption.
    + cbn [rank addEdit]. rewrite length_app. cbn [List.length]. lia.
Qed.

Lemma traceToAlignment_ranked (seq_id sequence : list ascii)
  (alignmentScore : Z) (trace : list MatrixPosition) (cells : nat)
  (result : AlignmentResult) :
  traceToAlignment AlignmentScoreMax graph seq_id sequence alignmentScore
    trace cells = Some result ->
  ar_cellsProcessed result = cells /\
  (alignmentFailed result = true <-> path (alignment result) = []) /\
  (alignmentFailed result = false ->
   name (alignment result) = seq_id /\
   score (alignment result) = alignmentScore /\
   al_sequence (alignment result) = sequence) /\
  forall k m, nth_error (path (alignment result)) k = Some m ->
              rank m = k /\ List.length (edits m) = 1%nat.
Proof.
  intros H.
  assert (Hfail : forall r,
            alignmentFailed r = true -> path (alignment r) = [] ->
            ar_cellsProcessed r = cells ->
            ar_cellsProcessed r = cells /\
            (alignmentFailed r = true <-> path (alignment r) = []) /\
            (alignmentFailed r = false ->
             name (alignment r) = seq_id /\
             score (alignment r) = alignmentScore /\
             al_sequence (alignment r) = sequence) /\
            forall k m, nth_error (path (alignment r)) k = Some m ->
                        rank m = k /\ List.length (edits m) = 1%nat).
  { intros r Hf Hp Hc. split; [exact Hc|]. split; [tauto|].
    split; [congruence|]. intros k m Hk. rewrite Hp in Hk.
    destruct k; discriminate Hk. }
  unfold traceToAlignment in H.
  destruct trace as [|t0 trace']; [injection H as <-; apply Hfail;
                                   reflexivity|].
  unfold bindOpt in H.
  destruct (skipDummyStart graph (t0 :: trace')) as [skipped|];
    [|discriminate].
  destruct skipped as [[oldNode [|first rest]]|];
    [injection H as <-; apply Hfail; reflexivity| |
     injection H as <-; apply Hfail; reflexivity].
  destruct (Nat.eqb oldNode (dummyNodeEnd graph));
    [injection H as <-; apply Hfail; reflexivity|].
  destruct (nth_error (nodeStart graph) oldNode) as [start|];
    [|discriminate].
  destruct (newMapping graph oldNode (fst first - start) 0) as [m0|]
    eqn:Hm0; [|discriminate].
  destruct (mappingLoop graph sequence (first :: rest) oldNode first first
              [] m0) as [[[[done current] bs] be]|] eqn:Hloop;
    [|discriminate].
  destruct (substr sequence (snd bs) (snd be - snd bs)) as [s|];
    [|discriminate].
  injection H as <-.
  cbn [ar_cellsProcessed alignmentFailed alignment path name score
       al_sequence].
  unfold newMapping, bindOpt in Hm0.
  destruct (nth_error (nodeIDs graph) oldNode) as [id|]; [|discriminate].
  destruct (nth_error (reverse graph) oldNode) as [r|]; [|discriminate].
  injection Hm0 as <-.
  apply mappingLoop_ranked in Hloop;
    [|intros k m Hk; destruct k; discriminate Hk|reflexivity|reflexivity].
  destruct Hloop as (Hdone & Hrank & Hedits).
  split; [reflexivity|]. split.
  - split; [discriminate|]. intros Hnil. destruct done; discriminate Hnil.
  - split; [auto|]. apply ranked_snoc; assumption.
Qed.

End AlignmentPath.

(** X21.  What [traceToAlignment] returns: the alignment is marked failed
    exactly when its path is empty; an alignment that is not failed carries
    the read's name, the score and the read; and the mappings of the path
    are ranked 0, 1, 2, ... in path order, each with exactly one edit. *)
Theorem traceToAlignment_path (AlignmentScoreMax : Z)
  (graph : AlignmentGraph) (seq_id sequence : list ascii)
  (alignmentScore : Z) (trace : list MatrixPosition) (cells : nat)
  (result : AlignmentResult) :
  traceToAlignment AlignmentScoreMax graph seq_id sequence alignmentScore
    trace cells = Some result ->
  ar_cellsProcessed result = cells /\
  (alignmentFailed result = true <-> path (alignment result) = []) /\
  (alignmentFailed result = false ->
   name (alignment result) = seq_id /\
   score (alignment result) = alignmentScore /\
   al_sequence (alignment result) = sequence) /\
  forall k m, nth_error (path (alignment result)) k = Some m ->
              rank m = k /\ List.length (edits m) = 1%nat.
Proof.
  intros H.
  apply (traceToAlignment_ranked AlignmentScoreMax graph seq_id sequence
           alignmentScore trace cells result H).
Qed.

Lemma traceToAlignment_path_witness :
  match
    traceToAlignment 1000 fastPathGraph ["r"%char] ["A"; "G"; "T"]%char 1
      [(0, 0); (1, 1); (2, 2)]%nat 7
  with
  | Some result =>
      ar_cellsProcessed result = 7%nat /\
      (alignmentFailed result = true <-> path (alignment result) = []) /\
      (alignmentFailed result = false ->
       name (alignment result) = ["r"%char] /\
       score (alignment result) = 1 /\
       al_sequence (alignment result) = ["A"; "G"; "T"]%char) /\
      forall k m, nth_error (path (alignment result)) k = Some m ->
                  rank m = k /\ List.length (edits m) = 1%nat
  | None => False
  end.
Proof.
  destruct (traceToAlignment 1000 fastPathGraph ["r"%char]
              ["A"; "G"; "T"]%char 1 [(0, 0); (1, 1); (2, 2)]%nat 7)
    as [result|] eqn:E.
  - apply (traceToAlignment_path 1000 fastPathGraph ["r"%char]
             ["A"; "G"; "T"]%char 1 [(0, 0); (1, 1); (2, 2)]%nat 7 result E).
  - vm_compute in E. discriminate E.
Defined.

(** ** The clamps of [calculateNode] *)

Lemma sourceSlice_cells (score : Z) (k : nat) :
  (k <= 64)%nat ->
  cellScore (mkWordSlice AllOnes AllZeros (score + WordSize) score) k
  = score + Z.of_nat k.
Proof.
  intros Hk. unfold cellScore. cbn [VP VN scoreBeforeStart].
  change AllZeros with 0.
  rewrite countBits_AllOnes, countBits_zero by lia. lia.
Qed.

Lemma cellScore_upper (s : WordSlice) (k : nat) :
  cellScore s k <= scoreBeforeStart s + Z.of_nat k.
Proof.
  unfold cellScore.
  pose proof (countBits_range k (VP s)). pose proof (countBits_range k (VN s)).
  lia.
Qed.

(** X22.  The two clamps [calculateNode] applies to a freshly computed
    slice leave the row-wise minimum of three columns: the computed one, the
    column that starts at row [j] and pays one per row, and, for a node of
    the previous band, the column that starts at the old end score and pays
    one per row. *)
Theorem clampSlice_cells (inPreviousBand : bool) (oldScoreEnd : Z) (j : nat)
  (s : WordSlice) (k : nat) :
  goodSlice s -> (inPreviousBand = true -> 0 <= oldScoreEnd) ->
  (k <= 64)%nat ->
  cellScore (clampSlice inPreviousBand oldScoreEnd j s) k
  = Z.min (if inPreviousBand
           then Z.min (cellScore s k) (oldScoreEnd + Z.of_nat k)
           else cellScore s k)
          (Z.of_nat j + Z.of_nat k).
Proof.
  intros G Hold Hk. unfold clampSlice.
  set (s1 := if inPreviousBand && (scoreBeforeStart s >? oldScoreEnd)
             then mergeTwoSlices (getSourceSliceFromScore oldScoreEnd) s
             else s).
  assert (H1 : goodSlice s1 /\
               cellScore s1 k
               = if inPreviousBand
                 then Z.min (cellScore s k) (oldScoreEnd + Z.of_nat k)
                 else cellScore s k).
  { unfold s1. destruct inPreviousBand; cbn [andb]; [|auto].
    specialize (Hold eq_refl).
    pose proof (getSourceSliceFromScore_good oldScoreEnd Hold) as Gs.
    pose proof (cellScore_upper s k) as Hup.
    destruct (Z.gtb_spec (scoreBeforeStart s) oldScoreEnd) as [Hgt|Hle].
    - split; [apply mergeTwoSlices_good; assumption|].
      rewrite mergeTwoSlices_cells by assumption.
      unfold getSourceSliceFromScore. rewrite sourceSlice_cells by exact Hk.
      lia.
    - split; [exact G|]. lia. }
  destruct H1 as [G1 E1]. rewrite <- E1. clearbody s1.
  pose proof (cellScore_upper s1 k) as Hup1.
  assert (Hj : 0 <= Z.of_nat j) by lia.
  pose proof (getSourceSliceWithoutBefore_good (Z.of_nat j) Hj) as Gj.
  destruct (Z.gtb_spec (scoreBeforeStart s1) (Z.of_nat j)) as [Hgt|Hle].
  - rewrite mergeTwoSlices_cells by assumption.
    unfold getSourceSliceWithoutBefore.
    rewrite sourceSlice_cells by exact Hk. lia.
  - lia.
Qed.

Lemma clampSlice_cells_witness :
  cellScore (clampSlice true 3 2 (mkWordSlice 5 2 4 3)) 3
  = Z.min (if true
           then Z.min (cellScore (mkWordSlice 5 2 4 3) 3)
                      (3 + Z.of_nat 3)
           else cellScore (mkWordSlice 5 2 4 3) 3)
          (Z.of_nat 2 + Z.of_nat 3).
Proof.
  apply (clampSlice_cells true 3 2 (mkWordSlice 5 2 4 3) 3).
  - apply goodSliceb_sound. reflexivity.
  - intros _. lia.
  - lia.
Defined.

(** ** The rows of the padding *)




Section Padding.

Variables ScoreMax : Z.
Variable LengthMax : nat.
Variable graph : AlignmentGraph.
Variable projectForwardAndExpandBand :
  Band -> nat -> Z -> Band * list nat * list nat.
Variable cutCycles :
  nat -> list ascii -> Z -> Z -> Z -> Z -> NodeSlice -> NodeSlice ->
  Band -> Band -> list nat -> option NodeSlice.
Variable fuel : nat.

Hypothesis wf : graphWellFormed graph.



End Padding.




(** ** [reverseTrace] is its own inverse *)

Section ReverseTrace.

Variable GetReversePosition : nat -> nat.
Variable LengthMax : nat.

Let mirror (top : nat) (p : MatrixPosition) : MatrixPosition :=
  (GetReversePosition (fst p), (top - snd p)%nat).

Lemma reverseTrace_mirror (trace : list MatrixPosition) (lastPos : MatrixPosition)
  (front : list MatrixPosition) :
  trace = front ++ [lastPos] ->
  Forall (fun p => (snd p <= snd lastPos)%nat) trace ->
  reverseTrace GetReversePosition LengthMax trace
  = map (mirror (snd lastPos)) (rev trace).
Proof.
  intros Heq Hall. unfold reverseTrace.
  assert (Hrev : rev trace = lastPos :: rev front).
  { rewrite Heq, rev_app_distr. reflexivity. }
  rewrite Hrev. cbv zeta. cbn [snd]. rewrite <- Hrev.
  apply map_ext_in. intros p Hp. unfold mirror, lengthSub. f_equal.
  rewrite <- in_rev in Hp. rewrite Forall_forall in Hall.
  specialize (Hall p Hp).
  destruct (Nat.leb_spec (snd p) (snd lastPos)); [reflexivity|lia].
Qed.

Lemma sorted_below_last (trace front : list MatrixPosition)
  (lastPos : MatrixPosition) :
  trace = front ++ [lastPos] ->
  consecutive (fun a b => (snd a <= snd b)%nat) trace ->
  Forall (fun p => (snd p <= snd lastPos)%nat) trace.
Proof.
  intros Heq Hsorted. apply rows_below_last; [exact Hsorted|].
  intros front' last' Heq'. rewrite Heq in Heq'.
  apply app_inj_tail in Heq'. destruct Heq' as [_ <-]. lia.
Qed.

Lemma consecutive_mirror (top : nat) (l : list MatrixPosition) :
  Forall (fun p => (snd p <= top)%nat) l ->
  consecutive (fun a b => (snd b <= snd a)%nat) l ->
  consecutive (fun a b => (snd a <= snd b)%nat) (map (mirror top) l).
Proof.
  induction l as [|a l IH]; intros Hall Hdesc; [exact I|].
  destruct l as [|b l']; [exact I|].
  cbn [map consecutive] in *. destruct Hdesc as [Hab Hrest].
  inversion Hall as [|? ? Ha Hall']; subst.
  split; [unfold mirror; cbn [snd]; lia|]. apply IH; assumption.
Qed.

Lemma consecutive_rev (l : list MatrixPosition) :
  consecutive (fun a b => (snd a <= snd b)%nat) l ->
  consecutive (fun a b => (snd b <= snd a)%nat) (rev l).
Proof.
  induction l as [|a l IH]; intros H; [exact I|].
  cbn [rev].
  assert (Hl : consecutive (fun a b => (snd a <= snd b)%nat) l).
  { destruct l as [|b l']; [exact I|]. cbn [consecutive] in H. apply H. }
  specialize (IH Hl).
  assert (Hhead : forall b l', l = b :: l' -> (snd a <= snd b)%nat).
  { intros b l' ->. cbn [consecutive] in H. apply H. }
  clear H Hl. destruct l as [|b l']; [exact I|].
  specialize (Hhead b l' eq_refl). cbn [rev] in *.
  revert IH. generalize (rev l'). intros r. induction r as [|x r IHr].
  - cbn. intros _. split; [exact Hhead|exact I].
  - intros H. cbn [app]. destruct r as [|y r'].
    + cbn [app consecutive] in *. split; [apply H|].
      split; [exact Hhead|exact I].
    + cbn [app consecutive] in *. destruct H as [Hxy Hrest].
      split; [exact Hxy|]. apply IHr. exact Hrest.
Qed.

Lemma reverseTrace_involutive_here (trace : list MatrixPosition) :
  Forall (fun p => GetReversePosition (GetReversePosition (fst p)) = fst p)
    trace ->
  consecutive (fun a b => (snd a <= snd b)%nat) trace ->
  (forall first rest, trace = first :: rest -> snd first = 0%nat) ->
  reverseTrace GetReversePosition LengthMax
    (reverseTrace GetReversePosition LengthMax trace) = trace /\
  List.length (reverseTrace GetReversePosition LengthMax trace)
    = List.length trace /\
  consecutive (fun a b => (snd a <= snd b)%nat)
    (reverseTrace GetReversePosition LengthMax trace) /\
  (forall first rest,
     reverseTrace GetReversePosition LengthMax trace = first :: rest ->
     snd first = 0%nat).
Proof.
  intros involution Hsorted Hzero.
  destruct (rev trace) as [|lastPos revFront] eqn:Hrev.
  { assert (trace = []) as ->.
    { rewrite <- (rev_involutive trace), Hrev. reflexivity. }
    cbn. repeat split; try reflexivity. intros first rest Hc.
    discriminate Hc. }
  assert (Heq : trace = rev revFront ++ [lastPos]).
  { rewrite <- (rev_involutive trace), Hrev. reflexivity. }
  pose proof (sorted_below_last trace _ lastPos Heq Hsorted) as Hall.
  pose proof (reverseTrace_mirror trace lastPos _ Heq Hall) as Hfirst.
  set (top := snd lastPos) in *.
  assert (Hmirrored :
    consecutive (fun a b => (snd a <= snd b)%nat)
      (map (mirror top) (rev trace))).
  { apply consecutive_mirror; [|apply consecutive_rev; exact Hsorted].
    apply Forall_rev. exact Hall. }
  assert (Hhead : forall first rest,
            map (mirror top) (rev trace) = first :: rest ->
            snd first = 0%nat).
  { intros first rest Hc. rewrite Hrev in Hc. cbn [map] in Hc.
    injection Hc as <- _. unfold mirror, top. cbn [snd]. lia. }
  rewrite Hfirst. split; [|split; [|split]].
  - (* the second pass *)
    destruct trace as [|p0 rest0] eqn:Ht;
      [destruct (rev revFront); discriminate Heq|].
    pose proof (Hzero p0 rest0 eq_refl) as Hp0.
    assert (Hsecond : map (mirror top) (rev (p0 :: rest0))
                      = map (mirror top) (rev rest0) ++ [mirror top p0]).
    { cbn [rev]. rewrite map_app. reflexivity. }
    rewrite (reverseTrace_mirror _ (mirror top p0)
               (map (mirror top) (rev rest0)) Hsecond).
    + rewrite <- map_rev, rev_involutive, map_map.
      rewrite <- (map_id (p0 :: rest0)) at 2.
      apply map_ext_in. intros p Hp. unfold mirror. cbn [fst snd].
      rewrite Forall_forall in involution. rewrite (involution p Hp).
      rewrite Hp0, Nat.sub_0_r.
      rewrite Forall_forall in Hall. specialize (Hall p Hp). fold top in Hall.
      destruct p as [w r]. cbn [fst snd] in *. f_equal. lia.
    + apply Forall_forall. intros q Hq. apply in_map_iff in Hq.
      destruct Hq as [p [<- Hp]]. unfold mirror. cbn [snd]. lia.
  - rewrite length_map, length_rev. reflexivity.
  - exact Hmirrored.
  - exact Hhead.
Qed.

End ReverseTrace.

(** X24.  [reverseTrace] undoes itself.  For a trace whose rows never
    decrease and start at row 0, as [backtraceInner] returns them, and a
    graph whose [GetReversePosition] is its own inverse on the positions of
    the trace: reversing twice gives the trace back, and the reversed trace
    has the same length, rows that never decrease and first row 0 again. *)
Theorem reverseTrace_involutive (GetReversePosition : nat -> nat)
  (LengthMax : nat) (trace : list MatrixPosition) :
  Forall (fun p => GetReversePosition (GetReversePosition (fst p)) = fst p)
    trace ->
  consecutive (fun a b => (snd a <= snd b)%nat) trace ->
  (forall first rest, trace = first :: rest -> snd first = 0%nat) ->
  reverseTrace GetReversePosition LengthMax
    (reverseTrace GetReversePosition LengthMax trace) = trace /\
  List.length (reverseTrace GetReversePosition LengthMax trace)
    = List.length trace /\
  consecutive (fun a b => (snd a <= snd b)%nat)
    (reverseTrace GetReversePosition LengthMax trace) /\
  (forall first rest,
     reverseTrace GetReversePosition LengthMax trace = first :: rest ->
     snd first = 0%nat).
Proof.
  intros Hinv Hsorted Hzero.
  apply (reverseTrace_involutive_here GetReversePosition LengthMax trace
           Hinv Hsorted Hzero).
Qed.

Lemma reverseTrace_involutive_witness :
  reverseTrace (fun p => 3 - p)%nat 1000
    (reverseTrace (fun p => 3 - p)%nat 1000 [(0, 0); (1, 1); (2, 2)]%nat)
  = [(0, 0); (1, 1); (2, 2)]%nat /\
  List.length
    (reverseTrace (fun p => 3 - p)%nat 1000 [(0, 0); (1, 1); (2, 2)]%nat)
  = List.length [(0, 0); (1, 1); (2, 2)]%nat /\
  consecutive (fun a b => (snd a <= snd b)%nat)
    (reverseTrace (fun p => 3 - p)%nat 1000 [(0, 0); (1, 1); (2, 2)]%nat) /\
  (forall first rest,
     reverseTrace (fun p => 3 - p)%nat 1000 [(0, 0); (1, 1); (2, 2)]%nat
     = first :: rest ->
     snd first = 0%nat).
Proof.
  apply (reverseTrace_involutive (fun p => 3 - p)%nat 1000
           [(0, 0); (1, 1); (2, 2)]%nat).
  - repeat constructor.
  - cbn. lia.
  - intros first rest H. injection H as <- _. reflexivity.
Defined.

(** ** The band around a seed node *)

Lemma popLeast_priorityQueue : priorityQueue popLeast.
Proof.
  split; [reflexivity|].
  induction queue as [|x rest IH]; intros Hne; [contradiction|].
  cbn [popLeast]. destruct rest as [|x' rest'].
  - cbn [popLeast]. exists x, []. split; [reflexivity|].
    split; [apply Permutation_refl|].
    intros entry [<-|[]]. lia.
  - destruct (IH ltac:(discriminate)) as (y & r & Hpop & Hperm & Hmin).
    rewrite Hpop. destruct (Nat.leb_spec (snd x) (snd y)) as [Hle|Hgt].
    + exists x, (x' :: rest'). split; [reflexivity|].
      split; [apply Permutation_refl|].
      intros entry [<-|Hin]; [lia|]. specialize (Hmin entry Hin). lia.
    + exists y, (x :: r). split; [reflexivity|]. split.
      * apply Permutation_trans with (x :: y :: r);
          [apply perm_skip; exact Hperm|apply perm_swap].
      * intros entry [<-|Hin]; [lia|]. apply Hmin. exact Hin.
Qed.

Lemma existsb_eqb_In (u : nat) (l : list nat) :
  existsb (Nat.eqb u) l = true <-> In u l.
Proof.
  rewrite existsb_exists. split.
  - intros [x [Hin He]]. apply Nat.eqb_eq in He. subst x. exact Hin.
  - intros Hin. exists u. split; [exact Hin|apply Nat.eqb_refl].
Qed.

Lemma inBand_setNth (band : Band) (u n : nat) :
  (u < List.length band)%nat ->
  inBand (setNth band u true) n = true <-> n = u \/ inBand band n = true.
Proof.
  unfold inBand. revert u n. induction band as [|b band IH]; intros u n Hu;
    [cbn in Hu; lia|].
  destruct u as [|u]; destruct n as [|n]; cbn [setNth nth].
  - split; [auto|reflexivity].
  - split; [auto|]. intros [Hc|H]; [discriminate Hc|exact H].
  - split; [auto|]. intros [Hc|H]; [discriminate Hc|exact H].
  - rewrite IH by (cbn in Hu; lia).
    split; (intros [H|H]; [left; congruence|right; exact H]).
Qed.

Lemma In_pushed (d : nat) (neighbors : list nat) :
  forall (rest : list (nat * nat)) (y : nat * nat),
    In y (fold_left (fun q neighbor => (neighbor, d) :: q) neighbors rest)
    <-> (exists x, In x neighbors /\ y = (x, d)) \/ In y rest.
Proof.
  induction neighbors as [|x neighbors IH]; intros rest y; cbn [fold_left].
  - split; [auto|]. intros [[x [[] _]]|H]. exact H.
  - rewrite IH. cbn [In]. split.
    + intros [[x' [Hin ->]]|[<-|H]]; [left; exists x'; auto| |auto].
      left. exists x. auto.
    + intros [[x' [[<-|Hin] ->]]|H]; [right; left; reflexivity| |auto].
      left. exists x'. auto.
Qed.

Lemma pushed_length (d : nat) (neighbors : list nat) :
  forall rest : list (nat * nat),
    List.length
      (fold_left (fun q neighbor => (neighbor, d) :: q) neighbors rest)
    = (List.length neighbors + List.length rest)%nat.
Proof.
  induction neighbors as [|x neighbors IH]; intros rest; cbn [fold_left];
    [reflexivity|].
  rewrite IH. cbn [List.length]. lia.
Qed.

Lemma pending_visit_list (outdeg : nat -> nat) (visited : list nat)
  (u : nat) (l : list nat) :
  NoDup l -> ~ In u visited ->
  (list_sum
     (map (fun v => if existsb (Nat.eqb v) (u :: visited) then 0
                    else outdeg v) l)
   + (if existsb (Nat.eqb u) l then outdeg u else 0)
   = list_sum
       (map (fun v => if existsb (Nat.eqb v) visited then 0
                      else outdeg v) l))%nat.
Proof.
  intros Hnd Hu. induction Hnd as [|v l Hv Hnd IH]; [reflexivity|].
  unfold list_sum in *. cbn [map fold_right].
  destruct (Nat.eq_dec u v) as [<-|Hne].
  - replace (existsb (Nat.eqb u) (u :: visited)) with true
      by (cbn [existsb]; rewrite Nat.eqb_refl; reflexivity).
    replace (existsb (Nat.eqb u) (u :: l)) with true
      by (cbn [existsb]; rewrite Nat.eqb_refl; reflexivity).
    assert (Hl : existsb (Nat.eqb u) l = false).
    { destruct (existsb (Nat.eqb u) l) eqn:E; [|reflexivity].
      apply existsb_eqb_In in E. contradiction. }
    rewrite Hl in IH.
    assert (Hvis : existsb (Nat.eqb u) visited = false).
    { destruct (existsb (Nat.eqb u) visited) eqn:E; [|reflexivity].
      apply existsb_eqb_In in E. contradiction. }
    rewrite Hvis. lia.
  - replace (existsb (Nat.eqb v) (u :: visited))
      with (existsb (Nat.eqb v) visited)
      by (cbn [existsb]; rewrite (proj2 (Nat.eqb_neq v u)) by lia;
          reflexivity).
    replace (existsb (Nat.eqb u) (v :: l)) with (existsb (Nat.eqb u) l)
      by (cbn [existsb]; rewrite (proj2 (Nat.eqb_neq u v)) by lia;
          reflexivity).
    lia.
Qed.

Lemma pending_visit (g : AlignmentGraph) (visited : list nat) (u : nat)
  (neighbors : list nat) :
  (u < List.length (nodeStart g))%nat -> ~ In u visited ->
  nth_error (outNeighbors g) u = Some neighbors ->
  (pendingEdges g (u :: visited) + List.length neighbors
   = pendingEdges g visited)%nat.
Proof.
  intros Hu Hv Hn. unfold pendingEdges.
  rewrite <- (pending_visit_list
                (fun v => List.length (nth v (outNeighbors g) []))
                visited u _ (seq_NoDup _ _) Hv).
  assert (Hin : existsb (Nat.eqb u) (seq 0 (List.length (nodeStart g)))
                = true).
  { apply existsb_eqb_In, in_seq. lia. }
  rewrite Hin. rewrite (nth_error_nth _ _ _ Hn). reflexivity.
Qed.

Section SeedBand.

Variable graph : AlignmentGraph.
Variable popMin :
  list (nat * nat) -> option ((nat * nat) * list (nat * nat)).
Variables seed width : nat.

Hypothesis Hqueue : priorityQueue popMin.
Hypothesis Htables : graphTables graph.

(** The loop invariant.  [reached v] is the distance at which node [v] was
    marked, [pushed] every entry the queue has ever held, and [latest] the
    distance of the last marked node. *)
Let bandInvariant (reached : nat -> nat) (pushed : list (nat * nat))
  (latest : nat) (queue : list (nat * nat)) (visited : list nat)
  (band : Band) : Prop :=
  List.length band = List.length (nodeStart graph) /\
  (forall n, inBand band n = true <-> In n visited) /\
  (forall v, In v visited ->
     (v < List.length (nodeStart graph))%nat /\ (reached v <= width)%nat /\
     entered graph seed v (reached v) /\ (reached v <= latest)%nat) /\
  (forall y, In y queue ->
     entered graph seed (fst y) (snd y) /\ (latest <= snd y)%nat /\
     (fst y < List.length (nodeStart graph))%nat) /\
  In (seed, 0%nat) pushed /\
  (forall v s e neighbors x,
     In v visited ->
     nth_error (nodeStart graph) v = Some s ->
     nth_error (nodeEnd graph) v = Some e ->
     nth_error (outNeighbors graph) v = Some neighbors ->
     In x neighbors -> In (x, (reached v + e - s)%nat) pushed) /\
  (forall y, In y pushed ->
     In y queue \/ (width < snd y)%nat \/
     (In (fst y) visited /\ (reached (fst y) <= snd y)%nat)).

Lemma entered_all_marked (reached : nat -> nat) (pushed : list (nat * nat))
  (latest : nat) (visited : list nat) (band : Band) :
  bandInvariant reached pushed latest [] visited band ->
  forall n d, entered graph seed n d -> (d <= width)%nat ->
              In n visited /\ (reached n <= d)%nat.
Proof.
  intros (_ & _ & _ & _ & Hseed & Hout & Hdone) n d He.
  destruct Htables as (_ & _ & Hsize & _).
  induction He as [|u d v s e neighbors He IH Hs Hend Hn Hv]; intros Hd.
  - destruct (Hdone _ Hseed) as [[]|[Hw|Hvis]]; [cbn in Hw; lia|exact Hvis].
  - pose proof (Hsize u s e Hs Hend) as Hse.
    destruct (IH ltac:(lia)) as [Hu Hru].
    pose proof (Hout u s e neighbors v Hu Hs Hend Hn Hv) as Hp.
    destruct (Hdone _ Hp) as [[]|[Hw|[Hvis Hr]]]; cbn [fst snd] in *;
      [lia|]. split; [exact Hvis|lia].
Qed.

Lemma extendBandLoop_returns (fuel : nat) :
  forall reached pushed latest queue visited band,
    bandInvariant reached pushed latest queue visited band ->
    (List.length queue + pendingEdges graph visited < fuel)%nat ->
    exists result,
      extendBandLoop graph popMin fuel width queue visited band
      = Some result /\
      List.length result = List.length (nodeStart graph) /\
      forall n, inBand result n = true
                <-> exists d, (d <= width)%nat /\ entered graph seed n d.
Proof.
  induction fuel as [|fuel IH];
    intros reached pushed latest queue visited band Hinv Hfuel; [lia|].
  cbn [extendBandLoop]. destruct queue as [|q0 queue0].
  - (* the queue is empty *)
    exists band. split; [reflexivity|].
    pose proof (entered_all_marked _ _ _ _ _ Hinv) as Hall.
    destruct Hinv as (Hlen & Hband & Hvis & _).
    split; [exact Hlen|]. intros n. rewrite Hband. split.
    + intros Hn. destruct (Hvis n Hn) as (_ & Hw & He & _).
      exists (reached n). auto.
    + intros [d [Hd He]]. apply (Hall n d He Hd).
  - set (queue := q0 :: queue0) in *.
    destruct Hqueue as [_ Hpop].
    destruct (Hpop queue ltac:(discriminate))
      as (top & rest & -> & Hperm & Hmin).
    cbn [bindOpt].
    assert (Hlenq : List.length queue = S (List.length rest)).
    { rewrite (Permutation_length Hperm). reflexivity. }
    assert (Hsplit : forall y, In y queue <-> y = top \/ In y rest).
    { intros y. split.
      - intros Hy. apply (Permutation_in _ Hperm) in Hy.
        destruct Hy as [<-|Hy]; auto.
      - intros Hy. apply (Permutation_in _ (Permutation_sym Hperm)).
        destruct Hy as [->|Hy]; [left; reflexivity|right; exact Hy]. }
    destruct Hinv as (Hlen & Hband & Hvis & Hq & Hseed & Hout & Hdone).
    destruct (Hq top (proj2 (Hsplit top) (or_introl eq_refl)))
      as (Htop & Hlatest & Hnode).
    destruct (Nat.ltb_spec width (snd top)) as [Hfar|Hnear].
    { (* beyond the width *)
      apply (IH reached pushed latest); [|lia].
      split; [exact Hlen|]. split; [exact Hband|]. split; [exact Hvis|].
      split; [intros y Hy; apply Hq, Hsplit; right; exact Hy|].
      split; [exact Hseed|]. split; [exact Hout|].
      intros y Hy. destruct (Hdone y Hy) as [Hin|Hother]; [|auto].
      apply Hsplit in Hin. destruct Hin as [->|Hin]; auto. }
    destruct (existsb (Nat.eqb (fst top)) visited) eqn:Hseen.
    { (* marked before *)
      apply existsb_eqb_In in Hseen.
      apply (IH reached pushed latest); [|lia].
      split; [exact Hlen|]. split; [exact Hband|]. split; [exact Hvis|].
      split; [intros y Hy; apply Hq, Hsplit; right; exact Hy|].
      split; [exact Hseed|]. split; [exact Hout|].
      intros y Hy. destruct (Hdone y Hy) as [Hin|Hother]; [|auto].
      apply Hsplit in Hin. destruct Hin as [->|Hin]; [|auto].
      right. right. split; [exact Hseen|].
      destruct (Hvis _ Hseen) as (_ & _ & _ & Hr). lia. }
    (* a new node *)
    assert (Hnew : ~ In (fst top) visited).
    { intros Hin. apply existsb_eqb_In in Hin. congruence. }
    destruct Htables as (Hends & Hnbs & Hsize & Hrange).
    destruct (nth_error (nodeEnd graph) (fst top)) as [e|] eqn:He;
      [|apply nth_error_None in He; lia].
    destruct (nth_error (nodeStart graph) (fst top)) as [s|] eqn:Hs;
      [|apply nth_error_None in Hs; lia].
    destruct (nth_error (outNeighbors graph) (fst top)) as [neighbors|]
      eqn:Hn; [|apply nth_error_None in Hn; lia].
    cbn [bindOpt].
    pose proof (Hsize _ _ _ Hs He) as Hse.
    set (reached' := fun v => if Nat.eqb v (fst top) then snd top
                              else reached v).
    assert (Hsame : forall v, In v visited -> reached' v = reached v).
    { intros v Hv. unfold reached'.
      destruct (Nat.eqb_spec v (fst top)) as [->|_];
        [contradiction|reflexivity]. }
    assert (Hmine : reached' (fst top) = snd top).
    { unfold reached'. rewrite Nat.eqb_refl. reflexivity. }
    apply (IH reached'
             (fold_left (fun q neighbor =>
                           (neighbor, (snd top + e - s)%nat) :: q)
                neighbors pushed) (snd top)).
    + split; [rewrite setNth_length; exact Hlen|].
      split.
      { intros n. rewrite inBand_setNth by lia. rewrite Hband.
        cbn [In]. split; intros [H|H]; auto. }
      split.
      { intros v [<-|Hv].
        - rewrite Hmine. repeat split; try lia. exact Htop.
        - rewrite (Hsame v Hv).
          destruct (Hvis v Hv) as (H1 & H2 & H3 & H4).
          repeat split; try assumption. lia. }
      split.
      { intros y Hy. apply In_pushed in Hy.
        destruct Hy as [[x [Hx ->]]|Hy]; cbn [fst snd].
        - split; [|split; [lia|apply (Hrange _ _ _ Hn Hx)]].
          apply (entered_step graph seed (fst top) (snd top) x s e
                   neighbors Htop Hs He Hn Hx).
        - destruct (Hq y (proj2 (Hsplit y) (or_intror Hy)))
            as (H1 & _ & H3).
          split; [exact H1|]. split; [|exact H3].
          apply Hmin, Hsplit. right. exact Hy. }
      split; [apply In_pushed; right; exact Hseed|].
      split.
      { intros v s' e' neighbors' x [<-|Hv] Hs' He' Hn' Hx.
        - rewrite Hmine. rewrite Hs in Hs'. rewrite He in He'.
          rewrite Hn in Hn'. injection Hs' as <-. injection He' as <-.
          injection Hn' as <-. apply In_pushed. left. exists x. auto.
        - rewrite (Hsame v Hv). apply In_pushed. right.
          apply (Hout v s' e' neighbors' x Hv Hs' He' Hn' Hx). }
      intros y Hy. apply In_pushed in Hy.
      destruct Hy as [[x [Hx ->]]|Hy].
      * left. apply In_pushed. left. exists x. auto.
      * destruct (Hdone y Hy) as [Hin|[Hw|[Hv Hr]]].
        -- apply Hsplit in Hin. destruct Hin as [->|Hin].
           ++ right. right. split; [left; reflexivity|]. rewrite Hmine. lia.
           ++ left. apply In_pushed. right. exact Hin.
        -- right. left. exact Hw.
        -- right. right. split; [right; exact Hv|].
           rewrite (Hsame _ Hv). exact Hr.
    + rewrite pushed_length.
      pose proof (pending_visit graph visited (fst top) neighbors Hnode
                    Hnew Hn). lia.
Qed.

Lemma getExtendedNodeBand_returns (fuel : nat) :
  (seed < List.length (nodeStart graph))%nat ->
  (pendingEdges graph [] + 1 < fuel)%nat ->
  exists band,
    getExtendedNodeBand graph popMin fuel seed width = Some [band] /\
    List.length band = List.length (nodeStart graph) /\
    forall n, inBand band n = true
              <-> exists d, (d <= width)%nat /\ entered graph seed n d.
Proof.
  intros Hseed Hfuel. unfold getExtendedNodeBand.
  destruct (extendBandLoop_returns fuel (fun _ => 0%nat) [(seed, 0%nat)]
              0%nat [(seed, 0%nat)] []
              (repeat false (List.length (nodeStart graph))))
    as (band & Hloop & Hlen & Hband).
  - split; [apply repeat_length|]. split.
    { intros n. unfold inBand. split; [|intros []].
      intros Hn. exfalso.
      destruct (Nat.lt_ge_cases n (List.length (nodeStart graph))).
      - rewrite nth_repeat_lt in Hn by assumption. discriminate Hn.
      - rewrite nth_overflow in Hn by (rewrite repeat_length; lia).
        discriminate Hn. }
    split; [intros v []|]. split.
    { intros y [<-|[]]. cbn [fst snd].
      split; [constructor|]. split; [lia|exact Hseed]. }
    split; [left; reflexivity|]. split; [intros v s e nb x []|].
    intros y Hy. left. exact Hy.
  - cbn [List.length]. lia.
  - exists band. rewrite Hloop. cbn [bindOpt]. auto.
Qed.

End SeedBand.

(** X25.  [getExtendedNodeBand] marks exactly the nodes that can be entered
    within [startExtensionWidth] characters of the start of the seed node,
    walking along out-neighbours and paying the length of every node left
    behind.  It returns, after at most one iteration per queue entry, a
    single band row with one entry per node, whichever entry of least
    distance the priority queue hands out first. *)
Theorem getExtendedNodeBand_within_width (graph : AlignmentGraph)
  (popMin : list (nat * nat) -> option ((nat * nat) * list (nat * nat)))
  (fuel nodeIndex startExtensionWidth : nat) :
  priorityQueue popMin -> graphTables graph ->
  (nodeIndex < List.length (nodeStart graph))%nat ->
  (pendingEdges graph [] + 1 < fuel)%nat ->
  exists band,
    getExtendedNodeBand graph popMin fuel nodeIndex startExtensionWidth
    = Some [band] /\
    List.length band = List.length (nodeStart graph) /\
    forall n,
      inBand band n = true
      <-> exists d, (d <= startExtensionWidth)%nat /\
                    entered graph nodeIndex n d.
Proof.
  intros Hqueue Htables Hseed Hfuel.
  apply (getExtendedNodeBand_returns graph popMin nodeIndex
           startExtensionWidth Hqueue Htables fuel Hseed Hfuel).
Qed.

Lemma fastPathGraph_tables : graphTables fastPathGraph.
Proof.
  split; [reflexivity|]. split; [reflexivity|]. split.
  - intros v s e Hs He.
    destruct v as [|[|v]]; cbn in Hs, He;
      try (destruct v; discriminate Hs);
      injection Hs as <-; injection He as <-; lia.
  - intros v neighbors x Hn Hx.
    destruct v as [|[|v]]; cbn in Hn;
      try (destruct v; discriminate Hn); injection Hn as <-.
    + destruct Hx as [<-|[]]. cbn. lia.
    + destruct Hx.
Qed.

Lemma getExtendedNodeBand_within_width_witness :
  exists band,
    getExtendedNodeBand fastPathGraph popLeast 10 0 2 = Some [band] /\
    List.length band = List.length (nodeStart fastPathGraph) /\
    forall n,
      inBand band n = true
      <-> exists d, (d <= 2)%nat /\ entered fastPathGraph 0 n d.
Proof.
  apply (getExtendedNodeBand_within_width fastPathGraph popLeast 10 0 2).
  - apply popLeast_priorityQueue.
  - apply fastPathGraph_tables.
  - cbn. lia.
  - vm_compute. lia.
Defined.

(** ** The dynamic band *)

Lemma popNearestFirst_priorityQueue :
  priorityQueueOn entryDistance popNearestFirst.
Proof.
  split; [reflexivity|].
  induction queue as [|x rest IH]; intros Hne; [contradiction|].
  cbn [popNearestFirst]. destruct rest as [|x' rest'].
  - cbn [popNearestFirst]. exists x, []. split; [reflexivity|].
    split; [apply Permutation_refl|].
    intros entry [<-|[]]. lia.
  - destruct (IH ltac:(discriminate)) as (y & r & Hpop & Hperm & Hmin).
    rewrite Hpop.
    destruct (Nat.leb_spec (entryDistance x) (entryDistance y)) as [Hle|Hgt].
    + exists x, (x' :: rest'). split; [reflexivity|].
      split; [apply Permutation_refl|].
      intros entry [<-|Hin]; [lia|]. specialize (Hmin entry Hin). lia.
    + exists y, (x :: r). split; [reflexivity|]. split.
      * apply Permutation_trans with (x :: y :: r);
          [apply perm_skip; exact Hperm|apply perm_swap].
      * intros entry [<-|Hin]; [lia|]. apply Hmin. exact Hin.
Qed.

Lemma In_setInsert (x n : nat) (s : list nat) :
  In n (setInsert x s) <-> n = x \/ In n s.
Proof.
  induction s as [|y s IH]; cbn [setInsert].
  - cbn. split; [intros [H|[]]; auto|intros [H|[]]; auto].
  - destruct (Nat.ltb x y).
    + cbn [In]. split; [intros [H|H]; auto|intros [H|H]; auto].
    + destruct (Nat.eqb_spec x y) as [->|Hne].
      * cbn [In]. split; [auto|]. intros [->|H]; auto.
      * cbn [In]. rewrite IH. split.
        -- intros [H|[H|H]]; auto.
        -- intros [H|[H|H]]; auto.
Qed.

Lemma In_entries (isEnd : bool) (d : nat) (neighbors : list nat) :
  forall (rest : list BandEntry) (y : BandEntry),
    In y (fold_left (fun q neighbor => (neighbor, isEnd, d) :: q)
            neighbors rest)
    <-> (exists x, In x neighbors /\ y = (x, isEnd, d)) \/ In y rest.
Proof.
  induction neighbors as [|x neighbors IH]; intros rest y; cbn [fold_left].
  - split; [auto|]. intros [[x [[] _]]|H]. exact H.
  - rewrite IH. cbn [In]. split.
    + intros [[x' [Hin ->]]|[<-|H]]; [left; exists x'; auto| |auto].
      left. exists x. auto.
    + intros [[x' [[<-|Hin] ->]]|H]; [right; left; reflexivity| |auto].
      left. exists x'. auto.
Qed.

Lemma entries_length (isEnd : bool) (d : nat) (neighbors : list nat) :
  forall rest : list BandEntry,
    List.length
      (fold_left (fun q neighbor => (neighbor, isEnd, d) :: q)
         neighbors rest)
    = (List.length neighbors + List.length rest)%nat.
Proof.
  induction neighbors as [|x neighbors IH]; intros rest; cbn [fold_left];
    [reflexivity|].
  rewrite IH. cbn [List.length]. lia.
Qed.

Lemma list_sum_update (f f' : nat -> nat) (u c : nat) (l : list nat) :
  NoDup l ->
  (forall v, v <> u -> f' v = f v) -> (f' u + c = f u)%nat ->
  (list_sum (map f' l) + (if existsb (Nat.eqb u) l then c else 0)
   = list_sum (map f l))%nat.
Proof.
  intros Hnd Hother Hu. induction Hnd as [|v l Hv Hnd IH]; [reflexivity|].
  unfold list_sum in *. cbn [map fold_right].
  destruct (Nat.eq_dec u v) as [<-|Hne].
  - replace (existsb (Nat.eqb u) (u :: l)) with true
      by (cbn [existsb]; rewrite Nat.eqb_refl; reflexivity).
    assert (Hl : existsb (Nat.eqb u) l = false).
    { destruct (existsb (Nat.eqb u) l) eqn:E; [|reflexivity].
      apply existsb_eqb_In in E. contradiction. }
    rewrite Hl in IH. lia.
  - replace (existsb (Nat.eqb u) (v :: l)) with (existsb (Nat.eqb u) l)
      by (cbn [existsb]; rewrite (proj2 (Nat.eqb_neq u v)) by lia;
          reflexivity).
    rewrite (Hother v) by lia. lia.
Qed.

Lemma pendingWork_record (g : AlignmentGraph) (b b' : ExpandedBand)
  (isEnd : bool) (u d : nat) (neighbors : list nat) :
  (u < List.length (nodeStart g))%nat ->
  recordedAt b isEnd u = None ->
  neighborsAt g isEnd u = Some neighbors ->
  (forall side v,
     recordedAt b' side v
     = if Bool.eqb side isEnd && Nat.eqb v u then Some d
       else recordedAt b side v) ->
  (pendingWork g b' + (1 + List.length neighbors) = pendingWork g b)%nat.
Proof.
  intros Hu Hnone Hn Hrec. unfold pendingWork.
  set (cost := fun (x : ExpandedBand) (v : nat) =>
         (match recordedAt x true v with
          | Some _ => 0
          | None => 1 + List.length (nth v (outNeighbors g) [])
          end
          + match recordedAt x false v with
            | Some _ => 0
            | None => 1 + List.length (nth v (inNeighbors g) [])
            end)%nat).
  change (list_sum (map (cost b') (seq 0 (List.length (nodeStart g))))
          + (1 + List.length neighbors)
          = list_sum (map (cost b) (seq 0 (List.length (nodeStart g)))))%nat.
  pose proof (list_sum_update (cost b) (cost b') u
                (1 + List.length neighbors)
                (seq 0 (List.length (nodeStart g))) (seq_NoDup _ _)) as H.
  assert (Hin : existsb (Nat.eqb u) (seq 0 (List.length (nodeStart g)))
                = true).
  { apply existsb_eqb_In, in_seq. lia. }
  rewrite Hin in H. apply H.
  - intros v Hv. unfold cost. rewrite !Hrec.
    replace (v =? u)%nat with false by (symmetry; apply Nat.eqb_neq; lia).
    rewrite !andb_false_r. reflexivity.
  - unfold cost. rewrite !Hrec, Nat.eqb_refl. unfold neighborsAt in Hn.
    destruct isEnd; cbn [Bool.eqb andb]; rewrite Hnone;
      rewrite (nth_error_nth _ _ _ Hn); lia.
Qed.

Section DynamicBand.

Variable graph : AlignmentGraph.
Variable popNearest : list BandEntry -> option (BandEntry * list BandEntry).
Variable positions : list nat.
Variable width : nat.
Variable before : ExpandedBand.

Hypothesis Hqueue : priorityQueueOn entryDistance popNearest.
Hypothesis Htables : bandTables graph.

(** The band and the order sets of [b] are those of [before] with the nodes
    of [M] added. *)
Let marks (b : ExpandedBand) (M : nat -> Prop) : Prop :=
  List.length (eb_band b) = List.length (nodeStart graph) /\
  (forall n, inBand (eb_band b) n = true
             <-> inBand (eb_band before) n = true \/ M n) /\
  (forall order,
     eb_bandOrder before = Some order ->
     exists order',
       eb_bandOrder b = Some order' /\
       forall n, In n order'
                 <-> In n order \/ ((firstInOrder graph <= n)%nat /\ M n)) /\
  (forall order,
     eb_bandOrderOutOfOrder before = Some order ->
     exists order',
       eb_bandOrderOutOfOrder b = Some order' /\
       forall n, In n order'
                 <-> In n order \/ ((n < firstInOrder graph)%nat /\ M n)).

Lemma marks_ext (b : ExpandedBand) (M M' : nat -> Prop) :
  (forall n, M n <-> M' n) -> marks b M -> marks b M'.
Proof.
  intros Hext (Hlen & Hband & Hord & Hout).
  split; [exact Hlen|]. split; [|split].
  - intros n. rewrite Hband, Hext. reflexivity.
  - intros order Ho. destruct (Hord order Ho) as [order' [H1 H2]].
    exists order'. split; [exact H1|]. intros n. rewrite H2, Hext.
    reflexivity.
  - intros order Ho. destruct (Hout order Ho) as [order' [H1 H2]].
    exists order'. split; [exact H1|]. intros n. rewrite H2, Hext.
    reflexivity.
Qed.

Lemma marks_fields (b b' : ExpandedBand) (M : nat -> Prop) :
  eb_band b' = eb_band b -> eb_bandOrder b' = eb_bandOrder b ->
  eb_bandOrderOutOfOrder b' = eb_bandOrderOutOfOrder b ->
  marks b M -> marks b' M.
Proof.
  intros Hb Ho Hoo H. unfold marks. rewrite Hb, Ho, Hoo. exact H.
Qed.

Lemma marks_markNode (b : ExpandedBand) (M : nat -> Prop) (u : nat) :
  marks b M -> (u < List.length (nodeStart graph))%nat ->
  marks (markNode graph u b) (fun n => n = u \/ M n).
Proof.
  intros (Hlen & Hband & Hord & Hout) Hu. unfold markNode. cbv zeta.
  split; [|split; [|split]];
    cbn [eb_band eb_bandOrder eb_bandOrderOutOfOrder].
  - rewrite setNth_length. exact Hlen.
  - intros n. rewrite inBand_setNth by lia. rewrite Hband. tauto.
  - intros order Ho. destruct (Hord order Ho) as [order' [H1 H2]].
    rewrite H1. destruct (Nat.ltb_spec u (firstInOrder graph)) as [Hlt|Hge].
    + replace (firstInOrder graph <=? u)%nat with false
        by (symmetry; apply Nat.leb_gt; lia).
      rewrite andb_false_r. cbn [andb].
      exists order'. split; [reflexivity|]. intros n. rewrite H2.
      split; [tauto|]. intros [H|[Hn [->|HM]]]; [auto|lia|auto].
    + cbn [andb negb].
      replace (firstInOrder graph <=? u)%nat with true
        by (symmetry; apply Nat.leb_le; lia).
      cbn [andb option_map].
      exists (setInsert u order'). split; [reflexivity|]. intros n.
      rewrite In_setInsert, H2. split.
      * intros [->|[H|[Hn HM]]]; auto.
      * intros [H|[Hn [->|HM]]]; auto.
  - intros order Ho. destruct (Hout order Ho) as [order' [H1 H2]].
    rewrite H1. destruct (Nat.ltb_spec u (firstInOrder graph)) as [Hlt|Hge].
    + cbn [andb option_map].
      exists (setInsert u order'). split; [reflexivity|]. intros n.
      rewrite In_setInsert, H2. split.
      * intros [->|[H|[Hn HM]]]; auto.
      * intros [H|[Hn [->|HM]]]; auto.
    + cbn [andb]. exists order'. split; [reflexivity|]. intros n.
      rewrite H2. split; [tauto|]. intros [H|[Hn [->|HM]]]; [auto|lia|auto].
Qed.

Lemma recordedAt_markNode (b : ExpandedBand) (u : nat) (side : bool)
  (v : nat) :
  recordedAt (markNode graph u b) side v = recordedAt b side v.
Proof. destruct side; reflexivity. Qed.

Lemma enqueueStarts_marks (starts : list nat) :
  forall queue b M,
    (forall p, In p starts ->
               (p < List.length (indexToNode graph))%nat) ->
    marks b M ->
    exists queue' b',
      enqueueStarts graph starts queue b = Some (queue', b') /\
      marks b'
        (fun n => M n \/
                  exists p, In p starts /\
                            nth_error (indexToNode graph) p = Some n) /\
      (forall side v, recordedAt b' side v = recordedAt b side v) /\
      List.length queue'
        = (2 * List.length starts + List.length queue)%nat /\
      forall y,
        In y queue'
        <-> In y queue \/
            exists p n,
              In p starts /\ nth_error (indexToNode graph) p = Some n /\
              ((exists s, nth_error (nodeStart graph) n = Some s /\
                          y = (n, false, (p - s)%nat)) \/
               (exists e, nth_error (nodeEnd graph) n = Some e /\
                          y = (n, true, (e - p - 1)%nat))).
Proof.
  destruct Htables as (Hends & _ & _ & _ & _ & _ & Hpos).
  induction starts as [|p starts IH]; intros queue b M Hvalid Hm.
  - exists queue, b. cbn [enqueueStarts List.length Nat.mul Nat.add].
    split; [reflexivity|]. split.
    { apply (marks_ext b M); [|exact Hm]. intros n. split; [auto|].
      intros [H|[p [[] _]]]. exact H. }
    split; [reflexivity|]. split; [reflexivity|]. intros y. split; [auto|].
    intros [H|[p [n [[] _]]]]. exact H.
  - cbn [enqueueStarts].
    destruct (nth_error (indexToNode graph) p) as [node|] eqn:Hnode;
      [|apply nth_error_None in Hnode;
        specialize (Hvalid p (or_introl eq_refl)); lia].
    cbn [bindOpt]. destruct (Hpos p node Hnode) as [Hrange _].
    destruct (nth_error (nodeStart graph) node) as [s|] eqn:Hs;
      [|apply nth_error_None in Hs; lia].
    destruct (nth_error (nodeEnd graph) node) as [e|] eqn:He;
      [|apply nth_error_None in He; lia].
    cbn [bindOpt].
    destruct (IH ((node, true, (e - p - 1)%nat)
                  :: (node, false, (p - s)%nat) :: queue)
                (markNode graph node b) (fun n => n = node \/ M n))
      as (queue' & b' & Hrun & Hmarks & Hrec & Hlen & Hin).
    { intros q Hq. apply Hvalid. right. exact Hq. }
    { apply marks_markNode; assumption. }
    exists queue', b'. split; [exact Hrun|]. split.
    { refine (marks_ext b' _ _ _ Hmarks). intros n. cbn [In]. split.
      - intros [[->|HM]|(q & Hq & Hn)];
          [right; exists p; auto|auto|right; exists q; auto].
      - intros [HM|(q & [<-|Hq] & Hn)];
          [auto|left; left; congruence|right; exists q; auto]. }
    split.
    { intros side v. rewrite Hrec. apply recordedAt_markNode. }
    split; [rewrite Hlen; cbn [List.length]; lia|].
    intros y. rewrite Hin. cbn [In]. split.
    + intros [[<-|[<-|H]]|(q & n & Hq & Hn & Hy)].
      * right. exists p, node. split; [auto|]. split; [exact Hnode|].
        right. exists e. auto.
      * right. exists p, node. split; [auto|]. split; [exact Hnode|].
        left. exists s. auto.
      * left. exact H.
      * right. exists q, n. auto.
    + intros [H|(q & n & [<-|Hq] & Hn & Hy)].
      * auto.
      * rewrite Hnode in Hn. injection Hn as <-.
        destruct Hy as [(s' & Hs' & ->)|(e' & He' & ->)].
        -- rewrite Hs in Hs'. injection Hs' as <-. auto.
        -- rewrite He in He'. injection He' as <-. auto.
      * right. exists q, n. auto.
Qed.

(** The invariant of the [while] loop.  [pushed] is every entry the queue
    has ever held and [latest] the distance of the last recorded side. *)
Let expanding (latest : nat) (pushed queue : list BandEntry)
  (b : ExpandedBand) : Prop :=
  marks b
    (fun n => (exists p, In p positions /\
                         nth_error (indexToNode graph) p = Some n) \/
              exists side d, recordedAt b side n = Some d) /\
  (forall side v d,
     recordedAt b side v = Some d ->
     (v < List.length (nodeStart graph))%nat /\ (d <= width)%nat /\
     expanded graph positions v side d /\ (d <= latest)%nat) /\
  (forall v side d,
     In (v, side, d) queue ->
     expanded graph positions v side d /\ (latest <= d)%nat /\
     (v < List.length (nodeStart graph))%nat) /\
  (forall p n s,
     In p positions -> nth_error (indexToNode graph) p = Some n ->
     nth_error (nodeStart graph) n = Some s ->
     In (n, false, (p - s)%nat) pushed) /\
  (forall p n e,
     In p positions -> nth_error (indexToNode graph) p = Some n ->
     nth_error (nodeEnd graph) n = Some e ->
     In (n, true, (e - p - 1)%nat) pushed) /\
  (forall u side d s e,
     recordedAt b side u = Some d ->
     nth_error (nodeStart graph) u = Some s ->
     nth_error (nodeEnd graph) u = Some e ->
     In (u, negb side, (d + (e - s) - 1)%nat) pushed) /\
  (forall u side d neighbors v,
     recordedAt b side u = Some d ->
     neighborsAt graph side u = Some neighbors -> In v neighbors ->
     In (v, negb side, (d + 1)%nat) pushed) /\
  (forall v side d,
     In (v, side, d) pushed ->
     In (v, side, d) queue \/ (width < d)%nat \/
     exists d', recordedAt b side v = Some d' /\ (d' <= d)%nat).

Lemma expanded_all_recorded (latest : nat) (pushed : list BandEntry)
  (b : ExpandedBand) :
  expanding latest pushed [] b ->
  forall n side d,
    expanded graph positions n side d -> (d <= width)%nat ->
    exists d', recordedAt b side n = Some d' /\ (d' <= d)%nat.
Proof.
  intros (_ & _ & _ & Hfront & Hback & Hacross & Hnext & Hdone) n side d He.
  destruct Htables as (_ & _ & _ & Hsize & _).
  induction He as [p n s Hp Hn Hs|p n e Hp Hn Hend
                  |u side d s e He IH Hs Hend
                  |u side d neighbors v He IH Hnb Hv]; intros Hd.
  - destruct (Hdone _ _ _ (Hfront p n s Hp Hn Hs)) as [[]|[Hw|Hr]];
      [lia|exact Hr].
  - destruct (Hdone _ _ _ (Hback p n e Hp Hn Hend)) as [[]|[Hw|Hr]];
      [lia|exact Hr].
  - pose proof (Hsize u s e Hs Hend) as Hse.
    destruct (IH ltac:(lia)) as [d' [Hr Hle]].
    destruct (Hdone _ _ _ (Hacross u side d' s e Hr Hs Hend))
      as [[]|[Hw|[d'' [Hr' Hle']]]]; [lia|].
    exists d''. split; [exact Hr'|lia].
  - destruct (IH ltac:(lia)) as [d' [Hr Hle]].
    destruct (Hdone _ _ _ (Hnext u side d' neighbors v Hr Hnb Hv))
      as [[]|[Hw|[d'' [Hr' Hle']]]]; [lia|].
    exists d''. split; [exact Hr'|lia].
Qed.

Lemma expandLoop_returns (fuel : nat) :
  forall latest pushed queue b,
    expanding latest pushed queue b ->
    (List.length queue + pendingWork graph b < fuel)%nat ->
    exists b',
      expandLoop graph popNearest fuel width queue b = Some b' /\
      marks b' (withinBand graph positions width).
Proof.
  induction fuel as [|fuel IH]; intros latest pushed queue b Hinv Hfuel;
    [lia|].
  cbn [expandLoop]. destruct queue as [|q0 queue0].
  - (* the queue is empty *)
    exists b. split; [reflexivity|].
    pose proof (expanded_all_recorded _ _ _ Hinv) as Hall.
    destruct Hinv as (Hmarks & Hrec & _).
    refine (marks_ext b _ _ _ Hmarks). intros n. unfold withinBand. split.
    + intros [Hstart|(side & d & Hd)]; [left; exact Hstart|right].
      destruct (Hrec side n d Hd) as (_ & Hw & He & _).
      exists side, d. auto.
    + intros [Hstart|(side & d & Hw & He)]; [left; exact Hstart|right].
      destruct (Hall n side d He Hw) as [d' [Hd' _]]. exists side, d'.
      exact Hd'.
  - set (queue := q0 :: queue0) in *.
    destruct Hqueue as [_ Hpop].
    destruct (Hpop queue ltac:(discriminate))
      as (top & rest & -> & Hperm & Hmin).
    cbn [bindOpt]. destruct top as [[node isEnd] distance].
    cbn [entryDistance snd] in Hmin.
    assert (Hlenq : List.length queue = S (List.length rest)).
    { rewrite (Permutation_length Hperm). reflexivity. }
    assert (Hsplit : forall y, In y queue
                               <-> y = (node, isEnd, distance) \/ In y rest).
    { intros y. split.
      - intros Hy. apply (Permutation_in _ Hperm) in Hy.
        destruct Hy as [<-|Hy]; auto.
      - intros Hy. apply (Permutation_in _ (Permutation_sym Hperm)).
        destruct Hy as [->|Hy]; [left; reflexivity|right; exact Hy]. }
    destruct Hinv
      as (Hmarks & Hrec & Hq & Hfront & Hback & Hacross & Hnext & Hdone).
    destruct (Hq node isEnd distance
                (proj2 (Hsplit _) (or_introl eq_refl)))
      as (Htop & Hlatest & Hnode).
    assert (Hskip :
      (width < distance)%nat \/
      (exists d', recordedAt b isEnd node = Some d' /\ (d' <= distance)%nat) ->
      expanding latest pushed rest b).
    { intros Hwhy. split; [exact Hmarks|]. split; [exact Hrec|].
      split; [intros v side d Hy; apply Hq, Hsplit; right; exact Hy|].
      split; [exact Hfront|]. split; [exact Hback|].
      split; [exact Hacross|]. split; [exact Hnext|].
      intros v side d Hy. destruct (Hdone v side d Hy) as [Hin|Hother];
        [|auto].
      apply Hsplit in Hin. destruct Hin as [Heq|Hin]; [|auto].
      injection Heq as -> -> ->. right. exact Hwhy. }
    change (if isEnd then eb_distanceAtNodeEnd b node
            else eb_distanceAtNodeStart b node)
      with (recordedAt b isEnd node).
    destruct (Nat.ltb_spec width distance) as [Hfar|Hnear].
    { apply (IH latest pushed); [apply Hskip; left; exact Hfar|lia]. }
    destruct (recordedAt b isEnd node) as [d0|] eqn:Hfound.
    { (* recorded before *)
      destruct (Hrec isEnd node d0 Hfound) as (_ & _ & _ & Hd0).
      replace (d0 <=? distance)%nat with true
        by (symmetry; apply Nat.leb_le; lia).
      apply (IH latest pushed); [|lia].
      apply Hskip. right. exists d0. split; [reflexivity|lia]. }
    (* a new side *)
    destruct Htables as (Hends & Houts & Hins & Hsize & Hout & Hin & Hpos).
    destruct (nth_error (nodeEnd graph) node) as [e|] eqn:He;
      [|apply nth_error_None in He; lia].
    destruct (nth_error (nodeStart graph) node) as [s|] eqn:Hs;
      [|apply nth_error_None in Hs; lia].
    cbn [bindOpt].
    change (if isEnd then nth_error (outNeighbors graph) node
            else nth_error (inNeighbors graph) node)
      with (neighborsAt graph isEnd node).
    destruct (neighborsAt graph isEnd node) as [neighbors|] eqn:Hn.
    2:{ unfold neighborsAt in Hn.
        destruct isEnd; apply nth_error_None in Hn; lia. }
    cbn [bindOpt].
    pose proof (Hsize _ _ _ Hs He) as Hse.
    set (b1 := if isEnd
               then mkExpandedBand (eb_band b) (eb_distanceAtNodeStart b)
                      (setDistance (eb_distanceAtNodeEnd b) node distance)
                      (eb_bandOrder b) (eb_bandOrderOutOfOrder b)
               else mkExpandedBand (eb_band b)
                      (setDistance (eb_distanceAtNodeStart b) node distance)
                      (eb_distanceAtNodeEnd b)
                      (eb_bandOrder b) (eb_bandOrderOutOfOrder b)).
    assert (Hb1 : forall side v,
              recordedAt (markNode graph node b1) side v
              = if Bool.eqb side isEnd && Nat.eqb v node then Some distance
                else recordedAt b side v).
    { intros side v. rewrite recordedAt_markNode. unfold b1.
      destruct isEnd; destruct side;
        cbn [recordedAt eb_distanceAtNodeEnd eb_distanceAtNodeStart
             Bool.eqb andb]; unfold setDistance; reflexivity. }
    assert (Hold : forall side v d,
              recordedAt b side v = Some d ->
              recordedAt (markNode graph node b1) side v = Some d).
    { intros side v d Hd. rewrite Hb1.
      destruct (Bool.eqb side isEnd) eqn:Eside; [|exact Hd].
      destruct (Nat.eqb_spec v node) as [->|_]; [|exact Hd].
      apply Bool.eqb_prop in Eside. subst side. congruence. }
    assert (Hmine : recordedAt (markNode graph node b1) isEnd node
                    = Some distance).
    { rewrite Hb1, Bool.eqb_reflx, Nat.eqb_refl. reflexivity. }
    assert (Hnew : forall side v d,
              recordedAt (markNode graph node b1) side v = Some d ->
              (side = isEnd /\ v = node /\ d = distance) \/
              recordedAt b side v = Some d).
    { intros side v d Hd. rewrite Hb1 in Hd.
      destruct (Bool.eqb side isEnd) eqn:Eside; [|auto].
      destruct (Nat.eqb_spec v node) as [->|_]; [|auto].
      apply Bool.eqb_prop in Eside. cbn [andb] in Hd.
      injection Hd as <-. auto. }
    set (across := (node, negb isEnd, (distance + (e - s) - 1)%nat)).
    set (step := fun (q : list BandEntry) (neighbor : nat) =>
                   (neighbor, negb isEnd, (distance + 1)%nat) :: q).
    apply (IH distance (fold_left step neighbors (across :: pushed))).
    + split.
      { (* the marks *)
        assert (Hm1 : marks b1
                  (fun n => (exists p, In p positions /\
                               nth_error (indexToNode graph) p = Some n) \/
                            exists side d, recordedAt b side n = Some d)).
        { apply (marks_fields b b1); [| | |exact Hmarks];
            unfold b1; destruct isEnd; reflexivity. }
        refine (marks_ext _ _ _ _ (marks_markNode b1 _ node Hm1 Hnode)).
        intros n. split.
        - intros [->|[Hstart|(side & d & Hd)]].
          + right. exists isEnd, distance. exact Hmine.
          + left. exact Hstart.
          + right. exists side, d. apply Hold. exact Hd.
        - intros [Hstart|(side & d & Hd)]; [right; left; exact Hstart|].
          destruct (Hnew side n d Hd) as [(_ & -> & _)|Hd'];
            [left; reflexivity|right; right; exists side, d; exact Hd']. }
      split.
      { intros side v d Hd.
        destruct (Hnew side v d Hd) as [(-> & -> & ->)|Hd'].
        - repeat split; try lia. exact Htop.
        - destruct (Hrec side v d Hd') as (H1 & H2 & H3 & H4).
          repeat split; try assumption. lia. }
      split.
      { intros v side d Hy. apply In_entries in Hy.
        destruct Hy as [[x [Hx Heq]]|[Heq|Hy]].
        - injection Heq as -> -> ->.
          split; [apply (expanded_neighbor graph positions node isEnd
                           distance neighbors x Htop Hn Hx)|].
          split; [lia|]. unfold neighborsAt in Hn.
          destruct isEnd; [apply (Hout _ _ _ Hn Hx)|apply (Hin _ _ _ Hn Hx)].
        - unfold across in Heq. injection Heq as <- <- <-.
          split; [apply (expanded_across graph positions node isEnd distance
                           s e Htop Hs He)|].
          split; [lia|exact Hnode].
        - destruct (Hq v side d (proj2 (Hsplit _) (or_intror Hy)))
            as (H1 & _ & H3).
          split; [exact H1|]. split; [|exact H3].
          apply (Hmin (v, side, d)), Hsplit. right. exact Hy. }
      split.
      { intros p n s' Hp Hpn Hs'. apply In_entries. right. right.
        apply (Hfront p n s' Hp Hpn Hs'). }
      split.
      { intros p n e' Hp Hpn He'. apply In_entries. right. right.
        apply (Hback p n e' Hp Hpn He'). }
      split.
      { intros u side d s' e' Hd Hs' He'. apply In_entries. right.
        destruct (Hnew side u d Hd) as [(-> & -> & ->)|Hd'].
        - rewrite Hs in Hs'. rewrite He in He'.
          injection Hs' as <-. injection He' as <-. left. reflexivity.
        - right. apply (Hacross u side d s' e' Hd' Hs' He'). }
      split.
      { intros u side d neighbors' v Hd Hn' Hv. apply In_entries.
        destruct (Hnew side u d Hd) as [(-> & -> & ->)|Hd'].
        - rewrite Hn in Hn'. injection Hn' as <-. left. exists v. auto.
        - right. right. apply (Hnext u side d neighbors' v Hd' Hn' Hv). }
      intros v side d Hy. apply In_entries in Hy.
      destruct Hy as [[x [Hx Heq]]|[Heq|Hy]].
      * left. apply In_entries. left. exists x. auto.
      * left. apply In_entries. right. left. exact Heq.
      * destruct (Hdone v side d Hy) as [Hinq|[Hw|[d' [Hd' Hle]]]].
        -- apply Hsplit in Hinq. destruct Hinq as [Heq|Hinq].
           ++ injection Heq as -> -> ->. right. right.
              exists distance. split; [exact Hmine|lia].
           ++ left. apply In_entries. right. right. exact Hinq.
        -- right. left. exact Hw.
        -- right. right. exists d'. split; [apply Hold; exact Hd'|exact Hle].
    + unfold step. rewrite entries_length. cbn [List.length].
      pose proof (pendingWork_record graph b (markNode graph node b1) isEnd
                    node distance neighbors Hnode Hfound Hn Hb1). lia.
Qed.

Lemma pendingWork_ext (b b' : ExpandedBand) :
  (forall side v, recordedAt b' side v = recordedAt b side v) ->
  pendingWork graph b' = pendingWork graph b.
Proof.
  intros H. unfold pendingWork. f_equal. apply map_ext. intros v.
  rewrite !H. reflexivity.
Qed.

Lemma expandBandFromPositions_returns (fuel : nat) :
  (forall p, In p positions ->
             (p < List.length (indexToNode graph))%nat) ->
  List.length (eb_band before) = List.length (nodeStart graph) ->
  (forall isEnd n, recordedAt before isEnd n = None) ->
  (2 * List.length positions + pendingWork graph before < fuel)%nat ->
  exists b',
    expandBandFromPositions graph popNearest fuel positions width before
    = Some b' /\
    marks b' (withinBand graph positions width).
Proof.
  intros Hvalid Hlen Hnone Hfuel. unfold expandBandFromPositions.
  destruct (enqueueStarts_marks positions [] before (fun _ => False) Hvalid)
    as (queue & b & Hstart & Hmarks & Hrec & Hqlen & Hin).
  { split; [exact Hlen|]. split; [intros n; tauto|]. split.
    - intros order Ho. exists order. split; [exact Ho|]. intros n. tauto.
    - intros order Ho. exists order. split; [exact Ho|]. intros n. tauto. }
  rewrite Hstart. cbn [bindOpt fst snd].
  assert (Hempty : forall side v, recordedAt b side v = None)
    by (intros side v; rewrite Hrec; apply Hnone).
  apply (expandLoop_returns fuel 0 queue).
  - destruct Htables as (_ & _ & _ & _ & _ & _ & Hpos).
    split.
    { refine (marks_ext b _ _ _ Hmarks). intros n. split.
      - intros [[]|H]. left. exact H.
      - intros [H|(side & d & Hd)]; [right; exact H|].
        rewrite Hempty in Hd. discriminate Hd. }
    split; [intros side v d Hd; rewrite Hempty in Hd; discriminate Hd|].
    split.
    { intros v side d Hy. apply Hin in Hy.
      destruct Hy as [[]|(p & n & Hp & Hn & Hy)].
      destruct (Hpos p n Hn) as [Hrange _].
      destruct Hy as [(s & Hs & Heq)|(e & He & Heq)];
        injection Heq as -> -> ->.
      - split; [apply (expanded_front graph positions p n s Hp Hn Hs)|].
        split; [lia|exact Hrange].
      - split; [apply (expanded_back graph positions p n e Hp Hn He)|].
        split; [lia|exact Hrange]. }
    split.
    { intros p n s Hp Hn Hs. apply Hin. right. exists p, n.
      split; [exact Hp|]. split; [exact Hn|]. left. exists s. auto. }
    split.
    { intros p n e Hp Hn He. apply Hin. right. exists p, n.
      split; [exact Hp|]. split; [exact Hn|]. right. exists e. auto. }
    split; [intros u side d s e Hd; rewrite Hempty in Hd; discriminate Hd|].
    split; [intros u side d nb v Hd; rewrite Hempty in Hd;
            discriminate Hd|].
    intros v side d Hy. left. exact Hy.
  - rewrite Hqlen, (pendingWork_ext before b Hrec). cbn [List.length]. lia.
Qed.

End DynamicBand.

(** X26.  [expandBandFromPositions], called with empty distance maps as
    [projectForwardAndExpandBand] calls it, returns and adds to the band
    exactly the nodes that hold a start position or have a side within
    [dynamicWidth] of one.  Distances run inside a node from the start
    position to either side, across a node from one side to the other, and
    by one character from the end of a node to the start of an
    out-neighbour or from the start of a node to the end of an
    in-neighbour.  The same nodes are added to the order sets, those before
    [firstInOrder] to the out-of-order set and the others to the band
    order. *)
Theorem expandBandFromPositions_within_width (graph : AlignmentGraph)
  (popNearest : list BandEntry -> option (BandEntry * list BandEntry))
  (fuel : nat) (startpositions : list nat) (dynamicWidth : nat)
  (b : ExpandedBand) :
  priorityQueueOn entryDistance popNearest -> bandTables graph ->
  (forall p, In p startpositions ->
             (p < List.length (indexToNode graph))%nat) ->
  List.length (eb_band b) = List.length (nodeStart graph) ->
  (forall isEnd n, recordedAt b isEnd n = None) ->
  (2 * List.length startpositions + pendingWork graph b < fuel)%nat ->
  exists b',
    expandBandFromPositions graph popNearest fuel startpositions
      dynamicWidth b = Some b' /\
    List.length (eb_band b') = List.length (nodeStart graph) /\
    (forall n,
       inBand (eb_band b') n = true
       <-> inBand (eb_band b) n = true \/
           withinBand graph startpositions dynamicWidth n) /\
    (forall order,
       eb_bandOrder b = Some order ->
       exists order',
         eb_bandOrder b' = Some order' /\
         forall n,
           In n order'
           <-> In n order \/
               ((firstInOrder graph <= n)%nat /\
                withinBand graph startpositions dynamicWidth n)) /\
    (forall order,
       eb_bandOrderOutOfOrder b = Some order ->
       exists order',
         eb_bandOrderOutOfOrder b' = Some order' /\
         forall n,
           In n order'
           <-> In n order \/
               ((n < firstInOrder graph)%nat /\
                withinBand graph startpositions dynamicWidth n)).
Proof.
  intros Hqueue Htables Hvalid Hlen Hnone Hfuel.
  destruct (expandBandFromPositions_returns graph popNearest startpositions
              dynamicWidth b Hqueue Htables fuel Hvalid Hlen Hnone Hfuel)
    as (b' & Hrun & Hmarks).
  exists b'. split; [exact Hrun|]. exact Hmarks.
Qed.

Lemma fastPathGraph_bandTables : bandTables fastPathGraph.
Proof.
  split; [reflexivity|]. split; [reflexivity|]. split; [reflexivity|].
  split; [|split; [|split; [|]]].
  - intros v s e Hs He.
    destruct v as [|[|v]]; cbn in Hs, He;
      try (destruct v; discriminate Hs);
      injection Hs as <-; injection He as <-; lia.
  - intros v neighbors x Hn Hx.
    destruct v as [|[|v]]; cbn in Hn;
      try (destruct v; discriminate Hn); injection Hn as <-.
    + destruct Hx as [<-|[]]. cbn. lia.
    + destruct Hx.
  - intros v neighbors x Hn Hx.
    destruct v as [|[|v]]; cbn in Hn;
      try (destruct v; discriminate Hn); injection Hn as <-.
    + destruct Hx.
    + destruct Hx as [<-|[]]. cbn. lia.
  - intros p n Hn.
    destruct p as [|[|[|[|p]]]]; cbn in Hn;
      try (destruct p; discriminate Hn); injection Hn as <-;
      (split; [cbn; lia|]); intros s e Hs He; cbn in Hs, He;
      injection Hs as <-; injection He as <-; lia.
Qed.

Lemma expandBandFromPositions_within_width_witness :
  let b :=
    mkExpandedBand [false; false] (fun _ => None) (fun _ => None)
      (Some []) (Some []) in
  exists b',
    expandBandFromPositions fastPathGraph popNearestFirst 30 [1%nat] 1 b
    = Some b' /\
    List.length (eb_band b') = List.length (nodeStart fastPathGraph) /\
    (forall n,
       inBand (eb_band b') n = true
       <-> inBand (eb_band b) n = true \/
           withinBand fastPathGraph [1%nat] 1 n) /\
    (forall order,
       eb_bandOrder b = Some order ->
       exists order',
         eb_bandOrder b' = Some order' /\
         forall n,
           In n order'
           <-> In n order \/
               ((firstInOrder fastPathGraph <= n)%nat /\
                withinBand fastPathGraph [1%nat] 1 n)) /\
    (forall order,
       eb_bandOrderOutOfOrder b = Some order ->
       exists order',
         eb_bandOrderOutOfOrder b' = Some order' /\
         forall n,
           In n order'
           <-> In n order \/
               ((n < firstInOrder fastPathGraph)%nat /\
                withinBand fastPathGraph [1%nat] 1 n)).
Proof.
  apply (expandBandFromPositions_within_width fastPathGraph popNearestFirst
           30 [1%nat] 1
           (mkExpandedBand [false; false] (fun _ => None) (fun _ => None)
              (Some []) (Some []))).
  - apply popNearestFirst_priorityQueue.
  - apply fastPathGraph_bandTables.
  - intros p [<-|[]]. cbn. lia.
  - reflexivity.
  - intros isEnd n. destruct isEnd; reflexivity.
  - vm_compute. lia.
Defined.

(** ** The band around the minimum of the previous column *)

(** X27.  [projectForwardAndExpandBand] returns and adds to the band
    exactly the nodes that hold one of its start positions (the minimum of
    the previous column and the positions [ProjectForward] gives for it) or
    have a side within [dynamicWidth] of one; the node of the previous
    minimum is among them.  The same nodes are added to the order sets that
    are given, those before [firstInOrder] to the out-of-order set and the
    others to the band order.  Nothing is asked of [ProjectForward] but
    positions of the graph. *)
Theorem projectForwardAndExpandBand_within_width (graph : AlignmentGraph)
  (popNearest : list BandEntry -> option (BandEntry * list BandEntry))
  (ProjectForward : list nat -> Z -> list nat)
  (fuel : nat) (band : Band) (previousMinimumIndex dynamicWidth : nat)
  (bandOrder bandOrderOutOfOrder : option (list nat)) :
  priorityQueueOn entryDistance popNearest -> bandTables graph ->
  (forall p, In p (projectedPositions ProjectForward previousMinimumIndex) ->
             (p < List.length (indexToNode graph))%nat) ->
  List.length band = List.length (nodeStart graph) ->
  (2 * List.length (projectedPositions ProjectForward previousMinimumIndex)
   + pendingWork graph
       (mkExpandedBand band (fun _ => None) (fun _ => None)
          bandOrder bandOrderOutOfOrder) < fuel)%nat ->
  exists band' order' outOfOrder',
    projectForwardAndExpandBand graph popNearest ProjectForward fuel band
      previousMinimumIndex dynamicWidth bandOrder bandOrderOutOfOrder
    = Some (band', order', outOfOrder') /\
    List.length band' = List.length (nodeStart graph) /\
    (forall n,
       inBand band' n = true
       <-> inBand band n = true \/
           withinBand graph
             (projectedPositions ProjectForward previousMinimumIndex)
             dynamicWidth n) /\
    (forall order,
       bandOrder = Some order ->
       exists inOrder,
         order' = Some inOrder /\
         forall n,
           In n inOrder
           <-> In n order \/
               ((firstInOrder graph <= n)%nat /\
                withinBand graph
                  (projectedPositions ProjectForward previousMinimumIndex)
                  dynamicWidth n)) /\
    (forall order,
       bandOrderOutOfOrder = Some order ->
       exists outOrder,
         outOfOrder' = Some outOrder /\
         forall n,
           In n outOrder
           <-> In n order \/
               ((n < firstInOrder graph)%nat /\
                withinBand graph
                  (projectedPositions ProjectForward previousMinimumIndex)
                  dynamicWidth n)).
Proof.
  set (positions := projectedPositions ProjectForward previousMinimumIndex).
  set (fresh :=
         mkExpandedBand band (fun _ => None) (fun _ => None)
           bandOrder bandOrderOutOfOrder).
  intros Hqueue Htables Hvalid Hlen Hfuel.
  assert (Hmin : In previousMinimumIndex positions)
    by (apply In_setInsert; left; reflexivity).
  destruct (nth_error (indexToNode graph) previousMinimumIndex)
    as [nodeIndex|] eqn:Hnode.
  2:{ apply nth_error_None in Hnode. specialize (Hvalid _ Hmin). lia. }
  assert (Hrange : (nodeIndex < List.length (nodeStart graph))%nat).
  { destruct Htables as (_ & _ & _ & _ & _ & _ & Hpos).
    apply (Hpos previousMinimumIndex nodeIndex Hnode). }
  destruct (nth_error (nodeEnd graph) nodeIndex) as [e|] eqn:Hend.
  2:{ apply nth_error_None in Hend.
      destruct Htables as (Hends & _). lia. }
  assert (Hwithin : withinBand graph positions dynamicWidth nodeIndex).
  { left. exists previousMinimumIndex. split; [exact Hmin|exact Hnode]. }
  destruct (marks_markNode graph fresh fresh (fun _ => False) nodeIndex)
    as (Hlen1 & Hband1 & Hord1 & Hout1).
  { split; [exact Hlen|]. split; [intros n; tauto|]. split.
    - intros order Ho. exists order. split; [exact Ho|]. intros n. tauto.
    - intros order Ho. exists order. split; [exact Ho|]. intros n. tauto. }
  { exact Hrange. }
  destruct (expandBandFromPositions_returns graph popNearest positions
              dynamicWidth (markNode graph nodeIndex fresh) Hqueue Htables
              fuel Hvalid Hlen1)
    as (b' & Hrun & Hlen2 & Hband2 & Hord2 & Hout2).
  { intros isEnd n. rewrite recordedAt_markNode.
    destruct isEnd; reflexivity. }
  { rewrite (pendingWork_ext graph fresh (markNode graph nodeIndex fresh))
      by (intros side v; apply recordedAt_markNode).
    exact Hfuel. }
  exists (eb_band b'), (eb_bandOrder b'), (eb_bandOrderOutOfOrder b').
  split.
  { unfold projectForwardAndExpandBand. rewrite Hnode. cbn [bindOpt].
    rewrite Hend. cbn [bindOpt]. cbv zeta. cbn [setInsert].
    fold (projectedPositions ProjectForward previousMinimumIndex).
    fold positions. fold fresh. rewrite Hrun. reflexivity. }
  split; [exact Hlen2|]. split; [|split].
  - intros n. rewrite Hband2, Hband1. cbn [eb_band fresh]. split.
    + intros [[H|[->|[]]]|H]; auto.
    + intros [H|H]; auto.
  - intros order Ho. destruct (Hord1 order Ho) as (order1 & Ho1 & Hin1).
    destruct (Hord2 order1 Ho1) as (order2 & Ho2 & Hin2).
    exists order2. split; [exact Ho2|]. intros n. rewrite Hin2, Hin1.
    split.
    + intros [[H|[Hn [->|[]]]]|H]; auto.
    + intros [H|H]; auto.
  - intros order Ho. destruct (Hout1 order Ho) as (order1 & Ho1 & Hin1).
    destruct (Hout2 order1 Ho1) as (order2 & Ho2 & Hin2).
    exists order2. split; [exact Ho2|]. intros n. rewrite Hin2, Hin1.
    split.
    + intros [[H|[Hn [->|[]]]]|H]; auto.
    + intros [H|H]; auto.
Qed.

Lemma projectForwardAndExpandBand_within_width_witness :
  exists band' order' outOfOrder',
    projectForwardAndExpandBand fastPathGraph popNearestFirst projectNowhere
      30 [false; false] 1 1 (Some []) (Some [])
    = Some (band', order', outOfOrder') /\
    List.length band' = List.length (nodeStart fastPathGraph) /\
    (forall n,
       inBand band' n = true
       <-> inBand [false; false] n = true \/
           withinBand fastPathGraph (projectedPositions projectNowhere 1)
             1 n) /\
    (forall order,
       Some [] = Some order ->
       exists inOrder,
         order' = Some inOrder /\
         forall n,
           In n inOrder
           <-> In n order \/
               ((firstInOrder fastPathGraph <= n)%nat /\
                withinBand fastPathGraph
                  (projectedPositions projectNowhere 1) 1 n)) /\
    (forall order,
       Some [] = Some order ->
       exists outOrder,
         outOfOrder' = Some outOrder /\
         forall n,
           In n outOrder
           <-> In n order \/
               ((n < firstInOrder fastPathGraph)%nat /\
                withinBand fastPathGraph
                  (projectedPositions projectNowhere 1) 1 n)).
Proof.
  apply (projectForwardAndExpandBand_within_width fastPathGraph
           popNearestFirst projectNowhere 30 [false; false] 1 1
           (Some []) (Some [])).
  - apply popNearestFirst_priorityQueue.
  - apply fastPathGraph_bandTables.
  - intros p [<-|[]]. cbn. lia.
  - reflexivity.
  - vm_compute. lia.
Defined.
